(** * JinrikiHelper export plug-ins: UTAU oto.ini export and simple export

    A shallow embedding of [export_plugins/utau_oto_export.py] and of
    [export_plugins/simple_export.py], and the properties of the timing
    envelope, the syllable segmenter, the quality selector and the fragment
    synthesizer that their specification states.

    Conventions of the embedding.
    - Python floats are rationals ([Q]); equalities between times are stated
      with [==].  [round(x, 1)] is rounding to one decimal place, ties to
      even ([round1]).
    - Python [str] values are [string]s of UTF-8 bytes; the IPA symbols of
      the source are written as they are in the source.
    - A [dict] is an association list in insertion order, a [set] of strings
      a list used through membership only.
    - What the source takes from outside the two files (the audio files, the
      scorer, the naming rule of the base class) is a parameter.
    - A [while] loop over a cursor is a function of the cursor and of a fuel
      that the length of the tier always covers. *)

From Stdlib Require Import QArith Qround Qminmax Qabs Lqa Lia ZArith.
From Stdlib Require Import List String Ascii Bool Arith PeanoNat Sorted.
From Stdlib Require DecimalString DecimalNat.
Import ListNotations.

(* ================================================================== *)
(** * Numbers *)
(* ================================================================== *)

Module Num.

Open Scope Q_scope.

(** Python [min(a, b)]: the first argument unless the second is smaller. *)
Definition py_min (a b : Q) : Q := if Qlt_le_dec b a then b else a.

(** Python [max(a, b)]: the first argument unless the second is larger. *)
Definition py_max (a b : Q) : Q := if Qlt_le_dec a b then b else a.

(** Python [min(a, b, c)]. *)
Definition py_min3 (a b c : Z) : Z := Z.min (Z.min a b) c.

(** Nearest integer, ties to even. *)
Definition round_half_even (x : Q) : Z :=
  let f := Qfloor x in
  match Qcompare (x - inject_Z f) (1 # 2) with
  | Lt => f
  | Gt => (f + 1)%Z
  | Eq => if Z.even f then f else (f + 1)%Z
  end.

(** Python [round(x, 1)]. *)
Definition round1 (x : Q) : Q := inject_Z (round_half_even (x * 10)) / 10.

(** Python truthiness of a number: [not x] is [x == 0]. *)
Definition is_zero (x : Q) : bool := Qeq_bool x 0.

Lemma py_min_le_l a b : py_min a b <= a.
Proof. unfold py_min; destruct (Qlt_le_dec b a); lra. Qed.

Lemma py_min_le_r a b : py_min a b <= b.
Proof. unfold py_min; destruct (Qlt_le_dec b a); lra. Qed.

Lemma py_min_glb a b c : c <= a -> c <= b -> c <= py_min a b.
Proof. unfold py_min; destruct (Qlt_le_dec b a); lra. Qed.

Lemma py_min_cases a b :
  (b < a /\ py_min a b = b) \/ (a <= b /\ py_min a b = a).
Proof. unfold py_min; destruct (Qlt_le_dec b a); auto. Qed.

Lemma py_max_cases a b :
  (a < b /\ py_max a b = b) \/ (b <= a /\ py_max a b = a).
Proof. unfold py_max; destruct (Qlt_le_dec a b); auto. Qed.

Lemma py_max_ge_l a b : a <= py_max a b.
Proof. destruct (py_max_cases a b) as [[? ->]|[? ->]]; lra. Qed.

Lemma py_max_ge_r a b : b <= py_max a b.
Proof. destruct (py_max_cases a b) as [[? ->]|[? ->]]; lra. Qed.

#[global] Instance py_min_comp : Proper (Qeq ==> Qeq ==> Qeq) py_min.
Proof.
  intros a a' Ha b b' Hb.
  destruct (py_min_cases a b) as [[? ->]|[? ->]];
    destruct (py_min_cases a' b') as [[? ->]|[? ->]]; lra.
Qed.

(** ** Rounding *)

Ltac push_inject :=
  rewrite ?inject_Z_plus in *; change (inject_Z 1) with 1 in *.

Lemma round_half_even_comp x y : x == y -> round_half_even x = round_half_even y.
Proof.
  intros E. unfold round_half_even.
  rewrite (Qfloor_comp _ _ E).
  assert (C : (Qcompare (x - inject_Z (Qfloor y)) (1 # 2)) = (Qcompare (y - inject_Z (Qfloor y)) (1 # 2))).
  { apply Qcompare_comp; [rewrite E|]; reflexivity. }
  rewrite C. reflexivity.
Qed.

#[global] Instance round1_comp : Proper (Qeq ==> Qeq) round1.
Proof.
  intros x y E. unfold round1.
  rewrite (round_half_even_comp (x * 10) (y * 10)); [reflexivity|].
  rewrite E; reflexivity.
Qed.

Lemma round_half_even_bounds x :
  x - (1 # 2) <= inject_Z (round_half_even x) <= x + (1 # 2).
Proof.
  unfold round_half_even.
  pose proof (Qfloor_le x) as L. pose proof (Qlt_floor x) as U.
  destruct (Qcompare (x - inject_Z (Qfloor x)) (1 # 2)) eqn:C.
  - rewrite <- Qeq_alt in C.
    destruct (Z.even (Qfloor x)); push_inject; lra.
  - rewrite <- Qlt_alt in C. push_inject; lra.
  - rewrite <- Qgt_alt in C. push_inject; lra.
Qed.

Lemma round_half_even_Z z : round_half_even (inject_Z z) = z.
Proof.
  unfold round_half_even. rewrite Qfloor_Z.
  assert (C : (Qcompare (inject_Z z - inject_Z z) (1 # 2)) = Lt).
  { rewrite <- Qlt_alt. lra. }
  rewrite C. reflexivity.
Qed.

Lemma round_half_even_mono x y :
  x <= y -> (round_half_even x <= round_half_even y)%Z.
Proof.
  intros H.
  pose proof (Qfloor_resp_le _ _ H) as F.
  destruct (Z.eq_dec (Qfloor x) (Qfloor y)) as [E|NE].
  - unfold round_half_even. rewrite E.
    destruct (Qcompare (x - inject_Z (Qfloor y)) (1 # 2)) eqn:Cx;
      destruct (Qcompare (y - inject_Z (Qfloor y)) (1 # 2)) eqn:Cy;
      try (destruct (Z.even (Qfloor y))); try lia;
      repeat match goal with
             | C : Qcompare _ _ = Eq |- _ => rewrite <- Qeq_alt in C
             | C : Qcompare _ _ = Lt |- _ => rewrite <- Qlt_alt in C
             | C : Qcompare _ _ = Gt |- _ => rewrite <- Qgt_alt in C
             end; lra.
  - assert (S : (Qfloor x + 1 <= Qfloor y)%Z) by lia.
    assert (A : (round_half_even x <= Qfloor x + 1)%Z).
    { unfold round_half_even.
      destruct (Qcompare (x - inject_Z (Qfloor x)) (1 # 2));
        try destruct (Z.even (Qfloor x)); lia. }
    assert (B : (Qfloor y <= round_half_even y)%Z).
    { unfold round_half_even.
      destruct (Qcompare (y - inject_Z (Qfloor y)) (1 # 2));
        try destruct (Z.even (Qfloor y)); lia. }
    lia.
Qed.

Lemma Qfloor_unique (y : Q) (z : Z) :
  inject_Z z <= y -> y < inject_Z (z + 1) -> Qfloor y = z.
Proof.
  intros L U.
  pose proof (Qfloor_le y) as L'. pose proof (Qlt_floor y) as U'.
  assert (A : (z < Qfloor y + 1)%Z) by (rewrite Zlt_Qlt; push_inject; lra).
  assert (B : (Qfloor y < z + 1)%Z) by (rewrite Zlt_Qlt; push_inject; lra).
  lia.
Qed.

Lemma round_half_even_opp x : round_half_even (- x) = (- round_half_even x)%Z.
Proof.
  pose proof (Qfloor_le x) as L. pose proof (Qlt_floor x) as U.
  push_inject.
  destruct (Qeq_dec x (inject_Z (Qfloor x))) as [E|NE].
  - rewrite (round_half_even_comp x (inject_Z (Qfloor x)) E).
    rewrite (round_half_even_comp (- x) (inject_Z (- Qfloor x))).
    + rewrite !round_half_even_Z. reflexivity.
    + rewrite inject_Z_opp. rewrite E at 1. reflexivity.
  - assert (S : inject_Z (Qfloor x) < x).
    { destruct (Qlt_le_dec (inject_Z (Qfloor x)) x) as [|G]; [assumption|].
      exfalso. apply NE. lra. }
    assert (Inj : inject_Z (- Qfloor x - 1) == - inject_Z (Qfloor x) - 1).
    { unfold Z.sub. rewrite inject_Z_plus, !inject_Z_opp. reflexivity. }
    assert (F : Qfloor (- x) = (- Qfloor x - 1)%Z).
    { apply Qfloor_unique.
      - rewrite Inj. lra.
      - rewrite inject_Z_plus, Inj. change (inject_Z 1) with 1. lra. }
    assert (Ev : Z.even (- Qfloor x - 1) = negb (Z.even (Qfloor x))).
    { replace (- Qfloor x - 1)%Z with (- (Z.succ (Qfloor x)))%Z by lia.
      rewrite Z.even_opp, Z.even_succ, <- Z.negb_even. reflexivity. }
    unfold round_half_even. rewrite F.
    destruct (Qcompare (x - inject_Z (Qfloor x)) (1 # 2)) eqn:Cx;
      destruct (Qcompare (- x - inject_Z (- Qfloor x - 1)) (1 # 2)) eqn:Cy;
      repeat match goal with
             | C : Qcompare _ _ = Eq |- _ => rewrite <- Qeq_alt in C
             | C : Qcompare _ _ = Lt |- _ => rewrite <- Qlt_alt in C
             | C : Qcompare _ _ = Gt |- _ => rewrite <- Qgt_alt in C
             end;
      try (exfalso; lra);
      rewrite ?Ev; try destruct (Z.even (Qfloor x)); simpl; lia.
Qed.

Lemma round1_bounds x : x - (1 # 20) <= round1 x <= x + (1 # 20).
Proof.
  unfold round1. pose proof (round_half_even_bounds (x * 10)) as B.
  split; [apply Qle_shift_div_l|apply Qle_shift_div_r]; lra.
Qed.

Lemma round1_mono x y : x <= y -> round1 x <= round1 y.
Proof.
  intros H. unfold round1.
  assert (M : (round_half_even (x * 10) <= round_half_even (y * 10))%Z)
    by (apply round_half_even_mono; lra).
  rewrite Zle_Qle in M.
  apply Qle_shift_div_l; [lra|].
  unfold Qdiv. rewrite <- Qmult_assoc, (Qmult_comm (/ 10)), Qmult_inv_r, Qmult_1_r;
    [assumption|discriminate].
Qed.

Lemma round1_opp x : round1 (- x) == - round1 x.
Proof.
  unfold round1.
  rewrite (round_half_even_comp (- x * 10) (- (x * 10))) by ring.
  rewrite round_half_even_opp, inject_Z_opp. field.
Qed.

Lemma round1_0 : round1 0 == 0.
Proof. reflexivity. Qed.

Lemma round1_nonneg x : 0 <= x -> 0 <= round1 x.
Proof. intros H. rewrite <- round1_0. apply round1_mono; assumption. Qed.

(** A value with at most one decimal place is left as it is. *)
Lemma round1_tenths (z : Z) : round1 (inject_Z z / 10) == inject_Z z / 10.
Proof.
  unfold round1.
  rewrite (round_half_even_comp (inject_Z z / 10 * 10) (inject_Z z)) by field.
  rewrite round_half_even_Z. reflexivity.
Qed.

End Num.

(* ================================================================== *)
(** * Strings, sets and dictionaries *)
(* ================================================================== *)

Module Str.

Open Scope string_scope.

(** [x in l] for a set, a tuple or a list of strings. *)
Definition mem (x : string) (l : list string) : bool :=
  existsb (String.eqb x) l.

Lemma mem_In x l : mem x l = true <-> In x l.
Proof.
  unfold mem. rewrite existsb_exists. split.
  - intros [y [Hy E]]. apply String.eqb_eq in E. subst. assumption.
  - intros H. exists x. split; [assumption|apply String.eqb_refl].
Qed.

(** [d.get(k)] on a dictionary kept in insertion order. *)
Fixpoint dict_get {V : Type} (k : string) (d : list (string * V)) : option V :=
  match d with
  | [] => None
  | (k', v) :: rest => if String.eqb k k' then Some v else dict_get k rest
  end.

(** [d[k] = v]: the value is replaced in place, a new key goes last. *)
Fixpoint dict_set {V : Type} (k : string) (v : V) (d : list (string * V))
  : list (string * V) :=
  match d with
  | [] => [(k, v)]
  | (k', v') :: rest =>
      if String.eqb k k' then (k, v) :: rest else (k', v') :: dict_set k v rest
  end.

Definition keys {V : Type} (d : list (string * V)) : list string := map fst d.

(** [s[n:]] *)
Fixpoint drop (n : nat) (s : string) : string :=
  match n, s with
  | O, _ => s
  | S n', String _ r => drop n' r
  | S _, EmptyString => EmptyString
  end.

(** [s.startswith(p)] *)
Definition startswith (s p : string) : bool := String.prefix p s.

(** [p in s] for strings. *)
Fixpoint contains (p s : string) : bool :=
  String.prefix p s ||
  match s with
  | EmptyString => false
  | String _ r => contains p r
  end.

Fixpoint replace_fuel (fuel : nat) (old s : string) : string :=
  match fuel with
  | O => s
  | S f =>
      match s with
      | EmptyString => EmptyString
      | String c r =>
          if String.prefix old s
          then replace_fuel f old (drop (String.length old) s)
          else String c (replace_fuel f old r)
      end
  end.

(** [s.replace(old, '')] for a non-empty [old]. *)
Definition remove_all (old s : string) : string :=
  replace_fuel (String.length s) old s.

Fixpoint rev_string_onto (s acc : string) : string :=
  match s with
  | EmptyString => acc
  | String c r => rev_string_onto r (String c acc)
  end.

Definition rev_string (s : string) : string := rev_string_onto s EmptyString.

Fixpoint lstrip_fuel (fuel : nat) (tokens : list string) (s : string) : string :=
  match fuel with
  | O => s
  | S f =>
      match find (fun w => String.prefix w s) tokens with
      | Some w => lstrip_fuel f tokens (drop (String.length w) s)
      | None => s
      end
  end.

(** Leading characters of [s] that belong to [tokens] (the encodings of the
    characters to strip) are removed. *)
Definition lstrip_tokens (tokens : list string) (s : string) : string :=
  lstrip_fuel (String.length s) tokens s.

Definition rstrip_tokens (tokens : list string) (s : string) : string :=
  rev_string (lstrip_tokens (map rev_string tokens) (rev_string s)).

Fixpoint bytes (l : list nat) : string :=
  match l with
  | [] => EmptyString
  | b :: r => String (ascii_of_nat b) (bytes r)
  end.

(** The characters of [str.isspace], UTF-8 encoded. *)
Definition whitespace : list string :=
  map bytes
    [[9]; [10]; [11]; [12]; [13]; [28]; [29]; [30]; [31]; [32];
     [194; 133]; [194; 160]; [225; 154; 128];
     [226; 128; 128]; [226; 128; 129]; [226; 128; 130]; [226; 128; 131];
     [226; 128; 132]; [226; 128; 133]; [226; 128; 134]; [226; 128; 135];
     [226; 128; 136]; [226; 128; 137]; [226; 128; 138];
     [226; 128; 168]; [226; 128; 169]; [226; 128; 175]; [226; 129; 159];
     [227; 128; 128]]%nat.

(** [s.strip()] *)
Definition strip (s : string) : string :=
  rstrip_tokens whitespace (lstrip_tokens whitespace s).

Definition is_ascii_char (c : ascii) : bool := (nat_of_ascii c <? 128)%nat.

Definition is_alnum_char (c : ascii) : bool :=
  let n := nat_of_ascii c in
  ((48 <=? n) && (n <=? 57) || (65 <=? n) && (n <=? 90)
   || (97 <=? n) && (n <=? 122))%nat.

Definition lower_char (c : ascii) : ascii :=
  let n := nat_of_ascii c in
  if ((65 <=? n) && (n <=? 90))%nat then ascii_of_nat (n + 32) else c.

Fixpoint map_string (f : ascii -> ascii) (s : string) : string :=
  match s with
  | EmptyString => EmptyString
  | String c r => String (f c) (map_string f r)
  end.

Fixpoint filter_string (f : ascii -> bool) (s : string) : string :=
  match s with
  | EmptyString => EmptyString
  | String c r => if f c then String c (filter_string f r) else filter_string f r
  end.

Fixpoint forall_string (f : ascii -> bool) (s : string) : bool :=
  match s with
  | EmptyString => true
  | String c r => f c && forall_string f r
  end.

(** [s.lower()] on ASCII text. *)
Definition lower (s : string) : string := map_string lower_char s.

(** [s.isascii()] *)
Definition isascii (s : string) : bool := forall_string is_ascii_char s.

(** Truthiness of a string: [if s]. *)
Definition nonempty (s : string) : bool :=
  match s with EmptyString => false | _ => true end.

End Str.

(* ================================================================== *)
(** * Phone classifier *)
(* ================================================================== *)

Module Phone.

Import Str.
Open Scope string_scope.

(** Chinese consonants (IPA symbols of the aligner). *)
Definition CHINESE_CONSONANTS : list string :=
  ["p"; "pʰ"; "pʲ"; "pʷ"; "b"; "m"; "f"; "t"; "tʰ"; "tʲ"; "d"; "n"; "l";
    "k"; "kʰ"; "kʷ"; "ɡ"; "g"; "ŋ"; "x"; "h"; "tɕ"; "tɕʰ"; "dʑ"; "ɕ"; "ʑ";
    "ts"; "tsʰ"; "dz"; "s"; "z"; "ʈʂ"; "ʈʂʰ"; "ɖʐ"; "ʂ"; "ʐ"; "ɲ"; "j";
    "w"; "ɥ"; "ʔ"].

(** Chinese vowels. *)
Definition CHINESE_VOWELS : list string :=
  ["a"; "o"; "e"; "i"; "u"; "y"; "ü"; "ə"; "ɛ"; "ɔ"; "ɤ"; "ɨ"; "ʅ"; "ʉ";
    "aw"; "ej"; "ow"; "z̩"; "ʐ̩"; "ɻ"; "ɚ"].

(** Chinese medials. *)
Definition CHINESE_MEDIALS : list string :=
  ["j"; "w"; "ɥ"].

(** Chinese codas. *)
Definition CHINESE_CODAS : list string :=
  ["n"; "ŋ"; "i"; "u"].

(** Japanese consonants. *)
Definition JAPANESE_CONSONANTS : list string :=
  ["p"; "b"; "m"; "ɸ"; "t"; "d"; "n"; "s"; "z"; "ɾ"; "r"; "k"; "ɡ"; "g";
    "ŋ"; "h"; "tɕ"; "dʑ"; "ɕ"; "ʑ"; "ts"; "dz"; "ɲ"; "j"; "w"; "nː"; "sː";
    "tː"; "kː"; "pː"].

(** Japanese vowels. *)
Definition JAPANESE_VOWELS : list string :=
  ["a"; "i"; "ɯ"; "u"; "e"; "o"; "aː"; "iː"; "ɯː"; "uː"; "eː"; "oː"].

(** Marks that are skipped. *)
Definition SKIP_MARKS : list string :=
  [""; "SP"; "AP"; "<unk>"; "spn"; "sil"].

(** Groups of near consonants, in priority order. *)
Definition FUZZY_CONSONANT_GROUPS : list (list string) :=
  [["sh"; "s"]; ["zh"; "z"]; ["ch"; "c"]; ["l"; "n"; "r"]; ["f"; "h"]].

(** Groups of near finals, in priority order. *)
Definition FUZZY_VOWEL_GROUPS : list (list string) :=
  [["an"; "ang"]; ["en"; "eng"; "ong"]; ["in"; "ing"]; ["ian"; "iang"];
    ["uan"; "uang"]; ["ia"; "ian"]; ["ie"; "ian"]; ["iao"; "ian"];
    ["iu"; "in"]; ["ua"; "uan"]; ["uo"; "un"]; ["ui"; "un"];
    ["uai"; "uan"]; ["a"; "ai"; "ao"; "an"]; ["o"; "ou"; "ong"];
    ["e"; "ei"; "en"]].

Definition is_chinese (language : string) : bool :=
  mem language ["chinese"; "zh"; "mandarin"].

Definition is_japanese (language : string) : bool :=
  mem language ["japanese"; "ja"; "jp"].

Definition tone_marks : list string :=
  ["˥"; "˦"; "˧"; "˨"; "˩"; "ˇ"; "ˊ"; "ˋ"; "¯"].

(** [_strip_tone]: every tone mark is removed, one mark after the other. *)
Definition _strip_tone (phone : string) : string :=
  fold_left (fun result mark => remove_all mark result) tone_marks phone.

Definition is_consonant (phone language : string) : bool :=
  let base_phone := _strip_tone phone in
  if is_chinese language then mem base_phone CHINESE_CONSONANTS
  else if is_japanese language then mem base_phone JAPANESE_CONSONANTS
  else false.

Definition vowel_starts : list string :=
  ["a"; "o"; "e"; "i"; "u"; "y"; "ə"; "ɛ"; "ɔ"; "ɤ"; "ɨ"; "ʅ"; "ʉ"; "ɚ"].

Definition is_vowel (phone language : string) : bool :=
  let base_phone := _strip_tone phone in
  if is_chinese language then
    if mem base_phone CHINESE_VOWELS then true
    else if existsb (fun v => startswith base_phone v) vowel_starts then true
    else if contains "z̩" base_phone || contains "ʐ̩" base_phone then true
    else if contains "ɻ" base_phone then true
    else false
  else if is_japanese language then
    mem base_phone JAPANESE_VOWELS
    || mem (rstrip_tokens ["ː"] base_phone) ["a"; "i"; "ɯ"; "u"; "e"; "o"]
  else false.

Definition is_medial (phone : string) : bool :=
  mem (_strip_tone phone) CHINESE_MEDIALS.

Definition is_coda (phone : string) : bool :=
  mem (_strip_tone phone) CHINESE_CODAS.

Definition is_skip (phone : string) : bool := mem phone SKIP_MARKS.

(** Every medial is also listed as a consonant. *)
Lemma medials_are_consonants :
  forallb (fun m => mem m CHINESE_CONSONANTS) CHINESE_MEDIALS = true.
Proof. reflexivity. Qed.

End Phone.

(* ================================================================== *)
(** * Alias resolver *)
(* ================================================================== *)

Module Alias.

Import Str Phone.
Open Scope string_scope.

(** IPA consonant to pinyin initial. *)
Definition CHINESE_CONSONANT_TO_PINYIN : list (string * string) :=
  [("p", "b"); ("pʰ", "p"); ("pʲ", "p"); ("pʷ", "b"); ("m", "m");
    ("f", "f"); ("t", "d"); ("tʰ", "t"); ("tʲ", "d"); ("n", "n");
    ("l", "l"); ("k", "g"); ("kʰ", "k"); ("kʷ", "g"); ("ɡ", "g");
    ("g", "g"); ("x", "h"); ("h", "h"); ("tɕ", "j"); ("tɕʰ", "q");
    ("ɕ", "x"); ("ts", "z"); ("tsʰ", "c"); ("s", "s"); ("ʈʂ", "zh");
    ("ʈʂʰ", "ch"); ("ʂ", "sh"); ("ʐ", "r"); ("ɲ", "n"); ("ŋ", "");
    ("j", ""); ("w", ""); ("ɥ", ""); ("ʔ", "")].

(** IPA vowel to pinyin final. *)
Definition CHINESE_VOWEL_TO_PINYIN : list (string * string) :=
  [("a", "a"); ("o", "o"); ("e", "e"); ("i", "i"); ("u", "u"); ("y", "v");
    ("ü", "v"); ("ə", "e"); ("ɛ", "e"); ("ɔ", "o"); ("ɤ", "e"); ("ɨ", "i");
    ("aj", "ai"); ("aw", "ao"); ("ej", "ei"); ("ow", "ou"); ("ai", "ai");
    ("ao", "ao"); ("ei", "ei"); ("ou", "ou"); ("ja", "ia"); ("je", "ie");
    ("jɛ", "ie"); ("jao", "iao"); ("jow", "iu"); ("ju", "iu");
    ("ia", "ia"); ("ie", "ie"); ("iao", "iao"); ("iu", "iu"); ("wa", "ua");
    ("wo", "uo"); ("wɔ", "uo"); ("wej", "ui"); ("waj", "uai");
    ("ua", "ua"); ("uo", "uo"); ("ui", "ui"); ("uai", "uai"); ("ɥe", "ve");
    ("ɥɛ", "ve"); ("ve", "ve"); ("yue", "ve"); ("an", "an"); ("en", "en");
    ("ang", "ang"); ("eng", "eng"); ("ong", "ong"); ("in", "in");
    ("ing", "ing"); ("ian", "ian"); ("iang", "iang"); ("iong", "iong");
    ("uan", "uan"); ("un", "un"); ("uang", "uang"); ("ueng", "ueng");
    ("van", "van"); ("vn", "vn"); ("z̩", "i"); ("ʐ̩", "i"); ("ʅ", "i");
    ("ɻ", "er"); ("ɚ", "er")].

(** Irregular (consonant, vowel) syllables. *)
Definition IPA_SYLLABLE_TO_PINYIN : list ((string * string) * string) :=
  [(("tɕ", "y"), "ju"); (("tɕʰ", "y"), "qu"); (("ɕ", "y"), "xu");
    (("tɕ", "ɥ"), "ju"); (("tɕʰ", "ɥ"), "qu"); (("ɕ", "ɥ"), "xu");
    (("tɕ", "yɛ"), "jue"); (("tɕʰ", "yɛ"), "que"); (("ɕ", "yɛ"), "xue");
    (("tɕ", "yan"), "juan"); (("tɕʰ", "yan"), "quan");
    (("ɕ", "yan"), "xuan"); (("tɕ", "yn"), "jun"); (("tɕʰ", "yn"), "qun");
    (("ɕ", "yn"), "xun"); (("", "i"), "yi"); (("", "in"), "yin");
    (("", "ing"), "ying"); (("", "u"), "wu"); (("", "un"), "wen");
    (("", "ong"), "weng"); (("", "y"), "yu"); (("", "yn"), "yun");
    (("", "ia"), "ya"); (("", "iɛ"), "ye"); (("", "ie"), "ye");
    (("", "iao"), "yao"); (("", "ian"), "yan"); (("", "iang"), "yang");
    (("", "iou"), "you"); (("", "iu"), "you"); (("", "iong"), "yong");
    (("", "ua"), "wa"); (("", "uɔ"), "wo"); (("", "uo"), "wo");
    (("", "uai"), "wai"); (("", "uei"), "wei"); (("", "ui"), "wei");
    (("", "uan"), "wan"); (("", "uen"), "wen"); (("", "uang"), "wang");
    (("", "ueng"), "weng"); (("", "yɛ"), "yue"); (("", "üe"), "yue");
    (("", "yan"), "yuan"); (("", "üan"), "yuan"); (("", "ün"), "yun");
    (("ʈʂ", "ʐ̩"), "zhi"); (("ʈʂʰ", "ʐ̩"), "chi"); (("ʂ", "ʐ̩"), "shi");
    (("ʐ", "ʐ̩"), "ri"); (("ʈʂ", "z̩"), "zhi"); (("ʈʂʰ", "z̩"), "chi");
    (("ʂ", "z̩"), "shi"); (("ʐ", "z̩"), "ri"); (("ʈʂ", "ʅ"), "zhi");
    (("ʈʂʰ", "ʅ"), "chi"); (("ʂ", "ʅ"), "shi"); (("ʐ", "ʅ"), "ri");
    (("ts", "z̩"), "zi"); (("tsʰ", "z̩"), "ci"); (("s", "z̩"), "si");
    (("ts", "ʅ"), "zi"); (("tsʰ", "ʅ"), "ci"); (("s", "ʅ"), "si");
    (("n", "y"), "nv"); (("l", "y"), "lv"); (("n", "yɛ"), "nve");
    (("l", "yɛ"), "lve"); (("ʔ", "a"), "a"); (("ʔ", "o"), "o");
    (("ʔ", "e"), "e"); (("ʔ", "ai"), "ai"); (("ʔ", "ei"), "ei");
    (("ʔ", "ao"), "ao"); (("ʔ", "ou"), "ou"); (("ʔ", "an"), "an");
    (("ʔ", "en"), "en"); (("ʔ", "ang"), "ang"); (("ʔ", "eng"), "eng");
    (("ʔ", "ej"), "ei"); (("ʔ", "aw"), "ao"); (("ʔ", "ow"), "ou");
    (("", "ɻ"), "er"); (("", "ɚ"), "er")].

(** Japanese IPA to romaji. *)
Definition JAPANESE_IPA_TO_ROMAJI : list (string * string) :=
  [("p", "p"); ("b", "b"); ("m", "m"); ("ɸ", "f"); ("t", "t"); ("d", "d");
    ("n", "n"); ("s", "s"); ("z", "z"); ("ɾ", "r"); ("r", "r"); ("k", "k");
    ("ɡ", "g"); ("g", "g"); ("h", "h"); ("tɕ", "ch"); ("dʑ", "j");
    ("ɕ", "sh"); ("ʑ", "j"); ("ts", "ts"); ("dz", "z"); ("ɲ", "ny");
    ("ŋ", "ng"); ("j", "y"); ("w", "w"); ("nː", "n"); ("sː", "s");
    ("tː", "t"); ("kː", "k"); ("pː", "p"); ("a", "a"); ("i", "i");
    ("ɯ", "u"); ("u", "u"); ("e", "e"); ("o", "o"); ("aː", "a");
    ("iː", "i"); ("ɯː", "u"); ("uː", "u"); ("eː", "e"); ("oː", "o")].

(** Romaji to hiragana. *)
Definition ROMAJI_TO_HIRAGANA : list (string * string) :=
  [("a", "あ"); ("i", "い"); ("u", "う"); ("e", "え"); ("o", "お"); ("ka", "か");
    ("ki", "き"); ("ku", "く"); ("ke", "け"); ("ko", "こ"); ("sa", "さ");
    ("shi", "し"); ("si", "し"); ("su", "す"); ("se", "せ"); ("so", "そ");
    ("ta", "た"); ("chi", "ち"); ("ti", "ち"); ("tsu", "つ"); ("tu", "つ");
    ("te", "て"); ("to", "と"); ("na", "な"); ("ni", "に"); ("nu", "ぬ");
    ("ne", "ね"); ("no", "の"); ("ha", "は"); ("hi", "ひ"); ("fu", "ふ");
    ("hu", "ふ"); ("he", "へ"); ("ho", "ほ"); ("ma", "ま"); ("mi", "み");
    ("mu", "む"); ("me", "め"); ("mo", "も"); ("ya", "や"); ("yu", "ゆ");
    ("yo", "よ"); ("ra", "ら"); ("ri", "り"); ("ru", "る"); ("re", "れ");
    ("ro", "ろ"); ("wa", "わ"); ("wo", "を"); ("n", "ん"); ("ga", "が");
    ("gi", "ぎ"); ("gu", "ぐ"); ("ge", "げ"); ("go", "ご"); ("za", "ざ");
    ("ji", "じ"); ("zi", "じ"); ("zu", "ず"); ("ze", "ぜ"); ("zo", "ぞ");
    ("da", "だ"); ("di", "ぢ"); ("du", "づ"); ("de", "で"); ("do", "ど");
    ("ba", "ば"); ("bi", "び"); ("bu", "ぶ"); ("be", "べ"); ("bo", "ぼ");
    ("pa", "ぱ"); ("pi", "ぴ"); ("pu", "ぷ"); ("pe", "ぺ"); ("po", "ぽ");
    ("kya", "きゃ"); ("kyu", "きゅ"); ("kyo", "きょ"); ("sha", "しゃ");
    ("shu", "しゅ"); ("sho", "しょ"); ("cha", "ちゃ"); ("chu", "ちゅ");
    ("cho", "ちょ"); ("nya", "にゃ"); ("nyu", "にゅ"); ("nyo", "にょ");
    ("hya", "ひゃ"); ("hyu", "ひゅ"); ("hyo", "ひょ"); ("mya", "みゃ");
    ("myu", "みゅ"); ("myo", "みょ"); ("rya", "りゃ"); ("ryu", "りゅ");
    ("ryo", "りょ"); ("gya", "ぎゃ"); ("gyu", "ぎゅ"); ("gyo", "ぎょ");
    ("ja", "じゃ"); ("ju", "じゅ"); ("jo", "じょ"); ("bya", "びゃ"); ("byu", "びゅ");
    ("byo", "びょ"); ("pya", "ぴゃ"); ("pyu", "ぴゅ"); ("pyo", "ぴょ")].

Definition get_or {V : Type} (k : string) (d : list (string * V)) (default : V) : V :=
  match dict_get k d with Some v => v | None => default end.

Fixpoint pair_get (k : string * string) (d : list ((string * string) * string))
  : option string :=
  match d with
  | [] => None
  | ((a, b), v) :: rest =>
      if String.eqb (fst k) a && String.eqb (snd k) b then Some v
      else pair_get k rest
  end.

Local Notation "a =s b" := (String.eqb a b) (at level 70).

(** [_ipa_to_pinyin] *)
Definition _ipa_to_pinyin (consonant vowel : string) : option string :=
  match pair_get (consonant, vowel) IPA_SYLLABLE_TO_PINYIN with
  | Some py => Some py
  | None =>
    let c_res :=
      if nonempty consonant && negb (consonant =s "ʔ") then
        match dict_get consonant CHINESE_CONSONANT_TO_PINYIN with
        | Some c => Some c
        | None => None
        end
      else Some "" in
    match c_res with
    | None => None
    | Some c_pinyin =>
      let v_res :=
        if nonempty vowel then dict_get vowel CHINESE_VOWEL_TO_PINYIN
        else Some "" in
      match v_res with
      | None => None
      | Some v_pinyin =>
        if negb (nonempty v_pinyin) then None
        else if negb (nonempty c_pinyin) then
          if v_pinyin =s "i" then Some "yi"
          else if mem v_pinyin ["in"; "ing"] then Some ("y" ++ v_pinyin)
          else if startswith v_pinyin "i" && (1 <? String.length v_pinyin)%nat
               then Some ("y" ++ drop 1 v_pinyin)
          else if v_pinyin =s "u" then Some "wu"
          else if v_pinyin =s "un" then Some "wen"
          else if v_pinyin =s "ong" then Some "weng"
          else if startswith v_pinyin "u" && (1 <? String.length v_pinyin)%nat
               then Some ("w" ++ drop 1 v_pinyin)
          else if v_pinyin =s "v" then Some "yu"
          else if startswith v_pinyin "v" && (1 <? String.length v_pinyin)%nat
               then Some ("yu" ++ drop 1 v_pinyin)
          else Some v_pinyin
        else if mem c_pinyin ["j"; "q"; "x"] then
          if v_pinyin =s "v" then Some (c_pinyin ++ "u")
          else if startswith v_pinyin "v"
               then Some (c_pinyin ++ "u" ++ drop 1 v_pinyin)
          else Some (c_pinyin ++ v_pinyin)
        else if mem c_pinyin ["n"; "l"] then Some (c_pinyin ++ v_pinyin)
        else if v_pinyin =s "v" then Some (c_pinyin ++ "u")
        else if startswith v_pinyin "v"
             then Some (c_pinyin ++ "u" ++ drop 1 v_pinyin)
        else Some (c_pinyin ++ v_pinyin)
      end
    end
  end.

(** Truthiness of an optional string: [if s]. *)
Definition truthy (s : option string) : bool :=
  match s with Some t => nonempty t | None => false end.

(** [ipa_to_alias] *)
Definition ipa_to_alias (consonant vowel : option string) (language : string)
    (use_hiragana : bool) : option string :=
  let c_base := match consonant with
                | Some c => if nonempty c then _strip_tone c else ""
                | None => "" end in
  let v_base := match vowel with
                | Some v => if nonempty v then _strip_tone v else ""
                | None => "" end in
  if is_chinese language then _ipa_to_pinyin c_base v_base
  else
    let c_alias := get_or c_base JAPANESE_IPA_TO_ROMAJI c_base in
    let v_alias := get_or v_base JAPANESE_IPA_TO_ROMAJI v_base in
    let romaji := c_alias ++ v_alias in
    let romaji :=
      filter_string
        (fun c => is_ascii_char c && (is_alnum_char c || Ascii.eqb c "_"%char))
        romaji in
    let romaji := lower romaji in
    if negb (nonempty romaji) then None
    else if use_hiragana then Some (get_or romaji ROMAJI_TO_HIRAGANA romaji)
    else Some romaji.

(** The final of a syllable with medial [j]. *)
Definition final_j (v_py cd : string) : string :=
  if cd =s "n" then
    if v_py =s "a" then "ian" else if v_py =s "e" then "in"
    else "i" ++ v_py ++ "n"
  else if cd =s "ŋ" then
    if v_py =s "a" then "iang" else if v_py =s "o" then "iong"
    else "i" ++ v_py ++ "ng"
  else if nonempty cd then "i" ++ v_py ++ cd
  else
    if v_py =s "a" then "ia" else if v_py =s "e" then "ie"
    else if v_py =s "ao" then "iao" else if v_py =s "ou" then "iu"
    else "i" ++ v_py.

(** The final of a syllable with medial [w]. *)
Definition final_w (v_py cd : string) : string :=
  if cd =s "n" then
    if v_py =s "a" then "uan" else if v_py =s "e" then "un"
    else "u" ++ v_py ++ "n"
  else if cd =s "ŋ" then
    if v_py =s "a" then "uang" else if v_py =s "e" then "ueng"
    else "u" ++ v_py ++ "ng"
  else if nonempty cd then "u" ++ v_py ++ cd
  else
    if v_py =s "a" then "ua" else if v_py =s "o" then "uo"
    else if v_py =s "ei" then "ui" else if v_py =s "ai" then "uai"
    else "u" ++ v_py.

(** The final of a syllable with medial [ɥ]. *)
Definition final_y (v_py cd : string) : string :=
  if cd =s "n" then
    if v_py =s "a" then "van" else if v_py =s "e" then "vn"
    else "v" ++ v_py ++ "n"
  else if nonempty cd then "v" ++ v_py ++ cd
  else if v_py =s "e" then "ve" else "v" ++ v_py.

(** The final of a syllable without medial. *)
Definition final_plain (v_py cd : string) : string :=
  if cd =s "n" then v_py ++ "n"
  else if cd =s "ŋ" then v_py ++ "ng"
  else if nonempty cd then v_py ++ cd
  else v_py.

(** Onset and final put together. *)
Definition combine_pinyin (c_py final : string) : string :=
  if negb (nonempty c_py) then
    if startswith final "i" then
      if final =s "i" then "yi"
      else if mem final ["in"; "ing"] then "y" ++ final
      else "y" ++ drop 1 final
    else if startswith final "u" then
      if final =s "u" then "wu"
      else if final =s "un" then "wen"
      else if mem final ["ueng"; "ong"] then "weng"
      else "w" ++ drop 1 final
    else if startswith final "v" then
      if final =s "v" then "yu" else "yu" ++ drop 1 final
    else final
  else if mem c_py ["j"; "q"; "x"] then
    if startswith final "v" then c_py ++ "u" ++ drop 1 final
    else c_py ++ final
  else if mem c_py ["n"; "l"] then c_py ++ final
  else
    if startswith final "v" then c_py ++ "u" ++ drop 1 final
    else c_py ++ final.

(** [_syllable_to_pinyin]: the phones are read as (consonant) (medial)
    vowel (coda), mapped and put together. *)
Definition _syllable_to_pinyin (phones : list string) (language : string)
    (use_hiragana : bool) : option string :=
  match phones with
  | [] => None
  | _ =>
    let phones_base := map _strip_tone phones in
    let idx := 0%nat in
    let '(c, idx) :=
      match nth_error phones_base idx with
      | Some p => if is_consonant p language then (p, S idx) else ("", idx)
      | None => ("", idx)
      end in
    let '(m, idx) :=
      match nth_error phones_base idx with
      | Some p => if mem p CHINESE_MEDIALS then (p, S idx) else ("", idx)
      | None => ("", idx)
      end in
    match nth_error phones_base idx with
    | None => None
    | Some v =>
      if negb (is_vowel v language) then None
      else
        let idx := S idx in
        let cd :=
          match nth_error phones_base idx with
          | Some p => if mem p CHINESE_CODAS then p else ""
          | None => ""
          end in
        let c_py := get_or c CHINESE_CONSONANT_TO_PINYIN "" in
        let v_py := get_or v CHINESE_VOWEL_TO_PINYIN v in
        let final :=
          if m =s "j" then final_j v_py cd
          else if m =s "w" then final_w v_py cd
          else if m =s "ɥ" then final_y v_py cd
          else final_plain v_py cd in
        Some (combine_pinyin c_py final)
    end
  end.

Example syllable_ka : _syllable_to_pinyin ["k"; "a"] "zh" false = Some "ga".
Proof. reflexivity. Qed.

Example syllable_i : _syllable_to_pinyin ["i˥"] "zh" false = Some "yi".
Proof. reflexivity. Qed.

Example syllable_xian :
  _syllable_to_pinyin ["ɕ"; "j"; "a˥"; "n"] "zh" false = Some "xian".
Proof. reflexivity. Qed.

Example alias_ka : ipa_to_alias (Some "k") (Some "a") "ja" true = Some "か".
Proof. reflexivity. Qed.

Example alias_k : ipa_to_alias (Some "k") None "ja" false = Some "k".
Proof. reflexivity. Qed.

End Alias.

(* ================================================================== *)
(** * Envelope calculator *)
(* ================================================================== *)

Module Envelope.

Import Num.
Open Scope Q_scope.

(** An oto entry.  The keys [is_vc], [is_combined] and [quality_score] are
    absent from a dictionary that does not set them: [false] and [None]. *)
Record Entry : Type := mkEntry {
  wav_name : string;
  alias : string;
  offset : Q;
  consonant : Q;
  cutoff : Q;
  preutterance : Q;
  overlap : Q;
  segment_duration : Q;
  is_vc : bool;
  is_combined : bool;
  quality_score : option Q
}.

(** [_calculate_oto_params] *)
Definition _calculate_oto_params (wav_name alias : string)
    (offset consonant_duration segment_end wav_duration_ms overlap_ratio : Q)
  : Entry :=
  let segment_duration := segment_end - offset in
  let preutterance := consonant_duration in
  let overlap := preutterance * overlap_ratio in
  let cutoff := - segment_duration in
  {| wav_name := wav_name;
     alias := alias;
     offset := round1 offset;
     consonant := round1 consonant_duration;
     cutoff := round1 cutoff;
     preutterance := round1 preutterance;
     overlap := round1 overlap;
     segment_duration := segment_duration;
     is_vc := false;
     is_combined := false;
     quality_score := None |}.

(** [_calculate_vc_params] *)
Definition _calculate_vc_params (wav_name alias : string)
    (vowel_start_ms vowel_end_ms consonant_end_ms wav_duration_ms
     vc_offset_ratio vc_overlap_ratio : Q) : Entry :=
  let vowel_duration := vowel_end_ms - vowel_start_ms in
  let offset := vowel_end_ms - vowel_duration * vc_offset_ratio in
  let segment_duration := consonant_end_ms - offset in
  let preutterance := vowel_end_ms - offset in
  let consonant := py_min 30 (segment_duration * (3 # 10)) in
  let overlap := preutterance * vc_overlap_ratio in
  let cutoff := - segment_duration in
  {| wav_name := wav_name;
     alias := alias;
     offset := round1 offset;
     consonant := round1 consonant;
     cutoff := round1 cutoff;
     preutterance := round1 preutterance;
     overlap := round1 overlap;
     segment_duration := segment_duration;
     is_vc := true;
     is_combined := false;
     quality_score := None |}.

(** The entry that [_combine_and_save] builds for a unit put together from a
    consonant exemplar of [c_duration_ms] and a combined waveform of
    [total_duration_ms]. *)
Definition combined_entry (wav_name final_alias : string)
    (c_duration_ms total_duration_ms overlap_ratio : Q) : Entry :=
  {| wav_name := wav_name;
     alias := final_alias;
     offset := 0;
     consonant := round1 c_duration_ms;
     cutoff := round1 (- total_duration_ms);
     preutterance := round1 c_duration_ms;
     overlap := round1 (c_duration_ms * overlap_ratio);
     segment_duration := total_duration_ms;
     is_vc := false;
     is_combined := true;
     quality_score := None |}.

(** The three properties of an envelope, with the rounding of the code:
    the cutoff is the rounded negated length, the preutterance does not
    exceed the (rounded) length, the overlap is not negative. *)
Definition envelope_ok (e : Entry) : Prop :=
  cutoff e == round1 (- segment_duration e)
  /\ preutterance e <= - cutoff e
  /\ 0 <= overlap e.

Lemma round1_le_opp_round1_opp (p d : Q) : p <= d -> round1 p <= - round1 (- d).
Proof.
  intros H. rewrite round1_opp.
  setoid_replace (- - round1 d) with (round1 d) by ring.
  apply round1_mono; assumption.
Qed.

Lemma oto_params_envelope_ok wav al off cd se wd r :
  0 <= cd -> cd <= se - off -> 0 <= r ->
  envelope_ok (_calculate_oto_params wav al off cd se wd r).
Proof.
  intros H0 H1 Hr. unfold envelope_ok; cbn. split; [reflexivity|]. split.
  - apply round1_le_opp_round1_opp; assumption.
  - apply round1_nonneg. apply Qmult_le_0_compat; assumption.
Qed.

Lemma vc_params_envelope_ok wav al vs ve ce wd ro rv :
  vs <= ve -> ve <= ce -> 0 <= ro -> 0 <= rv ->
  envelope_ok (_calculate_vc_params wav al vs ve ce wd ro rv).
Proof.
  intros H0 H1 Hro Hrv. unfold envelope_ok; cbn. split; [reflexivity|]. split.
  - apply round1_le_opp_round1_opp. lra.
  - apply round1_nonneg. apply Qmult_le_0_compat; [|assumption].
    assert (P : 0 <= (ve - vs) * ro) by (apply Qmult_le_0_compat; lra).
    lra.
Qed.

Lemma combined_entry_envelope_ok wav al cd total r :
  0 <= cd -> cd <= total -> 0 <= r ->
  envelope_ok (combined_entry wav al cd total r).
Proof.
  intros H0 H1 Hr. unfold envelope_ok; cbn. split; [reflexivity|]. split.
  - apply round1_le_opp_round1_opp; assumption.
  - apply round1_nonneg. apply Qmult_le_0_compat; assumption.
Qed.

End Envelope.

(* ================================================================== *)
(** * Simple export: head and tail extension *)
(* ================================================================== *)

Module SimpleExport.

Import Num.
Open Scope Q_scope.

(** [_apply_extend] *)
Definition _apply_extend (start_time end_time extend_duration audio_duration : Q)
  : Q * Q :=
  if Qlt_le_dec 0 extend_duration then
    let total_extend := extend_duration * 2 in
    let new_start := py_max 0 (start_time - extend_duration) in
    let new_end := py_min audio_duration (end_time + extend_duration) in
    let used := (start_time - new_start) + (new_end - end_time) in
    let remaining := total_extend - used in
    if Qlt_le_dec 0 remaining then
      let extra_end := py_min remaining (audio_duration - new_end) in
      let new_end := new_end + extra_end in
      let remaining := remaining - extra_end in
      if Qlt_le_dec 0 remaining
      then (py_max 0 (new_start - remaining), new_end)
      else (new_start, new_end)
    else (new_start, new_end)
  else (start_time, end_time).

Example apply_extend_middle :
  let r := _apply_extend 1 2 (1 # 2) 10 in fst r == 1 # 2 /\ snd r == 5 # 2.
Proof. vm_compute. split; reflexivity. Qed.

Example apply_extend_head :
  let r := _apply_extend (1 # 10) 2 (1 # 2) 10 in fst r == 0 /\ snd r == 29 # 10.
Proof. vm_compute. split; reflexivity. Qed.

Example apply_extend_tail :
  let r := _apply_extend 8 (99 # 10) (1 # 2) 10 in fst r == 71 # 10 /\ snd r == 10.
Proof. vm_compute. split; reflexivity. Qed.

End SimpleExport.

(* ================================================================== *)
(** * Syllable segmenter (CV units) *)
(* ================================================================== *)

Module Segmenter.

Import Num Str Phone Alias Envelope.
Open Scope Q_scope.

(** An interval of a TextGrid tier; times are in seconds. *)
Record Interval : Type := mkInterval {
  minTime : Q;
  maxTime : Q;
  mark : string
}.

(** [continue] with the cursor at [i], or going on with a value. *)
Inductive flow (A : Type) : Type :=
| Next (i : nat)
| Go (a : A).
Arguments Next {A} i.
Arguments Go {A} a.

(** The local variables of the structured parse while it runs. *)
Record ParseState : Type := mkParseState {
  ps_phones : list string;      (* syllable_phones *)
  ps_consonant_duration : Q;    (* consonant_duration *)
  ps_i : nat;                   (* i *)
  ps_phone : string;            (* phone *)
  ps_end_ms : Q                 (* end_ms *)
}.

(** A parsed syllable: what the structured parse hands to the envelope
    calculator. *)
Record Syllable : Type := mkSyllable {
  syllable_phones : list string;
  syllable_start : Q;
  consonant_duration : Q;
  syllable_end : Q
}.

(** A unit of the unstructured (two-phone) parse. *)
Record Pair : Type := mkPair {
  pair_consonant : option string;
  pair_vowel : option string;
  pair_offset : Q;
  pair_consonant_duration : Q;
  pair_segment_end : Q
}.

Section CV.

Variable words_tier : list Interval.
Variable phones_tier : list Interval.
Variable wav_name : string.
Variable wav_duration_ms : Q.
Variable language : string.
Variable use_hiragana : bool.
Variable overlap_ratio : Q.

(** The time ranges of the words: the intervals of the words tier whose
    stripped mark is not empty and not a skip mark.  ([None] or an empty
    tier gives no range.) *)
Definition word_ranges : list (Q * Q) :=
  flat_map
    (fun interval =>
       let text := strip (mark interval) in
       if nonempty text && negb (is_skip text)
       then [(minTime interval, maxTime interval)] else [])
    words_tier.

(** [get_word_range] *)
Definition get_word_range (time : Q) : option (Q * Q) :=
  find (fun r => Qle_bool (fst r) time && negb (Qle_bool (snd r) time))
       word_ranges.

Definition range_eqb (r1 r2 : Q * Q) : bool :=
  Qeq_bool (fst r1) (fst r2) && Qeq_bool (snd r1) (snd r2).

(** [same_word] *)
Definition same_word (time1 time2 : Q) : bool :=
  match word_ranges with
  | [] => true
  | _ =>
      match get_word_range time1, get_word_range time2 with
      | Some range1, Some range2 => range_eqb range1 range2
      | _, _ => false
      end
  end.

Definition intervals : list Interval := phones_tier.

(** The test made before the parse moves into the phone at [j]: the phone
    exists, is not a skip mark and starts in the word of [anchor]. *)
Definition admits (anchor : Interval) (j : nat) : option Interval :=
  match nth_error intervals j with
  | Some next_interval =>
      let next_phone := strip (mark next_interval) in
      if negb (is_skip next_phone)
         && same_word (minTime anchor) (minTime next_interval)
      then Some next_interval else None
  | None => None
  end.

(** Step 1 of the structured parse: the onset. *)
Definition zh_onset (i : nat) (interval : Interval) (phone : string)
  : flow ParseState :=
  let start_ms := minTime interval * 1000 in
  let end_ms := maxTime interval * 1000 in
  if is_consonant phone language then
    let i := S i in
    match admits interval i with
    | Some next_interval =>
        Go {| ps_phones := [phone];
              ps_consonant_duration := end_ms - start_ms;
              ps_i := i;
              ps_phone := strip (mark next_interval);
              ps_end_ms := maxTime next_interval * 1000 |}
    | None => Next i
    end
  else
    Go {| ps_phones := [];
          ps_consonant_duration := 0;
          ps_i := i;
          ps_phone := phone;
          ps_end_ms := end_ms |}.

(** Step 2: the medial. *)
Definition zh_medial (interval : Interval) (st : ParseState) : flow ParseState :=
  if is_medial (ps_phone st) then
    let i := S (ps_i st) in
    match admits interval i with
    | Some next_interval =>
        Go {| ps_phones := (ps_phones st ++ [ps_phone st])%list;
              ps_consonant_duration := ps_consonant_duration st;
              ps_i := i;
              ps_phone := strip (mark next_interval);
              ps_end_ms := maxTime next_interval * 1000 |}
    | None => Next i
    end
  else Go st.

(** Steps 3 and 4: the vowel, which is required, and the coda. *)
Definition zh_vowel (interval : Interval) (st : ParseState)
  : nat * option Syllable :=
  let start_ms := minTime interval * 1000 in
  if is_vowel (ps_phone st) language then
    let phones := (ps_phones st ++ [ps_phone st])%list in
    let consonant_duration :=
      if is_zero (ps_consonant_duration st)
      then py_min 30 ((ps_end_ms st - start_ms) * (2 # 10))
      else ps_consonant_duration st in
    let i := S (ps_i st) in
    match admits interval i with
    | Some next_interval =>
        let next_phone := strip (mark next_interval) in
        if is_coda next_phone then
          (S i, Some {| syllable_phones := (phones ++ [next_phone])%list;
                        syllable_start := start_ms;
                        consonant_duration := consonant_duration;
                        syllable_end := maxTime next_interval * 1000 |})
        else
          (i, Some {| syllable_phones := phones;
                      syllable_start := start_ms;
                      consonant_duration := consonant_duration;
                      syllable_end := ps_end_ms st |})
    | None =>
        (i, Some {| syllable_phones := phones;
                    syllable_start := start_ms;
                    consonant_duration := consonant_duration;
                    syllable_end := ps_end_ms st |})
    end
  else (S (ps_i st), None).

(** The structured parse started at [i]: the cursor after it and the
    syllable, when the vowel was reached. *)
Definition zh_parse (i : nat) (interval : Interval) (phone : string)
  : nat * option Syllable :=
  match zh_onset i interval phone with
  | Next i' => (i', None)
  | Go st =>
      match zh_medial interval st with
      | Next i' => (i', None)
      | Go st' => zh_vowel interval st'
      end
  end.

(** Step 5: the syllable becomes an entry when its alias resolves. *)
Definition zh_entries (syl : option Syllable) : list Entry :=
  match syl with
  | None => []
  | Some s =>
      match _syllable_to_pinyin (syllable_phones s) language use_hiragana with
      | Some alias =>
          if nonempty alias then
            [_calculate_oto_params wav_name alias (syllable_start s)
               (consonant_duration s) (syllable_end s)
               wav_duration_ms overlap_ratio]
          else []
      | None => []
      end
  end.

(** The unstructured parse started at [i]: a consonant with the vowel that
    follows it, a consonant alone, a vowel alone, or nothing. *)
Definition ja_parse (i : nat) (interval : Interval) (phone : string)
  : nat * option Pair :=
  let start_ms := minTime interval * 1000 in
  let end_ms := maxTime interval * 1000 in
  if is_consonant phone language then
    let consonant_time := minTime interval in
    let taken :=
      match nth_error intervals (i + 1) with
      | Some next_interval =>
          let next_phone := strip (mark next_interval) in
          if negb (is_skip next_phone) && is_vowel next_phone language
             && same_word consonant_time (minTime next_interval)
          then Some next_interval else None
      | None => None
      end in
    match taken with
    | Some next_interval =>
        (S (i + 1),
         Some {| pair_consonant := Some phone;
                 pair_vowel := Some (strip (mark next_interval));
                 pair_offset := start_ms;
                 pair_consonant_duration := end_ms - start_ms;
                 pair_segment_end := maxTime next_interval * 1000 |})
    | None =>
        (S i,
         Some {| pair_consonant := Some phone;
                 pair_vowel := None;
                 pair_offset := start_ms;
                 pair_consonant_duration := end_ms - start_ms;
                 pair_segment_end := end_ms |})
    end
  else if is_vowel phone language then
    (S i,
     Some {| pair_consonant := None;
             pair_vowel := Some phone;
             pair_offset := start_ms;
             pair_consonant_duration := py_min 30 ((end_ms - start_ms) * (2 # 10));
             pair_segment_end := end_ms |})
  else (S i, None).

Definition ja_entries (p : option Pair) : list Entry :=
  match p with
  | None => []
  | Some u =>
      match ipa_to_alias (pair_consonant u) (pair_vowel u) language use_hiragana with
      | Some alias =>
          if nonempty alias then
            [_calculate_oto_params wav_name alias (pair_offset u)
               (pair_consonant_duration u) (pair_segment_end u)
               wav_duration_ms overlap_ratio]
          else []
      | None => []
      end
  end.

(** The body of the [while] loop at cursor [i]: the new cursor and the
    entries appended. *)
Definition cv_body (i : nat) (interval : Interval) : nat * list Entry :=
  let phone := strip (mark interval) in
  if is_skip phone then (S i, [])
  else if is_chinese language then
    let '(i', syl) := zh_parse i interval phone in (i', zh_entries syl)
  else
    let '(i', p) := ja_parse i interval phone in (i', ja_entries p).

Fixpoint cv_loop (fuel i : nat) (entries : list Entry) : list Entry :=
  match fuel with
  | O => entries
  | S fuel' =>
      match nth_error intervals i with
      | None => entries
      | Some interval =>
          let '(i', out) := cv_body i interval in
          cv_loop fuel' i' (entries ++ out)%list
      end
  end.

(** [_extract_cv_pairs] *)
Definition _extract_cv_pairs : list Entry :=
  cv_loop (List.length intervals) 0 [].

End CV.

End Segmenter.

(* ================================================================== *)
(** * Transition units (VC) *)
(* ================================================================== *)

Module Transition.

Import Num Str Phone Alias Envelope Segmenter.
Open Scope string_scope.
Open Scope Q_scope.

(** presamp.ini [VOWEL]: final identifier and the syllables that carry it. *)
Definition vowel_data : list (string * list string) :=
  [("a",
     ["a"; "ba"; "pa"; "ma"; "fa"; "da"; "ta"; "na"; "la"; "ga"; "ka";
       "ha"; "zha"; "cha"; "sha"; "za"; "ca"; "sa"; "ya"; "lia"; "jia";
       "qia"; "xia"; "wa"; "gua"; "kua"; "hua"; "zhua"; "shua"; "dia"]);
   ("ai",
     ["ai"; "bai"; "pai"; "mai"; "dai"; "tai"; "nai"; "lai"; "gai"; "kai";
       "hai"; "zhai"; "chai"; "shai"; "zai"; "cai"; "sai"; "wai"; "guai";
       "kuai"; "huai"; "zhuai"; "chuai"; "shuai"]);
   ("an",
     ["an"; "ban"; "pan"; "man"; "fan"; "dan"; "tan"; "nan"; "lan"; "gan";
       "kan"; "han"; "zhan"; "chan"; "shan"; "ran"; "zan"; "can"; "san";
       "wan"; "duan"; "tuan"; "nuan"; "luan"; "guan"; "kuan"; "huan";
       "zhuan"; "chuan"; "shuan"; "ruan"; "zuan"; "cuan"; "suan"]);
   ("ang",
     ["ang"; "bang"; "pang"; "mang"; "fang"; "dang"; "tang"; "nang";
       "lang"; "gang"; "kang"; "hang"; "zhang"; "chang"; "shang"; "rang";
       "zang"; "cang"; "sang"; "yang"; "liang"; "jiang"; "qiang"; "xiang";
       "wang"; "guang"; "kuang"; "huang"; "zhuang"; "chuang"; "shuang";
       "niang"]);
   ("ao",
     ["ao"; "bao"; "pao"; "mao"; "dao"; "tao"; "nao"; "lao"; "gao"; "kao";
       "hao"; "zhao"; "chao"; "shao"; "rao"; "zao"; "cao"; "sao"; "yao";
       "biao"; "piao"; "miao"; "diao"; "tiao"; "niao"; "liao"; "jiao";
       "qiao"; "xiao"]);
   ("e",
     ["e"; "me"; "de"; "te"; "ne"; "le"; "ge"; "ke"; "he"; "zhe"; "che";
       "she"; "re"; "ze"; "ce"; "se"]);
   ("e0",
     ["ye"; "bie"; "pie"; "mie"; "die"; "tie"; "nie"; "lie"; "jie"; "qie";
       "xie"; "yue"; "nue"; "lue"; "jue"; "que"; "xue"]);
   ("ei",
     ["ei"; "bei"; "pei"; "mei"; "fei"; "dei"; "tei"; "nei"; "lei"; "gei";
       "kei"; "hei"; "zhei"; "shei"; "zei"; "wei"; "dui"; "tui"; "gui";
       "kui"; "hui"; "zhui"; "chui"; "shui"; "rui"; "zui"; "cui"; "sui"]);
   ("en",
     ["en"; "ben"; "pen"; "men"; "fen"; "nen"; "gen"; "ken"; "hen"; "zhen";
       "chen"; "shen"; "ren"; "zen"; "cen"; "sen"; "wen"; "dun"; "tun";
       "lun"; "gun"; "kun"; "hun"; "zhun"; "chun"; "shun"; "run"; "zun";
       "cun"; "sun"]);
   ("en0",
     ["yan"; "bian"; "pian"; "mian"; "dian"; "tian"; "nian"; "lian";
       "jian"; "qian"; "xian"; "yuan"; "juan"; "quan"; "xuan"]);
   ("eng",
     ["beng"; "peng"; "meng"; "feng"; "deng"; "teng"; "neng"; "leng";
       "geng"; "keng"; "heng"; "weng"; "zheng"; "cheng"; "sheng"; "reng";
       "zeng"; "ceng"; "seng"]);
   ("er",
     ["er"]);
   ("i",
     ["bi"; "pi"; "mi"; "di"; "ti"; "ni"; "li"; "ji"; "qi"; "xi"; "yi"]);
   ("in",
     ["yin"; "bin"; "pin"; "min"; "nin"; "lin"; "jin"; "qin"; "xin"]);
   ("ing",
     ["ying"; "bing"; "ping"; "ming"; "ding"; "ting"; "ning"; "ling";
       "jing"; "qing"; "xing"]);
   ("i0",
     ["zi"; "ci"; "si"]);
   ("ir",
     ["zhi"; "chi"; "shi"; "ri"]);
   ("o",
     ["bo"; "po"; "mo"; "fo"; "wo"; "duo"; "tuo"; "nuo"; "luo"; "guo";
       "kuo"; "huo"; "zhuo"; "chuo"; "shuo"; "ruo"; "zuo"; "cuo"; "suo"]);
   ("ong",
     ["dong"; "tong"; "nong"; "long"; "gong"; "kong"; "hong"; "zhong";
       "chong"; "rong"; "zong"; "cong"; "song"; "yong"; "jiong"; "qiong";
       "xiong"]);
   ("ou",
     ["ou"; "pou"; "mou"; "fou"; "dou"; "tou"; "lou"; "gou"; "kou"; "hou";
       "zhou"; "chou"; "shou"; "rou"; "zou"; "cou"; "sou"; "you"; "miu";
       "diu"; "niu"; "liu"; "jiu"; "qiu"; "xiu"]);
   ("u",
     ["bu"; "pu"; "mu"; "fu"; "du"; "tu"; "nu"; "lu"; "gu"; "ku"; "hu";
       "zhu"; "chu"; "shu"; "ru"; "zu"; "cu"; "su"; "wu"]);
   ("v",
     ["yu"; "nv"; "lv"; "ju"; "qu"; "xu"]);
   ("vn",
     ["yun"; "jun"; "qun"; "xun"])].

(** presamp.ini [CONSONANT]: onset identifier and the syllables that carry it. *)
Definition consonant_data : list (string * list string) :=
  [("b",
     ["ba"; "bai"; "ban"; "bang"; "bao"; "biao"; "bie"; "bei"; "ben";
       "bian"; "beng"; "bi"; "bin"; "bing"; "bo"; "bu"]);
   ("p",
     ["pa"; "pai"; "pan"; "pang"; "pao"; "piao"; "pie"; "pei"; "pen";
       "pian"; "peng"; "pi"; "pin"; "ping"; "po"; "pou"; "pu"]);
   ("m",
     ["ma"; "mai"; "man"; "mang"; "mao"; "me"; "mei"; "men"; "meng"; "mo";
       "mou"; "mu"]);
   ("f",
     ["fa"; "fan"; "fang"; "fei"; "fen"; "feng"; "fo"; "fou"; "fu"]);
   ("d",
     ["da"; "dia"; "dai"; "dan"; "duan"; "dang"; "dao"; "diao"; "de";
       "die"; "dei"; "dui"; "dun"; "dian"; "deng"; "di"; "ding"; "duo";
       "dong"; "dou"; "diu"; "du"]);
   ("t",
     ["ta"; "tai"; "tan"; "tuan"; "tang"; "tao"; "tiao"; "te"; "tie";
       "tei"; "tui"; "tun"; "tian"; "teng"; "ti"; "ting"; "tuo"; "tong";
       "tou"; "tu"]);
   ("n",
     ["na"; "nai"; "nan"; "nuan"; "nang"; "nao"; "ne"; "nue"; "nei"; "nen";
       "neng"; "nuo"; "nong"; "nu"; "nv"]);
   ("l",
     ["la"; "lai"; "lan"; "luan"; "lang"; "lao"; "le"; "lue"; "lei"; "lun";
       "leng"; "luo"; "long"; "lou"; "lu"; "lv"]);
   ("g",
     ["ga"; "gua"; "gai"; "guai"; "gan"; "guan"; "gang"; "guang"; "gao";
       "ge"; "gei"; "gui"; "gen"; "gun"; "geng"; "guo"; "gong"; "gou"; "gu"]);
   ("k",
     ["ka"; "kua"; "kai"; "kuai"; "kan"; "kuan"; "kang"; "kuang"; "kao";
       "ke"; "kei"; "kui"; "ken"; "kun"; "keng"; "kuo"; "kong"; "kou"; "ku"]);
   ("h",
     ["ha"; "hai"; "han"; "hang"; "hao"; "he"; "hei"; "hen"; "heng";
       "hong"; "hou"]);
   ("zh",
     ["zha"; "zhua"; "zhai"; "zhuai"; "zhan"; "zhuan"; "zhang"; "zhuang";
       "zhao"; "zhe"; "zhei"; "zhui"; "zhen"; "zhun"; "zheng"; "zhi";
       "zhuo"; "zhong"; "zhou"; "zhu"]);
   ("ch",
     ["cha"; "chai"; "chuai"; "chan"; "chuan"; "chang"; "chuang"; "chao";
       "che"; "chui"; "chen"; "chun"; "cheng"; "chi"; "chuo"; "chong";
       "chou"; "chu"]);
   ("sh",
     ["sha"; "shai"; "shan"; "shang"; "shao"; "she"; "shei"; "shen";
       "sheng"; "shi"; "shou"]);
   ("z",
     ["za"; "zai"; "zan"; "zuan"; "zang"; "zao"; "ze"; "zei"; "zui"; "zen";
       "zun"; "zeng"; "zi"; "zuo"; "zong"; "zou"; "zu"]);
   ("c",
     ["ca"; "cai"; "can"; "cuan"; "cang"; "cao"; "ce"; "cui"; "cen"; "cun";
       "ceng"; "ci"; "cuo"; "cong"; "cou"; "cu"]);
   ("s",
     ["sa"; "sai"; "san"; "sang"; "sao"; "se"; "sen"; "seng"; "si"; "song";
       "sou"]);
   ("y",
     ["ya"; "yang"; "yao"; "ye"; "yan"; "yi"; "yin"; "ying"; "yong"; "you"]);
   ("ly",
     ["lia"; "liang"; "liao"; "lie"; "lian"; "li"; "lin"; "ling"; "liu"]);
   ("j",
     ["jia"; "jiang"; "jiao"; "jie"; "jue"; "jian"; "juan"; "ji"; "jin";
       "jing"; "jiong"; "jiu"; "ju"; "jun"]);
   ("q",
     ["qia"; "qiang"; "qiao"; "qie"; "que"; "qian"; "quan"; "qi"; "qin";
       "qing"; "qiong"; "qiu"; "qu"; "qun"]);
   ("xy",
     ["xia"; "xiang"; "xiao"; "xie"; "xian"; "xi"; "xin"; "xing"; "xiong";
       "xiu"]);
   ("w",
     ["wa"; "wai"; "wan"; "wang"; "wei"; "wen"; "weng"; "wo"; "wu"]);
   ("hw",
     ["hua"; "huai"; "huan"; "huang"; "hui"; "hun"; "huo"; "hu"]);
   ("shw",
     ["shua"; "shuai"; "shuan"; "shuang"; "shui"; "shun"; "shuo"; "shu"]);
   ("r",
     ["ran"; "ruan"; "rang"; "rao"; "re"; "rui"; "ren"; "run"; "reng";
       "ri"; "ruo"; "rong"; "rou"; "ru"]);
   ("sw",
     ["suan"; "sui"; "sun"; "suo"; "su"]);
   ("ny",
     ["niang"; "niao"; "nie"; "nian"; "ni"; "nin"; "ning"; "niu"]);
   ("my",
     ["miao"; "mie"; "mian"; "mi"; "min"; "ming"; "miu"]);
   ("v",
     ["yu"; "yue"; "yuan"; "yun"]);
   ("xw",
     ["xue"; "xuan"; "xu"; "xun"])].

(** The mapping from a syllable to the identifier of its row. *)
Definition build_mapping (data : list (string * list string))
  : list (string * string) :=
  fold_left
    (fun mapping row =>
       fold_left (fun mapping pinyin => dict_set pinyin (fst row) mapping)
                 (snd row) mapping)
    data [].

(** [_load_presamp_mapping] *)
Definition _load_presamp_mapping : list (string * string) * list (string * string) :=
  (build_mapping vowel_data, build_mapping consonant_data).

(** [_find_vowel_in_mapping] *)
Definition _find_vowel_in_mapping (pinyin : string) (vowel_map : list (string * string))
  : option string := dict_get pinyin vowel_map.

(** [_find_consonant_in_mapping] *)
Definition _find_consonant_in_mapping (pinyin : string)
    (consonant_map : list (string * string)) : option string :=
  dict_get pinyin consonant_map.

(** The local variables of the parse of one syllable while it runs. *)
Record VcState : Type := mkVcState {
  vs_phones : list string;      (* syllable_phones *)
  vs_consonant_duration : Q;    (* consonant_duration *)
  vs_vowel_start : Q;           (* vowel_start *)
  vs_has_consonant : bool;      (* has_consonant *)
  vs_i : nat;                   (* i *)
  vs_phone : string             (* phone *)
}.

(** The local variables of a syllable whose vowel was reached. *)
Record VcParse : Type := mkVcParse {
  vp_phones : list string;
  vp_consonant_duration : Q;
  vp_vowel_start : Q;
  vp_vowel_end : Q;
  vp_syllable_end : Q;
  vp_has_consonant : bool
}.

(** An element of [syllables]. *)
Record VcSyllable : Type := mkVcSyllable {
  pinyin : string;
  vowel_part : string;
  consonant_part : option string;
  vowel_start : Q;
  vowel_end : Q;
  vc_syllable_end : Q
}.

Section VC.

Variable phones_tier : list Interval.
Variable wav_name : string.
Variable wav_duration_ms : Q.
Variable language : string.
Variable vc_offset_ratio : Q.
Variable vc_overlap_ratio : Q.
Variable vc_separator : string.

(** The phone at [j] when it exists and is not a skip mark.  No word is
    looked at. *)
Definition next_phone_at (j : nat) : option Interval :=
  match nth_error phones_tier j with
  | Some next_interval =>
      if negb (is_skip (strip (mark next_interval)))
      then Some next_interval else None
  | None => None
  end.

Definition vc_onset (i : nat) (interval : Interval) (phone : string)
  : flow VcState :=
  let syllable_start := minTime interval * 1000 in
  if is_consonant phone language then
    let i := S i in
    match next_phone_at i with
    | Some next_interval =>
        Go {| vs_phones := [phone];
              vs_consonant_duration := maxTime interval * 1000 - syllable_start;
              vs_vowel_start := minTime next_interval * 1000;
              vs_has_consonant := true;
              vs_i := i;
              vs_phone := strip (mark next_interval) |}
    | None => Next i
    end
  else
    Go {| vs_phones := [];
          vs_consonant_duration := 0;
          vs_vowel_start := syllable_start;
          vs_has_consonant := false;
          vs_i := i;
          vs_phone := phone |}.

Definition vc_medial (st : VcState) : flow VcState :=
  if is_medial (vs_phone st) then
    let i := S (vs_i st) in
    match next_phone_at i with
    | Some next_interval =>
        Go {| vs_phones := (vs_phones st ++ [vs_phone st])%list;
              vs_consonant_duration := vs_consonant_duration st;
              vs_vowel_start := vs_vowel_start st;
              vs_has_consonant := vs_has_consonant st;
              vs_i := i;
              vs_phone := strip (mark next_interval) |}
    | None => Next i
    end
  else Go st.

(** The vowel and the coda.  [vowel_end] is read from [interval], the
    interval at which the syllable started. *)
Definition vc_vowel (interval : Interval) (st : VcState) : nat * option VcParse :=
  if is_vowel (vs_phone st) language then
    let phones := (vs_phones st ++ [vs_phone st])%list in
    let vowel_end := maxTime interval * 1000 in
    let consonant_duration :=
      if is_zero (vs_consonant_duration st)
      then py_min 30 ((vowel_end - vs_vowel_start st) * (2 # 10))
      else vs_consonant_duration st in
    let i := S (vs_i st) in
    let plain :=
      (i, Some {| vp_phones := phones;
                  vp_consonant_duration := consonant_duration;
                  vp_vowel_start := vs_vowel_start st;
                  vp_vowel_end := vowel_end;
                  vp_syllable_end := vowel_end;
                  vp_has_consonant := vs_has_consonant st |}) in
    match next_phone_at i with
    | Some next_interval =>
        let next_phone := strip (mark next_interval) in
        if is_coda next_phone then
          (S i, Some {| vp_phones := (phones ++ [next_phone])%list;
                        vp_consonant_duration := consonant_duration;
                        vp_vowel_start := vs_vowel_start st;
                        vp_vowel_end := maxTime next_interval * 1000;
                        vp_syllable_end := maxTime next_interval * 1000;
                        vp_has_consonant := vs_has_consonant st |})
        else plain
    | None => plain
    end
  else (S (vs_i st), None).

Definition vc_parse (i : nat) (interval : Interval) (phone : string)
  : nat * option VcParse :=
  match vc_onset i interval phone with
  | Next i' => (i', None)
  | Go st =>
      match vc_medial st with
      | Next i' => (i', None)
      | Go st' => vc_vowel interval st'
      end
  end.

(** Step 5: the syllable is kept when its pinyin resolves and has a final
    in the mapping. *)
Definition vc_keep (vowel_map consonant_map : list (string * string))
    (p : option VcParse) : list VcSyllable :=
  match p with
  | None => []
  | Some s =>
      match _syllable_to_pinyin (vp_phones s) language false with
      | Some py =>
          if nonempty py then
            let vowel_part := _find_vowel_in_mapping py vowel_map in
            let consonant_part :=
              if vp_has_consonant s
              then _find_consonant_in_mapping py consonant_map else None in
            match vowel_part with
            | Some vp =>
                if nonempty vp then
                  [{| pinyin := py;
                      vowel_part := vp;
                      consonant_part := consonant_part;
                      vowel_start := vp_vowel_start s;
                      vowel_end := vp_vowel_end s;
                      vc_syllable_end := vp_syllable_end s |}]
                else []
            | None => []
            end
          else []
      | None => []
      end
  end.

Definition vc_body (vowel_map consonant_map : list (string * string))
    (i : nat) (interval : Interval) : nat * list VcSyllable :=
  let phone := strip (mark interval) in
  if is_skip phone then (S i, [])
  else
    let '(i', p) := vc_parse i interval phone in
    (i', vc_keep vowel_map consonant_map p).

Fixpoint vc_loop (vowel_map consonant_map : list (string * string))
    (fuel i : nat) (syllables : list VcSyllable) : list VcSyllable :=
  match fuel with
  | O => syllables
  | S fuel' =>
      match nth_error phones_tier i with
      | None => syllables
      | Some interval =>
          let '(i', out) := vc_body vowel_map consonant_map i interval in
          vc_loop vowel_map consonant_map fuel' i' (syllables ++ out)%list
      end
  end.

(** The transition entry of two neighbouring syllables, when the second has
    an onset. *)
Definition vc_pair (current next_syl : VcSyllable) : list Entry :=
  match consonant_part next_syl with
  | Some next_consonant =>
      if nonempty next_consonant then
        let vc_alias :=
          (vowel_part current ++ vc_separator ++ next_consonant)%string in
        [_calculate_vc_params wav_name vc_alias
           (vowel_start current) (vowel_end current) (vc_syllable_end next_syl)
           wav_duration_ms vc_offset_ratio vc_overlap_ratio]
      else []
  | None => []
  end.

(** [for idx in range(len(syllables) - 1)] *)
Fixpoint vc_pairs (syllables : list VcSyllable) : list Entry :=
  match syllables with
  | current :: rest =>
      match rest with
      | next_syl :: _ => (vc_pair current next_syl ++ vc_pairs rest)%list
      | [] => []
      end
  | [] => []
  end.

(** The syllables that [_extract_vc_pairs] parses. *)
Definition vc_syllables : list VcSyllable :=
  let '(vowel_map, consonant_map) := _load_presamp_mapping in
  vc_loop vowel_map consonant_map (List.length phones_tier) 0 [].

(** [_extract_vc_pairs].  The source function also receives [words_tier] and
    [use_hiragana]; its body reads neither, so they are no arguments here. *)
Definition _extract_vc_pairs : list Entry :=
  if negb (is_chinese language) then []
  else
    let '(vowel_map, consonant_map) := _load_presamp_mapping in
    match vowel_map, consonant_map with
    | [], _ | _, [] => []
    | _, _ => vc_pairs vc_syllables
    end.

End VC.

End Transition.

(* ================================================================== *)
(** * Quality selector *)
(* ================================================================== *)

Module Quality.

Import Num Str Envelope.
Open Scope Q_scope.

Section Sorting.

Variable A : Type.
Variable key : A -> Q.

Fixpoint insert_by (x : A) (l : list A) : list A :=
  match l with
  | [] => [x]
  | y :: rest =>
      if Qle_bool (key x) (key y) then x :: l else y :: insert_by x rest
  end.

(** [sorted(l, key=key)]: ascending in the key, and stable. *)
Definition sorted_by (l : list A) : list A := fold_right insert_by [] l.

End Sorting.

Arguments insert_by {A} key x l.
Arguments sorted_by {A} key l.

(** [l[:k]], also for a negative [k]. *)
Definition slice_to {A : Type} (l : list A) (k : Z) : list A :=
  if (0 <=? k)%Z then firstn (Z.to_nat k) l
  else firstn (List.length l - Z.to_nat (- k)) l.

Definition set_alias (a : string) (e : Entry) : Entry :=
  {| wav_name := wav_name e; alias := a; offset := offset e;
     consonant := consonant e; cutoff := cutoff e;
     preutterance := preutterance e; overlap := overlap e;
     segment_duration := segment_duration e; is_vc := is_vc e;
     is_combined := is_combined e; quality_score := quality_score e |}.

Definition set_quality_score (q : Q) (e : Entry) : Entry :=
  {| wav_name := wav_name e; alias := alias e; offset := offset e;
     consonant := consonant e; cutoff := cutoff e;
     preutterance := preutterance e; overlap := overlap e;
     segment_duration := segment_duration e; is_vc := is_vc e;
     is_combined := is_combined e; quality_score := Some q |}.

(** [x.get("quality_score", 0)] *)
Definition score_of (e : Entry) : Q :=
  match quality_score e with Some q => q | None => 0 end.

(** [alias_groups[alias].append(entry)] *)
Fixpoint group_append (a : string) (e : Entry) (groups : list (string * list Entry))
  : list (string * list Entry) :=
  match groups with
  | [] => [(a, [e])]
  | (a', g) :: rest =>
      if String.eqb a a' then (a', (g ++ [e])%list) :: rest
      else (a', g) :: group_append a e rest
  end.

Fixpoint enumerate_from {A : Type} (n : nat) (l : list A) : list (nat * A) :=
  match l with
  | [] => []
  | x :: rest => (n, x) :: enumerate_from (S n) rest
  end.

Section Select.

(** [quality_scorer.duration_score], of a module that is not among the
    sources: any function of the duration in seconds. *)
Variable duration_score : Q -> Q.

(** The score that [_score_entries] stores in an entry: the combined score
    of the external scorer on the audio of the entry, or 0.5. *)
Variable audio_score : Entry -> Q.

(** [apply_naming_rule] of the base class, which is not among the sources. *)
Variable apply_naming_rule : string -> string -> nat -> string.

Variable max_samples : Z.
Variable naming_rule : string.
Variable first_naming_rule : string.
Variable enabled_metrics : list string.

Definition need_audio_scoring : bool :=
  existsb (fun m => mem m enabled_metrics) ["rms"; "f0"]%string.

(** The group with its quality scores. *)
Definition scored_group (group : list Entry) : list Entry :=
  if need_audio_scoring
  then map (fun e => set_quality_score (audio_score e) e) group
  else map (fun e =>
              set_quality_score (duration_score (segment_duration e / 1000)) e)
           group.

(** [sorted(scored_group, key=lambda x: -x.get("quality_score", 0))] *)
Definition sorted_group (group : list Entry) : list Entry :=
  sorted_by (fun x => - score_of x) (scored_group group).

(** [sorted_group[:max_samples]] *)
Definition kept_group (group : list Entry) : list Entry :=
  slice_to (sorted_group group) max_samples.

Definition final_alias (base_alias : string) (idx : nat) : string :=
  if (idx =? 0)%nat && nonempty first_naming_rule
  then apply_naming_rule first_naming_rule base_alias idx
  else apply_naming_rule naming_rule base_alias idx.

(** What one alias group adds to [filtered]. *)
Definition select_group (base_alias : string) (group : list Entry) : list Entry :=
  map (fun ie => set_alias (final_alias base_alias (fst ie)) (snd ie))
      (enumerate_from 0 (kept_group group)).

Definition valid_entries (entries : list Entry) : list Entry :=
  filter (fun e => nonempty (alias e) && nonempty (strip (alias e))) entries.

Definition alias_groups (entries : list Entry) : list (string * list Entry) :=
  fold_left (fun groups e => group_append (alias e) e groups)
            (valid_entries entries) [].

(** [_filter_by_alias]: the entries kept, and the names of their files. *)
Definition _filter_by_alias (entries : list Entry) : list Entry * list string :=
  let filtered :=
    flat_map (fun g => select_group (fst g) (snd g)) (alias_groups entries) in
  (filtered, map wav_name filtered).

End Select.

End Quality.

(* ================================================================== *)
(** * Fragment synthesizer *)
(* ================================================================== *)

Module Synth.

Import Num Str Phone Alias Envelope.
Open Scope string_scope.
Open Scope Q_scope.

(** A consonant or vowel exemplar. *)
Record PhonemeInfo : Type := mkPhonemeInfo {
  wav_path : string;
  offset_ms : Q;
  duration_ms : Q;
  info_quality_score : Q;
  ipa : string
}.

(** A unit proposed for synthesis.  [is_fuzzy] and [fuzzy_from] are absent
    from an exact candidate: [false] and [None]. *)
Record Candidate : Type := mkCandidate {
  cand_alias : string;
  base_alias : string;
  consonant_info : PhonemeInfo;
  vowel_info : PhonemeInfo;
  is_fuzzy : bool;
  fuzzy_from : option string
}.

Definition chinese_finals : list string :=
  ["a"; "o"; "e"; "i"; "u"; "v";
   "ai"; "ei"; "ao"; "ou";
   "an"; "en"; "ang"; "eng"; "ong";
   "ia"; "ie"; "iao"; "iu"; "ian"; "in"; "iang"; "ing"; "iong";
   "ua"; "uo"; "uai"; "ui"; "uan"; "un"; "uang"; "ueng";
   "ve"; "van"; "vn"; "er"].

(** [valid_vowels] of [_generate_candidates]. *)
Definition valid_vowels (language : string) : list string :=
  if is_chinese language then chinese_finals else ["a"; "i"; "u"; "e"; "o"].

(** [all_consonants] of [_generate_fuzzy_candidates]. *)
Definition all_consonants : list string :=
  ["b"; "p"; "m"; "f"; "d"; "t"; "n"; "l"; "g"; "k"; "h";
   "j"; "q"; "x"; "zh"; "ch"; "sh"; "r"; "z"; "c"; "s"; "y"; "w"].

(** [all_vowels] of [_generate_fuzzy_candidates]. *)
Definition all_vowels : list string := chinese_finals.

(** The exact candidate of a consonant and a vowel that are available. *)
Definition normal_candidate (existing_aliases : list string) (language : string)
    (use_hiragana : bool)
    (c : string * PhonemeInfo) (v : string * PhonemeInfo) : list Candidate :=
  let '(c_alias, c_info) := c in
  let '(v_alias, v_info) := v in
  if negb (isascii c_alias) || negb (isascii v_alias) then []
  else
    let c_romaji := lower c_alias in
    let v_romaji := lower v_alias in
    let combined_romaji := (c_romaji ++ v_romaji)%string in
    if negb (mem v_romaji (valid_vowels language))
       && (2 <? String.length v_romaji)%nat then []
    else
      let final :=
        if use_hiragana then dict_get combined_romaji ROMAJI_TO_HIRAGANA
        else Some combined_romaji in
      match final with
      | None => []
      | Some final_alias =>
          if mem final_alias existing_aliases then []
          else if mem combined_romaji existing_aliases then []
          else [{| cand_alias := final_alias;
                   base_alias := combined_romaji;
                   consonant_info := c_info;
                   vowel_info := v_info;
                   is_fuzzy := false;
                   fuzzy_from := None |}]
      end.

(** [_find_fuzzy_substitute] *)
Definition _find_fuzzy_substitute (phoneme : string)
    (available_phonemes : list string) (groups : list (list string))
  : option string :=
  if mem phoneme available_phonemes then Some phoneme
  else
    match find (fun group => mem phoneme group) groups with
    | Some group =>
        find (fun candidate =>
                negb (String.eqb candidate phoneme)
                && mem candidate available_phonemes)
             group
    | None => None
    end.

(** The phoneme used for a target on one axis. *)
Definition actual_phoneme (target : string) (available : list string)
    (groups : list (list string)) : option string :=
  if mem target available then Some target
  else _find_fuzzy_substitute target available groups.

(** The body of the two loops of [_generate_fuzzy_candidates] for one target
    pair, given the aliases generated so far. *)
Definition fuzzy_target (consonants vowels : list (string * PhonemeInfo))
    (available_consonants available_vowels generated_aliases : list string)
    (target_c target_v : string) : option Candidate :=
  let target_alias := (target_c ++ target_v)%string in
  if mem target_alias generated_aliases then None
  else
    match actual_phoneme target_c available_consonants FUZZY_CONSONANT_GROUPS,
          actual_phoneme target_v available_vowels FUZZY_VOWEL_GROUPS with
    | Some actual_c, Some actual_v =>
        if String.eqb actual_c target_c && String.eqb actual_v target_v then None
        else
          match dict_get actual_c consonants, dict_get actual_v vowels with
          | Some c_info, Some v_info =>
              Some {| cand_alias := target_alias;
                      base_alias := target_alias;
                      consonant_info := c_info;
                      vowel_info := v_info;
                      is_fuzzy := true;
                      fuzzy_from := Some (actual_c ++ "+" ++ actual_v)%string |}
          | _, _ => None
          end
    | _, _ => None
    end.

(** One turn of the inner loop: the state is [generated_aliases] and
    [fuzzy_candidates]. *)
Definition fuzzy_turn (consonants vowels : list (string * PhonemeInfo))
    (available_consonants available_vowels : list string)
    (target_c : string) (state : list string * list Candidate)
    (target_v : string) : list string * list Candidate :=
  let '(generated_aliases, fuzzy_candidates) := state in
  match fuzzy_target consonants vowels available_consonants available_vowels
                     generated_aliases target_c target_v with
  | Some cand =>
      ((target_c ++ target_v)%string :: generated_aliases,
       (fuzzy_candidates ++ [cand])%list)
  | None => state
  end.

(** [_generate_fuzzy_candidates] *)
Definition _generate_fuzzy_candidates
    (consonants vowels : list (string * PhonemeInfo))
    (available_consonants available_vowels existing_aliases : list string)
    (normal_candidates : list Candidate) : list Candidate :=
  let generated_aliases :=
    (map base_alias normal_candidates ++ existing_aliases)%list in
  snd (fold_left
         (fun state target_c =>
            fold_left
              (fuzzy_turn consonants vowels available_consonants
                          available_vowels target_c)
              all_vowels state)
         all_consonants (generated_aliases, [])).

(** The first part of [_generate_candidates]: the two loops over the
    consonants and the vowels that are available. *)
Definition normal_candidates (consonants vowels : list (string * PhonemeInfo))
    (existing_aliases : list string) (language : string) (use_hiragana : bool)
  : list Candidate :=
  flat_map
    (fun c =>
       flat_map (normal_candidate existing_aliases language use_hiragana c)
                vowels)
    consonants.

(** [_generate_candidates] *)
Definition _generate_candidates (consonants vowels : list (string * PhonemeInfo))
    (existing_aliases : list string) (language : string) (use_hiragana : bool)
    (fuzzy_phoneme : bool) : list Candidate :=
  let available_consonants := keys consonants in
  let available_vowels := keys vowels in
  let candidates :=
    normal_candidates consonants vowels existing_aliases language use_hiragana in
  if fuzzy_phoneme && is_chinese language then
    (candidates
       ++ _generate_fuzzy_candidates consonants vowels available_consonants
            available_vowels existing_aliases candidates)%list
  else candidates.

(** ** Crossfade *)

(** [np.linspace(start, stop, n)] *)
Definition linspace (start stop : Q) (n : nat) : list Q :=
  match n with
  | O => []
  | S O => [start]
  | S m =>
      map (fun i => start + inject_Z (Z.of_nat i)
                            * ((stop - start) / inject_Z (Z.of_nat m)))
          (seq 0 n)
  end.

Fixpoint zip_with (f : Q -> Q -> Q) (a b : list Q) : list Q :=
  match a, b with
  | x :: a', y :: b' => f x y :: zip_with f a' b'
  | _, _ => []
  end.

(** An element-wise operation of two one-dimensional arrays: the shapes
    are equal, or one of them is 1 and is broadcast; otherwise numpy
    raises. *)
Definition elementwise (f : Q -> Q -> Q) (a b : list Q) : option (list Q) :=
  if (List.length a =? List.length b)%nat then Some (zip_with f a b)
  else
    match a, b with
    | [x], _ => Some (map (f x) b)
    | _, [y] => Some (map (fun x => f x y) a)
    | _, _ => None
    end.

(** [a[:-n]] for [n >= 0] *)
Definition slice_to_neg {A : Type} (a : list A) (n : nat) : list A :=
  match n with
  | O => []
  | _ => firstn (List.length a - n) a
  end.

(** [a[-n:]] for [n >= 0] *)
Definition slice_from_neg {A : Type} (a : list A) (n : nat) : list A :=
  match n with
  | O => a
  | _ => skipn (List.length a - n) a
  end.

(** [_crossfade_concat]; [None] when numpy raises. *)
Definition _crossfade_concat (audio1 audio2 : list Q) (crossfade_samples : Z)
  : option (list Q) :=
  if (crossfade_samples <=? 0)%Z then Some (audio1 ++ audio2)%list
  else
    let crossfade_samples :=
      Z.to_nat (py_min3 crossfade_samples (Z.of_nat (List.length audio1))
                        (Z.of_nat (List.length audio2))) in
    let fade_out := linspace 1 0 crossfade_samples in
    let fade_in := linspace 0 1 crossfade_samples in
    let part1 := slice_to_neg audio1 crossfade_samples in
    let overlap1 := slice_from_neg audio1 crossfade_samples in
    let overlap2 := firstn crossfade_samples audio2 in
    let part2 := skipn crossfade_samples audio2 in
    match elementwise Qmult overlap1 fade_out,
          elementwise Qmult overlap2 fade_in with
    | Some faded1, Some faded2 =>
        match elementwise Qplus faded1 faded2 with
        | Some crossfaded => Some (part1 ++ crossfaded ++ part2)%list
        | None => None
        end
    | _, _ => None
    end.

(** [int(x)] for a rational: truncation towards zero.  The argument is the
    exact product; the code truncates the product of two floats, which can
    differ from it by one when the exact product is next to an integer. *)
Definition int_of_Q (x : Q) : Z := if Qle_bool 0 x then Qfloor x else Qceiling x.

(** The crossfade length that [_combine_and_save] chooses. *)
Definition chosen_crossfade (crossfade_ms sr : Z) (len_c len_v : nat) : Z :=
  let crossfade_samples :=
    int_of_Q (inject_Z crossfade_ms / 1000 * inject_Z sr) in
  let crossfade_samples :=
    py_min3 crossfade_samples (Z.of_nat len_c / 2) (Z.of_nat len_v / 2) in
  if (crossfade_samples <? 1)%Z then 1%Z else crossfade_samples.

(** [a[start:start + duration]] for an array and two integers that are not
    negative. *)
Definition segment_of (audio : list Q) (info : PhonemeInfo) (sr : Z) : list Q :=
  let start := int_of_Q (offset_ms info / 1000 * inject_Z sr) in
  let duration := int_of_Q (duration_ms info / 1000 * inject_Z sr) in
  firstn (Z.to_nat duration) (skipn (Z.to_nat start) audio).

Section Combine.

(** [apply_naming_rule] of the base class, which is not among the sources. *)
Variable apply_naming_rule : string -> string -> nat -> string.

(** [_combine_and_save], on the two audio files already read (mono, with
    their sample rates): the entry and the combined waveform that is saved,
    or [None]. *)
Definition _combine_and_save (candidate : Candidate)
    (c_audio : list Q) (c_sr : Z) (v_audio : list Q) (v_sr : Z)
    (overlap_ratio : Q) (crossfade_ms : Z) (first_naming_rule : string)
  : option (Entry * list Q) :=
  let c_info := consonant_info candidate in
  let v_info := vowel_info candidate in
  let alias := cand_alias candidate in
  let c_segment := segment_of c_audio c_info c_sr in
  let v_segment := segment_of v_audio v_info v_sr in
  if negb (c_sr =? v_sr)%Z then None
  else
    let sr := c_sr in
    match c_segment, v_segment with
    | [], _ | _, [] => None
    | _, _ =>
        let crossfade_samples :=
          chosen_crossfade crossfade_ms sr (List.length c_segment)
                           (List.length v_segment) in
        match _crossfade_concat c_segment v_segment crossfade_samples with
        | None => None
        | Some combined =>
            let wav_name := ("C" ++ cand_alias candidate ++ ".wav")%string in
            let c_duration_ms := duration_ms c_info in
            let total_duration_ms :=
              inject_Z (Z.of_nat (List.length combined)) / inject_Z sr * 1000 in
            let final_alias :=
              if nonempty first_naming_rule
              then apply_naming_rule first_naming_rule alias 0%nat else alias in
            Some (combined_entry wav_name final_alias c_duration_ms
                                 total_duration_ms overlap_ratio,
                  combined)
        end
    end.

End Combine.

End Synth.

(* ================================================================== *)
(** * Properties of the envelope and of the extension *)
(* ================================================================== *)

Import Num Str Phone Alias Envelope SimpleExport.

Section EnvelopeProperties.

Open Scope Q_scope.

(** C10. For an interval with 0 <= start_time <= end_time <= audio_duration
    and an extension that is not negative, [_apply_extend] returns
    (new_start, new_end) with 0 <= new_start <= start_time and
    end_time <= new_end <= audio_duration, and the length added is at most
    twice the extension: the interval given is contained in the result and
    the result stays inside the audio. *)
Theorem C10_apply_extend_bounds
    (start_time end_time extend_duration audio_duration : Q) :
  0 <= start_time -> start_time <= end_time -> end_time <= audio_duration ->
  0 <= extend_duration ->
  let new_start := fst (_apply_extend start_time end_time extend_duration audio_duration) in
  let new_end := snd (_apply_extend start_time end_time extend_duration audio_duration) in
  0 <= new_start /\ new_start <= start_time
  /\ end_time <= new_end /\ new_end <= audio_duration
  /\ (new_end - new_start) - (end_time - start_time) <= 2 * extend_duration.
Proof.
  intros Hs Hse Hed He. unfold _apply_extend.
  destruct (Qlt_le_dec 0 extend_duration) as [Hpos|Hle]; cbn zeta.
  2: { cbn [fst snd]. repeat split; lra. }
  destruct (py_max_cases 0 (start_time - extend_duration)) as [[M1 ->]|[M1 ->]];
    destruct (py_min_cases audio_duration (end_time + extend_duration))
      as [[M2 ->]|[M2 ->]];
    match goal with
    | |- context [Qlt_le_dec 0 ?r] => destruct (Qlt_le_dec 0 r) as [R|R]
    end; cbn [fst snd]; try (repeat split; lra);
    match goal with
    | |- context [py_min ?a ?b] =>
        destruct (py_min_cases a b) as [[M3 E3]|[M3 E3]]; rewrite ?E3
    end;
    match goal with
    | |- context [Qlt_le_dec 0 ?r] => destruct (Qlt_le_dec 0 r) as [R'|R']
    end; cbn [fst snd]; try (repeat split; lra);
    match goal with
    | |- context [py_max ?a ?b] =>
        destruct (py_max_cases a b) as [[M4 E4]|[M4 E4]]; rewrite ?E4
    end; repeat split; lra.
Qed.

Lemma C10_apply_extend_bounds_witness :
  let r := _apply_extend (1 # 10) 2 (1 # 2) 10 in
  0 <= fst r /\ fst r <= 1 # 10 /\ 2 <= snd r /\ snd r <= 10
  /\ (snd r - fst r) - (2 - (1 # 10)) <= 2 * (1 # 2).
Proof.
  apply (C10_apply_extend_bounds (1 # 10) 2 (1 # 2) 10); lra.
Defined.

(** C2 (as amended). The simple-unit calculator returns the quantities of
    the specification rounded to one decimal place: offset = round(unitStart),
    consonant = preutterance = round(consonantEnd - unitStart),
    cutoff = round(-segment_duration), overlap = round((consonantEnd -
    unitStart) * r); segment_duration = unitEnd - unitStart is not rounded.
    For unitStart = 100, consonant end 150, end 300 and ratio 0.3 it returns
    offset=100, consonant=50, segment_duration=200, cutoff=-200,
    preutterance=50, overlap=15. *)
Theorem C2_simple_unit_envelope :
  (forall (wav al : string) (unitStart consonantEnd unitEnd wav_duration r : Q),
     let e := _calculate_oto_params wav al unitStart (consonantEnd - unitStart)
                unitEnd wav_duration r in
     offset e == round1 unitStart
     /\ consonant e == round1 (consonantEnd - unitStart)
     /\ segment_duration e == unitEnd - unitStart
     /\ cutoff e == round1 (- segment_duration e)
     /\ preutterance e == consonant e
     /\ overlap e == round1 ((consonantEnd - unitStart) * r))
  /\ (let e := _calculate_oto_params "a.wav" "ga" 100 (150 - 100) 300 1000 (3 # 10) in
      offset e == 100 /\ consonant e == 50 /\ segment_duration e == 200
      /\ cutoff e == - (200) /\ preutterance e == 50 /\ overlap e == 15).
Proof.
  split.
  - intros. subst e. cbn. repeat split; reflexivity.
  - vm_compute. repeat split; reflexivity.
Qed.

(** The equations of C2 without rounding fail: a unit that starts at
    100.04 ms gets offset 100.0. *)
Lemma C2_counterexample :
  let unitStart := 10004 # 100 in
  let consonantEnd := 15004 # 100 in
  let unitEnd := 30004 # 100 in
  let e := _calculate_oto_params "a.wav" "ga" unitStart (consonantEnd - unitStart)
             unitEnd 1000 (3 # 10) in
  offset e == 100
  /\ ~ (offset e == unitStart
        /\ consonant e == consonantEnd - unitStart
        /\ segment_duration e == unitEnd - unitStart
        /\ cutoff e == - segment_duration e
        /\ preutterance e == consonant e
        /\ overlap e == preutterance e * (3 # 10)).
Proof.
  split; [vm_compute; reflexivity|].
  intros [H _]. vm_compute in H. discriminate H.
Qed.

End EnvelopeProperties.

(* ================================================================== *)
(** * Properties of the segmenter *)
(* ================================================================== *)

Import Segmenter.

(** The case analysis of a structured parse. *)
Ltac unfold_parse H :=
  repeat (cbv beta iota zeta in H;
          cbn [ps_phones ps_consonant_duration ps_i ps_phone ps_end_ms] in H;
          match type of H with
          | context [match Segmenter.admits ?w ?p ?a ?j with _ => _ end] =>
              let E := fresh "A" in
              let nx := fresh "nx" in
              destruct (Segmenter.admits w p a j) as [nx|] eqn:E
          | context [if ?b then _ else _] => destruct b eqn:?
          end).

Section SegmenterProperties.

Open Scope Q_scope.

Variable words_tier : list Interval.
Variable phones_tier : list Interval.
Variable wav_name : string.
Variable wav_duration_ms : Q.
Variable language : string.
Variable use_hiragana : bool.
Variable overlap_ratio : Q.

Local Abbreviation admits := (admits words_tier phones_tier).
Local Abbreviation same_word := (same_word words_tier).
Local Abbreviation zh_parse := (zh_parse words_tier phones_tier language).
Local Abbreviation ja_parse := (ja_parse words_tier phones_tier language).
Local Abbreviation cv_body :=
  (cv_body words_tier phones_tier wav_name wav_duration_ms language
           use_hiragana overlap_ratio).
Local Abbreviation cv_loop :=
  (cv_loop words_tier phones_tier wav_name wav_duration_ms language
           use_hiragana overlap_ratio).

Lemma admits_spec anchor j next_interval :
  admits anchor j = Some next_interval ->
  nth_error phones_tier j = Some next_interval
  /\ is_skip (strip (mark next_interval)) = false
  /\ same_word (minTime anchor) (minTime next_interval) = true.
Proof.
  unfold Segmenter.admits, intervals. intros H.
  destruct (nth_error phones_tier j) as [nx|]; [|discriminate].
  destruct (is_skip (strip (mark nx))) eqn:Sk; cbn in H; [discriminate|].
  destruct (Segmenter.same_word words_tier (minTime anchor) (minTime nx)) eqn:W;
    [|discriminate].
  inversion H; subst. auto.
Qed.

(** The phone at [j] was taken into the unit that starts at [anchor]: it
    exists, is not a skip mark, and [same_word] holds between the start of
    [anchor] and its start. *)
Definition grouped (anchor : Interval) (j : nat) : Prop :=
  exists nx, nth_error phones_tier j = Some nx
             /\ is_skip (strip (mark nx)) = false
             /\ same_word (minTime anchor) (minTime nx) = true.

Lemma admits_grouped anchor j nx : admits anchor j = Some nx -> grouped anchor j.
Proof. intros H. exists nx. apply admits_spec; assumption. Qed.

(** What a structured parse that reached the vowel has consumed: the phones
    from [i] to [i' - 1], each admitted against the first one, and the
    syllable spans from the start of the first to the end of the last. *)
Lemma zh_parse_consumed i interval phone i' syl :
  nth_error phones_tier i = Some interval ->
  zh_parse i interval phone = (i', Some syl) ->
  (i < i')%nat
  /\ (forall j, (i < j < i')%nat -> grouped interval j)
  /\ syllable_start syl = minTime interval * 1000
  /\ exists last, nth_error phones_tier (i' - 1) = Some last
                  /\ syllable_end syl = maxTime last * 1000.
Proof.
  intros Hi H. unfold Segmenter.zh_parse, zh_onset, zh_medial, zh_vowel in H.
  unfold_parse H; try discriminate; inversion H; subst; clear H;
    cbn [syllable_start syllable_end];
    (split; [lia|]); (split; [|split; [reflexivity|]]);
    try (intros j Hj;
         repeat match goal with
                | A : Segmenter.admits _ _ _ ?k = Some ?nx |- _ =>
                    destruct (Nat.eq_dec j k) as [->|];
                    [intros; exact (admits_grouped _ _ _ A)|revert A]
                end; intros; exfalso; lia);
    repeat match goal with
           | A : Segmenter.admits _ _ _ _ = Some _ |- _ =>
               apply admits_spec in A; destruct A as [? [? ?]]
           end;
    cbn [Nat.sub]; rewrite ?Nat.sub_0_r;
    eauto.
Qed.

(** The same for the two-phone parse. *)
Lemma ja_parse_consumed i interval phone i' u :
  nth_error phones_tier i = Some interval ->
  ja_parse i interval phone = (i', Some u) ->
  (i < i')%nat
  /\ (forall j, (i < j < i')%nat -> grouped interval j)
  /\ pair_offset u = minTime interval * 1000
  /\ exists last, nth_error phones_tier (i' - 1) = Some last
                  /\ pair_segment_end u = maxTime last * 1000.
Proof.
  intros Hi H. unfold Segmenter.ja_parse, intervals in H.
  cbv beta iota zeta in H.
  destruct (is_consonant phone language).
  - destruct (nth_error phones_tier (i + 1)) as [nx|] eqn:N.
    + destruct (is_skip (strip (mark nx))) eqn:Sk; cbn [negb andb] in H.
      * inversion H; subst; clear H. cbn. rewrite Nat.sub_0_r.
        split; [lia|]. split; [intros; lia|]. eauto.
      * destruct (is_vowel (strip (mark nx)) language); cbn [andb] in H.
        -- destruct (Segmenter.same_word words_tier (minTime interval) (minTime nx)) eqn:W;
             inversion H; subst; clear H; cbn; rewrite ?Nat.sub_0_r.
           ++ split; [lia|]. split; [|eauto].
              intros j Hj. assert (j = (i + 1)%nat) by lia. subst j.
              exists nx. auto.
           ++ split; [lia|]. split; [intros; lia|]. eauto.
        -- inversion H; subst; clear H. cbn. rewrite Nat.sub_0_r.
           split; [lia|]. split; [intros; lia|]. eauto.
    + inversion H; subst; clear H. cbn. rewrite Nat.sub_0_r.
      split; [lia|]. split; [intros; lia|]. eauto.
  - destruct (is_vowel phone language); inversion H; subst; clear H.
    cbn. rewrite Nat.sub_0_r.
    split; [lia|]. split; [intros; lia|]. eauto.
Qed.

(** The cursor always moves forward. *)
Lemma zh_parse_progress i interval phone : (i < fst (zh_parse i interval phone))%nat.
Proof.
  destruct (zh_parse i interval phone) as [i' r] eqn:H. cbn [fst].
  unfold Segmenter.zh_parse, zh_onset, zh_medial, zh_vowel in H.
  unfold_parse H; inversion H; subst; lia.
Qed.

Lemma ja_parse_progress i interval phone : (i < fst (ja_parse i interval phone))%nat.
Proof.
  unfold Segmenter.ja_parse. cbv beta iota zeta.
  repeat match goal with
         | |- context [if ?b then _ else _] => destruct b
         | |- context [match ?x with Some _ => _ | None => _ end] => destruct x
         end; cbn [fst]; lia.
Qed.

Lemma cv_body_progress i interval : (i < fst (cv_body i interval))%nat.
Proof.
  unfold Segmenter.cv_body. cbv beta iota zeta.
  destruct (is_skip (strip (mark interval))); [cbn; lia|].
  destruct (is_chinese language).
  - pose proof (zh_parse_progress i interval (strip (mark interval))) as P.
    destruct (zh_parse i interval (strip (mark interval))); exact P.
  - pose proof (ja_parse_progress i interval (strip (mark interval))) as P.
    destruct (ja_parse i interval (strip (mark interval))); exact P.
Qed.

(** The loop is total: the length of the tier is fuel enough, and more fuel
    changes nothing. *)
Lemma cv_loop_fuel_irrelevant fuel1 : forall fuel2 i entries,
  (List.length phones_tier - i <= fuel1)%nat ->
  (List.length phones_tier - i <= fuel2)%nat ->
  cv_loop fuel1 i entries = cv_loop fuel2 i entries.
Proof.
  induction fuel1 as [|fuel1 IH]; intros fuel2 i entries H1 H2.
  - assert (N : nth_error phones_tier i = None) by (apply nth_error_None; lia).
    destruct fuel2; cbn; unfold intervals; rewrite ?N; reflexivity.
  - destruct fuel2 as [|fuel2].
    + assert (N : nth_error phones_tier i = None) by (apply nth_error_None; lia).
      cbn; unfold intervals; rewrite N; reflexivity.
    + cbn. unfold intervals.
      destruct (nth_error phones_tier i) as [iv|] eqn:N; [|reflexivity].
      pose proof (cv_body_progress i iv) as P.
      destruct (cv_body i iv) as [i' out]. cbn [fst] in P.
      apply IH; lia.
Qed.

Lemma cv_loop_fuel_enough fuel i entries :
  (List.length phones_tier - i <= fuel)%nat ->
  cv_loop fuel i entries = cv_loop (List.length phones_tier - i) i entries.
Proof. intros H. apply cv_loop_fuel_irrelevant; lia. Qed.

(** Every entry of the result was appended by the body of the loop at some
    position of the tier. *)
Lemma cv_loop_In e fuel : forall i entries,
  In e (cv_loop fuel i entries) ->
  In e entries
  \/ exists j interval, nth_error phones_tier j = Some interval
                        /\ In e (snd (cv_body j interval)).
Proof.
  induction fuel as [|fuel IH]; intros i entries H; cbn in H; [auto|].
  unfold intervals in H.
  destruct (nth_error phones_tier i) as [iv|] eqn:N; [|auto].
  destruct (cv_body i iv) as [i' out] eqn:B.
  apply IH in H. destruct H as [H|H]; [|auto].
  apply in_app_or in H. destruct H as [H|H]; [auto|].
  right. exists i, iv. rewrite B. auto.
Qed.

(** An entry appended at [i] is a unit of the phones from [i] to the new
    cursor, all taken against the first of them. *)
Lemma cv_body_unit i interval e :
  nth_error phones_tier i = Some interval ->
  In e (snd (cv_body i interval)) ->
  let i' := fst (cv_body i interval) in
  (i < i')%nat
  /\ (forall j, (i < j < i')%nat -> grouped interval j)
  /\ offset e == round1 (minTime interval * 1000)
  /\ exists last, nth_error phones_tier (i' - 1) = Some last
       /\ segment_duration e == maxTime last * 1000 - minTime interval * 1000.
Proof.
  intros Hi. unfold Segmenter.cv_body. cbv beta iota zeta.
  destruct (is_skip (strip (mark interval))); [intros []|].
  destruct (is_chinese language).
  - destruct (zh_parse i interval (strip (mark interval))) as [i' [syl|]] eqn:P;
      cbn [fst snd zh_entries]; [|intros []].
    destruct (zh_parse_consumed _ _ _ _ _ Hi P) as [L [G [S [last [Hl E]]]]].
    destruct (_syllable_to_pinyin (syllable_phones syl) language use_hiragana)
      as [al|]; [|intros []].
    destruct (nonempty al); [|intros []].
    intros [<-|[]]. cbn [offset segment_duration _calculate_oto_params].
    rewrite S, E. split; [assumption|]. split; [assumption|].
    split; [reflexivity|]. exists last. split; [assumption|reflexivity].
  - destruct (ja_parse i interval (strip (mark interval))) as [i' [u|]] eqn:P;
      cbn [fst snd ja_entries]; [|intros []].
    destruct (ja_parse_consumed _ _ _ _ _ Hi P) as [L [G [S [last [Hl E]]]]].
    destruct (ipa_to_alias (pair_consonant u) (pair_vowel u) language use_hiragana)
      as [al|]; [|intros []].
    destruct (nonempty al); [|intros []].
    intros [<-|[]]. cbn [offset segment_duration _calculate_oto_params].
    rewrite S, E. split; [assumption|]. split; [assumption|].
    split; [reflexivity|]. exists last. split; [assumption|reflexivity].
Qed.

(** C4 (as amended). In the segmentation into CV units, of both linguistic
    systems, a phone is taken into a unit only when [same_word] holds between
    the start of the first phone of the unit and its own start: every entry
    that [_extract_cv_pairs] returns is the unit of the phones from some
    position [i] to [i' - 1] of the tier (it starts at the start of the first
    and lasts to the end of the last), and each phone after the first
    satisfies [same_word] against the first. *)
Theorem C4_cv_units_stay_in_one_word :
  Forall
    (fun e =>
       exists i i' first last,
         (i < i')%nat
         /\ nth_error phones_tier i = Some first
         /\ nth_error phones_tier (i' - 1) = Some last
         /\ offset e == round1 (minTime first * 1000)
         /\ segment_duration e == maxTime last * 1000 - minTime first * 1000
         /\ forall j, (i < j < i')%nat ->
              exists nx, nth_error phones_tier j = Some nx
                         /\ same_word (minTime first) (minTime nx) = true)
    (_extract_cv_pairs words_tier phones_tier wav_name wav_duration_ms
                       language use_hiragana overlap_ratio).
Proof.
  apply Forall_forall. intros e He. unfold _extract_cv_pairs in He.
  apply cv_loop_In in He. destruct He as [[]|[i [iv [Hi He]]]].
  destruct (cv_body_unit _ _ _ Hi He) as [L [G [O [last [Hl D]]]]].
  exists i, (fst (cv_body i iv)), iv, last.
  repeat split; try assumption.
  intros j Hj. destruct (G j Hj) as [nx [N [_ W]]]. eauto.
Qed.

(** ** The cursor when the vowel is not reached *)

(** The phones that a failed structured parse passes after its first one:
    the admitted successor of a consonant, and the admitted successor of
    that successor when it is a medial. *)
Definition passed_after_first (i : nat) (interval : Interval) (phone : string)
  : nat :=
  if is_consonant phone language then
    match admits interval (S i) with
    | Some nx =>
        if is_medial (strip (mark nx)) then
          match admits interval (S (S i)) with
          | Some _ => 2
          | None => 1
          end
        else 1
    | None => 0
    end
  else 0.

Lemma medial_is_consonant phone :
  is_chinese language = true -> is_medial phone = true ->
  is_consonant phone language = true.
Proof.
  unfold is_medial, is_consonant. intros Hc Hm. rewrite Hc.
  apply mem_In in Hm. unfold CHINESE_MEDIALS in Hm. cbn [In] in Hm.
  destruct Hm as [<-|[<-|[<-|[]]]]; reflexivity.
Qed.

Lemma zh_parse_failure i interval phone i' :
  is_chinese language = true ->
  zh_parse i interval phone = (i', None) ->
  i' = (i + 1 + passed_after_first i interval phone)%nat.
Proof.
  intros Hc H. unfold passed_after_first.
  unfold Segmenter.zh_parse, zh_onset, zh_medial, zh_vowel in H.
  unfold_parse H; try discriminate; inversion H; subst; clear H;
    repeat match goal with
           | E : ?b = _ |- context [if ?b then _ else _] => rewrite E
           | E : ?x = _ |- context [match ?x with Some _ => _ | None => _ end] =>
               rewrite E
           end; try lia.
  all: match goal with
       | M : is_medial ?p = true, C : is_consonant ?p language = false |- _ =>
           rewrite (medial_is_consonant _ Hc M) in C; discriminate C
       end.
Qed.

(** C5 (as amended). In the segmenter of the structured system, when the
    vowel cannot be reached the phones taken so far are dropped (the body of
    the loop appends no entry) and the cursor moves past the first phone and
    past every phone that the attempt admitted after it: the admitted
    successor of a consonant, and the admitted successor of that successor
    when it is a medial.  The cursor so advances by one, two or three
    phones. *)
Theorem C5_cursor_when_vowel_not_reached (i : nat) (interval : Interval) :
  is_chinese language = true ->
  nth_error phones_tier i = Some interval ->
  is_skip (strip (mark interval)) = false ->
  snd (zh_parse i interval (strip (mark interval))) = None ->
  cv_body i interval
  = ((i + 1 + passed_after_first i interval (strip (mark interval)))%nat, [])
  /\ (passed_after_first i interval (strip (mark interval)) <= 2)%nat.
Proof.
  intros Hc Hi Hs Hn. split.
  - unfold Segmenter.cv_body. cbv beta iota zeta. rewrite Hs, Hc.
    destruct (zh_parse i interval (strip (mark interval))) as [i' r] eqn:P.
    cbn [snd] in Hn. subst r.
    rewrite (zh_parse_failure _ _ _ _ Hc P). reflexivity.
  - unfold passed_after_first.
    repeat match goal with
           | |- context [if ?b then _ else _] => destruct b
           | |- context [match ?x with Some _ => _ | None => _ end] => destruct x
           end; lia.
Qed.

(** ** The duration of the onset *)




End SegmenterProperties.

(* ================================================================== *)
(** * Properties of the transition units *)
(* ================================================================== *)

Import Transition.

Section TransitionProperties.

Open Scope Q_scope.

Variable phones_tier : list Interval.
Variable wav_name : string.
Variable wav_duration_ms : Q.
Variable language : string.
Variable vc_offset_ratio : Q.
Variable vc_overlap_ratio : Q.
Variable vc_separator : string.

Local Abbreviation vc_parse := (vc_parse phones_tier language).
Local Abbreviation vc_body := (vc_body phones_tier language).
Local Abbreviation vc_loop := (vc_loop phones_tier language).
Local Abbreviation vc_keep := (vc_keep language).
Local Abbreviation vc_pair :=
  (vc_pair wav_name wav_duration_ms vc_offset_ratio vc_overlap_ratio vc_separator).
Local Abbreviation vc_pairs :=
  (vc_pairs wav_name wav_duration_ms vc_offset_ratio vc_overlap_ratio vc_separator).

Ltac unfold_vc_parse H :=
  repeat (cbv beta iota zeta in H;
          cbn [vs_phones vs_consonant_duration vs_vowel_start vs_has_consonant
               vs_i vs_phone] in H;
          match type of H with
          | context [match next_phone_at ?p ?j with _ => _ end] =>
              let E := fresh "A" in
              let nx := fresh "nx" in
              destruct (next_phone_at p j) as [nx|] eqn:E
          | context [if ?b then _ else _] => destruct b eqn:?
          end).


(** The flag alone needs no assumption. *)
Lemma vc_parse_has_consonant i interval phone i' p :
  vc_parse i interval phone = (i', Some p) ->
  vp_has_consonant p = is_consonant phone language.
Proof.
  intros H.
  unfold Transition.vc_parse, vc_onset, vc_medial, vc_vowel in H.
  unfold_vc_parse H; try discriminate; inversion H; subst; reflexivity.
Qed.

Lemma vc_keep_consonant_part vowel_map consonant_map p s :
  In s (vc_keep vowel_map consonant_map (Some p)) ->
  consonant_part s
  = if vp_has_consonant p
    then _find_consonant_in_mapping (pinyin s) consonant_map else None.
Proof.
  unfold Transition.vc_keep.
  destruct (_syllable_to_pinyin (vp_phones p) language false) as [py|]; [|intros []].
  destruct (nonempty py); [|intros []].
  destruct (_find_vowel_in_mapping py vowel_map) as [vp|]; [|intros []].
  destruct (nonempty vp); [|intros []].
  intros [<-|[]]. reflexivity.
Qed.

Lemma vc_loop_In vowel_map consonant_map s fuel : forall i syllables,
  In s (vc_loop vowel_map consonant_map fuel i syllables) ->
  In s syllables
  \/ exists j interval, nth_error phones_tier j = Some interval
       /\ In s (snd (vc_body vowel_map consonant_map j interval)).
Proof.
  induction fuel as [|fuel IH]; intros i syllables H; cbn in H; [auto|].
  destruct (nth_error phones_tier i) as [iv|] eqn:N; [|auto].
  destruct (vc_body vowel_map consonant_map i iv) as [i' out] eqn:B.
  apply IH in H. destruct H as [H|H]; [|auto].
  apply in_app_or in H. destruct H as [H|H]; [auto|].
  right. exists i, iv. rewrite B. auto.
Qed.

(** A kept syllable whose parse started at a phone that is not a consonant
    has no onset. *)
Lemma vc_syllable_onset s :
  In s (vc_syllables phones_tier language) ->
  exists j interval,
    nth_error phones_tier j = Some interval
    /\ (is_consonant (strip (mark interval)) language = false ->
        consonant_part s = None).
Proof.
  unfold vc_syllables.
  destruct _load_presamp_mapping as [vm cm]. intros H.
  apply vc_loop_In in H. destruct H as [[]|[j [iv [N H]]]].
  exists j, iv. split; [assumption|]. intros C.
  unfold Transition.vc_body in H. cbv beta iota zeta in H.
  destruct (is_skip (strip (mark iv))); [destruct H|].
  destruct (vc_parse j iv (strip (mark iv))) as [i' [p|]] eqn:P;
    cbn [snd] in H; [|destruct H].
  rewrite (vc_keep_consonant_part _ _ _ _ H).
  rewrite (vc_parse_has_consonant _ _ _ _ _ P), C. reflexivity.
Qed.

Lemma vc_pair_spec current next_syl e :
  In e (vc_pair current next_syl) ->
  exists c, consonant_part next_syl = Some c /\ nonempty c = true
    /\ e = _calculate_vc_params wav_name
             (vowel_part current ++ vc_separator ++ c)%string
             (vowel_start current) (vowel_end current)
             (vc_syllable_end next_syl)
             wav_duration_ms vc_offset_ratio vc_overlap_ratio.
Proof.
  unfold Transition.vc_pair.
  destruct (consonant_part next_syl) as [c|]; [|intros []].
  destruct (nonempty c) eqn:N; [|intros []].
  intros [<-|[]]. exists c. auto.
Qed.

Lemma vc_pairs_In e syllables :
  In e (vc_pairs syllables) ->
  exists pre current next_syl post,
    syllables = (pre ++ current :: next_syl :: post)%list
    /\ In e (vc_pair current next_syl).
Proof.
  induction syllables as [|cur rest IH]; [intros []|].
  cbn [Transition.vc_pairs]. destruct rest as [|nxt rest']; [intros []|].
  intros H. apply in_app_or in H. destruct H as [H|H].
  - exists [], cur, nxt, rest'. auto.
  - destruct (IH H) as [pre [c [n [post [E I]]]]].
    exists (cur :: pre), c, n, post. rewrite E. auto.
Qed.

(** X30. Every entry of [_extract_vc_pairs] is the transition unit of two
    neighbouring syllables of the parse, of which the second has an onset
    that is not empty: it is computed from the vowel start and the vowel end
    recorded for the first syllable and from the end recorded for the
    second.  Two syllables of which the second has no onset give no
    entry. *)
Theorem vc_entries_emitted :
  Forall
    (fun e =>
       exists pre current next_syl post c,
         vc_syllables phones_tier language
         = (pre ++ current :: next_syl :: post)%list
         /\ consonant_part next_syl = Some c /\ c <> ""%string
         /\ e = _calculate_vc_params wav_name
                  (vowel_part current ++ vc_separator ++ c)%string
                  (vowel_start current) (vowel_end current)
                  (vc_syllable_end next_syl)
                  wav_duration_ms vc_offset_ratio vc_overlap_ratio)
    (_extract_vc_pairs phones_tier wav_name wav_duration_ms language
                       vc_offset_ratio vc_overlap_ratio vc_separator)
  /\ (forall current next_syl,
        consonant_part next_syl = None -> vc_pair current next_syl = []).
Proof.
  split.
  - apply Forall_forall. intros e He. unfold _extract_vc_pairs in He.
    destruct (negb (is_chinese language)); [destruct He|].
    destruct _load_presamp_mapping as [vm cm].
    assert (He' : In e (vc_pairs (vc_syllables phones_tier language))).
    { destruct vm; [destruct He|]. destruct cm; [destruct He|]. exact He. }
    clear He. apply vc_pairs_In in He'.
    destruct He' as [pre [cur [nxt [post [E I]]]]].
    apply vc_pair_spec in I. destruct I as [c [Hc [Hn ->]]].
    exists pre, cur, nxt, post, c. repeat split; try assumption.
    intros ->. discriminate Hn.
  - intros current next_syl H. unfold Transition.vc_pair. rewrite H. reflexivity.
Qed.

End TransitionProperties.

(* ================================================================== *)
(** * The envelope invariant *)
(* ================================================================== *)

(** An entry built by one of the three places that build entries, from
    boundaries that are in order and ratios that are not negative. *)
Inductive built_in_order : Entry -> Prop :=
| built_simple (wav al : string) (off cd se wd r : Q) :
    (0 <= cd)%Q -> (cd <= se - off)%Q -> (0 <= r)%Q ->
    built_in_order (_calculate_oto_params wav al off cd se wd r)
| built_transition (wav al : string) (vs ve ce wd ro rv : Q) :
    (vs <= ve)%Q -> (ve <= ce)%Q -> (0 <= ro)%Q -> (0 <= rv)%Q ->
    built_in_order (_calculate_vc_params wav al vs ve ce wd ro rv)
| built_combined (wav al : string) (cd total r : Q) :
    (0 <= cd)%Q -> (cd <= total)%Q -> (0 <= r)%Q ->
    built_in_order (combined_entry wav al cd total r).

(** A tier whose intervals last and follow each other in time, as the
    intervals of a TextGrid tier do. *)
Definition tier_in_order (tier : list Interval) : Prop :=
  (forall i a, nth_error tier i = Some a -> (minTime a < maxTime a)%Q)
  /\ (forall i a b, nth_error tier i = Some a -> nth_error tier (S i) = Some b ->
        (maxTime a <= minTime b)%Q).

Section EnvelopeInvariant.

Open Scope Q_scope.

Variable words_tier : list Interval.
Variable phones_tier : list Interval.
Variable wav_name : string.
Variable wav_duration_ms : Q.
Variable language : string.
Variable use_hiragana : bool.
Variable overlap_ratio : Q.

Hypothesis tier_ok : tier_in_order phones_tier.
Hypothesis ratio_ok : 0 <= overlap_ratio.

Ltac saturate_order :=
  destruct tier_ok as [Hpos Hadj];
  repeat match goal with
         | N : nth_error phones_tier _ = Some ?x |- _ =>
             lazymatch goal with
             | _ : minTime x < maxTime x |- _ => fail
             | _ => pose proof (Hpos _ _ N)
             end
         end;
  repeat match goal with
         | N1 : nth_error phones_tier ?k = Some ?x,
           N2 : nth_error phones_tier (S ?k) = Some ?y |- _ =>
             lazymatch goal with
             | _ : maxTime x <= minTime y |- _ => fail
             | _ => pose proof (Hadj _ _ _ N1 N2)
             end
         end.

Lemma zh_parse_bounds i interval phone i' syl :
  nth_error phones_tier i = Some interval ->
  zh_parse words_tier phones_tier language i interval phone = (i', Some syl) ->
  0 <= consonant_duration syl
  /\ consonant_duration syl <= syllable_end syl - syllable_start syl.
Proof.
  intros Hi H.
  unfold zh_parse, zh_onset, zh_medial, zh_vowel in H.
  unfold_parse H; try discriminate; inversion H; subst; clear H;
    cbn [syllable_start syllable_end consonant_duration];
    repeat match goal with
           | A : admits _ _ _ _ = Some _ |- _ =>
               apply admits_spec in A; destruct A as [A _]
           end;
    saturate_order;
    try match goal with
        | |- context [py_min ?a ?b] =>
            destruct (py_min_cases a b) as [[? ->]|[? ->]]
        end;
    split; lra.
Qed.

Lemma ja_parse_bounds i interval phone i' u :
  nth_error phones_tier i = Some interval ->
  ja_parse words_tier phones_tier language i interval phone = (i', Some u) ->
  0 <= pair_consonant_duration u
  /\ pair_consonant_duration u <= pair_segment_end u - pair_offset u.
Proof.
  intros Hi H. unfold ja_parse, intervals in H. cbv beta iota zeta in H.
  replace (i + 1)%nat with (S i) in H by lia.
  destruct (is_consonant phone language).
  - destruct (nth_error phones_tier (S i)) as [nx|] eqn:N.
    + destruct (negb (is_skip (strip (mark nx)))
                && is_vowel (strip (mark nx)) language
                && same_word words_tier (minTime interval) (minTime nx));
        inversion H; subst; clear H; cbn; saturate_order; split; lra.
    + inversion H; subst; clear H; cbn; saturate_order; split; lra.
  - destruct (is_vowel phone language); inversion H; subst; clear H. cbn.
    saturate_order.
    match goal with
    | |- context [py_min ?a ?b] =>
        destruct (py_min_cases a b) as [[? ->]|[? ->]]
    end; split; lra.
Qed.

(** Every CV entry of an ordered tier is built from boundaries in order. *)
Lemma cv_entries_built_in_order :
  Forall built_in_order
    (_extract_cv_pairs words_tier phones_tier wav_name wav_duration_ms
                       language use_hiragana overlap_ratio).
Proof.
  apply Forall_forall. intros e He. unfold _extract_cv_pairs in He.
  apply cv_loop_In in He. destruct He as [[]|[i [iv [Hi He]]]].
  unfold cv_body in He. cbv beta iota zeta in He.
  destruct (is_skip (strip (mark iv))); [destruct He|].
  destruct (is_chinese language).
  - destruct (zh_parse words_tier phones_tier language i iv (strip (mark iv)))
      as [i' [syl|]] eqn:P; cbn [snd zh_entries] in He; [|destruct He].
    destruct (zh_parse_bounds _ _ _ _ _ Hi P) as [B0 B1].
    destruct (_syllable_to_pinyin (syllable_phones syl) language use_hiragana)
      as [al|]; [|destruct He].
    destruct (nonempty al); [|destruct He].
    destruct He as [<-|[]]. apply built_simple; assumption.
  - destruct (ja_parse words_tier phones_tier language i iv (strip (mark iv)))
      as [i' [u|]] eqn:P; cbn [snd ja_entries] in He; [|destruct He].
    destruct (ja_parse_bounds _ _ _ _ _ Hi P) as [B0 B1].
    destruct (ipa_to_alias (pair_consonant u) (pair_vowel u) language use_hiragana)
      as [al|]; [|destruct He].
    destruct (nonempty al); [|destruct He].
    destruct He as [<-|[]]. apply built_simple; assumption.
Qed.

End EnvelopeInvariant.

Lemma built_in_order_envelope_ok (e : Entry) : built_in_order e -> envelope_ok e.
Proof.
  intros [wav al off cd se wd r H0 H1 Hr
         |wav al vs ve ce wd ro rv H0 H1 Hro Hrv
         |wav al cd total r H0 H1 Hr].
  - apply oto_params_envelope_ok; assumption.
  - apply vc_params_envelope_ok; assumption.
  - apply combined_entry_envelope_ok; assumption.
Qed.

(** X31. From boundaries that are in order and ratios that are not
    negative, each of the three builders of entries returns an envelope:
    the simple-unit calculator from 0 <= onset duration <= length of the
    unit, the transition-unit calculator from vowelStart <= vowelEnd <=
    consonantEndNext, the builder of a combined unit from 0 <= consonant
    duration <= total duration.  In each case [cutoff] equals
    [-segment_duration] rounded to one decimal place, [preutterance <=
    -cutoff], and [overlap >= 0]. *)
Theorem calculators_envelope_in_order :
  (forall (wav al : string) (off cd se wd r : Q),
     (0 <= cd)%Q -> (cd <= se - off)%Q -> (0 <= r)%Q ->
     envelope_ok (_calculate_oto_params wav al off cd se wd r))
  /\ (forall (wav al : string) (vs ve ce wd ro rv : Q),
        (vs <= ve)%Q -> (ve <= ce)%Q -> (0 <= ro)%Q -> (0 <= rv)%Q ->
        envelope_ok (_calculate_vc_params wav al vs ve ce wd ro rv))
  /\ (forall (wav al : string) (cd total r : Q),
        (0 <= cd)%Q -> (cd <= total)%Q -> (0 <= r)%Q ->
        envelope_ok (combined_entry wav al cd total r)).
Proof.
  split; [|split]; intros.
  - apply oto_params_envelope_ok; assumption.
  - apply vc_params_envelope_ok; assumption.
  - apply combined_entry_envelope_ok; assumption.
Qed.

(* ================================================================== *)
(** * Properties of the crossfade *)
(* ================================================================== *)

Import Synth.

Section CrossfadeProperties.

Lemma linspace_length (a b : Q) (n : nat) : List.length (linspace a b n) = n.
Proof.
  destruct n as [|[|m]]; [reflexivity|reflexivity|].
  unfold linspace. rewrite length_map, length_seq. reflexivity.
Qed.

Lemma zip_with_length (f : Q -> Q -> Q) (a : list Q) : forall b,
  List.length a = List.length b -> List.length (zip_with f a b) = List.length a.
Proof.
  induction a as [|x a IH]; intros [|y b] H; cbn in *; try discriminate; auto.
Qed.

Lemma elementwise_same_length (f : Q -> Q -> Q) (a b : list Q) :
  List.length a = List.length b ->
  exists c, elementwise f a b = Some c /\ List.length c = List.length a.
Proof.
  intros H. unfold elementwise.
  rewrite (proj2 (Nat.eqb_eq _ _) H).
  exists (zip_with f a b). split; [reflexivity|].
  apply zip_with_length; assumption.
Qed.

(** The length of a crossfade of [n] samples, for 1 <= n <= both lengths. *)
Lemma crossfade_concat_length (audio1 audio2 : list Q) (cs : Z) :
  (1 <= cs)%Z -> (cs <= Z.of_nat (List.length audio1))%Z ->
  (cs <= Z.of_nat (List.length audio2))%Z ->
  exists combined,
    _crossfade_concat audio1 audio2 cs = Some combined
    /\ Z.of_nat (List.length combined)
       = (Z.of_nat (List.length audio1) + Z.of_nat (List.length audio2) - cs)%Z.
Proof.
  intros H1 Ha Hb. unfold _crossfade_concat.
  destruct (cs <=? 0)%Z eqn:E; [apply Z.leb_le in E; lia|].
  cbv zeta. unfold py_min3.
  rewrite (Z.min_l cs _ Ha), (Z.min_l cs _ Hb).
  set (n := Z.to_nat cs).
  assert (Hn : (1 <= n)%nat) by (subst n; lia).
  assert (Hna : (n <= List.length audio1)%nat) by (subst n; lia).
  assert (Hnb : (n <= List.length audio2)%nat) by (subst n; lia).
  assert (L1 : List.length (slice_from_neg audio1 n) = n).
  { unfold slice_from_neg. destruct n; [lia|]. rewrite length_skipn. lia. }
  assert (L2 : List.length (firstn n audio2) = n).
  { rewrite length_firstn. lia. }
  destruct (elementwise_same_length Qmult (slice_from_neg audio1 n) (linspace 1 0 n))
    as [f1 [E1 F1]]; [rewrite L1, linspace_length; reflexivity|].
  destruct (elementwise_same_length Qmult (firstn n audio2) (linspace 0 1 n))
    as [f2 [E2 F2]]; [rewrite L2, linspace_length; reflexivity|].
  rewrite E1, E2.
  destruct (elementwise_same_length Qplus f1 f2) as [cf [E3 F3]]; [congruence|].
  rewrite E3. eexists. split; [reflexivity|].
  rewrite !length_app, length_skipn, F3, F1, L1.
  unfold slice_to_neg. destruct n as [|n'] eqn:En; [lia|].
  rewrite length_firstn. lia.
Qed.

Lemma chosen_crossfade_bounds (crossfade_ms sr : Z) (len_c len_v : nat) :
  let cs := chosen_crossfade crossfade_ms sr len_c len_v in
  (1 <= cs)%Z
  /\ (cs <= Z.max 1 (Z.min (Z.of_nat len_c) (Z.of_nat len_v) / 2))%Z.
Proof.
  unfold chosen_crossfade. cbv zeta.
  set (raw := int_of_Q _). unfold py_min3.
  assert (M : (Z.min (Z.of_nat len_c / 2) (Z.of_nat len_v / 2)
               = Z.min (Z.of_nat len_c) (Z.of_nat len_v) / 2)%Z).
  { destruct (Z.le_ge_cases (Z.of_nat len_c) (Z.of_nat len_v)) as [L|L].
    - rewrite (Z.min_l _ _ L). apply Z.min_l. apply Z.div_le_mono; lia.
    - rewrite (Z.min_r _ _ L). apply Z.min_r. apply Z.div_le_mono; lia. }
  destruct (Z.min (Z.min raw (Z.of_nat len_c / 2)) (Z.of_nat len_v / 2) <? 1)%Z eqn:E.
  - lia.
  - apply Z.ltb_ge in E. split; [assumption|].
    rewrite <- M. lia.
Qed.

(** C7 (as amended). For two non-empty segments combined by
    [_combine_and_save], the crossfade length chosen is at least 1 and at
    most max(1, min(len(audio1), len(audio2)) // 2) -- at most half the
    shorter segment as soon as that half is a sample or more -- and the
    concatenation succeeds with
    len(combined) = len(audio1) + len(audio2) - crossfadeSamples. *)
Theorem C7_crossfade_length (audio1 audio2 : list Q) (crossfade_ms sr : Z) :
  audio1 <> [] -> audio2 <> [] ->
  let cs := chosen_crossfade crossfade_ms sr (List.length audio1) (List.length audio2) in
  let shorter := Z.min (Z.of_nat (List.length audio1)) (Z.of_nat (List.length audio2)) in
  (1 <= cs)%Z
  /\ (cs <= Z.max 1 (shorter / 2))%Z
  /\ ((2 <= shorter)%Z -> (cs <= shorter / 2)%Z)
  /\ exists combined,
       _crossfade_concat audio1 audio2 cs = Some combined
       /\ Z.of_nat (List.length combined)
          = (Z.of_nat (List.length audio1) + Z.of_nat (List.length audio2) - cs)%Z.
Proof.
  intros N1 N2 cs shorter.
  destruct (chosen_crossfade_bounds crossfade_ms sr (List.length audio1)
              (List.length audio2)) as [B1 B2].
  fold cs in B1, B2. fold shorter in B2.
  assert (P1 : (1 <= Z.of_nat (List.length audio1))%Z)
    by (destruct audio1; [congruence|cbn; lia]).
  assert (P2 : (1 <= Z.of_nat (List.length audio2))%Z)
    by (destruct audio2; [congruence|cbn; lia]).
  assert (Hh : (shorter / 2 <= shorter)%Z)
    by (apply Z.div_le_upper_bound; subst shorter; lia).
  split; [assumption|]. split; [assumption|]. split.
  - intros S2. assert (1 <= shorter / 2)%Z by (apply Z.div_le_lower_bound; lia).
    lia.
  - apply crossfade_concat_length; subst shorter; lia.
Qed.

Lemma C7_crossfade_length_witness :
  let audio1 := [1; 1; 1; 1]%Q in
  let audio2 := [1; 1; 1; 1; 1; 1]%Q in
  let cs := chosen_crossfade 10 1000 4 6 in
  (1 <= cs)%Z /\ (cs <= Z.max 1 (4 / 2))%Z /\ ((2 <= 4)%Z -> (cs <= 4 / 2)%Z)
  /\ exists combined,
       _crossfade_concat audio1 audio2 cs = Some combined
       /\ Z.of_nat (List.length combined) = (4 + 6 - cs)%Z.
Proof.
  apply (C7_crossfade_length [1; 1; 1; 1]%Q [1; 1; 1; 1; 1; 1]%Q 10 1000);
    discriminate.
Defined.

(** With a segment of one sample the chosen length is 1, which is more than
    half the shorter segment (0); the length of the result is still
    len(audio1) + len(audio2) - 1. *)
Lemma C7_counterexample :
  let audio1 := [1]%Q in
  let audio2 := [1; 1; 1; 1]%Q in
  let cs := chosen_crossfade 10 1000 (List.length audio1) (List.length audio2) in
  cs = 1%Z
  /\ (Z.min (Z.of_nat (List.length audio1)) (Z.of_nat (List.length audio2)) / 2 = 0)%Z
  /\ (cs <=? Z.min (Z.of_nat (List.length audio1)) (Z.of_nat (List.length audio2)) / 2)%Z
     = false
  /\ option_map (@List.length Q) (_crossfade_concat audio1 audio2 cs) = Some 4%nat.
Proof. vm_compute. repeat split; reflexivity. Qed.

End CrossfadeProperties.

(* ================================================================== *)
(** * Properties of the quality selector *)
(* ================================================================== *)

Import Quality.

Section SortingProperties.

Open Scope Q_scope.

Variable A : Type.
Variable key : A -> Q.

(** The elements whose key is [s]. *)
Definition with_key (s : Q) (l : list A) : list A :=
  filter (fun x => Qeq_bool (key x) s) l.

Lemma insert_by_length x l : List.length (insert_by key x l) = S (List.length l).
Proof.
  induction l as [|y l IH]; cbn; [reflexivity|].
  destruct (Qle_bool (key x) (key y)); cbn; [reflexivity|]. rewrite IH. reflexivity.
Qed.

Lemma sorted_by_length l : List.length (sorted_by key l) = List.length l.
Proof.
  unfold sorted_by. induction l as [|x l IH]; cbn [fold_right]; [reflexivity|].
  rewrite insert_by_length, IH. reflexivity.
Qed.

(** Inserting [x] puts it in front of the elements of its own key. *)
Lemma with_key_insert_by s x l :
  with_key s (insert_by key x l)
  = if Qeq_bool (key x) s then x :: with_key s l else with_key s l.
Proof.
  induction l as [|y l IH]; cbn.
  - destruct (Qeq_bool (key x) s); reflexivity.
  - destruct (Qle_bool (key x) (key y)) eqn:L; cbn.
    + destruct (Qeq_bool (key x) s); reflexivity.
    + unfold with_key in IH. rewrite IH.
      destruct (Qeq_bool (key x) s) eqn:Ex; [|reflexivity].
      destruct (Qeq_bool (key y) s) eqn:Ey; [|reflexivity].
      exfalso. apply Qeq_bool_iff in Ex. apply Qeq_bool_iff in Ey.
      assert (T : Qle_bool (key x) (key y) = true).
      { apply Qle_bool_iff. rewrite Ex, Ey. apply Qle_refl. }
      congruence.
Qed.

(** The sort is stable: the elements of one key keep their order. *)
Lemma sorted_by_stable s l : with_key s (sorted_by key l) = with_key s l.
Proof.
  unfold sorted_by. induction l as [|x l IH]; cbn [fold_right]; [reflexivity|].
  rewrite with_key_insert_by, IH. unfold with_key. cbn [filter].
  destruct (Qeq_bool (key x) s); reflexivity.
Qed.

Lemma insert_by_sorted x l :
  StronglySorted (fun a b => key a <= key b) l ->
  StronglySorted (fun a b => key a <= key b) (insert_by key x l).
Proof.
  induction 1 as [|y l Hs IH Hall]; cbn.
  - constructor; constructor.
  - destruct (Qle_bool (key x) (key y)) eqn:L.
    + apply Qle_bool_iff in L. constructor.
      * constructor; assumption.
      * constructor; [assumption|].
        eapply Forall_impl; [|exact Hall]. intros z Hz. cbn beta in *. lra.
    + assert (Lt : key y <= key x).
      { destruct (Qlt_le_dec (key y) (key x)) as [G|G]; [lra|].
        apply Qle_bool_iff in G. congruence. }
      constructor; [assumption|].
      clear IH Hs. induction l as [|z l IHl]; cbn.
      * constructor; [assumption|constructor].
      * inversion Hall; subst.
        destruct (Qle_bool (key x) (key z)); constructor; auto.
Qed.

Lemma sorted_by_sorted l :
  StronglySorted (fun a b => key a <= key b) (sorted_by key l).
Proof.
  unfold sorted_by. induction l as [|x l IH]; cbn [fold_right]; [constructor|].
  apply insert_by_sorted; assumption.
Qed.

Lemma with_key_firstn s k l :
  exists rest, with_key s l = (with_key s (firstn k l) ++ rest)%list.
Proof.
  exists (with_key s (skipn k l)). unfold with_key.
  rewrite <- filter_app, firstn_skipn. reflexivity.
Qed.

Lemma firstn_sorted (R : A -> A -> Prop) k : forall l,
  StronglySorted R l -> StronglySorted R (firstn k l).
Proof.
  induction k as [|k IH]; intros l H; cbn; [constructor|].
  destruct l as [|x l]; [constructor|].
  inversion H; subst. constructor; [auto|].
  apply Forall_forall. intros y Hy.
  eapply Forall_forall; [eassumption|].
  rewrite <- (firstn_skipn k l). apply in_or_app. auto.
Qed.

End SortingProperties.

Arguments with_key {A} key s l.
Arguments sorted_by_length {A} key l.
Arguments sorted_by_stable {A} key s l.
Arguments sorted_by_sorted {A} key l.
Arguments with_key_firstn {A} key s k l.
Arguments firstn_sorted {A} R k l _.

Lemma StronglySorted_weaken {A : Type} (R R' : A -> A -> Prop) (l : list A) :
  (forall a b, R a b -> R' a b) -> StronglySorted R l -> StronglySorted R' l.
Proof.
  intros I. induction 1 as [|x l Hs IH Hall]; constructor; [assumption|].
  eapply Forall_impl; [|exact Hall]. intros b. apply I.
Qed.

Section SelectorProperties.

Open Scope Q_scope.

Variable duration_score : Q -> Q.
Variable audio_score : Entry -> Q.
Variable apply_naming_rule : string -> string -> nat -> string.
Variable max_samples : Z.
Variable naming_rule : string.
Variable first_naming_rule : string.
Variable enabled_metrics : list string.

Local Abbreviation scored_group :=
  (scored_group duration_score audio_score enabled_metrics).
Local Abbreviation kept_group :=
  (kept_group duration_score audio_score max_samples enabled_metrics).
Local Abbreviation select_group :=
  (select_group duration_score audio_score apply_naming_rule max_samples
                naming_rule first_naming_rule enabled_metrics).

Lemma enumerate_from_length {B : Type} (l : list B) : forall n,
  List.length (enumerate_from n l) = List.length l.
Proof. induction l as [|x l IH]; intros n; cbn; [reflexivity|]. rewrite IH; reflexivity. Qed.

Lemma enumerate_from_snd {B : Type} (l : list B) : forall n,
  map snd (enumerate_from n l) = l.
Proof. induction l as [|x l IH]; intros n; cbn; [reflexivity|]. rewrite IH; reflexivity. Qed.

Lemma scored_group_length group : List.length (scored_group group) = List.length group.
Proof.
  unfold Quality.scored_group.
  destruct (need_audio_scoring enabled_metrics); apply length_map.
Qed.

(** The entries of [select_group] are the kept entries, renamed. *)
Lemma select_group_unnamed base_alias group :
  map (set_alias base_alias) (select_group base_alias group)
  = map (set_alias base_alias) (kept_group group).
Proof.
  unfold Quality.select_group. rewrite map_map.
  rewrite <- (enumerate_from_snd (kept_group group) 0) at 2.
  rewrite map_map. apply map_ext. intros [n e]. reflexivity.
Qed.

Lemma with_key_set_alias a s (l : list Entry) :
  map (set_alias a) (with_key (fun x => - score_of x) s l)
  = with_key (fun x => - score_of x) s (map (set_alias a) l).
Proof.
  unfold with_key. induction l as [|e l IH]; cbn [filter map]; [reflexivity|].
  change (score_of (set_alias a e)) with (score_of e).
  destruct (Qeq_bool (- score_of e) s); cbn [map]; rewrite IH; reflexivity.
Qed.

(** What the selector keeps of one group, for a [topK] that is not
    negative: exactly min(topK, len(group)) entries, in descending order of
    score, and for every score the kept entries of that score are, in the
    same order, the first of the entries of the group with that score.
    (The kept entries are compared with the scored group up to their alias,
    which the selector replaces by the final name.) *)
Lemma select_group_top_k_stable (base_alias : string) (group : list Entry) :
  (0 <= max_samples)%Z ->
  let output := select_group base_alias group in
  List.length output = Nat.min (Z.to_nat max_samples) (List.length group)
  /\ StronglySorted (fun a b => score_of b <= score_of a) output
  /\ forall score : Q,
       exists rest,
         map (set_alias base_alias)
             (filter (fun e => Qeq_bool (score_of e) score) (scored_group group))
         = (map (set_alias base_alias)
                (filter (fun e => Qeq_bool (score_of e) score) output)
            ++ rest)%list.
Proof.
  intros Hk output.
  assert (Kept : kept_group group
                 = firstn (Z.to_nat max_samples)
                          (sorted_by (fun x => - score_of x) (scored_group group))).
  { unfold Quality.kept_group, slice_to, sorted_group.
    destruct (0 <=? max_samples)%Z eqn:E; [reflexivity|].
    apply Z.leb_gt in E. lia. }
  assert (Un : map (set_alias base_alias) output
               = map (set_alias base_alias) (kept_group group))
    by apply select_group_unnamed.
  split; [|split].
  - subst output. unfold Quality.select_group.
    rewrite length_map, enumerate_from_length.
    fold (kept_group group). rewrite Kept.
    rewrite length_firstn, sorted_by_length, scored_group_length. reflexivity.
  - assert (Srt : StronglySorted (fun a b => score_of b <= score_of a)
                               (kept_group group)).
    { rewrite Kept. apply firstn_sorted.
      eapply StronglySorted_weaken;
        [|apply (sorted_by_sorted (fun x => - score_of x))].
      intros a b H. cbn beta in H. lra. }
    revert Srt. subst output. unfold Quality.select_group.
    fold (kept_group group). generalize (kept_group group) as l.
    generalize 0%nat as n. intros n l. revert n.
    induction l as [|e l IH]; intros n Srt; cbn; [constructor|].
    inversion Srt; subst. constructor; [apply IH; assumption|].
    apply Forall_forall. intros x Hx. apply in_map_iff in Hx.
    destruct Hx as [[m y] [<- Hy]]. cbn.
    assert (Iy : In y l).
    { rewrite <- (enumerate_from_snd l (S n)). apply in_map_iff.
      exists (m, y). auto. }
    eapply Forall_forall in Iy; [|eassumption]. exact Iy.
  - intros score.
    assert (F : forall l : list Entry,
              filter (fun e => Qeq_bool (score_of e) score) l
              = with_key (fun x => - score_of x) (- score) l).
    { intros l. unfold with_key. apply filter_ext. intros e.
      destruct (Qeq_bool (score_of e) score) eqn:E1;
        destruct (Qeq_bool (- score_of e) (- score)) eqn:E2; try reflexivity.
      - apply Qeq_bool_iff in E1.
        assert (T : Qeq_bool (- score_of e) (- score) = true)
          by (apply Qeq_bool_iff; rewrite E1; reflexivity).
        congruence.
      - apply Qeq_bool_iff in E2.
        assert (T : Qeq_bool (score_of e) score = true)
          by (apply Qeq_bool_iff; lra).
        congruence. }
    rewrite !F, !with_key_set_alias, Un, <- !with_key_set_alias, Kept.
    rewrite <- (sorted_by_stable (fun x => - score_of x) (- score) (scored_group group)).
    destruct (with_key_firstn (fun x => - score_of x) (- score)
                (Z.to_nat max_samples)
                (sorted_by (fun x => - score_of x) (scored_group group)))
      as [rest R].
    exists (map (set_alias base_alias) rest).
    rewrite R at 1. apply map_app.
Qed.

End SelectorProperties.

(* ================================================================== *)
(** * Properties of the fuzzy candidates *)
(* ================================================================== *)

Section FuzzyProperties.

Open Scope string_scope.

Variable consonants vowels : list (string * PhonemeInfo).
Variable available_consonants available_vowels : list string.

Local Abbreviation fuzzy_target :=
  (fuzzy_target consonants vowels available_consonants available_vowels).
Local Abbreviation fuzzy_turn :=
  (fuzzy_turn consonants vowels available_consonants available_vowels).

(** The pairs of targets, in the order of the two loops. *)
Definition target_grid : list (string * string) :=
  flat_map (fun target_c => map (fun target_v => (target_c, target_v)) all_vowels)
           all_consonants.

Definition target_alias (t : string * string) : string := fst t ++ snd t.

Definition grid_turn (state : list string * list Candidate) (t : string * string)
  : list string * list Candidate :=
  fuzzy_turn (fst t) state (snd t).

Lemma fold_left_flat_map {S T U : Type} (f : S -> U -> S) (g : T -> list U)
    (l : list T) : forall s,
  fold_left f (flat_map g l) s = fold_left (fun s x => fold_left f (g x) s) l s.
Proof.
  induction l as [|x l IH]; intros s; cbn; [reflexivity|].
  rewrite fold_left_app. apply IH.
Qed.

Lemma fold_left_map {S T U : Type} (f : S -> U -> S) (g : T -> U) (l : list T) :
  forall s, fold_left f (map g l) s = fold_left (fun s x => f s (g x)) l s.
Proof. induction l as [|x l IH]; intros s; cbn; [reflexivity|]. apply IH. Qed.

Lemma fold_left_pointwise {S T : Type} (f g : S -> T -> S) (l : list T) :
  (forall s x, f s x = g s x) -> forall s, fold_left f l s = fold_left g l s.
Proof.
  intros E. induction l as [|x l IH]; intros s; cbn; [reflexivity|].
  rewrite E. apply IH.
Qed.

(** The two loops are one loop over the grid. *)
Lemma fuzzy_loops_as_grid state :
  fold_left
    (fun state target_c => fold_left (fuzzy_turn target_c) all_vowels state)
    all_consonants state
  = fold_left grid_turn target_grid state.
Proof.
  unfold target_grid. rewrite fold_left_flat_map.
  apply fold_left_pointwise. intros st tc. rewrite fold_left_map. reflexivity.
Qed.

Definition candidate_list (c : option Candidate) : list Candidate :=
  match c with Some x => [x] | None => [] end.

Lemma mem_app x l1 l2 : mem x (l1 ++ l2)%list = mem x l1 || mem x l2.
Proof. unfold mem. apply existsb_app. Qed.

Lemma mem_false_not_In x l : mem x l = false <-> ~ In x l.
Proof.
  split.
  - intros H I. apply mem_In in I. congruence.
  - intros H. destruct (mem x l) eqn:E; [|reflexivity].
    apply mem_In in E. contradiction.
Qed.

(** A target is judged against the aliases generated so far only through
    its own alias. *)
Lemma fuzzy_target_generated (emitted generated : list string) tc tv :
  ~ In (tc ++ tv) emitted ->
  fuzzy_target (emitted ++ generated)%list tc tv = fuzzy_target generated tc tv.
Proof.
  intros H. unfold Synth.fuzzy_target. cbv zeta.
  rewrite mem_app. apply mem_false_not_In in H. rewrite H. reflexivity.
Qed.

(** Over targets with distinct aliases, the loop maps every target on its
    own, against the aliases generated before the loop. *)
Lemma grid_fold_as_map (targets : list (string * string)) (generated : list string) :
  forall (emitted : list string) (cands : list Candidate),
    NoDup (map target_alias targets) ->
    (forall t, In t targets -> ~ In (target_alias t) emitted) ->
    snd (fold_left grid_turn targets ((emitted ++ generated)%list, cands))
    = (cands
       ++ flat_map (fun t => candidate_list (fuzzy_target generated (fst t) (snd t)))
                   targets)%list.
Proof.
  induction targets as [|t targets IH]; intros emitted cands ND Hd.
  - cbn. rewrite app_nil_r. reflexivity.
  - cbn [fold_left flat_map]. unfold grid_turn at 2. unfold Synth.fuzzy_turn.
    rewrite fuzzy_target_generated by (apply (Hd t); left; reflexivity).
    inversion ND as [|a l Hnin ND']; subst.
    destruct (fuzzy_target generated (fst t) (snd t)) as [cand|] eqn:E.
    + change ((fst t ++ snd t) :: (emitted ++ generated)%list)
        with (((target_alias t :: emitted) ++ generated)%list).
      rewrite IH; [|assumption|].
      * cbn [candidate_list]. rewrite <- app_assoc. reflexivity.
      * intros t' Ht' [Eq|I].
        -- apply Hnin. rewrite Eq. apply in_map. assumption.
        -- apply (Hd t'); [right; assumption|assumption].
    + rewrite IH; [reflexivity|assumption|].
      intros t' Ht'. apply Hd. right. assumption.
Qed.

Fixpoint nodup_strings (l : list string) : bool :=
  match l with
  | [] => true
  | x :: rest => negb (mem x rest) && nodup_strings rest
  end.

Lemma nodup_strings_NoDup l : nodup_strings l = true -> NoDup l.
Proof.
  induction l as [|x l IH]; cbn; [constructor|].
  intros H. apply andb_prop in H. destruct H as [H1 H2].
  constructor; [|auto].
  apply mem_false_not_In. destruct (mem x l); [discriminate|reflexivity].
Qed.

(** No two targets of the grid have the same alias. *)
Lemma target_aliases_distinct : NoDup (map target_alias target_grid).
Proof. apply nodup_strings_NoDup. vm_compute. reflexivity. Qed.

End FuzzyProperties.

(** [_generate_fuzzy_candidates] maps every target of the grid on its own. *)
Lemma fuzzy_candidates_as_map
    (consonants vowels : list (string * PhonemeInfo))
    (available_consonants available_vowels existing_aliases : list string)
    (normal : list Candidate) :
  _generate_fuzzy_candidates consonants vowels available_consonants
    available_vowels existing_aliases normal
  = flat_map
      (fun t =>
         candidate_list
           (fuzzy_target consonants vowels available_consonants available_vowels
              (map base_alias normal ++ existing_aliases) (fst t) (snd t)))
      target_grid.
Proof.
  unfold _generate_fuzzy_candidates. cbv zeta.
  rewrite fuzzy_loops_as_grid.
  apply (grid_fold_as_map consonants vowels available_consonants available_vowels
           target_grid (map base_alias normal ++ existing_aliases) [] []).
  - apply target_aliases_distinct.
  - intros t _ [].
Qed.

Lemma dict_get_Some_mem {V : Type} (k : string) (d : list (string * V)) (v : V) :
  dict_get k d = Some v -> mem k (keys d) = true.
Proof.
  induction d as [|[k' v'] d IH]; cbn; [discriminate|].
  destruct (String.eqb k k') eqn:E; cbn; [reflexivity|]. exact IH.
Qed.





(* ================================================================== *)
(** * The duration policy of the three parses *)
(* ================================================================== *)


(* ================================================================== *)
(** * Scenarios *)
(* ================================================================== *)

Section Scenarios.

Open Scope string_scope.
Open Scope Q_scope.

(** An interval given in milliseconds. *)
Definition ms_interval (a b : Z) (m : string) : Interval :=
  mkInterval (inject_Z a / 1000) (inject_Z b / 1000) m.

(** [k a]: the unit of the scenario of the specification. *)
Definition tier_ka : list Interval :=
  [ms_interval 100 150 "k"; ms_interval 150 300 "a"].

(** [k t a]: a consonant followed by a consonant. *)
Definition tier_kta : list Interval :=
  [ms_interval 0 100 "k"; ms_interval 100 200 "t"; ms_interval 200 400 "a"].

(** Two words, [ka] and [ta], one syllable each. *)
Definition words_ka_ta : list Interval :=
  [ms_interval 0 200 "ka"; ms_interval 200 400 "ta"].

Definition phones_ka_ta : list Interval :=
  [ms_interval 0 100 "k"; ms_interval 100 200 "a";
   ms_interval 200 300 "t"; ms_interval 300 400 "a"].

(** [k a t a] with a vowel of 200 ms after the first consonant. *)
Definition phones_ka_ta_long : list Interval :=
  [ms_interval 0 100 "k"; ms_interval 100 300 "a";
   ms_interval 300 400 "t"; ms_interval 400 600 "a"].

(** [k a t a] with 50 ms that belong to no interval between the first
    consonant and its vowel. *)
Definition phones_ka_ta_gap : list Interval :=
  [ms_interval 0 100 "k"; ms_interval 150 300 "a";
   ms_interval 300 400 "t"; ms_interval 400 600 "a"].

(** [k a] with times that are not multiples of 0.1 ms. *)
Definition tier_ka_fine : list Interval :=
  [mkInterval (100 # 1000) (150 # 1000) "k";
   mkInterval (150 # 1000) (30004 # 100000) "a"].

(** A lone consonant of 50.06 ms, in the unstructured system. *)
Definition tier_k_alone : list Interval :=
  [mkInterval 0 (5006 # 100000) "k"].

Example scenario_ka :
  exists e,
    _extract_cv_pairs [] tier_ka "a.wav" 1000 "zh" false (3 # 10) = [e]
    /\ alias e = "ga" /\ offset e == 100 /\ consonant e == 50
    /\ segment_duration e == 200 /\ cutoff e == - (200)
    /\ preutterance e == 50 /\ overlap e == 15.
Proof.
  eexists. split; [vm_compute; reflexivity|].
  cbn [alias offset consonant segment_duration cutoff preutterance overlap].
  repeat split; reflexivity.
Qed.

(** The cutoff of a produced entry is the rounded negated length, not the
    negated length: a unit of 200.04 ms has cutoff -200.0.  And the rounded
    preutterance of a lone consonant of 50.06 ms is 50.1, more than the
    length of its unit. *)
Example scenario_rounded_cutoff :
  (exists e,
     _extract_cv_pairs [] tier_ka_fine "a.wav" 1000 "zh" false (3 # 10) = [e]
     /\ segment_duration e == 20004 # 100
     /\ cutoff e == - (200)
     /\ ~ (cutoff e == - segment_duration e))
  /\ (exists e,
        _extract_cv_pairs [] tier_k_alone "a.wav" 1000 "ja" false (3 # 10) = [e]
        /\ segment_duration e == 5006 # 100
        /\ preutterance e == 501 # 10
        /\ ~ (preutterance e <= segment_duration e)).
Proof.
  split; eexists; (split; [vm_compute; reflexivity|]);
    cbn [alias offset consonant segment_duration cutoff preutterance overlap];
    (split; [reflexivity|]); (split; [reflexivity|]);
    intros H; vm_compute in H; try discriminate H; apply H; reflexivity.
Qed.

Lemma calculators_envelope_in_order_witness :
  envelope_ok (_calculate_oto_params "a.wav" "ga" 100 50 300 1000 (3 # 10)).
Proof.
  apply (proj1 calculators_envelope_in_order); discriminate.
Defined.

(** C1. A transition entry with a negative overlap.  The intervals of the
    tier k [0, 100], a [150, 300], t [300, 400], a [400, 600] (in ms) last
    and follow each other in time; with both ratios 1/2,
    [_extract_vc_pairs] returns one entry, the transition from the final of
    [ka] into the onset of [ta], and its preutterance is -25 and its
    overlap -12.5.  The end of the vowel of [ka] is recorded as 100 ms, the
    end of the first interval of the syllable, which is the consonant;
    the vowel itself lasts from 150 ms to 300 ms, and the calculator on
    that span returns an overlap of 37.5. *)
Theorem C1_transition_entry_negative_overlap :
  tier_in_order phones_ka_ta_gap
  /\ (exists e,
        _extract_vc_pairs phones_ka_ta_gap "a.wav" 600 "zh" (1 # 2) (1 # 2) " "
        = [e]
        /\ is_vc e = true /\ alias e = "a d"
        /\ offset e == 125 /\ segment_duration e == 275
        /\ cutoff e == - (275)
        /\ preutterance e == - (25) /\ overlap e == - (125 # 10)
        /\ overlap e < 0)
  /\ (exists current next_syl,
        vc_syllables phones_ka_ta_gap "zh" = [current; next_syl]
        /\ vowel_start current == 150 /\ vowel_end current == 100)
  /\ overlap (_calculate_vc_params "a.wav" "a d" 150 300 400 600 (1 # 2) (1 # 2))
     == 375 # 10.
Proof.
  split; [|split; [|split]].
  - split.
    + intros i a H. do 4 (destruct i as [|i]; [injection H as <-; reflexivity|]).
      destruct i; discriminate H.
    + intros i a b Ha Hb.
      do 3 (destruct i as [|i];
            [injection Ha as <-; injection Hb as <-; vm_compute; discriminate|]).
      destruct i as [|i]; [discriminate Hb|]. destruct i; discriminate Ha.
  - eexists. split; [vm_compute; reflexivity|].
    cbn [is_vc alias offset consonant segment_duration cutoff preutterance overlap].
    repeat split; reflexivity.
  - eexists. eexists. split; [vm_compute; reflexivity|].
    cbn [vowel_start vowel_end]. split; reflexivity.
  - reflexivity.
Qed.

(** The offset of a transition unit is rounded: 150.02 becomes 150.0. *)
Example scenario_rounded_transition_offset :
  let vowelStart := 100 in
  let vowelEnd := 20004 # 100 in
  let consonantEndNext := 300 in
  let e := _calculate_vc_params "a.wav" "a d" vowelStart vowelEnd consonantEndNext
             1000 (1 # 2) (1 # 2) in
  offset e == 150
  /\ ~ (offset e == vowelEnd - (vowelEnd - vowelStart) * (1 # 2)
        /\ segment_duration e == consonantEndNext - offset e
        /\ preutterance e == vowelEnd - offset e
        /\ consonant e == py_min 30 (segment_duration e * (3 # 10))
        /\ overlap e == preutterance e * (1 # 2)
        /\ cutoff e == - segment_duration e).
Proof.
  split; [vm_compute; reflexivity|].
  intros [H _]. vm_compute in H. discriminate H.
Qed.

(** C3. A transition unit that is not computed from the span of its vowel.
    On the tier k [0, 100], a [100, 300], t [300, 400], a [400, 600] (in
    ms) with both ratios 1/2, [_extract_vc_pairs] returns one entry, the
    transition from the final of [ka] into the onset of [ta], with offset
    100, preutterance 0, overlap 0 and a length of 300 ms: the end of the
    vowel of [ka] is recorded as 100 ms, the end of the first interval of
    the syllable, which is the consonant.  With vowelStart = 100, vowelEnd
    = 300 and consonantEndNext = 400 the formulas give offset 200,
    preutterance 100, overlap 50 and a length of 200 ms, and so does the
    calculator on these arguments. *)
Theorem C3_transition_unit_vowel_end :
  (exists e,
     _extract_vc_pairs phones_ka_ta_long "a.wav" 600 "zh" (1 # 2) (1 # 2) " "
     = [e]
     /\ is_vc e = true /\ alias e = "a d"
     /\ offset e == 100 /\ segment_duration e == 300
     /\ preutterance e == 0 /\ overlap e == 0 /\ consonant e == 30
     /\ cutoff e == - (300))
  /\ (exists current next_syl,
        vc_syllables phones_ka_ta_long "zh" = [current; next_syl]
        /\ vowel_start current == 100 /\ vowel_end current == 100
        /\ vc_syllable_end next_syl == 400)
  /\ (let vowelStart := 100 in
      let vowelEnd := 300 in
      let consonantEndNext := 400 in
      let claimed := _calculate_vc_params "a.wav" "a d" vowelStart vowelEnd
                       consonantEndNext 600 (1 # 2) (1 # 2) in
      offset claimed == vowelEnd - (vowelEnd - vowelStart) * (1 # 2)
      /\ offset claimed == 200 /\ segment_duration claimed == 200
      /\ preutterance claimed == 100 /\ overlap claimed == 50
      /\ consonant claimed == 30 /\ cutoff claimed == - (200)).
Proof.
  split; [|split].
  - eexists. split; [vm_compute; reflexivity|].
    cbn [is_vc alias offset consonant segment_duration cutoff preutterance overlap].
    repeat split; reflexivity.
  - eexists. eexists. split; [vm_compute; reflexivity|].
    cbn [vowel_start vowel_end vc_syllable_end]. repeat split; reflexivity.
  - cbv zeta. repeat split; reflexivity.
Qed.

(** The transition unit of [ka ta]: it joins the final of [ka] with the
    onset of [ta]. *)
Example scenario_ka_ta_transition :
  exists e,
    _extract_vc_pairs phones_ka_ta "a.wav" 400 "zh" (1 # 2) (1 # 2) " " = [e]
    /\ alias e = "a d" /\ offset e == 100 /\ segment_duration e == 200.
Proof.
  eexists. split; [vm_compute; reflexivity|].
  cbn [alias offset consonant segment_duration cutoff preutterance overlap].
  repeat split; reflexivity.
Qed.

(** A transition unit joins phones of two words: the unit [a d] of [ka ta]
    lasts from 100 ms to 300 ms, over the phone [a] of the word [ka] and the
    phone [t] of the word [ta], and [same_word] does not hold between the
    starts of these two phones. *)
Lemma C4_counterexample :
  (exists e,
     _extract_vc_pairs phones_ka_ta "a.wav" 400 "zh" (1 # 2) (1 # 2) " " = [e]
     /\ offset e == 100 /\ offset e + segment_duration e == 300)
  /\ nth_error phones_ka_ta 1 = Some (ms_interval 100 200 "a")
  /\ nth_error phones_ka_ta 2 = Some (ms_interval 200 300 "t")
  /\ same_word words_ka_ta (minTime (ms_interval 100 200 "a"))
                           (minTime (ms_interval 200 300 "t")) = false.
Proof.
  split; [|repeat split; vm_compute; reflexivity].
  eexists. split; [vm_compute; reflexivity|].
  cbn [alias offset consonant segment_duration cutoff preutterance overlap].
  split; reflexivity.
Qed.

(** After [k], the phone [t] is admitted but is not a vowel: the vowel is
    not reached, and the cursor moves from 0 to 2, past [t]; the only unit of
    the tier is the lone [a]. *)
Lemma C5_counterexample :
  snd (zh_parse [] tier_kta "zh" 0 (ms_interval 0 100 "k") "k") = None
  /\ fst (cv_body [] tier_kta "a.wav" 400 "zh" false (3 # 10) 0
                  (ms_interval 0 100 "k")) = 2%nat
  /\ 2%nat <> (0 + 1)%nat
  /\ map alias (_extract_cv_pairs [] tier_kta "a.wav" 400 "zh" false (3 # 10))
     = ["a"].
Proof.
  split; [vm_compute; reflexivity|].
  split; [vm_compute; reflexivity|].
  split; [discriminate|vm_compute; reflexivity].
Qed.

Lemma C5_cursor_when_vowel_not_reached_witness :
  cv_body [] tier_kta "a.wav" 400 "zh" false (3 # 10) 0 (ms_interval 0 100 "k")
  = ((0 + 1
      + passed_after_first [] tier_kta "zh" 0 (ms_interval 0 100 "k")
          (strip (mark (ms_interval 0 100 "k"))))%nat, [])
  /\ (passed_after_first [] tier_kta "zh" 0 (ms_interval 0 100 "k")
        (strip (mark (ms_interval 0 100 "k"))) <= 2)%nat.
Proof.
  apply (C5_cursor_when_vowel_not_reached [] tier_kta "a.wav" 400 "zh" false
           (3 # 10) 0 (ms_interval 0 100 "k"));
    vm_compute; reflexivity.
Defined.




Definition entry_of_length (wav : string) (len : Q) : Entry :=
  _calculate_oto_params wav "ga" 0 50 len 1000 (3 # 10).

Example scenario_selector :
  map wav_name
      (select_group (fun d : Q => Qmin d (3 # 10)) (fun _ : Entry => 1 # 2)
         (fun (rule p : string) (n : nat) => p) 2 "%p%%n%" "%p%" ["duration"] "ga"
         [entry_of_length "1.wav" 200; entry_of_length "2.wav" 400;
          entry_of_length "3.wav" 200])
  = ["2.wav"; "1.wav"].
Proof. vm_compute. reflexivity. Qed.

End Scenarios.

(* ================================================================== *)
(** * Exemplars for the synthesis: selection *)
(* ================================================================== *)

Module Exemplar.

Import Num Str Phone Alias Envelope Quality Synth.
Open Scope string_scope.
Open Scope Q_scope.

(** [max(l, key=key)]: the first element of the greatest key; [None] when
    the list is empty and Python raises. *)
Definition max_by {A : Type} (key : A -> Q) (l : list A) : option A :=
  match l with
  | [] => None
  | x :: rest =>
      Some (fold_left
              (fun best y => if Qlt_le_dec (key best) (key y) then y else best)
              rest x)
  end.

(** [min(l, key=key)]: the first element of the least key. *)
Definition min_by {A : Type} (key : A -> Q) (l : list A) : option A :=
  match l with
  | [] => None
  | x :: rest =>
      Some (fold_left
              (fun best y => if Qlt_le_dec (key y) (key best) then y else best)
              rest x)
  end.

(** [sorted(segments, key=lambda x: -x["quality_score"])[:5]] *)
Definition top_candidates (segments : list PhonemeInfo) : list PhonemeInfo :=
  firstn 5 (sorted_by (fun x => - info_quality_score x) segments).

(** [_select_best_consonant] *)
Definition _select_best_consonant (segments : list PhonemeInfo)
  : option PhonemeInfo :=
  let top_candidates := top_candidates segments in
  if (List.length top_candidates =? 1)%nat then nth_error top_candidates 0
  else
    let durations := sorted_by (fun d => d) (map duration_ms top_candidates) in
    match nth_error durations (List.length durations / 2) with
    | None => None
    | Some median_duration =>
        min_by (fun x => Qabs (duration_ms x - median_duration)) top_candidates
    end.

(** [_select_best_vowel] *)
Definition _select_best_vowel (segments : list PhonemeInfo)
  : option PhonemeInfo :=
  max_by duration_ms (top_candidates segments).

End Exemplar.

Import Exemplar.


(* ================================================================== *)
(** * Exemplars for the synthesis: aliases split into phonemes *)
(* ================================================================== *)

Module Splitting.

Import Num Str Phone Alias Envelope Quality Synth.
Open Scope string_scope.

(** [hiragana_to_romaji_map] of [_hiragana_to_romaji]. *)
Definition hiragana_to_romaji_map : list (string * string) :=
  [("あ", "a"); ("い", "i"); ("う", "u"); ("え", "e"); ("お", "o"); ("か", "ka");
    ("き", "ki"); ("く", "ku"); ("け", "ke"); ("こ", "ko"); ("さ", "sa");
    ("し", "shi"); ("す", "su"); ("せ", "se"); ("そ", "so"); ("た", "ta");
    ("ち", "chi"); ("つ", "tsu"); ("て", "te"); ("と", "to"); ("な", "na");
    ("に", "ni"); ("ぬ", "nu"); ("ね", "ne"); ("の", "no"); ("は", "ha");
    ("ひ", "hi"); ("ふ", "fu"); ("へ", "he"); ("ほ", "ho"); ("ま", "ma");
    ("み", "mi"); ("む", "mu"); ("め", "me"); ("も", "mo"); ("や", "ya");
    ("ゆ", "yu"); ("よ", "yo"); ("ら", "ra"); ("り", "ri"); ("る", "ru");
    ("れ", "re"); ("ろ", "ro"); ("わ", "wa"); ("を", "wo"); ("ん", "n");
    ("が", "ga"); ("ぎ", "gi"); ("ぐ", "gu"); ("げ", "ge"); ("ご", "go");
    ("ざ", "za"); ("じ", "ji"); ("ず", "zu"); ("ぜ", "ze"); ("ぞ", "zo");
    ("だ", "da"); ("ぢ", "di"); ("づ", "du"); ("で", "de"); ("ど", "do");
    ("ば", "ba"); ("び", "bi"); ("ぶ", "bu"); ("べ", "be"); ("ぼ", "bo");
    ("ぱ", "pa"); ("ぴ", "pi"); ("ぷ", "pu"); ("ぺ", "pe"); ("ぽ", "po");
    ("きゃ", "kya"); ("きゅ", "kyu"); ("きょ", "kyo"); ("しゃ", "sha");
    ("しゅ", "shu"); ("しょ", "sho"); ("ちゃ", "cha"); ("ちゅ", "chu");
    ("ちょ", "cho"); ("にゃ", "nya"); ("にゅ", "nyu"); ("にょ", "nyo");
    ("ひゃ", "hya"); ("ひゅ", "hyu"); ("ひょ", "hyo"); ("みゃ", "mya");
    ("みゅ", "myu"); ("みょ", "myo"); ("りゃ", "rya"); ("りゅ", "ryu");
    ("りょ", "ryo"); ("ぎゃ", "gya"); ("ぎゅ", "gyu"); ("ぎょ", "gyo");
    ("じゃ", "ja"); ("じゅ", "ju"); ("じょ", "jo"); ("びゃ", "bya"); ("びゅ", "byu");
    ("びょ", "byo"); ("ぴゃ", "pya"); ("ぴゅ", "pyu"); ("ぴょ", "pyo")].

(** The characters of [rstrip('0123456789')]. *)
Definition digits : list string :=
  ["0"; "1"; "2"; "3"; "4"; "5"; "6"; "7"; "8"; "9"].

(** [_hiragana_to_romaji] *)
Definition _hiragana_to_romaji (text : string) : option string :=
  let base_text := rstrip_tokens digits text in
  match dict_get base_text hiragana_to_romaji_map with
  | Some romaji => Some romaji
  | None => if isascii base_text then Some (lower base_text) else None
  end.

(** The consonants of [_split_alias_to_cv], in the order they are tried. *)
Definition split_consonants (language : string) : list string :=
  if is_chinese language then
    ["zh"; "ch"; "sh"; "ng";
     "b"; "p"; "m"; "f";
     "d"; "t"; "n"; "l";
     "g"; "k"; "h";
     "j"; "q"; "x";
     "z"; "c"; "s"; "r";
     "y"; "w"]
  else
    ["ch"; "sh"; "ts"; "ny";
     "ky"; "gy"; "py"; "by"; "my"; "ry"; "hy";
     "k"; "g"; "s"; "z"; "t"; "d"; "n"; "h"; "b"; "p"; "m"; "r"; "w"; "y";
     "f"; "j"].

Section Split.

(** [str.lower] on text that is not ASCII. *)
Variable str_lower : string -> string.

(** [alias_to_split] of [_split_alias_to_cv]. *)
Definition alias_to_split (alias : string) : string :=
  match _hiragana_to_romaji alias with
  | Some romaji => romaji
  | None => str_lower alias
  end.

(** [_split_alias_to_cv] *)
Definition _split_alias_to_cv (alias language : string)
  : option string * option string :=
  if negb (nonempty alias) then (None, None)
  else
    let alias_to_split := alias_to_split alias in
    match find (fun c => startswith alias_to_split c) (split_consonants language) with
    | Some c =>
        let vowel := drop (String.length c) alias_to_split in
        if nonempty vowel then (Some c, Some vowel) else (Some c, None)
    | None => (None, Some alias_to_split)
    end.

End Split.

End Splitting.

Import Splitting.

(* ================================================================== *)
(** * Simple export: Japanese syllables *)
(* ================================================================== *)

Module SimpleJapanese.

Import Num Str Phone Quality Segmenter SimpleExport.
Open Scope string_scope.
Open Scope Q_scope.

(** [vowels] of [_merge_japanese_phones]. *)
Definition vowels : list string := ["a"; "e"; "i"; "o"; "u"; "ɯ"].

(** [skip_marks] of [_merge_japanese_phones]. *)
Definition skip_marks : list string := [""; "SP"; "AP"; "<unk>"; "spn"; "sil"].

(** The state of the loop: the syllables found, and the consonant that
    waits for its vowel with the time it starts at. *)
Definition MergeState : Type := (list (string * Q * Q) * option (string * Q))%type.

(** The body of the loop of [_merge_japanese_phones]. *)
Definition merge_step (state : MergeState) (interval : Interval) : MergeState :=
  let '(syllables, pending) := state in
  let phone := strip (mark interval) in
  if mem phone skip_marks then (syllables, None)
  else
    let base_phone := rstrip_tokens ["ː"] phone in
    let is_vowel := mem base_phone vowels in
    if is_vowel then
      match pending with
      | Some (pending_consonant, pending_start) =>
          ((syllables
              ++ [((pending_consonant ++ phone)%string, pending_start,
                   maxTime interval)])%list,
           None)
      | None =>
          ((syllables ++ [(phone, minTime interval, maxTime interval)])%list, None)
      end
    else
      let syllables :=
        match pending with
        | Some (pending_consonant, pending_start) =>
            (syllables ++ [(pending_consonant, pending_start, minTime interval)])%list
        | None => syllables
        end in
      (syllables, Some (phone, minTime interval)).

Definition merge_loop (phones_tier : list Interval) : MergeState :=
  fold_left merge_step phones_tier ([], None).

(** [_merge_japanese_phones]; a consonant can only wait at the end of a
    tier that has a last interval. *)
Definition _merge_japanese_phones (phones_tier : list Interval)
  : list (string * Q * Q) :=
  let '(syllables, pending) := merge_loop phones_tier in
  match pending, rev phones_tier with
  | Some (pending_consonant, pending_start), last_interval :: _ =>
      (syllables ++ [(pending_consonant, pending_start, maxTime last_interval)])%list
  | _, _ => syllables
  end.

(** [ipa_map] of [_normalize_japanese_phone], in the order of the source. *)
Definition ipa_map : list (string * string) :=
  [("ɯ", "u"); ("ɯː", "u"); ("aː", "a"); ("eː", "e"); ("iː", "i");
    ("oː", "o"); ("uː", "u"); ("ɲ", "n"); ("ŋ", "n"); ("ɕ", "sh");
    ("ʑ", "j"); ("dʑ", "j"); ("tɕ", "ch"); ("ɡ", "g"); ("ː", "")].

(** [len(s)]: the number of characters of a text in UTF-8, the bytes that
    do not continue a character. *)
Fixpoint char_length (s : string) : nat :=
  match s with
  | EmptyString => 0
  | String c r =>
      let n := nat_of_ascii c in
      if ((128 <=? n) && (n <? 192))%nat then char_length r else S (char_length r)
  end.

Fixpoint replace_with_fuel (fuel : nat) (old new s : string) : string :=
  match fuel with
  | O => s
  | S f =>
      match s with
      | EmptyString => EmptyString
      | String c r =>
          if String.prefix old s
          then (new ++ replace_with_fuel f old new (drop (String.length old) s))%string
          else String c (replace_with_fuel f old new r)
      end
  end.

(** [s.replace(old, new)] for a non-empty [old]. *)
Definition replace (old new s : string) : string :=
  replace_with_fuel (String.length s) old new s.

(** [sorted(ipa_map.keys(), key=len, reverse=True)]: the longest keys
    first, keys of one length in the order of the dictionary. *)
Definition sorted_keys : list string :=
  sorted_by (fun k => - inject_Z (Z.of_nat (char_length k))) (keys ipa_map).

(** [_normalize_japanese_phone] *)
Definition _normalize_japanese_phone (phone : string) : option string :=
  let result :=
    fold_left
      (fun result ipa =>
         if contains ipa result then replace ipa (get_or ipa ipa_map "") result
         else result)
      sorted_keys phone in
  let result :=
    filter_string (fun c => is_ascii_char c && is_alnum_char c) result in
  if nonempty result then Some (lower result) else None.

End SimpleJapanese.

Import SimpleJapanese.

(* ================================================================== *)
(** * Simple export: the segments written *)
(* ================================================================== *)

Module SimpleSegments.

Import Num Str Phone Alias Segmenter SimpleExport SimpleJapanese.
Open Scope string_scope.
Open Scope Q_scope.

(** A bound of a slice on a sequence of [len] elements. *)
Definition slice_bound (len : nat) (k : Z) : nat :=
  if (k <? 0)%Z then Z.to_nat (Z.max 0 (Z.of_nat len + k))
  else Nat.min (Z.to_nat k) len.

(** [a[start:stop]] *)
Definition slice {A : Type} (a : list A) (start stop : Z) : list A :=
  let first := slice_bound (List.length a) start in
  let last := slice_bound (List.length a) stop in
  firstn (last - first) (skipn first a).

Section Segments.

(** A frame of audio: one sample, or one sample for each channel. *)
Variable Frame : Type.

(** A file written: the directory (the name of the unit), the number that
    names the file, and the frames. *)
Definition Written : Type := (string * nat * list Frame)%type.

(** The counts of the names, and the files written so far. *)
Definition SegmentState : Type := (list (string * nat) * list Written)%type.

(** The end of the body of the two loops, from [_apply_extend] on: the
    interval is extended, numbered and cut out; an empty cut gives its
    number back. *)
Definition save_segment (audio : list Frame) (sr : Z)
    (audio_duration extend_duration : Q) (state : SegmentState)
    (name : string) (start_time end_time : Q) : SegmentState :=
  let '(counts, written) := state in
  let '(actual_start, actual_end) :=
    _apply_extend start_time end_time extend_duration audio_duration in
  let current_count := get_or name counts 0%nat in
  let index := (current_count + 1)%nat in
  let counts := dict_set name index counts in
  let start_sample := round_half_even (actual_start * inject_Z sr) in
  let end_sample := round_half_even (actual_end * inject_Z sr) in
  let segment := slice audio start_sample end_sample in
  if (List.length segment =? 0)%nat
  then (dict_set name current_count counts, written)
  else (counts, (written ++ [(name, index, segment)])%list).

(** The loop over the syllables of one file of [_extract_japanese_segments]. *)
Definition japanese_syllable_step (audio : list Frame) (sr : Z)
    (audio_duration extend_duration : Q) (state : SegmentState)
    (syllable : string * Q * Q) : SegmentState :=
  let '(text, start_time, end_time) := syllable in
  if negb (nonempty text) then state
  else
    match _normalize_japanese_phone text with
    | None => state
    | Some normalized =>
        save_segment audio sr audio_duration extend_duration state
                     normalized start_time end_time
    end.

(** One file of [_extract_japanese_segments], read with the phones tier
    that is found in its TextGrid, if any: a file without phones tier is
    passed over.  [None] when the sample rate is 0 and the division
    raises. *)
Definition japanese_file_step (extend_duration : Q) (state : option SegmentState)
    (file : list Frame * Z * option (list Interval)) : option SegmentState :=
  let '(audio, sr, phones_tier) := file in
  match state with
  | None => None
  | Some state =>
      if (sr =? 0)%Z then None
      else
        let audio_duration :=
          inject_Z (Z.of_nat (List.length audio)) / inject_Z sr in
        match phones_tier with
        | None => Some state
        | Some phones_tier =>
            Some (fold_left
                    (japanese_syllable_step audio sr audio_duration extend_duration)
                    (_merge_japanese_phones phones_tier) state)
        end
  end.

(** [_extract_japanese_segments], over the files that exist (the others are
    passed over): the counts and the files written. *)
Definition _extract_japanese_segments
    (files : list (list Frame * Z * option (list Interval))) (extend_duration : Q)
  : option SegmentState :=
  fold_left (japanese_file_step extend_duration) files (Some ([], [])).

(** [is_valid_char] and [char_to_pinyin] of the text processor, which is
    not among the sources. *)
Variable is_valid_char : string -> string -> bool.
Variable char_to_pinyin : string -> string -> option string.

(** [list(s)]: the characters of a text in UTF-8; a byte that continues a
    character belongs to the character before it. *)
Fixpoint chars (s : string) : list string :=
  match s with
  | EmptyString => []
  | String c r =>
      let following := chars r in
      match r, following with
      | String c' _, first :: rest =>
          if ((128 <=? nat_of_ascii c') && (nat_of_ascii c' <? 192))%nat
          then String c first :: rest
          else String c EmptyString :: following
      | _, _ => String c EmptyString :: following
      end
  end.

(** The loop over the characters of one word. *)
Definition chinese_char_step (audio : list Frame) (sr : Z)
    (audio_duration extend_duration : Q) (language : string)
    (start_time char_duration : Q) (state : SegmentState)
    (ic : nat * string) : SegmentState :=
  let '(i, char) := ic in
  match char_to_pinyin char language with
  | None => state
  | Some pinyin =>
      if negb (nonempty pinyin) then state
      else
        let char_start := start_time + inject_Z (Z.of_nat i) * char_duration in
        let char_end := char_start + char_duration in
        save_segment audio sr audio_duration extend_duration state
                     pinyin char_start char_end
  end.

(** The loop over the intervals of the words tier. *)
Definition chinese_word_step (audio : list Frame) (sr : Z)
    (audio_duration extend_duration : Q) (language : string)
    (state : SegmentState) (interval : Interval) : SegmentState :=
  let word_text := strip (mark interval) in
  if negb (nonempty word_text)
     || mem word_text [""; "SP"; "AP"; "<unk>"; "spn"; "sil"]
  then state
  else
    let start_time := minTime interval in
    let end_time := maxTime interval in
    let duration := end_time - start_time in
    let valid_chars := filter (fun c => is_valid_char c language) (chars word_text) in
    match valid_chars with
    | [] => state
    | _ =>
        let char_duration :=
          duration / inject_Z (Z.of_nat (List.length valid_chars)) in
        fold_left
          (chinese_char_step audio sr audio_duration extend_duration language
                             start_time char_duration)
          (Quality.enumerate_from 0 valid_chars) state
    end.

(** One file of [_extract_chinese_segments], read with the first tier of
    its TextGrid; [None] when the sample rate is 0 or the TextGrid has no
    tier, and Python raises. *)
Definition chinese_file_step (language : string) (extend_duration : Q)
    (state : option SegmentState) (file : list Frame * Z * option (list Interval))
  : option SegmentState :=
  let '(audio, sr, words_tier) := file in
  match state with
  | None => None
  | Some state =>
      if (sr =? 0)%Z then None
      else
        let audio_duration :=
          inject_Z (Z.of_nat (List.length audio)) / inject_Z sr in
        match words_tier with
        | None => None
        | Some words_tier =>
            Some (fold_left
                    (chinese_word_step audio sr audio_duration extend_duration
                                       language)
                    words_tier state)
        end
  end.

(** [_extract_chinese_segments], over the files that exist. *)
Definition _extract_chinese_segments
    (files : list (list Frame * Z * option (list Interval))) (language : string)
    (extend_duration : Q) : option SegmentState :=
  fold_left (chinese_file_step language extend_duration) files (Some ([], [])).

End Segments.

End SimpleSegments.

Import SimpleSegments.

(* ================================================================== *)
(** * File names of the exported audio *)
(* ================================================================== *)

Module Files.

Import Str.
Open Scope string_scope.

(** [str(n)] for a natural number. *)
Definition str (n : nat) : string :=
  DecimalString.NilZero.string_of_uint (Nat.to_uint n).

(** A character of [[a-zA-Z0-9_\-]]. *)
Definition name_char (c : ascii) : bool :=
  is_ascii_char c
  && (is_alnum_char c || Ascii.eqb c "_"%char || Ascii.eqb c "-"%char).

(** [re.sub(r'[^a-zA-Z0-9_\-]', '_', s)]: every character outside the class
    becomes one underscore. *)
Definition replace_special (s : string) : string :=
  String.concat ""
    (map (fun ch => match ch with
                    | String c EmptyString => if name_char c then ch else "_"
                    | _ => "_"
                    end)
         (SimpleSegments.chars s)).

(** [re.sub(r'_+', '_', s)] *)
Fixpoint merge_underscores (s : string) : string :=
  match s with
  | EmptyString => EmptyString
  | String c r =>
      if Ascii.eqb c "_"%char then
        match r with
        | String c' _ =>
            if Ascii.eqb c' "_"%char then merge_underscores r
            else String c (merge_underscores r)
        | EmptyString => String c EmptyString
        end
      else String c (merge_underscores r)
  end.

(** The loop that looks for a free name: [sanitized] is tried, then
    [base_name_1], [base_name_2], ...  The loop of the source has no bound;
    [fuel] turns of it are enough when [fuel] exceeds the number of names in
    use. *)
Fixpoint free_name (fuel : nat) (base_name ext : string) (used_names : list string)
    (sanitized : string) (counter : nat) : string :=
  match fuel with
  | O => sanitized ++ ext
  | S fuel' =>
      if mem (sanitized ++ ext) used_names
      then free_name fuel' base_name ext used_names
                     (base_name ++ "_" ++ str counter) (S counter)
      else sanitized ++ ext
  end.

Section Sanitize.

(** [os.path.splitext] and [pypinyin.lazy_pinyin]. *)
Variable splitext : string -> string * string.
Variable lazy_pinyin : string -> list string.

(** [base_name] of [_sanitize_filename]: the name before the search for a
    free one. *)
Definition sanitized_base (filename : string) : string :=
  let '(name, ext) := splitext filename in
  let pinyin_parts := lazy_pinyin name in
  let sanitized := String.concat "" pinyin_parts in
  let sanitized := replace_special sanitized in
  let sanitized := merge_underscores sanitized in
  let sanitized := rstrip_tokens ["_"] (lstrip_tokens ["_"] sanitized) in
  if negb (nonempty sanitized) then "audio" else sanitized.

(** [_sanitize_filename] *)
Definition _sanitize_filename (filename : string) (used_names : list string)
  : string :=
  let ext := snd (splitext filename) in
  let base_name := sanitized_base filename in
  free_name (S (List.length used_names)) base_name ext used_names base_name 1.

(** [os.path.exists] of a file of the slices directory, and
    [_is_filename_valid] for the encoding chosen. *)
Variable file_exists : string -> bool.
Variable _is_filename_valid : string -> bool.

(** The state of the loop of [_copy_wav_files]: [copied], [filename_map],
    [used_names] and [sanitized_count]. *)
Definition CopyState : Type :=
  (nat * list (string * string) * list string * nat)%type.

Definition copy_step (state : CopyState) (wav_name : string) : CopyState :=
  let '(copied, filename_map, used_names, sanitized_count) := state in
  if negb (file_exists wav_name) then state
  else
    let '(new_name, sanitized_count) :=
      if _is_filename_valid wav_name then (wav_name, sanitized_count)
      else (_sanitize_filename wav_name used_names, S sanitized_count) in
    let used_names :=
      if mem new_name used_names then used_names
      else (used_names ++ [new_name])%list in
    (S copied, dict_set wav_name new_name filename_map, used_names, sanitized_count).

(** [_copy_wav_files], on the files in the order the set gives them: the
    number of copies and the map of the names. *)
Definition _copy_wav_files (wav_files : list string)
  : nat * list (string * string) :=
  let '(copied, filename_map, _, _) :=
    fold_left copy_step wav_files (0%nat, [], [], 0%nat) in
  (copied, filename_map).

End Sanitize.

End Files.

Import Files.

(* ================================================================== *)
(** * Exemplars for the synthesis: collection and use *)
(* ================================================================== *)

Module Collecting.

Import Num Str Phone Alias Envelope Quality Synth Exemplar Splitting.
Open Scope string_scope.
Open Scope Q_scope.

(** [segments[key].append(x)] on a [defaultdict(list)]. *)
Fixpoint segments_append (key : string) (x : PhonemeInfo)
    (segments : list (string * list PhonemeInfo))
  : list (string * list PhonemeInfo) :=
  match segments with
  | [] => [(key, [x])]
  | (k, g) :: rest =>
      if String.eqb key k then (k, (g ++ [x])%list) :: rest
      else (k, g) :: segments_append key x rest
  end.

(** The best segment of every phoneme; [None] when a selection raises. *)
Fixpoint best_segments (select : list PhonemeInfo -> option PhonemeInfo)
    (segments : list (string * list PhonemeInfo))
  : option (list (string * PhonemeInfo)) :=
  match segments with
  | [] => Some []
  | (ipa, group) :: rest =>
      match group with
      | [] => best_segments select rest
      | _ =>
          match select group with
          | None => None
          | Some best =>
              match best_segments select rest with
              | None => None
              | Some others => Some ((ipa, best) :: others)
              end
          end
      end
  end.

Section Collect.

(** [str.lower] on text that is not ASCII, [os.path.join] and
    [os.path.exists]. *)
Variable str_lower : string -> string.
Variable path_join : string -> string -> string.
Variable path_exists : string -> bool.

(** The body of the loop of [_collect_phoneme_segments]: the state is
    [consonant_segments] and [vowel_segments]. *)
Definition collect_step (slices_dir language : string)
    (state : list (string * list PhonemeInfo) * list (string * list PhonemeInfo))
    (entry : Entry)
  : list (string * list PhonemeInfo) * list (string * list PhonemeInfo) :=
  let '(consonant_segments, vowel_segments) := state in
  let wav_path := path_join slices_dir (wav_name entry) in
  if negb (path_exists wav_path) then state
  else
    let offset := offset entry in
    let consonant_dur := consonant entry in
    let segment_dur := segment_duration entry in
    let quality := match quality_score entry with Some q => q | None => 1 # 2 end in
    let '(c_part, v_part) := _split_alias_to_cv str_lower (alias entry) language in
    let consonant_segments :=
      match c_part with
      | Some c =>
          if nonempty c then
            segments_append c
              {| wav_path := wav_path; offset_ms := offset;
                 duration_ms := consonant_dur; info_quality_score := quality;
                 ipa := c |}
              consonant_segments
          else consonant_segments
      | None => consonant_segments
      end in
    let vowel_segments :=
      match v_part with
      | Some v =>
          if nonempty v then
            let v_offset := offset + consonant_dur in
            let v_duration := segment_dur - consonant_dur in
            if Qlt_le_dec 0 v_duration then
              segments_append v
                {| wav_path := wav_path; offset_ms := v_offset;
                   duration_ms := v_duration; info_quality_score := quality;
                   ipa := v |}
                vowel_segments
            else vowel_segments
          else vowel_segments
      | None => vowel_segments
      end in
    (consonant_segments, vowel_segments).

(** [_collect_phoneme_segments]; [None] when a selection raises. *)
Definition _collect_phoneme_segments (entries : list Entry)
    (slices_dir language : string)
  : option (list (string * PhonemeInfo) * list (string * PhonemeInfo)) :=
  let '(consonant_segments, vowel_segments) :=
    fold_left (collect_step slices_dir language) entries ([], []) in
  match best_segments _select_best_consonant consonant_segments with
  | None => None
  | Some best_consonants =>
      match best_segments _select_best_vowel vowel_segments with
      | None => None
      | Some best_vowels => Some (best_consonants, best_vowels)
      end
  end.

End Collect.

Section AutoCombine.

Variable str_lower : string -> string.
Variable path_join : string -> string -> string.
Variable path_exists : string -> bool.

(** [apply_naming_rule] of the base class. *)
Variable apply_naming_rule : string -> string -> nat -> string.

(** [sf.read] with the mean over the channels, [None] when it raises; and
    whether [sf.write] returns. *)
Variable sf_read : string -> option (list Q * Z).
Variable sf_write : string -> list Q -> Z -> bool.

(** One call of [_combine_and_save] with its files: the entry, or [None]
    when it returns [(None, None)] or raises. *)
Definition combine_candidate (candidate : Candidate) (export_dir : string)
    (overlap_ratio : Q) (crossfade_ms : Z) (first_naming_rule : string)
  : option Entry :=
  match sf_read (wav_path (consonant_info candidate)) with
  | None => None
  | Some (c_audio, c_sr) =>
      match sf_read (wav_path (vowel_info candidate)) with
      | None => None
      | Some (v_audio, v_sr) =>
          match _combine_and_save apply_naming_rule candidate c_audio c_sr
                                  v_audio v_sr overlap_ratio crossfade_ms
                                  first_naming_rule with
          | None => None
          | Some (entry, combined) =>
              if sf_write (path_join export_dir (wav_name entry)) combined c_sr
              then Some entry else None
          end
      end
  end.

(** The body of the loop of [_auto_combine_phonemes]: the state is
    [new_entries] and [new_wavs]. *)
Definition combine_step (export_dir : string) (overlap_ratio : Q)
    (crossfade_ms : Z) (first_naming_rule : string)
    (state : list Entry * list string) (candidate : Candidate)
  : list Entry * list string :=
  let '(new_entries, new_wavs) := state in
  match combine_candidate candidate export_dir overlap_ratio crossfade_ms
                          first_naming_rule with
  | Some entry =>
      ((new_entries ++ [entry])%list,
       if mem (wav_name entry) new_wavs then new_wavs
       else (new_wavs ++ [wav_name entry])%list)
  | None => state
  end.

(** [_auto_combine_phonemes]; [None] when it raises. *)
Definition _auto_combine_phonemes (all_entries filtered_entries : list Entry)
    (slices_dir export_dir language : string) (use_hiragana : bool)
    (overlap_ratio : Q) (crossfade_ms : Z) (first_naming_rule : string)
    (fuzzy_phoneme : bool) : option (list Entry * list string) :=
  let existing_aliases := filter nonempty (map alias filtered_entries) in
  match _collect_phoneme_segments str_lower path_join path_exists all_entries
                                  slices_dir language with
  | None => None
  | Some (consonant_segments, vowel_segments) =>
      match consonant_segments, vowel_segments with
      | [], _ | _, [] => Some ([], [])
      | _, _ =>
          let enable_fuzzy :=
            fuzzy_phoneme && mem language ["chinese"; "zh"; "mandarin"] in
          let candidates :=
            _generate_candidates consonant_segments vowel_segments
                                 existing_aliases language use_hiragana
                                 enable_fuzzy in
          Some (fold_left (combine_step export_dir overlap_ratio crossfade_ms
                                        first_naming_rule)
                          candidates ([], []))
      end
  end.

End AutoCombine.

End Collecting.

Import Collecting.

(* ================================================================== *)
(** * The TextGrid files *)
(* ================================================================== *)

Module TextGrids.

Import Num Str Phone Alias Envelope Segmenter Transition SimpleJapanese.
Open Scope string_scope.
Open Scope Q_scope.

(** A tier with its name; a TextGrid is the list of its tiers. *)
Definition NamedTier : Type := (string * list Interval)%type.

Section Parse.

(** [str.lower] on a tier name, [os.path.basename], [os.path.join],
    [os.path.exists]; the duration that [sf.info] reports and the grid that
    [textgrid.TextGrid.fromFile] reads, [None] when they raise. *)
Variable name_lower : string -> string.
Variable basename : string -> string.
Variable path_join : string -> string -> string.
Variable path_exists : string -> bool.
Variable sf_info_duration : string -> option Q.
Variable from_file : string -> option (list NamedTier).

(** The body of the loop over the tiers: the state is [words_tier] and
    [phones_tier]. *)
Definition tier_step
    (state : option (list Interval) * option (list Interval)) (tier : NamedTier)
  : option (list Interval) * option (list Interval) :=
  let '(words_tier, phones_tier) := state in
  let name_lower := name_lower (fst tier) in
  if mem name_lower ["words"; "word"] then (Some (snd tier), phones_tier)
  else if mem name_lower ["phones"; "phone"] then (words_tier, Some (snd tier))
  else state.

(** The choice of the two tiers in [_parse_textgrids]. *)
Definition select_tiers (tg : list NamedTier)
  : option (list Interval) * option (list Interval) :=
  let '(words_tier, phones_tier) := fold_left tier_step tg (None, None) in
  let words_tier :=
    match words_tier with
    | None =>
        if (1 <=? List.length tg)%nat then option_map snd (nth_error tg 0)
        else None
    | Some _ => words_tier
    end in
  let phones_tier :=
    match phones_tier with
    | None =>
        if (2 <=? List.length tg)%nat then option_map snd (nth_error tg 1)
        else None
    | Some _ => phones_tier
    end in
  (words_tier, phones_tier).

(** The body of the loop of [_parse_textgrids]: the state is [oto_entries]
    and [wav_files]. *)
Definition parse_step (slices_dir language : string) (use_hiragana : bool)
    (overlap_ratio : Q) (cvvc_mode : bool)
    (vc_offset_ratio vc_overlap_ratio : Q) (vc_separator : string)
    (state : list Entry * list string) (tg_path : string)
  : list Entry * list string :=
  let '(oto_entries, wav_files) := state in
  let base := replace ".TextGrid" "" (basename tg_path) in
  let wav_name := base ++ ".wav" in
  let wav_path := path_join slices_dir wav_name in
  if negb (path_exists wav_path) then state
  else
    match sf_info_duration wav_path with
    | None => state
    | Some duration =>
        let wav_duration_ms := duration * 1000 in
        let wav_files :=
          if mem wav_name wav_files then wav_files
          else (wav_files ++ [wav_name])%list in
        match from_file tg_path with
        | None => (oto_entries, wav_files)
        | Some tg =>
            match select_tiers tg with
            | (_, None) => (oto_entries, wav_files)
            | (words_tier, Some phones_tier) =>
                let words_tier :=
                  match words_tier with Some tier => tier | None => [] end in
                let entries :=
                  _extract_cv_pairs words_tier phones_tier wav_name
                                    wav_duration_ms language use_hiragana
                                    overlap_ratio in
                let oto_entries := (oto_entries ++ entries)%list in
                if cvvc_mode then
                  let vc_entries :=
                    _extract_vc_pairs phones_tier wav_name wav_duration_ms
                                      language vc_offset_ratio vc_overlap_ratio
                                      vc_separator in
                  ((oto_entries ++ vc_entries)%list, wav_files)
                else (oto_entries, wav_files)
            end
        end
    end.

(** [_parse_textgrids], on the files that [glob] lists. *)
Definition _parse_textgrids (tg_files : list string)
    (slices_dir language : string) (use_hiragana : bool)
    (overlap_ratio : Q) (cvvc_mode : bool)
    (vc_offset_ratio vc_overlap_ratio : Q) (vc_separator : string)
  : list Entry * list string :=
  match tg_files with
  | [] => ([], [])
  | _ =>
      fold_left (parse_step slices_dir language use_hiragana overlap_ratio
                            cvvc_mode vc_offset_ratio vc_overlap_ratio
                            vc_separator)
                tg_files ([], [])
  end.

End Parse.

End TextGrids.

Import TextGrids.

(* ================================================================== *)
(** * Further properties: words, classifier and aliases *)
(* ================================================================== *)

Section WordProperties.

Open Scope Q_scope.

Variable words_tier : list Interval.

Local Abbreviation word_ranges := (word_ranges words_tier).
Local Abbreviation get_word_range := (get_word_range words_tier).
Local Abbreviation same_word := (same_word words_tier).

Lemma Qeq_bool_sym (a b : Q) : Qeq_bool a b = Qeq_bool b a.
Proof.
  destruct (Qeq_bool a b) eqn:E1; destruct (Qeq_bool b a) eqn:E2; try reflexivity.
  - apply Qeq_bool_iff in E1. symmetry in E1. apply Qeq_bool_iff in E1. congruence.
  - apply Qeq_bool_iff in E2. symmetry in E2. apply Qeq_bool_iff in E2. congruence.
Qed.

Lemma range_eqb_sym r1 r2 : range_eqb r1 r2 = range_eqb r2 r1.
Proof.
  unfold range_eqb.
  rewrite (Qeq_bool_sym (fst r1)), (Qeq_bool_sym (snd r1)). reflexivity.
Qed.

Lemma range_eqb_refl r : range_eqb r r = true.
Proof.
  unfold range_eqb. apply andb_true_intro.
  split; apply Qeq_bool_iff; reflexivity.
Qed.

Lemma range_eqb_spec r1 r2 :
  range_eqb r1 r2 = true <-> fst r1 == fst r2 /\ snd r1 == snd r2.
Proof.
  unfold range_eqb. rewrite andb_true_iff, !Qeq_bool_iff. reflexivity.
Qed.

(** A time has a range only inside it, the end excluded. *)
Lemma get_word_range_inside time r :
  get_word_range time = Some r ->
  In r word_ranges /\ fst r <= time /\ time < snd r.
Proof.
  unfold Segmenter.get_word_range. intros H. apply find_some in H.
  destruct H as [I H]. apply andb_prop in H. destruct H as [H1 H2].
  apply Qle_bool_iff in H1. split; [assumption|]. split; [assumption|].
  destruct (Qlt_le_dec time (snd r)) as [L|L]; [assumption|].
  apply Qle_bool_iff in L. rewrite L in H2. discriminate H2.
Qed.

(** X1. [same_word] is symmetric and transitive, and it holds between a time
    and itself exactly when there is no word at all or the time is inside a
    word. *)
Theorem same_word_equivalence (t1 t2 t3 : Q) :
  same_word t1 t2 = same_word t2 t1
  /\ (same_word t1 t1 = true <-> word_ranges = [] \/ get_word_range t1 <> None)
  /\ (same_word t1 t2 && same_word t2 t3 = true -> same_word t1 t3 = true).
Proof.
  unfold Segmenter.same_word.
  destruct word_ranges as [|r0 rest] eqn:W.
  - split; [reflexivity|]. split; [|reflexivity]. split; auto.
  - split; [|split].
    + destruct (get_word_range t1) as [r1|], (get_word_range t2) as [r2|];
        try reflexivity. apply range_eqb_sym.
    + split.
      * intros H. right. destruct (get_word_range t1); [discriminate|discriminate H].
      * intros [H|H]; [discriminate H|].
        destruct (get_word_range t1) as [r1|]; [apply range_eqb_refl|congruence].
    + destruct (get_word_range t1) as [r1|], (get_word_range t2) as [r2|],
               (get_word_range t3) as [r3|]; cbn; try discriminate;
        rewrite ?andb_false_r; try discriminate.
      intros H. apply andb_prop in H. destruct H as [H1 H2].
      apply range_eqb_spec in H1. apply range_eqb_spec in H2.
      apply range_eqb_spec. destruct H1 as [A B], H2 as [C D].
      split; [rewrite A; exact C|rewrite B; exact D].
Qed.

(** X2. When words are given, two times of the same word lie in one span of the
    words tier, between its start (included) and its end (excluded). *)
Theorem same_word_one_span (t1 t2 : Q) :
  word_ranges <> [] -> same_word t1 t2 = true ->
  exists r, In r word_ranges
            /\ fst r <= t1 /\ t1 < snd r /\ fst r <= t2 /\ t2 < snd r.
Proof.
  unfold Segmenter.same_word. intros N H.
  destruct word_ranges as [|r0 rest] eqn:W; [congruence|].
  destruct (get_word_range t1) as [r1|] eqn:G1; [|discriminate].
  destruct (get_word_range t2) as [r2|] eqn:G2; [|discriminate].
  apply range_eqb_spec in H. destruct H as [A B].
  apply get_word_range_inside in G1. apply get_word_range_inside in G2.
  destruct G1 as [I1 [L1 U1]], G2 as [I2 [L2 U2]].
  exists r1. rewrite W in I1. repeat split; try assumption; lra.
Qed.

End WordProperties.

Lemma same_word_one_span_witness :
  let words := [mkInterval 0 (2 # 10) "ka"; mkInterval (2 # 10) (4 # 10) "ta"] in
  exists r, In r (word_ranges words)
            /\ (fst r <= 0 /\ 0 < snd r /\ fst r <= 1 # 10 /\ 1 # 10 < snd r)%Q.
Proof.
  apply (same_word_one_span
           [mkInterval 0 (2 # 10) "ka"; mkInterval (2 # 10) (4 # 10) "ta"]
           0 (1 # 10)).
  - vm_compute. discriminate.
  - vm_compute. reflexivity.
Defined.

Section ClassifierProperties.

Open Scope string_scope.

Lemma In_forallb_false (f : string -> bool) (l : list string) :
  forallb (fun y => negb (f y)) l = true -> forall x, In x l -> f x = false.
Proof.
  intros H x I. rewrite forallb_forall in H. specialize (H x I).
  destruct (f x); [discriminate H|reflexivity].
Qed.

Lemma consonant_vowel_exclusive (phone language : string) :
  is_consonant phone language = true -> is_vowel phone language = false.
Proof.
  unfold is_consonant, is_vowel. cbv zeta.
  generalize (_strip_tone phone) as base. intros base.
  destruct (is_chinese language).
  - intros H. apply mem_In in H. revert base H.
    apply (In_forallb_false
             (fun base =>
                if mem base CHINESE_VOWELS then true
                else if existsb (fun v => startswith base v) vowel_starts then true
                else if contains "z̩" base || contains "ʐ̩" base then true
                else if contains "ɻ" base then true else false)
             CHINESE_CONSONANTS).
    vm_compute. reflexivity.
  - destruct (is_japanese language); [|discriminate].
    intros H. apply mem_In in H. revert base H.
    apply (In_forallb_false
             (fun base =>
                mem base JAPANESE_VOWELS
                || mem (rstrip_tokens ["ː"] base) ["a"; "i"; "ɯ"; "u"; "e"; "o"])
             JAPANESE_CONSONANTS).
    vm_compute. reflexivity.
Qed.

(** X3. No phone is both a consonant and a vowel, with or without tone
    marks, whatever the language. *)
Theorem consonant_is_not_vowel (phone language : string) :
  is_consonant phone language && is_vowel phone language = false.
Proof.
  destruct (is_consonant phone language) eqn:C; [|reflexivity].
  exact (consonant_vowel_exclusive phone language C).
Qed.

End ClassifierProperties.

Section AliasProperties.

Open Scope string_scope.

(** The first character of an alias is there and is none of i, u, v. *)
Definition head_ok (s : string) : bool :=
  match s with
  | EmptyString => false
  | String a _ =>
      negb (Ascii.eqb a "i" || Ascii.eqb a "u" || Ascii.eqb a "v")
  end.

Lemma startswith_head (a b : ascii) (r : string) :
  startswith (String a r) (String b EmptyString) = Ascii.eqb a b.
Proof.
  unfold startswith. cbn [prefix].
  destruct (ascii_dec b a) as [->|N].
  - rewrite Ascii.eqb_refl. destruct r; reflexivity.
  - symmetry. apply Ascii.eqb_neq. congruence.
Qed.

Lemma head_ok_spec (s : string) :
  head_ok s = true <->
  s <> "" /\ startswith s "i" = false /\ startswith s "u" = false
  /\ startswith s "v" = false.
Proof.
  destruct s as [|a r].
  - cbn. split; [discriminate|]. intros [N _]. congruence.
  - unfold head_ok. rewrite !startswith_head.
    rewrite negb_true_iff, !orb_false_iff. split.
    + intros [[A B] C]. repeat split; try assumption. discriminate.
    + intros [_ [A [B C]]]. repeat split; assumption.
Qed.

Lemma head_ok_append (s t : string) : head_ok s = true -> head_ok (s ++ t) = true.
Proof. destruct s; [discriminate|]. intros H. exact H. Qed.

Lemma nonempty_append (s t : string) : nonempty s = true -> nonempty (s ++ t) = true.
Proof. destruct s; [discriminate|]. reflexivity. Qed.

Lemma dict_get_In {V : Type} (k : string) (d : list (string * V)) (v : V) :
  dict_get k d = Some v -> In (k, v) d.
Proof.
  induction d as [|[k' v'] rest IH]; cbn; [discriminate|].
  destruct (String.eqb k k') eqn:E.
  - intros H. injection H as ->. apply String.eqb_eq in E. subst. left. reflexivity.
  - intros H. right. apply IH. exact H.
Qed.

Lemma dict_get_value {V : Type} (P : V -> bool) (k : string)
    (d : list (string * V)) (v : V) :
  forallb (fun kv => P (snd kv)) d = true -> dict_get k d = Some v -> P v = true.
Proof.
  intros A H. apply dict_get_In in H. rewrite forallb_forall in A.
  exact (A _ H).
Qed.

Lemma get_or_value {V : Type} (P : V -> bool) (k : string)
    (d : list (string * V)) (default : V) :
  forallb (fun kv => P (snd kv)) d = true -> P default = true ->
  P (get_or k d default) = true.
Proof.
  intros A D. unfold get_or. destruct (dict_get k d) as [v|] eqn:E.
  - exact (dict_get_value P k d v A E).
  - exact D.
Qed.

Lemma pair_get_value (P : string -> bool) (k : string * string)
    (d : list ((string * string) * string)) (v : string) :
  forallb (fun kv => P (snd kv)) d = true -> pair_get k d = Some v -> P v = true.
Proof.
  induction d as [|[[a b] v'] rest IH]; cbn [pair_get forallb snd];
    [discriminate|].
  intros A. apply andb_prop in A. destruct A as [A1 A2].
  destruct (String.eqb (fst k) a && String.eqb (snd k) b).
  - intros H. injection H as <-. exact A1.
  - apply IH. exact A2.
Qed.

(** An onset of the consonant table is empty (no entry) or starts well. *)
Lemma empty_or_head_ok (s : string) :
  negb (nonempty s) || head_ok s = true -> s = "" \/ head_ok s = true.
Proof. destruct s; [left; reflexivity|right; assumption]. Qed.

Lemma onset_table_head (c c_py : string) :
  dict_get c CHINESE_CONSONANT_TO_PINYIN = Some c_py ->
  c_py = "" \/ head_ok c_py = true.
Proof.
  intros E. apply empty_or_head_ok. revert E.
  apply (dict_get_value (fun s => negb (nonempty s) || head_ok s)).
  vm_compute. reflexivity.
Qed.

Lemma onset_pinyin_head (c : string) :
  let c_py := get_or c CHINESE_CONSONANT_TO_PINYIN "" in
  c_py = "" \/ head_ok c_py = true.
Proof.
  cbv zeta. unfold get_or.
  destruct (dict_get c CHINESE_CONSONANT_TO_PINYIN) as [v|] eqn:E.
  - exact (onset_table_head c v E).
  - left. reflexivity.
Qed.

Lemma vowel_pinyin_nonempty (v : string) :
  nonempty v = true -> nonempty (get_or v CHINESE_VOWEL_TO_PINYIN v) = true.
Proof. apply get_or_value. vm_compute. reflexivity. Qed.

Lemma is_vowel_nonempty (v language : string) :
  is_vowel v language = true -> nonempty v = true.
Proof.
  destruct v as [|a r]; [|reflexivity].
  unfold is_vowel. cbv zeta.
  replace (_strip_tone "") with "" by (vm_compute; reflexivity).
  destruct (is_chinese language); [vm_compute; discriminate|].
  destruct (is_japanese language); vm_compute; discriminate.
Qed.

Lemma final_nonempty (m v_py cd : string) :
  nonempty v_py = true ->
  nonempty (if String.eqb m "j" then final_j v_py cd
            else if String.eqb m "w" then final_w v_py cd
            else if String.eqb m "ɥ" then final_y v_py cd
            else final_plain v_py cd) = true.
Proof.
  intros N. unfold final_j, final_w, final_y, final_plain.
  repeat match goal with
         | |- context [if ?b then _ else _] => destruct b
         end;
    try reflexivity; try (apply nonempty_append; exact N); exact N.
Qed.

(** Whatever the onset and the final, the syllable put together starts with
    the onset or, without an onset, with a glide letter or the final's own
    first letter when that is none of i, u, v. *)
Lemma combine_pinyin_head (c_py final : string) :
  c_py = "" \/ head_ok c_py = true -> nonempty final = true ->
  head_ok (combine_pinyin c_py final) = true.
Proof.
  intros [->|C] F.
  - destruct final as [|a r]; [discriminate F|].
    unfold combine_pinyin. cbn [nonempty negb].
    rewrite !startswith_head.
    destruct (Ascii.eqb a "i") eqn:Ei.
    { repeat match goal with
             | |- context [if ?b then _ else _] => destruct b
             end; reflexivity. }
    destruct (Ascii.eqb a "u") eqn:Eu.
    { repeat match goal with
             | |- context [if ?b then _ else _] => destruct b
             end; reflexivity. }
    destruct (Ascii.eqb a "v") eqn:Ev.
    { repeat match goal with
             | |- context [if ?b then _ else _] => destruct b
             end; reflexivity. }
    unfold head_ok. rewrite Ei, Eu, Ev. reflexivity.
  - unfold combine_pinyin.
    assert (N : nonempty c_py = true) by (destruct c_py; [discriminate C|reflexivity]).
    rewrite N. cbn [negb].
    repeat match goal with
           | |- context [if ?b then _ else _] => destruct b
           end; apply head_ok_append; exact C.
Qed.

Lemma syllable_to_pinyin_head_ok (phones : list string) (language : string)
    (use_hiragana : bool) (alias : string) :
  _syllable_to_pinyin phones language use_hiragana = Some alias ->
  head_ok alias = true.
Proof.
  unfold _syllable_to_pinyin.
  destruct phones as [|p0 rest]; [discriminate|].
  generalize (map _strip_tone (p0 :: rest)) as pb. intros pb.
  cbv zeta.
  set (first := match nth_error pb 0 with
                | Some p => if is_consonant p language then (p, 1%nat) else ("", 0%nat)
                | None => ("", 0%nat)
                end).
  destruct first as [c i1]. clear p0 rest.
  set (second := match nth_error pb i1 with
                 | Some p => if mem p CHINESE_MEDIALS then (p, S i1) else ("", i1)
                 | None => ("", i1)
                 end).
  destruct second as [m i2].
  destruct (nth_error pb i2) as [v|]; [|discriminate].
  destruct (is_vowel v language) eqn:V; cbn [negb]; [|discriminate].
  intros H. injection H as <-.
  apply combine_pinyin_head.
  - apply onset_pinyin_head.
  - apply final_nonempty. apply vowel_pinyin_nonempty.
    exact (is_vowel_nonempty v language V).
Qed.

(** X4. A syllable alias of [_syllable_to_pinyin] is never empty and never
    starts with i, u or v: a syllable without a mapped onset gets y or w in
    front, or starts with its own vowel letter. *)
Theorem syllable_to_pinyin_head (phones : list string) (language : string)
    (use_hiragana : bool) (alias : string) :
  _syllable_to_pinyin phones language use_hiragana = Some alias ->
  alias <> "" /\ startswith alias "i" = false /\ startswith alias "u" = false
  /\ startswith alias "v" = false.
Proof.
  intros H. apply head_ok_spec.
  exact (syllable_to_pinyin_head_ok phones language use_hiragana alias H).
Qed.

Lemma syllable_to_pinyin_head_witness :
  "yin" <> "" /\ startswith "yin" "i" = false /\ startswith "yin" "u" = false
  /\ startswith "yin" "v" = false.
Proof.
  apply (syllable_to_pinyin_head ["i˥"; "n"] "zh" false "yin").
  vm_compute. reflexivity.
Defined.

Lemma ipa_to_pinyin_head_ok (consonant vowel alias : string) :
  _ipa_to_pinyin consonant vowel = Some alias -> head_ok alias = true.
Proof.
  unfold _ipa_to_pinyin.
  destruct (pair_get (consonant, vowel) IPA_SYLLABLE_TO_PINYIN) as [py|] eqn:T.
  { intros H. injection H as <-. revert T. apply pair_get_value.
    vm_compute. reflexivity. }
  cbv zeta.
  set (c_res := if nonempty consonant && negb (String.eqb consonant "ʔ")
                then match dict_get consonant CHINESE_CONSONANT_TO_PINYIN with
                     | Some c => Some c
                     | None => None
                     end
                else Some "").
  assert (C : forall c, c_res = Some c -> c = "" \/ head_ok c = true).
  { subst c_res. intros c.
    destruct (nonempty consonant && negb (String.eqb consonant "ʔ")).
    - destruct (dict_get consonant CHINESE_CONSONANT_TO_PINYIN) as [c'|] eqn:E;
        [|discriminate].
      intros H. injection H as <-. exact (onset_table_head consonant c' E).
    - intros H. injection H as <-. left. reflexivity. }
  destruct c_res as [c_pinyin|]; [|discriminate].
  specialize (C c_pinyin eq_refl).
  destruct (if nonempty vowel then dict_get vowel CHINESE_VOWEL_TO_PINYIN
            else Some "") as [v_pinyin|]; [|discriminate].
  destruct v_pinyin as [|a r]; [discriminate|]. cbn [nonempty negb].
  destruct C as [->|C].
  - cbn [nonempty negb]. rewrite !startswith_head.
    destruct (Ascii.eqb a "i") eqn:Ei.
    { apply Ascii.eqb_eq in Ei. subst a.
      destruct r as [|b r'].
      - intros H. injection H as <-. reflexivity.
      - cbn [String.length Nat.ltb Nat.leb andb].
        repeat match goal with
               | |- context [if ?b then _ else _] => destruct b
               end; intros H; injection H as <-; reflexivity. }
    destruct (Ascii.eqb a "u") eqn:Eu.
    { apply Ascii.eqb_eq in Eu. subst a.
      destruct r as [|b r'].
      - intros H. vm_compute in H. injection H as <-. reflexivity.
      - cbn [String.length Nat.ltb Nat.leb andb].
        repeat match goal with
               | |- context [if ?b then _ else _] => destruct b
               end; intros H; injection H as <-; reflexivity. }
    destruct (Ascii.eqb a "v") eqn:Ev.
    { apply Ascii.eqb_eq in Ev. subst a.
      destruct r as [|b r'].
      - intros H. vm_compute in H. injection H as <-. reflexivity.
      - cbn [String.length Nat.ltb Nat.leb andb].
        repeat match goal with
               | |- context [if ?b then _ else _] => destruct b
               end; intros H; injection H as <-; reflexivity. }
    cbn [andb].
    repeat match goal with
           | |- context [if ?b then _ else _] => destruct b
           end; intros H; injection H as <-; try reflexivity;
      unfold head_ok; rewrite Ei, Eu, Ev; reflexivity.
  - assert (N : nonempty c_pinyin = true)
      by (destruct c_pinyin; [discriminate C|reflexivity]).
    rewrite N. cbn [negb].
    repeat match goal with
           | |- context [if ?b then _ else _] => destruct b
           end; intros H; injection H as <-; apply head_ok_append; exact C.
Qed.

Lemma medial_cases (P : string -> Prop) :
  P "j" -> P "w" -> P "ɥ" ->
  forall g, mem g CHINESE_MEDIALS = true -> P g.
Proof.
  intros Pj Pw Py g H. apply mem_In in H.
  destruct H as [<-|[<-|[<-|[]]]]; assumption.
Qed.

Ltac by_medial_cases :=
  match goal with
  | |- forall g, mem g CHINESE_MEDIALS = true -> @?P g => apply (medial_cases P)
  end.

Lemma vowel_is_no_medial (v language : string) :
  is_chinese language = true -> is_vowel v language = true ->
  mem v CHINESE_MEDIALS = false.
Proof.
  intros Z V. destruct (mem v CHINESE_MEDIALS) eqn:M; [|reflexivity].
  revert V. revert v M. unfold is_vowel. rewrite Z.
  by_medial_cases; vm_compute; discriminate.
Qed.

(** X5. In a Chinese syllable that starts with a glide (j, w or ɥ) followed
    by its vowel, the glide is read as the onset, which has no letter: the
    alias is that of the syllable without the glide. *)
Theorem syllable_leading_glide_dropped (g v : string) (rest : list string)
    (language : string) (use_hiragana : bool) :
  is_chinese language = true ->
  mem (_strip_tone g) CHINESE_MEDIALS = true ->
  is_vowel (_strip_tone v) language = true ->
  _syllable_to_pinyin (g :: v :: rest) language use_hiragana
  = _syllable_to_pinyin (v :: rest) language use_hiragana.
Proof.
  intros Z G V. unfold _syllable_to_pinyin. cbn [map nth_error].
  assert (C : is_consonant (_strip_tone g) language = true).
  { revert G. generalize (_strip_tone g). unfold is_consonant. rewrite Z.
    by_medial_cases; vm_compute; reflexivity. }
  assert (T : get_or (_strip_tone g) CHINESE_CONSONANT_TO_PINYIN "" = "").
  { revert G. generalize (_strip_tone g).
    by_medial_cases; vm_compute; reflexivity. }
  assert (M : mem (_strip_tone v) CHINESE_MEDIALS = false)
    by exact (vowel_is_no_medial _ language Z V).
  assert (N : is_consonant (_strip_tone v) language = false).
  { destruct (is_consonant (_strip_tone v) language) eqn:E; [|reflexivity].
    apply consonant_vowel_exclusive in E. congruence. }
  rewrite C, N. cbv beta iota zeta. cbn [nth_error]. rewrite M.
  cbv beta iota zeta. cbn [nth_error]. rewrite V. cbn [negb].
  rewrite T. reflexivity.
Qed.

Lemma syllable_leading_glide_dropped_witness :
  _syllable_to_pinyin ["j"; "a˥"; "n"] "zh" false
  = _syllable_to_pinyin ["a˥"; "n"] "zh" false.
Proof.
  apply syllable_leading_glide_dropped; vm_compute; reflexivity.
Defined.

Definition romaji_char (c : ascii) : bool :=
  let n := nat_of_ascii c in
  ((48 <=? n) && (n <=? 57) || (97 <=? n) && (n <=? 122) || (n =? 95))%nat.

Lemma lower_kept_char (c : ascii) :
  is_ascii_char c && (is_alnum_char c || Ascii.eqb c "_"%char) = true ->
  romaji_char (lower_char c) = true.
Proof.
  destruct c as [[] [] [] [] [] [] [] []]; vm_compute; intros H;
    first [reflexivity | discriminate H].
Qed.

Lemma lower_filter_chars (s : string) :
  forall_string romaji_char
    (lower (filter_string
              (fun c => is_ascii_char c && (is_alnum_char c || Ascii.eqb c "_"%char))
              s)) = true.
Proof.
  induction s as [|c r IH]; [reflexivity|].
  cbn [filter_string].
  destruct (is_ascii_char c && (is_alnum_char c || Ascii.eqb c "_"%char)) eqn:K.
  - unfold lower in *. cbn [map_string forall_string].
    rewrite (lower_kept_char c K). exact IH.
  - exact IH.
Qed.

Lemma ipa_to_alias_ok (consonant vowel : option string)
    (language : string) (use_hiragana : bool) (alias : string) :
  ipa_to_alias consonant vowel language use_hiragana = Some alias ->
  nonempty alias = true
  /\ (is_chinese language = true -> head_ok alias = true)
  /\ (is_chinese language = false -> use_hiragana = false ->
      forall_string romaji_char alias = true).
Proof.
  unfold ipa_to_alias. cbv zeta.
  generalize (match consonant with
              | Some c => if nonempty c then _strip_tone c else ""
              | None => "" end) as c_base.
  generalize (match vowel with
              | Some v => if nonempty v then _strip_tone v else ""
              | None => "" end) as v_base.
  intros v_base c_base.
  destruct (is_chinese language).
  - intros H. apply ipa_to_pinyin_head_ok in H.
    split; [destruct alias; [discriminate H|reflexivity]|].
    split; [intros _; exact H|discriminate].
  - match goal with
    | |- context [lower ?x] => pose proof (lower_filter_chars
        (get_or c_base JAPANESE_IPA_TO_ROMAJI c_base
         ++ get_or v_base JAPANESE_IPA_TO_ROMAJI v_base)) as R;
        generalize dependent (lower x)
    end.
    intros romaji R.
    destruct (nonempty romaji) eqn:N; cbn [negb]; [|discriminate].
    destruct use_hiragana.
    + intros H. injection H as <-.
      split; [apply get_or_value; [vm_compute; reflexivity|exact N]|].
      split; discriminate.
    + intros H. injection H as <-.
      split; [exact N|]. split; [discriminate|]. intros _ _. exact R.
Qed.

(** X6. [ipa_to_alias] never gives the empty alias.  For Chinese the alias
    does not start with i, u or v; for Japanese without hiragana it is made
    of lower-case ASCII letters, digits and underscores only. *)
Theorem ipa_to_alias_shape (consonant vowel : option string)
    (language : string) (use_hiragana : bool) (alias : string) :
  ipa_to_alias consonant vowel language use_hiragana = Some alias ->
  alias <> ""
  /\ (is_chinese language = true ->
      startswith alias "i" = false /\ startswith alias "u" = false
      /\ startswith alias "v" = false)
  /\ (is_chinese language = false -> use_hiragana = false ->
      forall_string romaji_char alias = true).
Proof.
  intros H. apply ipa_to_alias_ok in H. destruct H as [N [C J]].
  split; [intros E; rewrite E in N; discriminate N|].
  split; [|exact J].
  intros Z. apply head_ok_spec in C; [tauto|exact Z].
Qed.

Lemma ipa_to_alias_shape_witness :
  "ka" <> ""
  /\ (is_chinese "ja" = true ->
      startswith "ka" "i" = false /\ startswith "ka" "u" = false
      /\ startswith "ka" "v" = false)
  /\ (is_chinese "ja" = false -> false = false ->
      forall_string romaji_char "ka" = true).
Proof.
  apply (ipa_to_alias_shape (Some "k") (Some "a") "ja" false "ka").
  vm_compute. reflexivity.
Defined.

End AliasProperties.

(* ================================================================== *)
(** * Further properties: the aliases of the simple units *)
(* ================================================================== *)

Section UnitAliases.

Open Scope string_scope.

Variable words_tier phones_tier : list Interval.
Variable wav_name : string.
Variable wav_duration_ms : Q.
Variable language : string.
Variable use_hiragana : bool.
Variable overlap_ratio : Q.

(** X7. Every entry of [_extract_cv_pairs] has an alias that is not empty.
    For Chinese it does not start with i, u or v; for another language
    without hiragana it is made of lower-case ASCII letters, digits and
    underscores only. *)
Theorem cv_entries_alias (e : Entry) :
  In e (_extract_cv_pairs words_tier phones_tier wav_name wav_duration_ms
                          language use_hiragana overlap_ratio) ->
  alias e <> ""
  /\ (is_chinese language = true ->
      startswith (alias e) "i" = false /\ startswith (alias e) "u" = false
      /\ startswith (alias e) "v" = false)
  /\ (is_chinese language = false -> use_hiragana = false ->
      forall_string romaji_char (alias e) = true).
Proof.
  unfold _extract_cv_pairs. intros H. apply cv_loop_In in H.
  destruct H as [[]|[j [interval [_ H]]]].
  unfold cv_body in H. cbv zeta in H.
  destruct (is_skip (strip (mark interval))); [destruct H|].
  destruct (is_chinese language) eqn:Z.
  - destruct (zh_parse words_tier phones_tier language j interval
                       (strip (mark interval))) as [i' syl].
    cbn [snd] in H. unfold zh_entries in H.
    destruct syl as [s|]; [|destruct H].
    destruct (_syllable_to_pinyin (syllable_phones s) language use_hiragana)
      as [a|] eqn:A; [|destruct H].
    destruct (nonempty a); [|destruct H].
    destruct H as [<-|[]]. cbn [_calculate_oto_params alias].
    apply syllable_to_pinyin_head_ok in A. apply head_ok_spec in A.
    split; [tauto|]. split; [tauto|discriminate].
  - destruct (ja_parse words_tier phones_tier language j interval
                       (strip (mark interval))) as [i' p].
    cbn [snd] in H. unfold ja_entries in H.
    destruct p as [u|]; [|destruct H].
    destruct (ipa_to_alias (pair_consonant u) (pair_vowel u) language use_hiragana)
      as [a|] eqn:A; [|destruct H].
    destruct (nonempty a) eqn:N; [|destruct H].
    destruct H as [<-|[]]. cbn [_calculate_oto_params alias].
    apply ipa_to_alias_ok in A. rewrite Z in A. destruct A as [_ [_ J]].
    split; [intros E; rewrite E in N; discriminate N|].
    split; [discriminate|]. intros _. exact (J eq_refl).
Qed.

End UnitAliases.

Lemma cv_entries_alias_witness :
  let entries := _extract_cv_pairs [] tier_ka "a.wav" 1000 "zh" false (3 # 10) in
  exists e,
    In e entries
    /\ alias e <> ""%string
    /\ (is_chinese "zh" = true ->
        startswith (alias e) "i" = false /\ startswith (alias e) "u" = false
        /\ startswith (alias e) "v" = false)
    /\ (is_chinese "zh" = false -> false = false ->
        forall_string romaji_char (alias e) = true).
Proof.
  cbv zeta.
  destruct (_extract_cv_pairs [] tier_ka "a.wav" 1000 "zh" false (3 # 10))
    as [|e rest] eqn:E; [vm_compute in E; discriminate E|].
  exists e. split; [left; reflexivity|].
  apply (cv_entries_alias [] tier_ka "a.wav" 1000 "zh" false (3 # 10) e).
  rewrite E. left. reflexivity.
Defined.

(* ================================================================== *)
(** * Further properties: candidates and extension *)
(* ================================================================== *)

Section CandidateProperties.

Open Scope string_scope.

(** X8. A substitute is an available phoneme: the phoneme itself, or another
    member of a group that lists the phoneme. *)
Theorem find_fuzzy_substitute_sound (phoneme : string)
    (available_phonemes : list string) (groups : list (list string))
    (substitute : string) :
  _find_fuzzy_substitute phoneme available_phonemes groups = Some substitute ->
  In substitute available_phonemes
  /\ (substitute = phoneme
      \/ (~ In phoneme available_phonemes /\ substitute <> phoneme
          /\ exists group, In group groups /\ In phoneme group
                           /\ In substitute group)).
Proof.
  unfold _find_fuzzy_substitute.
  destruct (mem phoneme available_phonemes) eqn:M.
  - intros H. injection H as <-. split; [apply mem_In; exact M|left; reflexivity].
  - destruct (find (fun group => mem phoneme group) groups) as [group|] eqn:G;
      [|discriminate].
    intros H. apply find_some in H. destruct H as [I H].
    apply andb_prop in H. destruct H as [N A].
    apply find_some in G. destruct G as [Ig Pg].
    split; [apply mem_In; exact A|]. right.
    split; [apply mem_false_not_In; exact M|]. split.
    + apply String.eqb_neq. destruct (String.eqb substitute phoneme);
        [discriminate N|reflexivity].
    + exists group. split; [exact Ig|]. split; [apply mem_In; exact Pg|exact I].
Qed.

Lemma find_fuzzy_substitute_sound_witness :
  In "s" ["s"; "a"]
  /\ ("s" = "sh"
      \/ (~ In "sh" ["s"; "a"] /\ "s" <> "sh"
          /\ exists group, In group FUZZY_CONSONANT_GROUPS /\ In "sh" group
                           /\ In "s" group)).
Proof.
  apply (find_fuzzy_substitute_sound "sh" ["s"; "a"] FUZZY_CONSONANT_GROUPS "s").
  vm_compute. reflexivity.
Defined.

Lemma normal_candidate_new existing language use_hiragana c v cand :
  In cand (normal_candidate existing language use_hiragana c v) ->
  mem (cand_alias cand) existing = false
  /\ mem (base_alias cand) existing = false
  /\ is_fuzzy cand = false.
Proof.
  unfold normal_candidate. destruct c as [c_alias c_info], v as [v_alias v_info].
  cbv zeta.
  destruct (negb (isascii c_alias) || negb (isascii v_alias)); [intros []|].
  destruct (negb (mem (lower v_alias) (valid_vowels language))
            && (2 <? String.length (lower v_alias))%nat); [intros []|].
  destruct (if use_hiragana
            then dict_get (lower c_alias ++ lower v_alias) ROMAJI_TO_HIRAGANA
            else Some (lower c_alias ++ lower v_alias)) as [final_alias|];
    [|intros []].
  destruct (mem final_alias existing) eqn:M1; [intros []|].
  destruct (mem (lower c_alias ++ lower v_alias) existing) eqn:M2; [intros []|].
  intros [<-|[]]. cbn. auto.
Qed.

Lemma normal_candidates_new consonants vowels existing language use_hiragana cand :
  In cand (normal_candidates consonants vowels existing language use_hiragana) ->
  mem (cand_alias cand) existing = false
  /\ mem (base_alias cand) existing = false
  /\ is_fuzzy cand = false.
Proof.
  unfold normal_candidates. intros H.
  apply in_flat_map in H. destruct H as [c [_ H]].
  apply in_flat_map in H. destruct H as [v [_ H]].
  exact (normal_candidate_new existing language use_hiragana c v cand H).
Qed.

Lemma fuzzy_target_alias consonants vowels ac av generated tc tv cand :
  fuzzy_target consonants vowels ac av generated tc tv = Some cand ->
  mem (tc ++ tv) generated = false
  /\ cand_alias cand = tc ++ tv /\ base_alias cand = tc ++ tv
  /\ is_fuzzy cand = true.
Proof.
  unfold fuzzy_target. cbv zeta.
  destruct (mem (tc ++ tv) generated) eqn:M; [discriminate|].
  destruct (actual_phoneme tc ac FUZZY_CONSONANT_GROUPS) as [c|]; [|discriminate].
  destruct (actual_phoneme tv av FUZZY_VOWEL_GROUPS) as [v|]; [|discriminate].
  destruct (String.eqb c tc && String.eqb v tv); [discriminate|].
  destruct (dict_get c consonants) as [ci|]; [|discriminate].
  destruct (dict_get v vowels) as [vi|]; [|discriminate].
  intros H. injection H as <-. cbn. auto.
Qed.

Lemma fuzzy_candidate_alias consonants vowels ac av existing normal cand :
  In cand (_generate_fuzzy_candidates consonants vowels ac av existing normal) ->
  mem (cand_alias cand) (map base_alias normal ++ existing) = false
  /\ base_alias cand = cand_alias cand /\ is_fuzzy cand = true.
Proof.
  rewrite fuzzy_candidates_as_map. intros H.
  apply in_flat_map in H. destruct H as [[tc tv] [_ H]]. cbn [fst snd] in H.
  destruct (fuzzy_target consonants vowels ac av
              (map base_alias normal ++ existing) tc tv) as [c|] eqn:E;
    [|destruct H].
  destruct H as [<-|[]]. apply fuzzy_target_alias in E.
  destruct E as [M [A [B F]]]. rewrite A, B. auto.
Qed.

(** The aliases of the candidates of distinct targets are distinct. *)
Lemma fuzzy_aliases_NoDup consonants vowels ac av generated
    (targets : list (string * string)) :
  NoDup (map target_alias targets) ->
  NoDup (map cand_alias
           (flat_map
              (fun t => candidate_list
                          (fuzzy_target consonants vowels ac av generated
                                        (fst t) (snd t)))
              targets)).
Proof.
  induction targets as [|t targets IH]; cbn [map flat_map]; [constructor|].
  intros ND. inversion ND as [|a l Hnin ND']; subst.
  destruct (fuzzy_target consonants vowels ac av generated (fst t) (snd t))
    as [cand|] eqn:E; cbn [candidate_list app map]; [|auto].
  constructor; [|auto].
  apply fuzzy_target_alias in E. destruct E as [_ [A _]].
  intros I. apply Hnin. apply in_map_iff in I. destruct I as [c' [Ec Ic]].
  apply in_flat_map in Ic. destruct Ic as [t' [It' Ic]].
  destruct (fuzzy_target consonants vowels ac av generated (fst t') (snd t'))
    as [cand'|] eqn:E'; [|destruct Ic].
  destruct Ic as [<-|[]]. apply fuzzy_target_alias in E'.
  destruct E' as [_ [A' _]].
  apply in_map_iff. exists t'. split; [|exact It'].
  unfold target_alias. congruence.
Qed.

Lemma filter_none {A : Type} (f : A -> bool) (l : list A) :
  (forall x, In x l -> f x = false) -> filter f l = [].
Proof.
  induction l as [|x l IH]; intros H; cbn; [reflexivity|].
  rewrite (H x (or_introl eq_refl)). apply IH. intros y Hy. apply H. right. exact Hy.
Qed.

Lemma filter_all {A : Type} (f : A -> bool) (l : list A) :
  (forall x, In x l -> f x = true) -> filter f l = l.
Proof.
  induction l as [|x l IH]; intros H; cbn; [reflexivity|].
  rewrite (H x (or_introl eq_refl)). f_equal. apply IH.
  intros y Hy. apply H. right. exact Hy.
Qed.

(** X9. No candidate of [_generate_candidates] repeats an alias that exists
    already, under its alias or under its romanised base alias; the fuzzy
    candidates have pairwise distinct aliases, none of which is the base
    alias of an exact candidate; and without the fuzzy option, or for a
    language other than Chinese, every candidate is exact. *)
Theorem generate_candidates_new
    (consonants vowels : list (string * PhonemeInfo))
    (existing_aliases : list string) (language : string)
    (use_hiragana fuzzy_phoneme : bool) :
  let candidates :=
    _generate_candidates consonants vowels existing_aliases language
                         use_hiragana fuzzy_phoneme in
  Forall (fun cand => ~ In (cand_alias cand) existing_aliases
                      /\ ~ In (base_alias cand) existing_aliases) candidates
  /\ NoDup (map cand_alias (filter is_fuzzy candidates))
  /\ Forall (fun cand =>
               is_fuzzy cand = true ->
               Forall (fun exact => is_fuzzy exact = false ->
                                    base_alias exact <> cand_alias cand)
                      candidates)
            candidates
  /\ (fuzzy_phoneme && is_chinese language = false ->
      Forall (fun cand => is_fuzzy cand = false) candidates).
Proof.
  cbv zeta. unfold _generate_candidates. cbv zeta.
  set (normal := normal_candidates consonants vowels existing_aliases language
                                   use_hiragana).
  set (fuzzy := _generate_fuzzy_candidates consonants vowels (keys consonants)
                  (keys vowels) existing_aliases normal).
  assert (Hn : forall cand, In cand normal ->
                 mem (cand_alias cand) existing_aliases = false
                 /\ mem (base_alias cand) existing_aliases = false
                 /\ is_fuzzy cand = false)
    by (intros cand; apply normal_candidates_new).
  assert (Hf : forall cand, In cand fuzzy ->
                 mem (cand_alias cand) (map base_alias normal ++ existing_aliases)
                 = false
                 /\ base_alias cand = cand_alias cand /\ is_fuzzy cand = true)
    by (intros cand; apply fuzzy_candidate_alias).
  assert (Fn : Forall (fun cand => ~ In (cand_alias cand) existing_aliases
                                   /\ ~ In (base_alias cand) existing_aliases)
                      normal).
  { apply Forall_forall. intros cand I. destruct (Hn cand I) as [A [B _]].
    split; apply mem_false_not_In; assumption. }
  assert (En : Forall (fun cand => is_fuzzy cand = false) normal).
  { apply Forall_forall. intros cand I. exact (proj2 (proj2 (Hn cand I))). }
  destruct (fuzzy_phoneme && is_chinese language).
  - split; [|split; [|split]].
    + apply Forall_app. split; [exact Fn|].
      apply Forall_forall. intros cand I. destruct (Hf cand I) as [A [B _]].
      rewrite B. rewrite mem_app in A. apply orb_false_iff in A.
      split; apply mem_false_not_In; tauto.
    + rewrite filter_app.
      rewrite (filter_none is_fuzzy normal)
        by (intros x I; exact (proj2 (proj2 (Hn x I)))).
      rewrite (filter_all is_fuzzy fuzzy)
        by (intros x I; exact (proj2 (proj2 (Hf x I)))).
      cbn [app]. subst fuzzy. rewrite fuzzy_candidates_as_map.
      apply fuzzy_aliases_NoDup. apply target_aliases_distinct.
    + apply Forall_forall. intros cand I Fz.
      apply in_app_or in I. destruct I as [I|I].
      { rewrite (proj2 (proj2 (Hn cand I))) in Fz. discriminate Fz. }
      apply Forall_forall. intros exact Ie Ex.
      apply in_app_or in Ie. destruct Ie as [Ie|Ie].
      * destruct (Hf cand I) as [A _]. rewrite mem_app in A.
        apply orb_false_iff in A. destruct A as [A _].
        apply mem_false_not_In in A. intros Eq. apply A. rewrite <- Eq.
        apply in_map. exact Ie.
      * rewrite (proj2 (proj2 (Hf exact Ie))) in Ex. discriminate Ex.
    + discriminate.
  - split; [exact Fn|]. split; [|split].
    + rewrite (filter_none is_fuzzy normal)
        by (intros x I; exact (proj2 (proj2 (Hn x I)))).
      constructor.
    + apply Forall_forall. intros cand I Fz.
      rewrite (proj2 (proj2 (Hn cand I))) in Fz. discriminate Fz.
    + intros _. exact En.
Qed.

End CandidateProperties.

Section ExtensionProperties.

Open Scope Q_scope.

(** X10. [_apply_extend] makes up at one end for what the other end could
    not take: when the audio has room for it, the clip grows by exactly
    twice the extension; when it has not, the clip becomes the whole
    audio. *)
Theorem apply_extend_compensates
    (start_time end_time extend_duration audio_duration : Q) :
  0 <= start_time -> start_time <= end_time -> end_time <= audio_duration ->
  0 <= extend_duration ->
  let new_start := fst (_apply_extend start_time end_time extend_duration audio_duration) in
  let new_end := snd (_apply_extend start_time end_time extend_duration audio_duration) in
  (2 * extend_duration <= audio_duration - (end_time - start_time) ->
   (new_end - new_start) - (end_time - start_time) == 2 * extend_duration)
  /\ (audio_duration - (end_time - start_time) <= 2 * extend_duration ->
      new_start == 0 /\ new_end == audio_duration).
Proof.
  intros Hs Hse Hed He. unfold _apply_extend.
  destruct (Qlt_le_dec 0 extend_duration) as [Hpos|Hle]; cbn zeta.
  2: { cbn [fst snd]. split; intros; repeat split; lra. }
  destruct (py_max_cases 0 (start_time - extend_duration)) as [[M1 ->]|[M1 ->]];
    destruct (py_min_cases audio_duration (end_time + extend_duration))
      as [[M2 ->]|[M2 ->]];
    match goal with
    | |- context [Qlt_le_dec 0 ?r] => destruct (Qlt_le_dec 0 r) as [R|R]
    end; cbn [fst snd]; try (split; intros; repeat split; lra);
    match goal with
    | |- context [py_min ?a ?b] =>
        destruct (py_min_cases a b) as [[M3 E3]|[M3 E3]]; rewrite ?E3
    end;
    match goal with
    | |- context [Qlt_le_dec 0 ?r] => destruct (Qlt_le_dec 0 r) as [R'|R']
    end; cbn [fst snd]; try (split; intros; repeat split; lra);
    match goal with
    | |- context [py_max ?a ?b] =>
        destruct (py_max_cases a b) as [[M4 E4]|[M4 E4]]; rewrite ?E4
    end; split; intros; repeat split; lra.
Qed.

Lemma apply_extend_compensates_witness :
  let r := _apply_extend (1 # 10) 2 (1 # 2) 10 in
  (2 * (1 # 2) <= 10 - (2 - (1 # 10)) ->
   (snd r - fst r) - (2 - (1 # 10)) == 2 * (1 # 2))
  /\ (10 - (2 - (1 # 10)) <= 2 * (1 # 2) -> fst r == 0 /\ snd r == 10).
Proof.
  apply (apply_extend_compensates (1 # 10) 2 (1 # 2) 10); lra.
Defined.

End ExtensionProperties.

(* ================================================================== *)
(** * Further properties: the samples of a crossfade *)
(* ================================================================== *)

Section CrossfadeSamples.

Open Scope Q_scope.

Lemma nth_error_zip_with (f : Q -> Q -> Q) (a : list Q) :
  forall (b : list Q) (i : nat),
    nth_error (zip_with f a b) i
    = match nth_error a i, nth_error b i with
      | Some x, Some y => Some (f x y)
      | _, _ => None
      end.
Proof.
  induction a as [|x a IH]; intros b i.
  - cbn. destruct i; reflexivity.
  - destruct b as [|y b]; cbn [zip_with].
    + destruct i; cbn; [reflexivity|]. destruct (nth_error a i); reflexivity.
    + destruct i; cbn; [reflexivity|]. apply IH.
Qed.

(** The weight of the second signal at sample [i] of [n]. *)
Definition fade_weight (n i : nat) : Q :=
  match n with
  | 1%nat => 0
  | _ => inject_Z (Z.of_nat i) / inject_Z (Z.of_nat (n - 1))
  end.

Lemma inject_nat_pos (m : nat) : 0 < inject_Z (Z.of_nat (S m)).
Proof. unfold Qlt. cbn. lia. Qed.

Lemma inject_nat_nonneg (i : nat) : 0 <= inject_Z (Z.of_nat i).
Proof. unfold Qle. cbn. lia. Qed.

Lemma inject_nat_le (i m : nat) :
  (i <= m)%nat -> inject_Z (Z.of_nat i) <= inject_Z (Z.of_nat m).
Proof. intros L. rewrite <- Zle_Qle. lia. Qed.

Lemma linspace_nth (start stop : Q) (n i : nat) :
  (i < n)%nat ->
  exists w, nth_error (linspace start stop n) i = Some w
            /\ w == start + fade_weight n i * (stop - start).
Proof.
  intros L. destruct n as [|[|m]]; [lia| |].
  - assert (i = 0%nat) by lia. subst. exists start. split; [reflexivity|].
    cbn. ring.
  - unfold linspace. rewrite nth_error_map, nth_error_seq.
    rewrite (proj2 (Nat.ltb_lt _ _) L). cbn [option_map Nat.add].
    eexists. split; [reflexivity|].
    unfold fade_weight.
    replace (S (S m) - 1)%nat with (S m) by lia.
    assert (P : ~ inject_Z (Z.of_nat (S m)) == 0).
    { intros E. pose proof (inject_nat_pos m). lra. }
    field. exact P.
Qed.

Lemma fade_weight_range (n i : nat) :
  (i < n)%nat -> 0 <= fade_weight n i /\ fade_weight n i <= 1.
Proof.
  intros L. unfold fade_weight. destruct n as [|[|m]]; [lia|split; lra|].
  replace (S (S m) - 1)%nat with (S m) by lia.
  pose proof (inject_nat_pos m) as P.
  pose proof (inject_nat_nonneg i) as I.
  assert (U : inject_Z (Z.of_nat i) <= inject_Z (Z.of_nat (S m)))
    by (apply inject_nat_le; lia).
  split.
  - apply Qle_shift_div_l; [exact P|]. lra.
  - apply Qle_shift_div_r; [exact P|]. lra.
Qed.

(** X11. What a crossfade of [n] samples is made of, for 1 <= n <= both
    lengths: the samples of the first signal before the overlap and the
    samples of the second signal after it are kept as they are, and sample
    [i] of the overlap is a * (1 - w) + b * w for the two samples a and b
    that meet there, with a weight w between 0 and 1: 0 at the first sample
    and, for n >= 2, i / (n - 1). *)
Theorem crossfade_concat_samples (audio1 audio2 : list Q) (cs : Z) :
  (1 <= cs)%Z -> (cs <= Z.of_nat (List.length audio1))%Z ->
  (cs <= Z.of_nat (List.length audio2))%Z ->
  let n := Z.to_nat cs in
  let kept := (List.length audio1 - n)%nat in
  exists combined,
    _crossfade_concat audio1 audio2 cs = Some combined
    /\ (forall i, (i < kept)%nat -> nth_error combined i = nth_error audio1 i)
    /\ (forall i, (i < n)%nat ->
          exists a b v,
            nth_error audio1 (kept + i) = Some a
            /\ nth_error audio2 i = Some b
            /\ nth_error combined (kept + i) = Some v
            /\ v == a * (1 - fade_weight n i) + b * fade_weight n i
            /\ 0 <= fade_weight n i <= 1)
    /\ (forall i, nth_error combined (List.length audio1 + i)
                  = nth_error audio2 (n + i)).
Proof.
  intros H1 Ha Hb n kept. unfold _crossfade_concat.
  destruct (cs <=? 0)%Z eqn:E; [apply Z.leb_le in E; lia|].
  cbv zeta. unfold py_min3.
  rewrite (Z.min_l cs _ Ha), (Z.min_l cs _ Hb).
  fold n.
  assert (Hn : (1 <= n)%nat) by (subst n; lia).
  assert (Hna : (n <= List.length audio1)%nat) by (subst n; lia).
  assert (Hnb : (n <= List.length audio2)%nat) by (subst n; lia).
  assert (S1 : slice_to_neg audio1 n = firstn kept audio1)
    by (unfold slice_to_neg; destruct n; [lia|reflexivity]).
  assert (S2 : slice_from_neg audio1 n = skipn kept audio1)
    by (unfold slice_from_neg; destruct n; [lia|reflexivity]).
  rewrite S1, S2.
  assert (L1 : List.length (skipn kept audio1) = n)
    by (rewrite length_skipn; subst kept; lia).
  assert (L2 : List.length (firstn n audio2) = n)
    by (rewrite length_firstn; lia).
  assert (Z1 : List.length (zip_with Qmult (skipn kept audio1) (linspace 1 0 n)) = n).
  { rewrite zip_with_length; [exact L1|]. rewrite L1, linspace_length. reflexivity. }
  assert (Z2 : List.length (zip_with Qmult (firstn n audio2) (linspace 0 1 n)) = n).
  { rewrite zip_with_length; [exact L2|]. rewrite L2, linspace_length. reflexivity. }
  unfold elementwise.
  rewrite L1, L2, !linspace_length, Nat.eqb_refl, Z1, Z2, Nat.eqb_refl.
  eexists. split; [reflexivity|].
  assert (Lk : List.length (firstn kept audio1) = kept)
    by (rewrite length_firstn; subst kept; lia).
  assert (Lc : List.length
                 (zip_with Qplus
                    (zip_with Qmult (skipn kept audio1) (linspace 1 0 n))
                    (zip_with Qmult (firstn n audio2) (linspace 0 1 n))) = n).
  { rewrite zip_with_length; [exact Z1|]. rewrite Z1, Z2. reflexivity. }
  split; [|split].
  - intros i Hi. rewrite nth_error_app1 by lia.
    rewrite nth_error_firstn, (proj2 (Nat.ltb_lt _ _) Hi). reflexivity.
  - intros i Hi.
    rewrite nth_error_app2 by lia. rewrite Lk.
    replace (kept + i - kept)%nat with i by lia.
    rewrite nth_error_app1 by lia.
    rewrite !nth_error_zip_with, nth_error_skipn, nth_error_firstn.
    rewrite (proj2 (Nat.ltb_lt _ _) Hi).
    destruct (nth_error audio1 (kept + i)) as [a|] eqn:Ea.
    2: { apply nth_error_None in Ea. subst kept. lia. }
    destruct (nth_error audio2 i) as [b|] eqn:Eb.
    2: { apply nth_error_None in Eb. lia. }
    destruct (linspace_nth 1 0 n i Hi) as [wo [Eo Wo]].
    destruct (linspace_nth 0 1 n i Hi) as [wi [Ei Wi]].
    rewrite Eo, Ei.
    exists a, b. eexists. split; [reflexivity|]. split; [reflexivity|].
    split; [reflexivity|]. split.
    + rewrite Wo, Wi. ring.
    + apply fade_weight_range. exact Hi.
  - intros i. rewrite nth_error_app2 by lia. rewrite Lk.
    rewrite nth_error_app2 by lia. rewrite Lc, nth_error_skipn.
    f_equal. subst kept. lia.
Qed.

Lemma crossfade_concat_samples_witness :
  let audio1 := [1; 2; 3; 4] in
  let audio2 := [10; 20; 30; 40; 50; 60] in
  exists combined,
    _crossfade_concat audio1 audio2 2 = Some combined
    /\ (forall i, (i < 2)%nat -> nth_error combined i = nth_error audio1 i)
    /\ (forall i, (i < 2)%nat ->
          exists a b v,
            nth_error audio1 (2 + i) = Some a
            /\ nth_error audio2 i = Some b
            /\ nth_error combined (2 + i) = Some v
            /\ v == a * (1 - fade_weight 2 i) + b * fade_weight 2 i
            /\ 0 <= fade_weight 2 i <= 1)
    /\ (forall i, nth_error combined (4 + i) = nth_error audio2 (2 + i)).
Proof.
  apply (crossfade_concat_samples [1; 2; 3; 4] [10; 20; 30; 40; 50; 60] 2);
    cbn; lia.
Defined.

End CrossfadeSamples.

(* ================================================================== *)
(** * Properties of the exemplars *)
(* ================================================================== *)

Section ExemplarProperties.

Open Scope Q_scope.

Lemma max_by_spec {A : Type} (key : A -> Q) (l : list A) (best : A) :
  max_by key l = Some best ->
  In best l /\ forall y, In y l -> key y <= key best.
Proof.
  destruct l as [|x rest]; [discriminate|]. cbn [max_by].
  intros H. injection H as <-.
  assert (G : forall (rest : list A) (x : A),
             let b := fold_left
                        (fun best y => if Qlt_le_dec (key best) (key y) then y else best)
                        rest x in
             (b = x \/ In b rest) /\ key x <= key b
             /\ forall y, In y rest -> key y <= key b).
  { clear. induction rest as [|z rest IH]; intros x; cbn.
    - split; [left; reflexivity|]. split; [lra|intros y []].
    - destruct (Qlt_le_dec (key x) (key z)) as [L|L].
      + destruct (IH z) as [I [B F]].
        split; [destruct I as [I|I]; [right; left; symmetry; exact I|right; right; exact I]|].
        split; [lra|]. intros y [<-|Hy]; [exact B|exact (F y Hy)].
      + destruct (IH x) as [I [B F]].
        split; [destruct I as [I|I]; [left; exact I|right; right; exact I]|].
        split; [exact B|]. intros y [<-|Hy]; [lra|exact (F y Hy)]. }
  destruct (G rest x) as [I [B F]]. split.
  - destruct I as [->|I]; [left; reflexivity|right; exact I].
  - intros y [<-|Hy]; [exact B|exact (F y Hy)].
Qed.

Lemma min_by_spec {A : Type} (key : A -> Q) (l : list A) (best : A) :
  min_by key l = Some best ->
  In best l /\ forall y, In y l -> key best <= key y.
Proof.
  destruct l as [|x rest]; [discriminate|]. cbn [min_by].
  intros H. injection H as <-.
  assert (G : forall (rest : list A) (x : A),
             let b := fold_left
                        (fun best y => if Qlt_le_dec (key y) (key best) then y else best)
                        rest x in
             (b = x \/ In b rest) /\ key b <= key x
             /\ forall y, In y rest -> key b <= key y).
  { clear. induction rest as [|z rest IH]; intros x; cbn.
    - split; [left; reflexivity|]. split; [lra|intros y []].
    - destruct (Qlt_le_dec (key z) (key x)) as [L|L].
      + destruct (IH z) as [I [B F]].
        split; [destruct I as [I|I]; [right; left; symmetry; exact I|right; right; exact I]|].
        split; [lra|]. intros y [<-|Hy]; [exact B|exact (F y Hy)].
      + destruct (IH x) as [I [B F]].
        split; [destruct I as [I|I]; [left; exact I|right; right; exact I]|].
        split; [exact B|]. intros y [<-|Hy]; [lra|exact (F y Hy)]. }
  destruct (G rest x) as [I [B F]]. split.
  - destruct I as [->|I]; [left; reflexivity|right; exact I].
  - intros y [<-|Hy]; [exact B|exact (F y Hy)].
Qed.

Section SortCounts.

Variable A : Type.
Variable key : A -> Q.

Lemma In_insert_by (x y : A) (l : list A) :
  In y (insert_by key x l) <-> y = x \/ In y l.
Proof.
  induction l as [|z l IH]; cbn.
  - intuition congruence.
  - destruct (Qle_bool (key x) (key z)); cbn; [intuition congruence|].
    rewrite IH. intuition congruence.
Qed.

Lemma In_sorted_by (y : A) (l : list A) : In y (sorted_by key l) <-> In y l.
Proof.
  unfold sorted_by. induction l as [|x l IH]; cbn [fold_right]; [reflexivity|].
  rewrite In_insert_by, IH. cbn. intuition congruence.
Qed.

Lemma count_insert_by (P : A -> bool) (x : A) (l : list A) :
  List.length (filter P (insert_by key x l)) = List.length (filter P (x :: l)).
Proof.
  induction l as [|z l IH]; [reflexivity|].
  cbn [insert_by]. destruct (Qle_bool (key x) (key z)); [reflexivity|].
  cbn [filter] in *. destruct (P z), (P x); cbn [List.length] in *; lia.
Qed.

Lemma count_sorted_by (P : A -> bool) (l : list A) :
  List.length (filter P (sorted_by key l)) = List.length (filter P l).
Proof.
  unfold sorted_by. induction l as [|x l IH]; cbn [fold_right]; [reflexivity|].
  rewrite count_insert_by. cbn [filter]. destruct (P x); cbn [List.length]; lia.
Qed.

(** In a sorted list, what comes first has the smaller key. *)
Lemma sorted_app_le (l1 l2 : list A) :
  StronglySorted (fun a b => key a <= key b) (l1 ++ l2) ->
  forall a b, In a l1 -> In b l2 -> key a <= key b.
Proof.
  induction l1 as [|x l1 IH]; intros S a b Ha Hb; [destruct Ha|].
  cbn in S. inversion S as [|? ? S' F]; subst.
  destruct Ha as [<-|Ha].
  - rewrite Forall_forall in F. apply F. apply in_or_app. right. exact Hb.
  - exact (IH S' a b Ha Hb).
Qed.

End SortCounts.

Lemma count_le_length {A : Type} (P : A -> bool) (l : list A) :
  (List.length (filter P l) <= List.length l)%nat.
Proof.
  induction l as [|x l IH]; cbn; [lia|]. destruct (P x); cbn; lia.
Qed.

Lemma count_lt_length {A : Type} (P : A -> bool) (l : list A) (x : A) :
  In x l -> P x = false -> (List.length (filter P l) < List.length l)%nat.
Proof.
  induction l as [|y l IH]; intros I F; [destruct I|].
  cbn. destruct I as [->|I].
  - rewrite F. pose proof (count_le_length P l). lia.
  - specialize (IH I F). destruct (P y); cbn; lia.
Qed.

Lemma count_none {A : Type} (P : A -> bool) (l : list A) :
  (forall x, In x l -> P x = false) -> List.length (filter P l) = 0%nat.
Proof.
  induction l as [|x l IH]; intros H; cbn; [reflexivity|].
  rewrite (H x (or_introl eq_refl)). apply IH. intros y Hy. apply H. right. exact Hy.
Qed.

Lemma count_app {A : Type} (P : A -> bool) (l1 l2 : list A) :
  List.length (filter P (l1 ++ l2))
  = (List.length (filter P l1) + List.length (filter P l2))%nat.
Proof. rewrite filter_app, length_app. reflexivity. Qed.

(** [a < b] as a test. *)
Definition Qlt_bool (a b : Q) : bool := negb (Qle_bool b a).

Lemma Qlt_bool_iff (a b : Q) : Qlt_bool a b = true <-> a < b.
Proof.
  unfold Qlt_bool. rewrite negb_true_iff. split.
  - intros H. destruct (Qlt_le_dec a b) as [L|L]; [exact L|].
    apply Qle_bool_iff in L. congruence.
  - intros L. destruct (Qle_bool b a) eqn:E; [|reflexivity].
    apply Qle_bool_iff in E. lra.
Qed.

Lemma Qlt_bool_false (a b : Q) : Qlt_bool a b = false <-> b <= a.
Proof.
  unfold Qlt_bool. rewrite negb_false_iff. apply Qle_bool_iff.
Qed.

(** The members of the best five: fewer than five segments are better. *)
Lemma top_candidates_spec (segments : list PhonemeInfo) (best : PhonemeInfo) :
  In best (top_candidates segments) ->
  In best segments
  /\ (List.length
        (filter (fun s => Qlt_bool (info_quality_score best) (info_quality_score s))
                segments) < 5)%nat.
Proof.
  unfold top_candidates.
  set (key := fun x : PhonemeInfo => - info_quality_score x).
  intros I. split.
  - apply (In_sorted_by _ key). rewrite <- (firstn_skipn 5 (sorted_by key segments)).
    apply in_or_app. left. exact I.
  - rewrite <- (count_sorted_by _ key).
    pose proof (sorted_by_sorted key segments) as S.
    rewrite <- (firstn_skipn 5 (sorted_by key segments)) in S |- *.
    rewrite count_app.
    rewrite (count_none _ (skipn 5 (sorted_by key segments))).
    + pose proof (count_lt_length
                    (fun s => Qlt_bool (info_quality_score best) (info_quality_score s))
                    _ best I) as L.
      assert (F : Qlt_bool (info_quality_score best) (info_quality_score best) = false)
        by (apply Qlt_bool_false; lra).
      specialize (L F).
      pose proof (firstn_le_length 5 (sorted_by key segments)). lia.
    + intros s Hs. apply Qlt_bool_false.
      pose proof (sorted_app_le _ key _ _ S best s I Hs) as L.
      unfold key in L. lra.
Qed.

Lemma top_candidates_nonempty (segments : list PhonemeInfo) :
  segments <> [] -> top_candidates segments <> [].
Proof.
  intros N E. apply (f_equal (@List.length _)) in E.
  unfold top_candidates in E. rewrite length_firstn, sorted_by_length in E.
  destruct segments; [congruence|]. cbn in E. lia.
Qed.

Lemma top_candidates_all (segments : list PhonemeInfo) (s : PhonemeInfo) :
  (List.length segments <= 5)%nat -> In s segments -> In s (top_candidates segments).
Proof.
  intros L I. unfold top_candidates. rewrite firstn_all2.
  - apply In_sorted_by. exact I.
  - rewrite sorted_by_length. exact L.
Qed.

(** X12. [_select_best_vowel] chooses, for segments that are not empty, one of
    them; fewer than five segments have a strictly better quality, and no
    segment of the best five is longer.  With at most five segments it is
    the longest of all. *)
Theorem select_best_vowel_spec (segments : list PhonemeInfo) :
  segments <> [] ->
  exists best,
    _select_best_vowel segments = Some best
    /\ In best segments
    /\ (List.length
          (filter (fun s => Qlt_bool (info_quality_score best) (info_quality_score s))
                  segments) < 5)%nat
    /\ (forall s, In s (top_candidates segments) -> duration_ms s <= duration_ms best)
    /\ ((List.length segments <= 5)%nat ->
        forall s, In s segments -> duration_ms s <= duration_ms best).
Proof.
  intros N. unfold _select_best_vowel.
  destruct (max_by duration_ms (top_candidates segments)) as [best|] eqn:E.
  - exists best. split; [reflexivity|].
    apply max_by_spec in E. destruct E as [I M].
    destruct (top_candidates_spec segments best I) as [Is C].
    repeat split; try assumption.
    intros L s Hs. apply M. apply top_candidates_all; assumption.
  - exfalso. apply (top_candidates_nonempty segments N).
    destruct (top_candidates segments); [reflexivity|discriminate E].
Qed.

Lemma select_best_vowel_spec_witness :
  let short := mkPhonemeInfo "a.wav" 0 80 (9 # 10) "a" in
  let long := mkPhonemeInfo "b.wav" 10 120 (5 # 10) "a" in
  exists best,
    _select_best_vowel [short; long] = Some best
    /\ In best [short; long]
    /\ (List.length
          (filter (fun s => Qlt_bool (info_quality_score best) (info_quality_score s))
                  [short; long]) < 5)%nat
    /\ (forall s, In s (top_candidates [short; long]) ->
                  duration_ms s <= duration_ms best)
    /\ ((List.length [short; long] <= 5)%nat ->
        forall s, In s [short; long] -> duration_ms s <= duration_ms best).
Proof.
  apply (select_best_vowel_spec
           [mkPhonemeInfo "a.wav" 0 80 (9 # 10) "a";
            mkPhonemeInfo "b.wav" 10 120 (5 # 10) "a"]).
  discriminate.
Defined.

Lemma Qabs_zero_eq (a b : Q) : Qabs (a - b) <= 0 -> a == b.
Proof.
  apply (Qabs_case (a - b) (fun x => x <= 0 -> a == b)); intros; lra.
Qed.

Lemma sorted_app_right {A : Type} (R : A -> A -> Prop) (l1 l2 : list A) :
  StronglySorted R (l1 ++ l2) -> StronglySorted R l2.
Proof.
  induction l1 as [|x l1 IH]; intros S; [exact S|].
  cbn in S. inversion S; subst. auto.
Qed.

(** The element of index [k] of a sorted list of numbers: at most [k]
    elements are smaller, and at most those after it are greater. *)
Lemma sorted_nth_counts (l : list Q) (k : nat) (m : Q) :
  StronglySorted (fun a b => a <= b) l -> nth_error l k = Some m ->
  (List.length (filter (fun d => Qlt_bool d m) l) <= k)%nat
  /\ (List.length (filter (fun d => Qlt_bool m d) l) + S k <= List.length l)%nat.
Proof.
  intros S H. apply nth_error_split in H. destruct H as [l1 [l2 [-> L]]].
  pose proof (sorted_app_le Q (fun d => d) l1 (m :: l2) S) as A.
  assert (B : forall b, In b l2 -> m <= b).
  { apply sorted_app_right in S. inversion S as [|? ? _ F]; subst.
    rewrite Forall_forall in F. exact F. }
  rewrite !count_app, length_app. cbn [filter List.length].
  assert (M : Qlt_bool m m = false) by (apply Qlt_bool_false; lra).
  rewrite M. split.
  - rewrite (count_none _ l2).
    + pose proof (count_le_length (fun d => Qlt_bool d m) l1). lia.
    + intros b Hb. apply Qlt_bool_false. exact (B b Hb).
  - rewrite (count_none _ l1).
    + pose proof (count_le_length (fun d => Qlt_bool m d) l2). lia.
    + intros a Ha. apply Qlt_bool_false.
      exact (A a m Ha (or_introl eq_refl)).
Qed.

Lemma count_map {A B : Type} (f : A -> B) (P : B -> bool) (l : list A) :
  List.length (filter P (map f l)) = List.length (filter (fun x => P (f x)) l).
Proof.
  induction l as [|x l IH]; cbn; [reflexivity|].
  destruct (P (f x)); cbn; rewrite IH; reflexivity.
Qed.

Lemma count_pointwise {A : Type} (P P' : A -> bool) (l : list A) :
  (forall x, P x = P' x) ->
  List.length (filter P l) = List.length (filter P' l).
Proof.
  intros E. induction l as [|x l IH]; cbn; [reflexivity|].
  rewrite E. destruct (P' x); cbn; rewrite IH; reflexivity.
Qed.

Lemma Qlt_bool_compat (a a' b b' : Q) :
  a == a' -> b == b' -> Qlt_bool a b = Qlt_bool a' b'.
Proof.
  intros Ea Eb.
  destruct (Qlt_bool a b) eqn:L; destruct (Qlt_bool a' b') eqn:L'; try reflexivity.
  - apply Qlt_bool_iff in L. apply Qlt_bool_false in L'. lra.
  - apply Qlt_bool_false in L. apply Qlt_bool_iff in L'. lra.
Qed.

(** X13. [_select_best_consonant] chooses, for segments that are not empty,
    one of them; fewer than five segments have a strictly better quality,
    and its duration is the median of the durations of the best five: at
    most half of them are shorter and less than half of them are longer. *)
Theorem select_best_consonant_spec (segments : list PhonemeInfo) :
  segments <> [] ->
  exists best,
    _select_best_consonant segments = Some best
    /\ In best segments
    /\ (List.length
          (filter (fun s => Qlt_bool (info_quality_score best) (info_quality_score s))
                  segments) < 5)%nat
    /\ In best (top_candidates segments)
    /\ (2 * List.length
              (filter (fun s => Qlt_bool (duration_ms s) (duration_ms best))
                      (top_candidates segments))
        <= List.length (top_candidates segments))%nat
    /\ (2 * List.length
              (filter (fun s => Qlt_bool (duration_ms best) (duration_ms s))
                      (top_candidates segments))
        < List.length (top_candidates segments))%nat.
Proof.
  intros N. unfold _select_best_consonant. cbv zeta.
  pose proof (top_candidates_nonempty segments N) as T.
  pose proof (top_candidates_spec segments) as Tspec.
  set (top := top_candidates segments) in *.
  destruct (List.length top =? 1)%nat eqn:One.
  - apply Nat.eqb_eq in One.
    destruct top as [|x [|y rest]] eqn:Et; try discriminate One.
    exists x. cbn [nth_error]. split; [reflexivity|].
    destruct (Tspec x (or_introl eq_refl)) as [I C].
    split; [exact I|]. split; [exact C|]. split; [left; reflexivity|].
    cbn [filter List.length].
    assert (M : Qlt_bool (duration_ms x) (duration_ms x) = false)
      by (apply Qlt_bool_false; lra).
    rewrite M. cbn. lia.
  - set (durations := sorted_by (fun d : Q => d) (map duration_ms top)).
    assert (Ld : List.length durations = List.length top).
    { unfold durations. rewrite sorted_by_length, length_map. reflexivity. }
    assert (Pos : (0 < List.length top)%nat)
      by (destruct top; [congruence|cbn; lia]).
    rewrite Ld.
    destruct (nth_error durations (List.length top / 2)) as [median|] eqn:Em.
    2: { exfalso. apply nth_error_None in Em.
         pose proof (Nat.div_lt (List.length top) 2). lia. }
    destruct (min_by (fun x => Qabs (duration_ms x - median)) top) as [best|] eqn:Eb.
    2: { exfalso. destruct top; [congruence|discriminate Eb]. }
    exists best. split; [reflexivity|].
    apply min_by_spec in Eb. destruct Eb as [I M].
    destruct (Tspec best I) as [Is C].
    split; [exact Is|]. split; [exact C|]. split; [exact I|].
    assert (Eq : duration_ms best == median).
    { assert (Im : In median (map duration_ms top)).
      { apply (In_sorted_by Q (fun d => d)). eapply nth_error_In. exact Em. }
      apply in_map_iff in Im. destruct Im as [y [Ey Iy]].
      apply Qabs_zero_eq. specialize (M y Iy). cbn beta in M.
      rewrite Ey in M.
      assert (Z : Qabs (median - median) == 0).
      { setoid_replace (median - median) with 0 by ring. reflexivity. }
      lra. }
    pose proof (sorted_nth_counts durations _ median
                  (sorted_by_sorted (fun d => d) (map duration_ms top)) Em)
      as [Sh Lo].
    unfold durations in Sh, Lo.
    rewrite !count_sorted_by, !count_map in Sh, Lo.
    rewrite sorted_by_length, length_map in Lo.
    rewrite (count_pointwise _ (fun s => Qlt_bool (duration_ms s) median))
      by (intros s; apply Qlt_bool_compat; [reflexivity|exact Eq]).
    rewrite (count_pointwise
               (fun s => Qlt_bool (duration_ms best) (duration_ms s))
               (fun s => Qlt_bool median (duration_ms s)))
      by (intros s; apply Qlt_bool_compat; [exact Eq|reflexivity]).
    pose proof (Nat.div_mod_eq (List.length top) 2) as D.
    pose proof (Nat.mod_upper_bound (List.length top) 2). lia.
Qed.

Lemma select_best_consonant_spec_witness :
  let s1 := mkPhonemeInfo "a.wav" 0 20 (9 # 10) "k" in
  let s2 := mkPhonemeInfo "b.wav" 0 60 (8 # 10) "k" in
  let s3 := mkPhonemeInfo "c.wav" 0 40 (7 # 10) "k" in
  exists best,
    _select_best_consonant [s1; s2; s3] = Some best
    /\ In best [s1; s2; s3]
    /\ (List.length
          (filter (fun s => Qlt_bool (info_quality_score best) (info_quality_score s))
                  [s1; s2; s3]) < 5)%nat
    /\ In best (top_candidates [s1; s2; s3])
    /\ (2 * List.length
              (filter (fun s => Qlt_bool (duration_ms s) (duration_ms best))
                      (top_candidates [s1; s2; s3]))
        <= List.length (top_candidates [s1; s2; s3]))%nat
    /\ (2 * List.length
              (filter (fun s => Qlt_bool (duration_ms best) (duration_ms s))
                      (top_candidates [s1; s2; s3]))
        < List.length (top_candidates [s1; s2; s3]))%nat.
Proof.
  apply (select_best_consonant_spec
           [mkPhonemeInfo "a.wav" 0 20 (9 # 10) "k";
            mkPhonemeInfo "b.wav" 0 60 (8 # 10) "k";
            mkPhonemeInfo "c.wav" 0 40 (7 # 10) "k"]).
  discriminate.
Defined.

End ExemplarProperties.

Section SplittingProperties.

Open Scope string_scope.

Lemma append_assoc_string (a b c : string) : (a ++ b) ++ c = a ++ (b ++ c).
Proof. induction a as [|x a IH]; cbn; [reflexivity|]. rewrite IH. reflexivity. Qed.

Lemma append_empty_r (a : string) : a ++ "" = a.
Proof. induction a as [|x a IH]; cbn; [reflexivity|]. rewrite IH. reflexivity. Qed.

Lemma length_append_string (a b : string) :
  String.length (a ++ b) = (String.length a + String.length b)%nat.
Proof. induction a as [|x a IH]; cbn; [reflexivity|]. rewrite IH. reflexivity. Qed.

Lemma rev_string_onto_append (s acc : string) :
  rev_string_onto s acc = rev_string_onto s "" ++ acc.
Proof.
  revert acc. induction s as [|c r IH]; intros acc; cbn; [reflexivity|].
  rewrite (IH (String c acc)), (IH (String c "")), append_assoc_string.
  reflexivity.
Qed.

Lemma rev_string_cons (c : ascii) (r : string) :
  rev_string (String c r) = rev_string r ++ String c "".
Proof. unfold rev_string. cbn. apply rev_string_onto_append. Qed.

Lemma rev_string_append (a b : string) :
  rev_string (a ++ b) = rev_string b ++ rev_string a.
Proof.
  induction a as [|x a IH]; cbn [append].
  - change (rev_string "") with "". rewrite append_empty_r. reflexivity.
  - rewrite !rev_string_cons, IH, append_assoc_string. reflexivity.
Qed.

Lemma rev_string_involutive (s : string) : rev_string (rev_string s) = s.
Proof.
  induction s as [|c r IH]; [reflexivity|].
  rewrite rev_string_cons, rev_string_append, IH. reflexivity.
Qed.

Definition is_digit (c : ascii) : bool :=
  ((48 <=? nat_of_ascii c) && (nat_of_ascii c <=? 57))%nat.

Lemma forall_string_append (f : ascii -> bool) (a b : string) :
  forall_string f (a ++ b) = forall_string f a && forall_string f b.
Proof.
  induction a as [|x a IH]; cbn; [reflexivity|]. rewrite IH, andb_assoc. reflexivity.
Qed.

Lemma forall_string_rev (f : ascii -> bool) (s : string) :
  forall_string f (rev_string s) = forall_string f s.
Proof.
  induction s as [|c r IH]; [reflexivity|].
  rewrite rev_string_cons, forall_string_append, IH. cbn.
  rewrite andb_true_r, andb_comm. reflexivity.
Qed.

(** A digit in front is found, and it is one character. *)
Lemma find_digit (c : ascii) (r : string) :
  is_digit c = true ->
  find (fun w => String.prefix w (String c r)) digits = Some (String c "").
Proof.
  destruct r; destruct c as [[] [] [] [] [] [] [] []]; vm_compute; intros H;
    first [reflexivity | discriminate H].
Qed.

Lemma lstrip_digits_append (d s : string) :
  forall fuel,
    forall_string is_digit d = true ->
    find (fun w => String.prefix w s) digits = None ->
    (String.length d <= fuel)%nat ->
    lstrip_fuel fuel digits (d ++ s) = s.
Proof.
  induction d as [|c d IH]; intros fuel D N L.
  - cbn [append]. destruct fuel; cbn [lstrip_fuel]; [reflexivity|].
    rewrite N. reflexivity.
  - cbn [forall_string] in D. apply andb_prop in D. destruct D as [Dc Dd].
    destruct fuel as [|fuel]; [cbn in L; lia|].
    cbn [append lstrip_fuel]. rewrite (find_digit c (d ++ s) Dc).
    cbn [String.length drop]. apply IH; [assumption|assumption|cbn in L; lia].
Qed.

(** [rstrip('0123456789')] removes a suffix of digits from a text that does
    not end with a digit. *)
Lemma rstrip_digits_append (s d : string) :
  forall_string is_digit d = true ->
  find (fun w => String.prefix w (rev_string s)) digits = None ->
  rstrip_tokens digits (s ++ d) = s.
Proof.
  intros D N. unfold rstrip_tokens, lstrip_tokens.
  change (map rev_string digits) with digits.
  rewrite rev_string_append, lstrip_digits_append.
  - apply rev_string_involutive.
  - rewrite forall_string_rev. exact D.
  - exact N.
  - rewrite length_append_string. lia.
Qed.

Lemma forallb_In {A : Type} (f : A -> bool) (l : list A) (x : A) :
  forallb f l = true -> In x l -> f x = true.
Proof. intros H I. rewrite forallb_forall in H. exact (H x I). Qed.

(** X14. A kana of the table, with or without a suffix of digits, is read
    back as its romaji, and that romaji is written as this kana by the
    table of the aliases. *)
Theorem hiragana_read_back (kana romaji suffix : string) :
  dict_get kana hiragana_to_romaji_map = Some romaji ->
  forall_string is_digit suffix = true ->
  _hiragana_to_romaji (kana ++ suffix) = Some romaji
  /\ dict_get romaji ROMAJI_TO_HIRAGANA = Some kana.
Proof.
  intros H D. pose proof (dict_get_In _ _ _ H) as I.
  pose proof (forallb_In
                (fun kr => match find (fun w => String.prefix w (rev_string (fst kr)))
                                      digits with
                           | None => true | Some _ => false end
                           && match dict_get (snd kr) ROMAJI_TO_HIRAGANA with
                              | Some k => String.eqb k (fst kr)
                              | None => false
                              end)
                hiragana_to_romaji_map (kana, romaji)) as T.
  cbn [fst snd] in T. specialize (T ltac:(vm_compute; reflexivity) I).
  apply andb_prop in T. destruct T as [T1 T2].
  split.
  - unfold _hiragana_to_romaji. cbv zeta.
    rewrite rstrip_digits_append; [rewrite H; reflexivity|exact D|].
    destruct (find (fun w => String.prefix w (rev_string kana)) digits);
      [discriminate T1|reflexivity].
  - destruct (dict_get romaji ROMAJI_TO_HIRAGANA) as [k|]; [|discriminate T2].
    apply String.eqb_eq in T2. subst. reflexivity.
Qed.

Lemma hiragana_read_back_witness :
  _hiragana_to_romaji ("しゃ" ++ "12") = Some "sha"
  /\ dict_get "sha" ROMAJI_TO_HIRAGANA = Some "しゃ".
Proof.
  apply (hiragana_read_back "しゃ" "sha" "12"); vm_compute; reflexivity.
Defined.

Lemma prefix_drop (c s : string) :
  String.prefix c s = true -> c ++ drop (String.length c) s = s.
Proof.
  revert s. induction c as [|x c IH]; intros s H; [reflexivity|].
  destruct s as [|y s]; [discriminate H|]. cbn [String.prefix] in H.
  destruct (ascii_dec x y) as [->|]; [|discriminate H].
  cbn. rewrite (IH s H). reflexivity.
Qed.

(** The first match of a list in descending order of length is a longest
    match. *)
Lemma find_longest (P : string -> bool) (l : list string) (c : string) :
  StronglySorted (fun a b => (String.length b <= String.length a)%nat) l ->
  find P l = Some c ->
  forall c', In c' l -> P c' = true -> (String.length c' <= String.length c)%nat.
Proof.
  induction 1 as [|x l S IH F]; [discriminate|].
  cbn [find]. destruct (P x) eqn:Px.
  - intros E. injection E as <-. intros c' [<-|I] _; [lia|].
    rewrite Forall_forall in F. exact (F c' I).
  - intros E c' [<-|I] Pc; [congruence|]. exact (IH E c' I Pc).
Qed.

Lemma split_consonants_sorted (language : string) :
  StronglySorted (fun a b => (String.length b <= String.length a)%nat)
                 (split_consonants language).
Proof.
  unfold split_consonants. destruct (is_chinese language);
    repeat (constructor; [|repeat (constructor; [cbn; lia|]); constructor]);
    constructor.
Qed.

Definition text_of (s : option string) : string :=
  match s with Some t => t | None => "" end.

Variable str_lower : string -> string.

(** X15. [_split_alias_to_cv] cuts the romanised alias in two: the parts put
    together give it back; the consonant part, when there is one, is a
    longest consonant of the list that starts the alias, and then the vowel
    part is not empty; and there is no consonant part only if no consonant
    of the list starts the alias. *)
Theorem split_alias_parts (alias language : string)
    (c v : option string) :
  alias <> "" ->
  _split_alias_to_cv str_lower alias language = (c, v) ->
  text_of c ++ text_of v = alias_to_split str_lower alias
  /\ (forall c', c = Some c' ->
        In c' (split_consonants language)
        /\ v <> Some ""
        /\ forall c'', In c'' (split_consonants language) ->
                       startswith (alias_to_split str_lower alias) c'' = true ->
                       (String.length c'' <= String.length c')%nat)
  /\ (c = None ->
      v = Some (alias_to_split str_lower alias)
      /\ forall c'', In c'' (split_consonants language) ->
                     startswith (alias_to_split str_lower alias) c'' = false).
Proof.
  intros N. unfold _split_alias_to_cv.
  destruct alias as [|a0 rest]; [congruence|]. cbn [nonempty negb]. cbv zeta.
  generalize (alias_to_split str_lower (String a0 rest)) as romanised.
  intros romanised.
  destruct (find (fun c => startswith romanised c) (split_consonants language))
    as [c0|] eqn:F.
  - pose proof (find_longest _ _ _ (split_consonants_sorted language) F) as Lg.
    apply find_some in F. destruct F as [I P].
    pose proof (prefix_drop c0 romanised P) as D.
    destruct (drop (String.length c0) romanised) as [|y vowel] eqn:Ev;
      cbn [nonempty]; intros E; injection E as <- <-; cbn [text_of].
    + split; [exact D|]. split; [|discriminate].
      intros c' E. injection E as <-. split; [exact I|]. split; [discriminate|].
      exact Lg.
    + split; [exact D|]. split; [|discriminate].
      intros c' E. injection E as <-. split; [exact I|]. split; [discriminate|].
      exact Lg.
  - intros E. injection E as <- <-. cbn [text_of append].
    split; [reflexivity|]. split; [discriminate|].
    intros _. split; [reflexivity|]. intros c'' I.
    exact (find_none _ _ F c'' I).
Qed.

End SplittingProperties.

Lemma split_alias_parts_witness :
  text_of (Some "zh") ++ text_of (Some "ang")
  = alias_to_split (fun s => s) "zhang"
  /\ (forall c', Some "zh" = Some c' ->
        In c' (split_consonants "zh")
        /\ Some "ang" <> Some ""
        /\ forall c'', In c'' (split_consonants "zh") ->
                       startswith (alias_to_split (fun s => s) "zhang") c'' = true ->
                       (String.length c'' <= String.length c')%nat)
  /\ (Some "zh" = None ->
      Some "ang" = Some (alias_to_split (fun s => s) "zhang")
      /\ forall c'', In c'' (split_consonants "zh") ->
                     startswith (alias_to_split (fun s => s) "zhang") c'' = false).
Proof.
  apply (split_alias_parts (fun s => s) "zhang" "zh" (Some "zh") (Some "ang")).
  - discriminate.
  - vm_compute. reflexivity.
Defined.

Section JapaneseSyllableProperties.

Open Scope Q_scope.

Lemma merge_step_prefix (syllables : list (string * Q * Q))
    (pending : option (string * Q)) (interval : Interval) :
  merge_step (syllables, pending) interval
  = ((syllables ++ fst (merge_step ([], pending) interval))%list,
     snd (merge_step ([], pending) interval)).
Proof.
  unfold merge_step. cbv zeta.
  destruct (mem (strip (mark interval)) skip_marks).
  - cbn. rewrite app_nil_r. reflexivity.
  - destruct (mem (rstrip_tokens ["ː"%string] (strip (mark interval))) vowels);
      destruct pending as [[pc ps]|]; cbn; rewrite ?app_nil_r; reflexivity.
Qed.

(** What the loop finds does not depend on the syllables found before. *)
Lemma merge_fold_prefix (tier : list Interval) :
  forall (syllables : list (string * Q * Q)) (pending : option (string * Q)),
    fold_left merge_step tier (syllables, pending)
    = ((syllables ++ fst (fold_left merge_step tier ([], pending)))%list,
       snd (fold_left merge_step tier ([], pending))).
Proof.
  induction tier as [|interval tier IH]; intros syllables pending.
  - cbn. rewrite app_nil_r. reflexivity.
  - cbn [fold_left]. rewrite merge_step_prefix.
    destruct (merge_step ([], pending) interval) as [s1 p1] eqn:E.
    cbn [fst snd]. rewrite (IH (syllables ++ s1)%list p1), (IH s1 p1).
    cbn [fst snd]. rewrite app_assoc. reflexivity.
Qed.

(** X16. A pause cuts the tier in two: the syllables are those found before
    the pause -- a consonant that still waits for its vowel there is given
    up -- followed by the syllables of the rest of the tier. *)
Theorem merge_japanese_phones_pause (before after : list Interval)
    (pause : Interval) :
  mem (strip (mark pause)) skip_marks = true ->
  _merge_japanese_phones (before ++ pause :: after)
  = (fst (merge_loop before) ++ _merge_japanese_phones after)%list.
Proof.
  intros P. unfold _merge_japanese_phones, merge_loop.
  rewrite fold_left_app. cbn [fold_left].
  destruct (fold_left merge_step before ([], None)) as [s1 p1] eqn:E1.
  assert (St : merge_step (s1, p1) pause = (s1, None)).
  { unfold merge_step. cbv zeta. rewrite P. reflexivity. }
  rewrite St, merge_fold_prefix.
  destruct (fold_left merge_step after ([], None)) as [s2 p2] eqn:E2.
  cbn [fst snd].
  destruct p2 as [[pc ps]|].
  - destruct after as [|a after'] using rev_ind.
    + cbn in E2. discriminate E2.
    + rewrite rev_app_distr. cbn [rev app].
      replace (before ++ pause :: after' ++ [a])%list
        with ((before ++ pause :: after') ++ [a])%list
        by (rewrite <- app_assoc; reflexivity).
      rewrite rev_app_distr. cbn [rev app]. rewrite app_assoc. reflexivity.
  - destruct (rev (before ++ pause :: after)); destruct (rev after); reflexivity.
Qed.

Lemma merge_japanese_phones_pause_witness :
  let k := mkInterval 0 (1 # 10) "k" in
  let a := mkInterval (1 # 10) (3 # 10) "a" in
  let s := mkInterval (3 # 10) (4 # 10) "s" in
  let sil := mkInterval (4 # 10) (5 # 10) "sil" in
  let i := mkInterval (5 # 10) (6 # 10) "i" in
  _merge_japanese_phones ([k; a; s] ++ sil :: [i])
  = (fst (merge_loop [k; a; s]) ++ _merge_japanese_phones [i])%list.
Proof.
  apply (merge_japanese_phones_pause
           [mkInterval 0 (1 # 10) "k"; mkInterval (1 # 10) (3 # 10) "a";
            mkInterval (3 # 10) (4 # 10) "s"]
           [mkInterval (5 # 10) (6 # 10) "i"]
           (mkInterval (4 # 10) (5 # 10) "sil")).
  vm_compute. reflexivity.
Defined.

(** ** Syllables in time order *)

Definition syllable_text (s : string * Q * Q) : string := fst (fst s).
Definition syllable_begin (s : string * Q * Q) : Q := snd (fst s).
Definition syllable_stop (s : string * Q * Q) : Q := snd s.

(** A syllable has a text and lasts. *)
Definition syllable_ok (s : string * Q * Q) : Prop :=
  syllable_text s <> ""%string /\ syllable_begin s < syllable_stop s.

(** The earlier syllable stops before the later one begins. *)
Definition syllable_before (a b : string * Q * Q) : Prop :=
  syllable_stop a <= syllable_begin b.

(** Intervals that last and follow each other, from time [t] on. *)
Fixpoint ordered_from (t : Q) (tier : list Interval) : Prop :=
  match tier with
  | [] => True
  | interval :: rest =>
      t <= minTime interval /\ minTime interval < maxTime interval
      /\ ordered_from (maxTime interval) rest
  end.

Lemma tier_in_order_tail (interval : Interval) (rest : list Interval) :
  tier_in_order (interval :: rest) -> tier_in_order rest.
Proof.
  intros [A B]. split.
  - intros i a H. exact (A (S i) a H).
  - intros i a b Ha Hb. exact (B (S i) a b Ha Hb).
Qed.

Lemma tier_in_order_ordered_from (tier : list Interval) :
  tier_in_order tier ->
  forall t, match tier with [] => True | first :: _ => t <= minTime first end ->
            ordered_from t tier.
Proof.
  induction tier as [|interval rest IH]; intros T t H; cbn; [exact I|].
  split; [exact H|]. split.
  - exact (proj1 T 0%nat interval eq_refl).
  - apply IH; [exact (tier_in_order_tail _ _ T)|].
    destruct rest as [|next rest']; [exact I|].
    exact (proj2 T 0%nat interval next eq_refl eq_refl).
Qed.

Lemma sorted_snoc {A : Type} (R : A -> A -> Prop) (l : list A) (x : A) :
  StronglySorted R l -> Forall (fun a => R a x) l -> StronglySorted R (l ++ [x]).
Proof.
  induction 1 as [|y l S IH F]; intros Hx; cbn.
  - constructor; constructor.
  - inversion Hx; subst. constructor; [auto|].
    apply Forall_app. split; [exact F|]. constructor; [assumption|constructor].
Qed.

(** What holds of the state of the loop after intervals that end by [t]. *)
Definition merge_inv (t : Q) (state : MergeState) : Prop :=
  Forall syllable_ok (fst state)
  /\ StronglySorted syllable_before (fst state)
  /\ Forall (fun s => syllable_stop s <= t) (fst state)
  /\ match snd state with
     | Some (pending_consonant, pending_start) =>
         pending_consonant <> ""%string /\ pending_start < t
         /\ Forall (fun s => syllable_stop s <= pending_start) (fst state)
     | None => True
     end.

Lemma not_skip_nonempty (phone : string) :
  mem phone skip_marks = false -> phone <> ""%string.
Proof. intros H E. subst. discriminate H. Qed.

Lemma append_nonempty_l (a b : string) : a <> ""%string -> (a ++ b)%string <> ""%string.
Proof. destruct a; [congruence|discriminate]. Qed.

Lemma Forall_snoc {A : Type} (P : A -> Prop) (l : list A) (x : A) :
  Forall P l -> P x -> Forall P (l ++ [x]).
Proof. intros H Hx. apply Forall_app. split; [exact H|]. constructor; [exact Hx|constructor]. Qed.

Lemma Forall_le_trans (l : list (string * Q * Q)) (a b : Q) :
  Forall (fun s => syllable_stop s <= a) l -> a <= b ->
  Forall (fun s => syllable_stop s <= b) l.
Proof.
  intros H L. eapply Forall_impl; [|exact H]. intros s Hs. cbn beta in *. lra.
Qed.

Lemma merge_step_inv (t : Q) (state : MergeState) (interval : Interval) :
  merge_inv t state -> t <= minTime interval ->
  minTime interval < maxTime interval ->
  merge_inv (maxTime interval) (merge_step state interval).
Proof.
  destruct state as [syllables pending].
  intros [Ok [Srt [End Pend]]] Lt Pos. cbn [fst snd] in *.
  unfold merge_step. cbv zeta.
  destruct (mem (strip (mark interval)) skip_marks) eqn:Sk.
  { unfold merge_inv. cbn [fst snd]. repeat split; try assumption.
    apply (Forall_le_trans _ t); [assumption|lra]. }
  pose proof (not_skip_nonempty _ Sk) as Ne.
  destruct (mem (rstrip_tokens ["ː"%string] (strip (mark interval))) vowels).
  - destruct pending as [[pc ps]|].
    + destruct Pend as [Pc [Ps Pe]].
      unfold merge_inv. cbn [fst snd]. repeat split.
      * apply Forall_snoc; [assumption|]. split.
        -- apply append_nonempty_l. exact Pc.
        -- unfold syllable_begin, syllable_stop. cbn. lra.
      * apply sorted_snoc; assumption.
      * apply Forall_snoc; [|unfold syllable_stop; cbn; lra].
        apply (Forall_le_trans _ t); [assumption|lra].
    + unfold merge_inv. cbn [fst snd]. repeat split.
      * apply Forall_snoc; [assumption|]. split; [exact Ne|].
        unfold syllable_begin, syllable_stop. cbn. exact Pos.
      * apply sorted_snoc; [assumption|].
        apply (Forall_le_trans _ t); assumption.
      * apply Forall_snoc; [|unfold syllable_stop; cbn; lra].
        apply (Forall_le_trans _ t); [assumption|lra].
  - destruct pending as [[pc ps]|].
    + destruct Pend as [Pc [Ps Pe]].
      unfold merge_inv. cbn [fst snd]. repeat split.
      * apply Forall_snoc; [assumption|]. split; [exact Pc|].
        unfold syllable_begin, syllable_stop. cbn. lra.
      * apply sorted_snoc; assumption.
      * apply Forall_snoc; [|unfold syllable_stop; cbn; lra].
        apply (Forall_le_trans _ t); [assumption|lra].
      * exact Ne.
      * exact Pos.
      * apply Forall_snoc; [|unfold syllable_stop; cbn; lra].
        apply (Forall_le_trans _ ps); [assumption|lra].
    + unfold merge_inv. cbn [fst snd]. repeat split; try assumption.
      * apply (Forall_le_trans _ t); [assumption|lra].
      * apply (Forall_le_trans _ t); assumption.
Qed.

(** The time the last interval ends at. *)
Definition end_of (t : Q) (tier : list Interval) : Q :=
  match rev tier with
  | last_interval :: _ => maxTime last_interval
  | [] => t
  end.

Lemma end_of_cons (t : Q) (interval : Interval) (rest : list Interval) :
  end_of t (interval :: rest) = end_of (maxTime interval) rest.
Proof.
  unfold end_of. cbn [rev].
  destruct (rev rest) as [|l r]; reflexivity.
Qed.

Lemma merge_fold_inv (tier : list Interval) :
  forall (t : Q) (state : MergeState),
    merge_inv t state -> ordered_from t tier ->
    merge_inv (end_of t tier) (fold_left merge_step tier state).
Proof.
  induction tier as [|interval rest IH]; intros t state Inv Ord.
  - exact Inv.
  - cbn [fold_left]. rewrite end_of_cons.
    destruct Ord as [Lt [Pos Ord]].
    apply IH; [|exact Ord].
    apply (merge_step_inv t); assumption.
Qed.

(** X17. On a tier whose intervals last and follow each other, every
    syllable of [_merge_japanese_phones] has a text and a positive
    duration, and the syllables follow each other without overlap. *)
Theorem merge_japanese_phones_in_order (phones_tier : list Interval) :
  tier_in_order phones_tier ->
  Forall syllable_ok (_merge_japanese_phones phones_tier)
  /\ StronglySorted syllable_before (_merge_japanese_phones phones_tier).
Proof.
  intros T.
  set (t0 := match phones_tier with [] => 0 | first :: _ => minTime first end).
  assert (Ord : ordered_from t0 phones_tier).
  { apply tier_in_order_ordered_from; [exact T|].
    subst t0. destruct phones_tier; [exact I|lra]. }
  assert (Inv0 : merge_inv t0 ([], None)).
  { unfold merge_inv. cbn. repeat split; constructor. }
  pose proof (merge_fold_inv phones_tier t0 ([], None) Inv0 Ord) as Inv.
  unfold _merge_japanese_phones, merge_loop.
  destruct (fold_left merge_step phones_tier ([], None)) as [syllables pending].
  destruct Inv as [Ok [Srt [End Pend]]]. cbn [fst snd] in *.
  unfold end_of in *.
  destruct pending as [[pc ps]|]; [|split; assumption].
  destruct (rev phones_tier) as [|last_interval r]; [split; assumption|].
  destruct Pend as [Pc [Ps Pe]]. split.
  - apply Forall_snoc; [assumption|]. split; [exact Pc|exact Ps].
  - apply sorted_snoc; assumption.
Qed.

Lemma ordered_from_tier_in_order (tier : list Interval) :
  forall t, ordered_from t tier -> tier_in_order tier.
Proof.
  induction tier as [|interval rest IH]; intros t Ord.
  - split; [intros [|i] a H; discriminate H|intros [|i] a b H; discriminate H].
  - destruct Ord as [Lt [Pos Ord]]. destruct (IH _ Ord) as [A B]. split.
    + intros [|i] a H; cbn in H; [injection H as <-; exact Pos|exact (A i a H)].
    + intros [|i] a b Ha Hb; cbn in Ha, Hb.
      * injection Ha as <-. destruct rest as [|next rest']; [discriminate Hb|].
        injection Hb as <-. exact (proj1 Ord).
      * exact (B i a b Ha Hb).
Qed.

Lemma merge_japanese_phones_in_order_witness :
  let tier := [mkInterval 0 (1 # 10) "k"; mkInterval (1 # 10) (3 # 10) "a";
               mkInterval (3 # 10) (4 # 10) "N"] in
  Forall syllable_ok (_merge_japanese_phones tier)
  /\ StronglySorted syllable_before (_merge_japanese_phones tier).
Proof.
  apply (merge_japanese_phones_in_order
           [mkInterval 0 (1 # 10) "k"; mkInterval (1 # 10) (3 # 10) "a";
            mkInterval (3 # 10) (4 # 10) "N"]).
  apply (ordered_from_tier_in_order _ 0). cbn. repeat split; lra.
Defined.

End JapaneseSyllableProperties.

Section NormalizeProperties.

Open Scope string_scope.

(** A digit or a lower-case letter. *)
Definition lower_alnum (c : ascii) : bool :=
  let n := nat_of_ascii c in
  ((48 <=? n) && (n <=? 57) || (97 <=? n) && (n <=? 122))%nat.

Lemma lower_kept_alnum (c : ascii) :
  is_ascii_char c && is_alnum_char c = true -> lower_alnum (lower_char c) = true.
Proof.
  destruct c as [[] [] [] [] [] [] [] []]; vm_compute; intros H;
    first [reflexivity | discriminate H].
Qed.

Lemma lower_alnum_fixed (c : ascii) :
  lower_alnum c = true ->
  is_ascii_char c && is_alnum_char c = true /\ lower_char c = c.
Proof.
  destruct c as [[] [] [] [] [] [] [] []]; vm_compute; intros H;
    first [split; reflexivity | discriminate H].
Qed.

Lemma lower_filter_alnum (s : string) :
  forall_string lower_alnum
    (lower (filter_string (fun c => is_ascii_char c && is_alnum_char c) s)) = true.
Proof.
  induction s as [|c r IH]; [reflexivity|].
  cbn [filter_string].
  destruct (is_ascii_char c && is_alnum_char c) eqn:K.
  - unfold lower in *. cbn [map_string forall_string].
    rewrite (lower_kept_alnum c K). exact IH.
  - exact IH.
Qed.

Lemma lower_nonempty (s : string) : nonempty (lower s) = nonempty s.
Proof. destruct s; reflexivity. Qed.

Lemma prefix_forall (P : ascii -> bool) (old : string) :
  forall s, String.prefix old s = true -> forall_string P s = true ->
            forall_string P old = true.
Proof.
  induction old as [|x old IH]; intros s H F; [reflexivity|].
  destruct s as [|y s]; [discriminate H|]. cbn [String.prefix] in H.
  destruct (ascii_dec x y) as [->|]; [|discriminate H].
  cbn [forall_string] in *. apply andb_prop in F. destruct F as [Fy Fs].
  rewrite Fy. exact (IH s H Fs).
Qed.

(** A text that occurs in an ASCII text is ASCII. *)
Lemma contains_forall (P : ascii -> bool) (old s : string) :
  contains old s = true -> forall_string P s = true -> forall_string P old = true.
Proof.
  induction s as [|y s IH]; cbn [contains]; intros H F.
  - rewrite orb_false_r in H. exact (prefix_forall P old "" H F).
  - apply orb_prop in H. destruct H as [H|H].
    + exact (prefix_forall P old _ H F).
    + cbn [forall_string] in F. apply andb_prop in F. exact (IH H (proj2 F)).
Qed.

Lemma lower_alnum_ascii (s : string) :
  forall_string lower_alnum s = true ->
  isascii s = true
  /\ filter_string (fun c => is_ascii_char c && is_alnum_char c) s = s
  /\ lower s = s.
Proof.
  induction s as [|c r IH]; intros H; [repeat split; reflexivity|].
  cbn [forall_string] in H. apply andb_prop in H. destruct H as [Hc Hr].
  destruct (IH Hr) as [A [F L]].
  destruct (lower_alnum_fixed c Hc) as [K E].
  unfold isascii, lower in *. cbn [forall_string filter_string map_string].
  rewrite K. apply andb_prop in K. destruct K as [K1 K2].
  rewrite K1, A, F. cbn [filter_string map_string]. rewrite E, L.
  repeat split; reflexivity.
Qed.

Lemma fold_left_fixed {A B : Type} (f : A -> B -> A) (l : list B) (a : A) :
  (forall x, In x l -> f a x = a) -> fold_left f l a = a.
Proof.
  induction l as [|x l IH]; intros H; [reflexivity|].
  cbn [fold_left]. rewrite (H x (or_introl eq_refl)).
  apply IH. intros y Hy. apply H. right. exact Hy.
Qed.

Lemma normalize_japanese_phone_chars (phone name : string) :
  _normalize_japanese_phone phone = Some name ->
  nonempty name = true /\ forall_string lower_alnum name = true.
Proof.
  unfold _normalize_japanese_phone. cbv zeta.
  match goal with
  | |- context [filter_string ?f ?x] =>
      pose proof (lower_filter_alnum x) as C; generalize dependent (filter_string f x)
  end.
  intros kept C.
  destruct (nonempty kept) eqn:N; [|discriminate].
  intros H. injection H as <-.
  split; [rewrite lower_nonempty; exact N|exact C].
Qed.

(** X18. [_normalize_japanese_phone] gives nothing, or a name that is not
    empty and made of digits and lower-case ASCII letters only; and a name
    it gave is left as it is when it is normalized again. *)
Theorem normalize_japanese_phone_name (phone name : string) :
  _normalize_japanese_phone phone = Some name ->
  name <> ""
  /\ forall_string lower_alnum name = true
  /\ _normalize_japanese_phone name = Some name.
Proof.
  intros H. apply normalize_japanese_phone_chars in H. destruct H as [Ne C].
  split; [intros E; rewrite E in Ne; discriminate Ne|].
  split; [exact C|].
  destruct (lower_alnum_ascii _ C) as [A [F L]].
  unfold _normalize_japanese_phone. cbv zeta.
  rewrite fold_left_fixed.
  - rewrite F, Ne, L. reflexivity.
  - intros ipa I.
    destruct (contains ipa name) eqn:Ct; [|reflexivity].
    exfalso.
    pose proof (contains_forall is_ascii_char ipa _ Ct A) as Ai.
    pose proof (forallb_In (fun k => negb (isascii k)) sorted_keys ipa
                  ltac:(vm_compute; reflexivity) I) as Na.
    unfold isascii in Na. rewrite Ai in Na. discriminate Na.
Qed.

Lemma normalize_japanese_phone_name_witness :
  "chi" <> ""
  /\ forall_string lower_alnum "chi" = true
  /\ _normalize_japanese_phone "chi" = Some "chi".
Proof.
  apply (normalize_japanese_phone_name "tɕi" "chi").
  vm_compute. reflexivity.
Defined.

End NormalizeProperties.

(* ================================================================== *)
(** * Further properties: the vowel span of a transition syllable *)
(* ================================================================== *)

Ltac split_vc_parse H :=
  repeat (cbv beta iota zeta in H;
          cbn [vs_phones vs_consonant_duration vs_vowel_start vs_has_consonant
               vs_i vs_phone] in H;
          match type of H with
          | context [match next_phone_at ?p ?j with _ => _ end] =>
              let E := fresh "A" in
              let nx := fresh "nx" in
              destruct (next_phone_at p j) as [nx|] eqn:E
          | context [if ?b then _ else _] => destruct b eqn:?
          end).

Section VowelSpan.

Open Scope Q_scope.

Variable phones_tier : list Interval.
Variable language : string.

Lemma next_phone_at_nth (j : nat) (next_interval : Interval) :
  next_phone_at phones_tier j = Some next_interval ->
  nth_error phones_tier j = Some next_interval.
Proof.
  unfold next_phone_at. destruct (nth_error phones_tier j) as [x|]; [|discriminate].
  destruct (negb (is_skip (strip (mark x)))); [|discriminate].
  intros H. exact H.
Qed.

(** X19. In the parse of the transition units, the end of the vowel is read
    from the interval the syllable starts at.  For a syllable that starts
    with a consonant, on a tier in time order: unless a coda follows the
    vowel, the vowel ends where the consonant ends, which is not after the
    start of the vowel, and the syllable ends there too; the transition
    unit computed from such a vowel span has no positive preutterance.
    With a coda, the vowel and the syllable end where the coda ends. *)
Theorem vc_parse_vowel_span (i : nat) (interval : Interval) (phone : string)
    (i' : nat) (p : VcParse) :
  tier_in_order phones_tier ->
  nth_error phones_tier i = Some interval ->
  is_consonant phone language = true ->
  vc_parse phones_tier language i interval phone = (i', Some p) ->
  vp_syllable_end p = vp_vowel_end p
  /\ ((vp_vowel_end p = maxTime interval * 1000
       /\ vp_vowel_end p <= vp_vowel_start p
       /\ forall (wav al : string) (consonant_end wd ro rv : Q),
            0 <= ro ->
            preutterance
              (_calculate_vc_params wav al (vp_vowel_start p) (vp_vowel_end p)
                                    consonant_end wd ro rv) <= 0)
      \/ exists coda,
           nth_error phones_tier (i' - 1) = Some coda
           /\ is_coda (strip (mark coda)) = true
           /\ vp_vowel_end p = maxTime coda * 1000).
Proof.
  intros [_ Ord] Hi C H.
  unfold vc_parse, vc_onset in H. rewrite C in H.
  destruct (next_phone_at phones_tier (S i)) as [next_interval|] eqn:N;
    [|discriminate H].
  pose proof (Ord i interval next_interval Hi (next_phone_at_nth _ _ N)) as L.
  assert (Plain : forall vs ve : Q,
             ve <= vs ->
             forall (wav al : string) (consonant_end wd ro rv : Q),
               0 <= ro ->
               preutterance (_calculate_vc_params wav al vs ve consonant_end wd ro rv)
               <= 0).
  { intros vs ve Le wav al ce wd ro rv R. cbn [_calculate_vc_params preutterance].
    rewrite <- round1_0. apply round1_mono.
    assert (M : 0 <= (vs - ve) * ro) by (apply Qmult_le_0_compat; lra).
    lra. }
  unfold vc_medial, vc_vowel in H.
  split_vc_parse H; try discriminate H; injection H as <- <-;
    cbn [vp_syllable_end vp_vowel_end vp_vowel_start];
    (split; [reflexivity|]);
    try (left; split; [reflexivity|]; split; [lra|]; apply Plain; lra);
    right;
    match goal with
    | A : next_phone_at phones_tier ?j = Some ?nx, K : is_coda _ = true |- _ =>
        exists nx; split;
        [replace (S j - 1)%nat with j by lia; exact (next_phone_at_nth _ _ A)
        |split; [exact K|reflexivity]]
    end.
Qed.

End VowelSpan.

Lemma vc_parse_vowel_span_witness :
  let k := mkInterval 0 (1 # 10) "k" in
  let a := mkInterval (1 # 10) (3 # 10) "a" in
  let t := mkInterval (3 # 10) (4 # 10) "t" in
  let a' := mkInterval (4 # 10) (6 # 10) "a" in
  let tier := [k; a; t; a'] in
  exists p,
    vc_parse tier "zh" 0 k "k" = (2%nat, Some p)
    /\ vp_syllable_end p = vp_vowel_end p
    /\ ((vp_vowel_end p = maxTime k * 1000
         /\ (vp_vowel_end p <= vp_vowel_start p)%Q
         /\ forall (wav al : string) (consonant_end wd ro rv : Q),
              (0 <= ro)%Q ->
              (preutterance
                 (_calculate_vc_params wav al (vp_vowel_start p) (vp_vowel_end p)
                                       consonant_end wd ro rv) <= 0)%Q)
        \/ exists coda,
             nth_error tier (2 - 1) = Some coda
             /\ is_coda (strip (mark coda)) = true
             /\ vp_vowel_end p = maxTime coda * 1000).
Proof.
  eexists. split; [vm_compute; reflexivity|].
  apply (vc_parse_vowel_span
           [mkInterval 0 (1 # 10) "k"; mkInterval (1 # 10) (3 # 10) "a";
            mkInterval (3 # 10) (4 # 10) "t"; mkInterval (4 # 10) (6 # 10) "a"]
           "zh" 0 (mkInterval 0 (1 # 10) "k") "k" 2).
  - apply (ordered_from_tier_in_order _ 0). cbn. repeat split; lra.
  - reflexivity.
  - vm_compute. reflexivity.
  - vm_compute. reflexivity.
Defined.

Section SegmentProperties.

Open Scope string_scope.

Lemma dict_get_set_same {V : Type} (k : string) (v : V) (d : list (string * V)) :
  dict_get k (dict_set k v d) = Some v.
Proof.
  induction d as [|[k' v'] d IH]; cbn.
  - rewrite String.eqb_refl. reflexivity.
  - destruct (String.eqb k k') eqn:E; cbn.
    + rewrite String.eqb_refl. reflexivity.
    + rewrite E. exact IH.
Qed.

Lemma dict_get_set_other {V : Type} (k k' : string) (v : V) (d : list (string * V)) :
  k' <> k -> dict_get k' (dict_set k v d) = dict_get k' d.
Proof.
  intros N. induction d as [|[k0 v0] d IH]; cbn.
  - apply String.eqb_neq in N. rewrite N. reflexivity.
  - destruct (String.eqb k k0) eqn:E; cbn.
    + apply String.eqb_eq in E. subst k0.
      apply String.eqb_neq in N. rewrite N. reflexivity.
    + destruct (String.eqb k' k0); [reflexivity|exact IH].
Qed.

Lemma get_or_set_same {V : Type} (k : string) (v x : V) (d : list (string * V)) :
  get_or k (dict_set k v d) x = v.
Proof. unfold get_or. rewrite dict_get_set_same. reflexivity. Qed.

Lemma get_or_set_other {V : Type} (k k' : string) (v x : V) (d : list (string * V)) :
  k' <> k -> get_or k' (dict_set k v d) x = get_or k' d x.
Proof. intros N. unfold get_or. rewrite dict_get_set_other by exact N. reflexivity. Qed.

Variable Frame : Type.

(** The numbers of the files written for a name, in the order they were
    written. *)
Definition numbers_of (name : string) (written : list (Written Frame)) : list nat :=
  map (fun w => snd (fst w))
      (filter (fun w => String.eqb (fst (fst w)) name) written).

(** The files of every name are numbered 1, 2, ... up to the count of the
    name, and none of them is empty. *)
Definition numbered (state : SegmentState Frame) : Prop :=
  (forall name, numbers_of name (snd state) = seq 1 (get_or name (fst state) 0%nat))
  /\ Forall (fun w => snd w <> []) (snd state).

Lemma numbers_of_app name (a b : list (Written Frame)) :
  numbers_of name (a ++ b) = (numbers_of name a ++ numbers_of name b)%list.
Proof. unfold numbers_of. rewrite filter_app, map_app. reflexivity. Qed.

Lemma save_segment_numbered (audio : list Frame) (sr : Z)
    (audio_duration extend_duration : Q) (state : SegmentState Frame)
    (name : string) (start_time end_time : Q) :
  numbered state ->
  numbered (save_segment Frame audio sr audio_duration extend_duration state
                         name start_time end_time).
Proof.
  destruct state as [counts written]. intros [Num Ne]. cbn [fst snd] in *.
  unfold save_segment.
  destruct (_apply_extend start_time end_time extend_duration audio_duration)
    as [actual_start actual_end].
  cbv zeta.
  set (segment := slice audio _ _).
  destruct (List.length segment =? 0)%nat eqn:E.
  - split; [|exact Ne]. cbn [fst snd]. intros name'.
    destruct (String.eqb_spec name' name) as [->|N].
    + rewrite get_or_set_same. apply Num.
    + rewrite !get_or_set_other by exact N. apply Num.
  - split; cbn [fst snd].
    + intros name'. rewrite numbers_of_app.
      destruct (String.eqb_spec name' name) as [->|N].
      * rewrite get_or_set_same, Num.
        unfold numbers_of. cbn [filter fst snd map]. rewrite String.eqb_refl.
        cbn [map fst snd].
        replace (get_or name counts 0 + 1)%nat with (S (get_or name counts 0%nat))
          by lia.
        rewrite seq_S. reflexivity.
      * rewrite get_or_set_other by exact N. rewrite Num.
        unfold numbers_of. cbn [filter fst snd map].
        assert (F : String.eqb name name' = false)
          by (apply String.eqb_neq; congruence).
        rewrite F. cbn [map]. rewrite app_nil_r. reflexivity.
    + apply Forall_app. split; [exact Ne|].
      constructor; [|constructor]. cbn [snd]. intros Z.
      rewrite Z in E. discriminate E.
Qed.

Lemma fold_left_preserves {S T : Type} (P : S -> Prop) (f : S -> T -> S)
    (l : list T) :
  (forall s x, P s -> P (f s x)) -> forall s, P s -> P (fold_left f l s).
Proof.
  intros Step. induction l as [|x l IH]; intros s Hs; [exact Hs|].
  cbn [fold_left]. apply IH. apply Step. exact Hs.
Qed.

Lemma numbered_paths_distinct (written : list (Written Frame)) :
  (forall name, NoDup (numbers_of name written)) -> NoDup (map fst written).
Proof.
  induction written as [|w rest IH]; intros H; cbn [map]; [constructor|].
  constructor.
  - intros I. apply in_map_iff in I. destruct I as [w' [E I]].
    specialize (H (fst (fst w))). unfold numbers_of in H.
    cbn [filter] in H. rewrite String.eqb_refl in H. cbn [map] in H.
    inversion H as [|? ? Nin _]; subst. apply Nin.
    apply in_map_iff. exists w'. split; [rewrite E; reflexivity|].
    apply filter_In. split; [exact I|]. rewrite E. apply String.eqb_refl.
  - apply IH. intros name. specialize (H name). unfold numbers_of in *.
    cbn [filter] in H. destruct (String.eqb (fst (fst w)) name); [|exact H].
    cbn [map] in H. inversion H; assumption.
Qed.

Lemma numbered_distinct (state : SegmentState Frame) :
  numbered state -> NoDup (map fst (snd state)).
Proof.
  intros [Num _]. apply numbered_paths_distinct. intros name.
  rewrite Num. apply seq_NoDup.
Qed.

Lemma japanese_names (audio : list Frame) (sr : Z)
    (audio_duration extend_duration : Q) (P : string -> Prop)
    (state : SegmentState Frame) (syllable : string * Q * Q) :
  (forall phone name, _normalize_japanese_phone phone = Some name -> P name) ->
  Forall (fun w => P (fst (fst w))) (snd state) ->
  Forall (fun w => P (fst (fst w)))
         (snd (japanese_syllable_step Frame audio sr audio_duration extend_duration
                                      state syllable)).
Proof.
  intros HP H. destruct state as [counts written].
  destruct syllable as [[text st] en]. unfold japanese_syllable_step.
  destruct (negb (nonempty text)); [exact H|].
  destruct (_normalize_japanese_phone text) as [name|] eqn:E; [|exact H].
  unfold save_segment.
  destruct (_apply_extend st en extend_duration audio_duration) as [a b].
  cbv zeta.
  match goal with |- context [if ?c then _ else _] => destruct c end;
    [exact H|].
  cbn [snd] in *. apply Forall_app. split; [exact H|].
  constructor; [|constructor]. cbn [fst]. exact (HP text name E).
Qed.

(** X20. The files that [_extract_japanese_segments] and
    [_extract_chinese_segments] write are numbered without gap: for every
    name, the numbers of its files are 1, 2, ... up to the count returned
    for the name (0 when it has no file), in the order of writing.  No file
    is empty and no path is written twice; the names of the Japanese
    syllables are made of digits and lower-case ASCII letters. *)
Theorem extracted_segments_numbered
    (is_valid_char : string -> string -> bool)
    (char_to_pinyin : string -> string -> option string)
    (files : list (list Frame * Z * option (list Interval))) (language : string)
    (extend_duration : Q) (state : SegmentState Frame) :
  (_extract_japanese_segments Frame files extend_duration = Some state ->
   numbered state /\ NoDup (map fst (snd state))
   /\ Forall (fun w => fst (fst w) <> ""
                       /\ forall_string lower_alnum (fst (fst w)) = true)
             (snd state))
  /\ (_extract_chinese_segments Frame is_valid_char char_to_pinyin files language
        extend_duration = Some state ->
      numbered state /\ NoDup (map fst (snd state))).
Proof.
  assert (Start : numbered ([], []))
    by (split; [intros name; reflexivity|constructor]).
  split.
  - unfold _extract_japanese_segments.
    set (Good := fun st : SegmentState Frame =>
                   numbered st
                   /\ Forall (fun w => fst (fst w) <> ""
                                       /\ forall_string lower_alnum (fst (fst w)) = true)
                             (snd st)).
    assert (G : forall (l : list (list Frame * Z * option (list Interval)))
                       (s0 : option (SegmentState Frame)),
               (forall st, s0 = Some st -> Good st) ->
               forall st, fold_left (japanese_file_step Frame extend_duration) l s0
                          = Some st -> Good st).
    { induction l as [|[[audio sr] tier] l IH]; intros s0 H0 st E; [exact (H0 st E)|].
      cbn [fold_left] in E. revert E. apply IH. intros st'.
      unfold japanese_file_step. destruct s0 as [st0|]; [|discriminate].
      destruct (sr =? 0)%Z; [discriminate|].
      destruct tier as [tier|];
        [|intros E; injection E as <-; exact (H0 st0 eq_refl)].
      intros E. injection E as <-.
      apply (fold_left_preserves Good).
      - intros s x [Hn Hc]. split.
        + destruct s as [counts written]. destruct x as [[text a] b].
          unfold japanese_syllable_step.
          destruct (negb (nonempty text)); [exact Hn|].
          destruct (_normalize_japanese_phone text); [|exact Hn].
          apply save_segment_numbered. exact Hn.
        + apply (japanese_names audio sr _ extend_duration
                   (fun name => name <> ""
                                /\ forall_string lower_alnum name = true));
            [|exact Hc].
          intros phone name E. apply normalize_japanese_phone_chars in E.
          destruct E as [Ne C]. split; [|exact C].
          intros Z. rewrite Z in Ne. discriminate Ne.
      - exact (H0 st0 eq_refl). }
    intros E. destruct (G files (Some ([], [])) ltac:(intros st E0; injection E0 as <-;
                        split; [exact Start|constructor]) state E) as [Hn Hc].
    split; [exact Hn|]. split; [exact (numbered_distinct state Hn)|exact Hc].
  - unfold _extract_chinese_segments.
    assert (G : forall (l : list (list Frame * Z * option (list Interval)))
                       (s0 : option (SegmentState Frame)),
               (forall st, s0 = Some st -> numbered st) ->
               forall st, fold_left (chinese_file_step Frame is_valid_char
                                       char_to_pinyin language extend_duration) l s0
                          = Some st -> numbered st).
    { induction l as [|[[audio sr] tier] l IH]; intros s0 H0 st E; [exact (H0 st E)|].
      cbn [fold_left] in E. revert E. apply IH. intros st'.
      unfold chinese_file_step. destruct s0 as [st0|]; [|discriminate].
      destruct (sr =? 0)%Z; [discriminate|].
      destruct tier as [tier|]; [|discriminate].
      intros E. injection E as <-.
      apply (fold_left_preserves numbered); [|exact (H0 st0 eq_refl)].
      intros s interval Hn. unfold chinese_word_step. cbv zeta.
      destruct (negb (nonempty (strip (mark interval)))
                || mem (strip (mark interval))
                       [""; "SP"; "AP"; "<unk>"; "spn"; "sil"]); [exact Hn|].
      destruct (filter (fun c => is_valid_char c language)
                       (chars (strip (mark interval)))) as [|c0 cs] eqn:V;
        [exact Hn|].
      apply (fold_left_preserves numbered); [|exact Hn].
      intros s' [i char] Hs. unfold chinese_char_step.
      destruct (char_to_pinyin char language) as [py|]; [|exact Hs].
      destruct (negb (nonempty py)); [exact Hs|].
      apply save_segment_numbered. exact Hs. }
    intros E.
    pose proof (G files (Some ([], [])) ltac:(intros st E0; injection E0 as <-;
                exact Start) state E) as Hn.
    split; [exact Hn|exact (numbered_distinct state Hn)].
Qed.

End SegmentProperties.

Lemma extracted_segments_numbered_witness :
  let tier := [mkInterval 0 (1 # 10) "k"; mkInterval (1 # 10) (3 # 10) "a";
               mkInterval (3 # 10) (3 # 10) "a"; mkInterval (3 # 10) (5 # 10) "a"] in
  let files := [([1; 2; 3; 4; 5; 6; 7; 8; 9; 10]%nat, 10%Z, Some tier)] in
  exists state,
    _extract_japanese_segments nat files 0 = Some state
    /\ numbered nat state /\ NoDup (map fst (snd state))
    /\ Forall (fun w => fst (fst w) <> ""%string
                        /\ forall_string lower_alnum (fst (fst w)) = true)
              (snd state).
Proof.
  eexists. split; [vm_compute; reflexivity|].
  apply (proj1 (extracted_segments_numbered nat (fun _ _ => true)
                  (fun _ _ => None)
                  [([1; 2; 3; 4; 5; 6; 7; 8; 9; 10]%nat, 10%Z,
                    Some [mkInterval 0 (1 # 10) "k";
                          mkInterval (1 # 10) (3 # 10) "a";
                          mkInterval (3 # 10) (3 # 10) "a";
                          mkInterval (3 # 10) (5 # 10) "a"])]
                  "ja" 0 _)).
  vm_compute. reflexivity.
Defined.

Section FileNameProperties.

Open Scope string_scope.

Lemma dict_set_new {V : Type} (k : string) (v : V) (d : list (string * V)) :
  ~ In k (keys d) -> dict_set k v d = (d ++ [(k, v)])%list.
Proof.
  induction d as [|[k' v'] d IH]; cbn; intros N; [reflexivity|].
  destruct (String.eqb_spec k k') as [->|Ne]; [tauto|].
  rewrite IH; [reflexivity|tauto].
Qed.

Lemma to_uint_not_nil (n : nat) : Nat.to_uint n <> Decimal.Nil.
Proof.
  intros E. pose proof (DecimalNat.Unsigned.of_to n) as R.
  rewrite E in R. cbn in R. subst n. discriminate E.
Qed.

Lemma str_injective (a b : nat) : str a = str b -> a = b.
Proof.
  unfold str. intros E.
  apply DecimalNat.Unsigned.to_uint_inj.
  pose proof (DecimalString.NilZero.usu _ (to_uint_not_nil a)) as A.
  pose proof (DecimalString.NilZero.usu _ (to_uint_not_nil b)) as B.
  rewrite E in A. rewrite A in B. injection B as B. exact B.
Qed.

Lemma uint_string_digits (d : Decimal.uint) :
  forall_string is_digit (DecimalString.NilEmpty.string_of_uint d) = true.
Proof. induction d; cbn; auto. Qed.

Lemma str_digits (n : nat) : forall_string is_digit (str n) = true.
Proof.
  unfold str, DecimalString.NilZero.string_of_uint.
  destruct (Nat.to_uint n); try apply uint_string_digits. reflexivity.
Qed.

Lemma digit_name_char (c : ascii) : is_digit c = true -> name_char c = true.
Proof.
  destruct c as [[] [] [] [] [] [] [] []]; vm_compute; intros H;
    first [reflexivity | discriminate H].
Qed.

Lemma forall_string_impl (P P' : ascii -> bool) (s : string) :
  (forall c, P c = true -> P' c = true) ->
  forall_string P s = true -> forall_string P' s = true.
Proof.
  intros I. induction s as [|c r IH]; cbn; [reflexivity|].
  intros H. apply andb_prop in H. destruct H as [Hc Hr].
  rewrite (I c Hc), (IH Hr). reflexivity.
Qed.

Lemma append_cancel_l (a b c : string) : a ++ b = a ++ c -> b = c.
Proof.
  induction a as [|x a IH]; cbn; intros E; [exact E|].
  injection E as E. exact (IH E).
Qed.

Lemma append_cancel_r (a b c : string) : a ++ c = b ++ c -> a = b.
Proof.
  intros E. apply (f_equal rev_string) in E.
  rewrite !rev_string_append in E. apply append_cancel_l in E.
  apply (f_equal rev_string) in E. rewrite !rev_string_involutive in E. exact E.
Qed.

(** The names that the loop tries, in order. *)
Definition candidate_name (base_name : string) (k : nat) : string :=
  match k with
  | O => base_name
  | _ => base_name ++ "_" ++ str k
  end.

Lemma candidate_name_injective (base_name ext : string) (a b : nat) :
  candidate_name base_name a ++ ext = candidate_name base_name b ++ ext -> a = b.
Proof.
  intros E. apply append_cancel_r in E.
  destruct a as [|a], b as [|b]; cbn [candidate_name] in E; [reflexivity| | |].
  - exfalso. rewrite <- (append_empty_r base_name) in E at 1.
    apply append_cancel_l in E. discriminate E.
  - exfalso. rewrite <- (append_empty_r base_name) in E at 2.
    apply append_cancel_l in E. discriminate E.
  - apply append_cancel_l in E. injection E as E. exact (str_injective _ _ E).
Qed.

Lemma NoDup_map_injective {A B : Type} (f : A -> B) (l : list A) :
  (forall a b, f a = f b -> a = b) -> NoDup l -> NoDup (map f l).
Proof.
  intros Inj. induction 1 as [|x l Nin ND IH]; cbn; constructor; [|exact IH].
  intros I. apply in_map_iff in I. destruct I as [y [E Hy]].
  apply Inj in E. subst y. contradiction.
Qed.

Lemma candidates_NoDup (base_name ext : string) (j : nat) :
  NoDup (map (fun k => candidate_name base_name k ++ ext) (seq 0 j)).
Proof.
  apply NoDup_map_injective; [|apply seq_NoDup].
  intros a b E. exact (candidate_name_injective base_name ext a b E).
Qed.

(** The loop stops at a name that is not in use. *)
Lemma free_name_spec (base_name ext : string) (used_names : list string) :
  forall (fuel j : nat),
    (forall k, (k < j)%nat -> In (candidate_name base_name k ++ ext) used_names) ->
    (List.length used_names < j + fuel)%nat ->
    let result :=
      free_name fuel base_name ext used_names (candidate_name base_name j) (S j) in
    ~ In result used_names
    /\ exists k, result = candidate_name base_name k ++ ext.
Proof.
  induction fuel as [|fuel IH]; intros j Tried Enough.
  - exfalso.
    pose proof (candidates_NoDup base_name ext j) as ND.
    assert (Inc : incl (map (fun k => candidate_name base_name k ++ ext) (seq 0 j))
                       used_names).
    { intros x Hx. apply in_map_iff in Hx. destruct Hx as [k [<- Hk]].
      apply Tried. apply in_seq in Hk. lia. }
    pose proof (NoDup_incl_length ND Inc) as L.
    rewrite length_map, length_seq in L. lia.
  - cbn [free_name].
    destruct (mem (candidate_name base_name j ++ ext) used_names) eqn:M.
    + apply (IH (S j)); [|lia].
      intros k Hk. destruct (Nat.eq_dec k j) as [->|N].
      * apply mem_In. exact M.
      * apply Tried. lia.
    + split; [apply mem_false_not_In; exact M|]. exists j. reflexivity.
Qed.

Lemma forall_string_drop (P : ascii -> bool) (n : nat) :
  forall s, forall_string P s = true -> forall_string P (drop n s) = true.
Proof.
  induction n as [|n IH]; intros s H; [exact H|].
  destruct s as [|c r]; [exact H|]. cbn [drop].
  cbn [forall_string] in H. apply andb_prop in H. exact (IH r (proj2 H)).
Qed.

Lemma forall_string_lstrip (P : ascii -> bool) (tokens : list string) (fuel : nat) :
  forall s, forall_string P s = true ->
            forall_string P (lstrip_fuel fuel tokens s) = true.
Proof.
  induction fuel as [|fuel IH]; intros s H; [exact H|].
  cbn [lstrip_fuel]. destruct (find (fun w => String.prefix w s) tokens); [|exact H].
  apply IH. apply forall_string_drop. exact H.
Qed.

Lemma forall_string_strip (P : ascii -> bool) (tokens : list string) (s : string) :
  forall_string P s = true ->
  forall_string P (rstrip_tokens tokens (lstrip_tokens tokens s)) = true.
Proof.
  intros H. unfold rstrip_tokens, lstrip_tokens.
  rewrite forall_string_rev. apply forall_string_lstrip.
  rewrite forall_string_rev. apply forall_string_lstrip. exact H.
Qed.

Lemma forall_string_merge (P : ascii -> bool) (s : string) :
  forall_string P s = true -> forall_string P (merge_underscores s) = true.
Proof.
  induction s as [|c r IH]; [reflexivity|].
  intros H. cbn [forall_string] in H. apply andb_prop in H. destruct H as [Hc Hr].
  specialize (IH Hr). cbn [merge_underscores].
  destruct (Ascii.eqb c "_"%char).
  - destruct r as [|c' r']; [cbn; rewrite Hc; reflexivity|].
    destruct (Ascii.eqb c' "_"%char); [exact IH|].
    cbn [forall_string]. rewrite Hc. exact IH.
  - cbn [forall_string]. rewrite Hc. exact IH.
Qed.

Lemma forall_string_concat (P : ascii -> bool) (l : list string) :
  (forall x, In x l -> forall_string P x = true) ->
  forall_string P (String.concat "" l) = true.
Proof.
  induction l as [|x l IH]; intros H; [reflexivity|].
  cbn [String.concat]. destruct l as [|y l'].
  - apply H. left. reflexivity.
  - rewrite forall_string_append. cbn [append].
    rewrite (H x (or_introl eq_refl)). apply IH.
    intros z Hz. apply H. right. exact Hz.
Qed.

Lemma replace_special_chars (s : string) :
  forall_string name_char (replace_special s) = true.
Proof.
  unfold replace_special. apply forall_string_concat.
  intros x Hx. apply in_map_iff in Hx. destruct Hx as [ch [<- _]].
  destruct ch as [|c [|c' r]]; try reflexivity.
  destruct (name_char c) eqn:E; [cbn; rewrite E; reflexivity|reflexivity].
Qed.

Variable splitext : string -> string * string.
Variable lazy_pinyin : string -> list string.

Lemma sanitized_base_chars (filename : string) :
  sanitized_base splitext lazy_pinyin filename <> ""
  /\ forall_string name_char (sanitized_base splitext lazy_pinyin filename) = true.
Proof.
  unfold sanitized_base. destruct (splitext filename) as [name ext]. cbv zeta.
  set (cleaned := rstrip_tokens ["_"] (lstrip_tokens ["_"] _)).
  assert (C : forall_string name_char cleaned = true).
  { apply forall_string_strip, forall_string_merge, replace_special_chars. }
  destruct cleaned as [|c r]; cbn [nonempty negb].
  - split; [discriminate|reflexivity].
  - split; [discriminate|exact C].
Qed.

Lemma sanitize_filename_not_used (filename : string) (used_names : list string) :
  ~ In (_sanitize_filename splitext lazy_pinyin filename used_names) used_names.
Proof.
  unfold _sanitize_filename. cbv zeta.
  exact (proj1 (free_name_spec (sanitized_base splitext lazy_pinyin filename)
                  (snd (splitext filename)) used_names
                  (S (List.length used_names)) 0
                  ltac:(intros k Hk; lia) ltac:(lia))).
Qed.

(** X21. The name that [_sanitize_filename] returns is not in use; it is the
    extension of the file name after a stem that is not empty and made of
    ASCII letters, digits, underscores and hyphens only.  The search for a
    free name ends within one turn more than there are names in use. *)
Theorem sanitize_filename_free (filename : string) (used_names : list string) :
  let result := _sanitize_filename splitext lazy_pinyin filename used_names in
  ~ In result used_names
  /\ exists stem,
       result = stem ++ snd (splitext filename)
       /\ stem <> ""
       /\ forall_string name_char stem = true.
Proof.
  cbv zeta. unfold _sanitize_filename. cbv zeta.
  destruct (sanitized_base_chars filename) as [Ne Ch].
  set (base_name := sanitized_base splitext lazy_pinyin filename) in *.
  destruct (free_name_spec base_name (snd (splitext filename)) used_names
              (S (List.length used_names)) 0
              ltac:(intros k Hk; lia) ltac:(lia)) as [Free [k E]].
  cbn [candidate_name] in Free, E.
  split; [exact Free|].
  exists (candidate_name base_name k). split; [exact E|].
  destruct k as [|k]; cbn [candidate_name]; [split; assumption|].
  split.
  - destruct base_name; [congruence|discriminate].
  - rewrite !forall_string_append, Ch. cbn [forall_string andb].
    apply (forall_string_impl is_digit name_char); [exact digit_name_char|].
    apply str_digits.
Qed.

Variable file_exists : string -> bool.
Variable _is_filename_valid : string -> bool.

(** What holds of the state of the loop of [_copy_wav_files] after the
    files [done]. *)
Definition copy_inv (done : list string)
    (state : CopyState) : Prop :=
  let '(copied, filename_map, used_names, _) := state in
  copied = List.length filename_map
  /\ keys filename_map = filter file_exists done
  /\ (forall name, In name used_names <-> In name (map snd filename_map))
  /\ forall i wav_name new_name,
       nth_error filename_map i = Some (wav_name, new_name) ->
       if _is_filename_valid wav_name then new_name = wav_name
       else ~ In new_name (map snd (firstn i filename_map)).

Lemma copy_step_inv (done : list string) (state : CopyState) (wav_name : string) :
  ~ In wav_name done -> copy_inv done state ->
  copy_inv (done ++ [wav_name])
           (copy_step splitext lazy_pinyin file_exists _is_filename_valid
                      state wav_name).
Proof.
  destruct state as [[[copied filename_map] used_names] sanitized_count].
  intros New [Hc [Hk [Hu Hn]]]. unfold copy_step.
  destruct (file_exists wav_name) eqn:Ex; cbn [negb].
  2: { unfold copy_inv. rewrite filter_app. cbn [filter]. rewrite Ex, app_nil_r.
       auto. }
  set (new_name := if _is_filename_valid wav_name then wav_name
                   else _sanitize_filename splitext lazy_pinyin wav_name used_names).
  assert (E : (if _is_filename_valid wav_name then (wav_name, sanitized_count)
               else (_sanitize_filename splitext lazy_pinyin wav_name used_names,
                     S sanitized_count))
              = (new_name, if _is_filename_valid wav_name then sanitized_count
                           else S sanitized_count)).
  { subst new_name. destruct (_is_filename_valid wav_name); reflexivity. }
  rewrite E. clear E.
  assert (Fresh : ~ In wav_name (keys filename_map)).
  { rewrite Hk. intros I. apply filter_In in I. tauto. }
  rewrite (dict_set_new _ _ _ Fresh).
  unfold copy_inv. split; [|split; [|split]].
  - rewrite length_app. cbn. lia.
  - unfold keys in *. rewrite map_app, filter_app. cbn [map fst filter].
    rewrite Ex, Hk. reflexivity.
  - intros name. rewrite map_app, in_app_iff. cbn [map snd In].
    destruct (mem new_name used_names) eqn:M.
    + rewrite Hu. apply mem_In in M. apply Hu in M. split; [tauto|].
      intros [I|[<-|[]]]; assumption.
    + rewrite in_app_iff, Hu. cbn [In]. reflexivity.
  - intros i w n H.
    destruct (Nat.lt_ge_cases i (List.length filename_map)) as [Lt|Ge].
    + rewrite nth_error_app1 in H by exact Lt.
      rewrite firstn_app.
      replace (i - List.length filename_map)%nat with 0%nat by lia.
      cbn [firstn]. rewrite app_nil_r. exact (Hn i w n H).
    + rewrite nth_error_app2 in H by exact Ge.
      destruct (i - List.length filename_map)%nat as [|k] eqn:D;
        [|destruct k; discriminate H].
      cbn in H. injection H as <- <-.
      rewrite firstn_app, firstn_all2 by lia.
      replace (i - List.length filename_map)%nat with 0%nat by lia.
      cbn [firstn]. rewrite app_nil_r.
      subst new_name. destruct (_is_filename_valid wav_name); [reflexivity|].
      intros I. apply Hu in I.
      exact (sanitize_filename_not_used wav_name used_names I).
Qed.

(** X22. [_copy_wav_files] gives a name to every file that exists, in the
    order of the files, and counts them.  A file whose name is valid keeps
    it, whatever names were given before; a file that is renamed gets a
    name that no file before it was given. *)
Theorem copy_wav_files_names (wav_files : list string) :
  NoDup wav_files ->
  let result :=
    _copy_wav_files splitext lazy_pinyin file_exists _is_filename_valid wav_files in
  fst result = List.length (snd result)
  /\ keys (snd result) = filter file_exists wav_files
  /\ forall i wav_name new_name,
       nth_error (snd result) i = Some (wav_name, new_name) ->
       if _is_filename_valid wav_name then new_name = wav_name
       else ~ In new_name (map snd (firstn i (snd result))).
Proof.
  intros ND. cbv zeta. unfold _copy_wav_files.
  assert (G : copy_inv wav_files
                (fold_left (copy_step splitext lazy_pinyin file_exists
                                      _is_filename_valid)
                           wav_files (0%nat, [], [], 0%nat))).
  { induction wav_files as [|x l IH] using rev_ind.
    - cbn. repeat split; try reflexivity; try tauto.
      intros [|i] w n H; discriminate H.
    - rewrite fold_left_app. cbn [fold_left].
      apply NoDup_remove in ND. rewrite app_nil_r in ND. destruct ND as [ND Nin].
      apply copy_step_inv; [exact Nin|exact (IH ND)]. }
  destruct (fold_left _ wav_files _) as [[[copied filename_map] used] sc].
  destruct G as [Hc [Hk [_ Hn]]]. cbn [fst snd]. auto.
Qed.

End FileNameProperties.

Lemma copy_wav_files_names_witness :
  let splitext := fun s : string => (s, ".wav"%string) in
  let lazy_pinyin := fun s : string => ["yin"%string] in
  let file_exists := fun s : string => true in
  let valid := fun s => String.eqb s "yin.wav" in
  let result :=
    _copy_wav_files splitext lazy_pinyin file_exists valid
                    ["yin.wav"; "音.wav"]%string in
  fst result = List.length (snd result)
  /\ keys (snd result) = filter file_exists ["yin.wav"; "音.wav"]%string
  /\ forall i wav_name new_name,
       nth_error (snd result) i = Some (wav_name, new_name) ->
       if valid wav_name then new_name = wav_name
       else ~ In new_name (map snd (firstn i (snd result))).
Proof.
  apply (copy_wav_files_names
           (fun s : string => (s, ".wav"%string)) (fun s : string => ["yin"%string])
           (fun s : string => true) (fun s => String.eqb s "yin.wav")
           ["yin.wav"; "音.wav"]%string).
  repeat constructor; cbn; intuition discriminate.
Defined.

(* ================================================================== *)
(** * Further properties: the alias groups of the selector *)
(* ================================================================== *)

Section GroupProperties.

Open Scope string_scope.

(** The entries of a list that carry the alias [a], in the order of the
    list. *)
Definition entries_of (a : string) (l : list Entry) : list Entry :=
  filter (fun e => String.eqb (alias e) a) l.

Lemma group_append_get (a a' : string) (e : Entry) (groups : list (string * list Entry)) :
  dict_get a' (group_append a e groups)
  = if String.eqb a' a then Some (get_or a groups [] ++ [e])%list
    else dict_get a' groups.
Proof.
  induction groups as [|[k g] groups IH]; cbn [group_append].
  - cbn. destruct (String.eqb a' a); reflexivity.
  - destruct (String.eqb_spec a k) as [->|N]; cbn [dict_get].
    + unfold get_or. cbn [dict_get]. rewrite String.eqb_refl.
      destruct (String.eqb a' k); reflexivity.
    + rewrite IH. unfold get_or. cbn [dict_get].
      assert (F : String.eqb a k = false) by (apply String.eqb_neq; exact N).
      rewrite F.
      destruct (String.eqb_spec a' k) as [->|N']; [|reflexivity].
      assert (F' : String.eqb k a = false) by (apply String.eqb_neq; congruence).
      rewrite F'. reflexivity.
Qed.

Lemma group_append_keys (a : string) (e : Entry) (groups : list (string * list Entry)) :
  keys (group_append a e groups)
  = if mem a (keys groups) then keys groups else (keys groups ++ [a])%list.
Proof.
  induction groups as [|[k g] groups IH]; cbn [group_append]; [reflexivity|].
  unfold keys, mem in *. cbn [map fst existsb].
  destruct (String.eqb a k); cbn [orb map fst]; [reflexivity|].
  rewrite IH. destruct (existsb (String.eqb a) (map fst groups)); reflexivity.
Qed.

Lemma group_append_total (a : string) (e : Entry) (groups : list (string * list Entry)) :
  List.length (List.concat (map snd (group_append a e groups)))
  = S (List.length (List.concat (map snd groups))).
Proof.
  induction groups as [|[k g] groups IH]; cbn [group_append]; [reflexivity|].
  destruct (String.eqb a k); cbn [map snd List.concat].
  - rewrite !length_app. cbn. lia.
  - rewrite !length_app, IH. lia.
Qed.

Lemma dict_get_of_In {V : Type} (k : string) (v : V) (d : list (string * V)) :
  NoDup (keys d) -> In (k, v) d -> dict_get k d = Some v.
Proof.
  induction d as [|[k' v'] d IH]; intros ND I; [destruct I|].
  unfold keys in ND. cbn [map fst] in ND. inversion ND as [|? ? Nin ND']; subst.
  cbn [dict_get]. destruct I as [E|I].
  - injection E as -> ->. rewrite String.eqb_refl. reflexivity.
  - destruct (String.eqb_spec k k') as [->|N].
    + exfalso. apply Nin. apply in_map_iff. exists (k', v). auto.
    + exact (IH ND' I).
Qed.

(** What holds of the groups after the entries [l]. *)
Definition groups_inv (l : list Entry) (groups : list (string * list Entry)) : Prop :=
  NoDup (keys groups)
  /\ (forall a, dict_get a groups
                = match entries_of a l with [] => None | g => Some g end)
  /\ List.length (List.concat (map snd groups)) = List.length l.

Lemma groups_fold_inv (l : list Entry) :
  groups_inv l (fold_left (fun groups e => group_append (alias e) e groups) l []).
Proof.
  induction l as [|e l IH] using rev_ind.
  - split; [constructor|]. split; [reflexivity|reflexivity].
  - rewrite fold_left_app. cbn [fold_left].
    set (groups := fold_left _ l []) in *.
    destruct IH as [ND [Get Len]]. split; [|split].
    + rewrite group_append_keys. destruct (mem (alias e) (keys groups)) eqn:M;
        [exact ND|].
      apply NoDup_app; [exact ND|constructor; [intros []|constructor]|].
      intros x Hx [<-|[]]. apply mem_In in Hx. congruence.
    + intros a. rewrite group_append_get. unfold entries_of in *.
      rewrite filter_app. cbn [filter]. rewrite (String.eqb_sym a (alias e)).
      destruct (String.eqb_spec (alias e) a) as [<-|N].
      * unfold get_or. rewrite Get.
        destruct (filter (fun e0 => String.eqb (alias e0) (alias e)) l); reflexivity.
      * rewrite app_nil_r. apply Get.
    + rewrite group_append_total, Len, length_app. cbn. lia.
Qed.

Variable duration_score : Q -> Q.
Variable audio_score : Entry -> Q.
Variable apply_naming_rule : string -> string -> nat -> string.
Variable max_samples : Z.
Variable naming_rule : string.
Variable first_naming_rule : string.
Variable enabled_metrics : list string.

Lemma slice_to_length {A : Type} (l : list A) (k : Z) :
  (List.length (slice_to l k) <= List.length l)%nat.
Proof.
  unfold slice_to. destruct (0 <=? k)%Z; rewrite length_firstn; lia.
Qed.

Lemma select_group_bound (a : string) (g : list Entry) :
  (List.length (select_group duration_score audio_score apply_naming_rule
                             max_samples naming_rule first_naming_rule
                             enabled_metrics a g)
   <= List.length g)%nat.
Proof.
  unfold select_group. rewrite length_map, enumerate_from_length.
  unfold kept_group. etransitivity; [apply slice_to_length|].
  unfold sorted_group. rewrite sorted_by_length, scored_group_length.
  apply Nat.le_refl.
Qed.

Lemma flat_map_bound {A B : Type} (f : A -> list B) (size : A -> nat) (l : list A) :
  (forall x, (List.length (f x) <= size x)%nat) ->
  (List.length (flat_map f l) <= list_sum (map size l))%nat.
Proof.
  intros H. unfold list_sum.
  induction l as [|x l IH]; cbn [flat_map map fold_right List.length]; [lia|].
  rewrite length_app. specialize (H x). lia.
Qed.

Lemma concat_length_sum {A : Type} (l : list (list A)) :
  List.length (List.concat l) = list_sum (map (@List.length A) l).
Proof.
  unfold list_sum.
  induction l as [|x l IH]; cbn [List.concat map fold_right List.length];
    [reflexivity|].
  rewrite length_app, IH. reflexivity.
Qed.

(** X23. The selector groups the entries whose alias is not blank by their
    alias: the aliases of the groups are distinct, every such entry has its
    group, and the group of an alias holds all the entries of that alias,
    in the order they were given, and is not empty.  The entries kept are
    never more than the entries given. *)
Theorem filter_by_alias_groups (entries : list Entry) :
  let groups := alias_groups entries in
  NoDup (keys groups)
  /\ (forall a g, In (a, g) groups ->
        g <> [] /\ g = entries_of a (valid_entries entries))
  /\ (forall e, In e (valid_entries entries) -> In (alias e) (keys groups))
  /\ (List.length
        (fst (_filter_by_alias duration_score audio_score apply_naming_rule
                               max_samples naming_rule first_naming_rule
                               enabled_metrics entries))
      <= List.length entries)%nat.
Proof.
  cbv zeta. unfold alias_groups.
  pose proof (groups_fold_inv (valid_entries entries)) as [ND [Get Len]].
  unfold _filter_by_alias, alias_groups. cbn [fst].
  set (groups := fold_left _ (valid_entries entries) []) in *.
  split; [exact ND|]. split; [|split].
  - intros a g I. pose proof (dict_get_of_In a g groups ND I) as D.
    rewrite Get in D.
    destruct (entries_of a (valid_entries entries)) as [|e0 rest];
      [discriminate D|].
    injection D as <-. split; [discriminate|reflexivity].
  - intros e I. specialize (Get (alias e)).
    assert (F : In e (entries_of (alias e) (valid_entries entries))).
    { apply filter_In. split; [exact I|apply String.eqb_refl]. }
    destruct (entries_of (alias e) (valid_entries entries)) as [|e0 rest];
      [destruct F|].
    apply mem_In. eapply dict_get_Some_mem. exact Get.
  - etransitivity.
    + apply (flat_map_bound _ (fun g => List.length (snd g))).
      intros [a g]. apply select_group_bound.
    + rewrite <- map_map, <- concat_length_sum, Len.
      unfold valid_entries. apply count_le_length.
Qed.

Lemma alias_groups_members (entries : list Entry) :
  let groups := alias_groups entries in
  NoDup (keys groups)
  /\ (forall a g, In (a, g) groups -> g = entries_of a (valid_entries entries))
  /\ (forall e, In e (valid_entries entries) -> In (alias e) (keys groups)).
Proof.
  cbv zeta. unfold alias_groups.
  pose proof (groups_fold_inv (valid_entries entries)) as [ND [Get _]].
  set (groups := fold_left _ (valid_entries entries) []) in *.
  split; [exact ND|]. split.
  - intros a g I. pose proof (dict_get_of_In a g groups ND I) as D.
    rewrite Get in D.
    destruct (entries_of a (valid_entries entries)) as [|e0 rest];
      [discriminate D|].
    injection D as <-. reflexivity.
  - intros e I. specialize (Get (alias e)).
    assert (F : In e (entries_of (alias e) (valid_entries entries))).
    { apply filter_In. split; [exact I|apply String.eqb_refl]. }
    destruct (entries_of (alias e) (valid_entries entries)) as [|e0 rest];
      [destruct F|].
    apply mem_In. eapply dict_get_Some_mem. exact Get.
Qed.

Lemma Forall2_map_of {A B : Type} (P : A -> B -> Prop) (f : A -> B) (l : list A) :
  (forall x, In x l -> P x (f x)) -> Forall2 P l (map f l).
Proof.
  induction l as [|x l IH]; intros H; cbn [map]; constructor.
  - apply H. left. reflexivity.
  - apply IH. intros y Hy. apply H. right. exact Hy.
Qed.

(** C9. For a [topK] that is not negative, the entries that
    [_filter_by_alias] returns are, alias group after alias group, the
    output of the selector on that group, where the alias groups are the
    entries of one non-blank alias each, in the order they were given, every
    entry of a non-blank alias being in the group of its alias.  The
    output of a group contains exactly min(topK, len(group)) entries; they
    are in descending order of score, and among entries of equal score the
    order of the group is preserved: for every score, the kept entries of
    that score are, in the same order, the first of the entries of the group
    with that score.  (The kept entries are compared with the scored group
    up to their alias, which the selector replaces by the final name.) *)
Theorem C9_quality_selector_top_k_stable (entries : list Entry) :
  (0 <= max_samples)%Z ->
  let groups := alias_groups entries in
  let filtered :=
    fst (_filter_by_alias duration_score audio_score apply_naming_rule
                          max_samples naming_rule first_naming_rule
                          enabled_metrics entries) in
  NoDup (keys groups)
  /\ (forall e, In e (valid_entries entries) -> In (alias e) (keys groups))
  /\ exists outputs : list (list Entry),
       filtered = List.concat outputs
       /\ Forall2
            (fun g output =>
               let base_alias := fst g in
               let group := snd g in
               group = entries_of base_alias (valid_entries entries)
               /\ List.length output
                  = Nat.min (Z.to_nat max_samples) (List.length group)
               /\ StronglySorted (fun a b => (score_of b <= score_of a)%Q) output
               /\ forall score : Q,
                    exists rest,
                      map (set_alias base_alias)
                          (filter (fun e => Qeq_bool (score_of e) score)
                                  (scored_group duration_score audio_score
                                                enabled_metrics group))
                      = (map (set_alias base_alias)
                             (filter (fun e => Qeq_bool (score_of e) score) output)
                         ++ rest)%list)
            groups outputs.
Proof.
  intros Hk. cbv zeta.
  destruct (alias_groups_members entries) as [ND [Members Covered]].
  split; [exact ND|]. split; [exact Covered|].
  exists (map (fun g => select_group duration_score audio_score apply_naming_rule
                                     max_samples naming_rule first_naming_rule
                                     enabled_metrics (fst g) (snd g))
              (alias_groups entries)).
  split.
  - unfold _filter_by_alias. cbn [fst]. apply flat_map_concat_map.
  - apply Forall2_map_of. intros [a g] I. cbn [fst snd].
    split; [exact (Members a g I)|].
    exact (select_group_top_k_stable duration_score audio_score apply_naming_rule
             max_samples naming_rule first_naming_rule enabled_metrics a g Hk).
Qed.

End GroupProperties.

(** Four entries, three of the alias [ga] of which the first and the last
    have equal scores, and one of the alias [da]; the two best of each alias
    are kept, and of the two equal ones the first. *)
Lemma C9_quality_selector_top_k_stable_witness :
  let duration_score := fun d : Q => Qmin d (3 # 10) in
  let audio_score := fun _ : Entry => (1 # 2)%Q in
  let apply_naming_rule := fun (rule p : string) (n : nat) => p in
  let entries :=
    [entry_of_length "1.wav" 200; entry_of_length "2.wav" 400;
     _calculate_oto_params "4.wav" "da" 0 50 300 1000 (3 # 10);
     entry_of_length "3.wav" 200] in
  let groups := alias_groups entries in
  let filtered :=
    fst (_filter_by_alias duration_score audio_score apply_naming_rule 2
                          "%p%%n%" "%p%" ["duration"%string] entries) in
  NoDup (keys groups)
  /\ (forall e, In e (valid_entries entries) -> In (alias e) (keys groups))
  /\ exists outputs : list (list Entry),
       filtered = List.concat outputs
       /\ Forall2
            (fun g output =>
               let base_alias := fst g in
               let group := snd g in
               group = entries_of base_alias (valid_entries entries)
               /\ List.length output = Nat.min (Z.to_nat 2) (List.length group)
               /\ StronglySorted (fun a b => (score_of b <= score_of a)%Q) output
               /\ forall score : Q,
                    exists rest,
                      map (set_alias base_alias)
                          (filter (fun e => Qeq_bool (score_of e) score)
                                  (scored_group duration_score audio_score
                                                ["duration"%string] group))
                      = (map (set_alias base_alias)
                             (filter (fun e => Qeq_bool (score_of e) score) output)
                         ++ rest)%list)
            groups outputs.
Proof.
  apply (C9_quality_selector_top_k_stable (fun d : Q => Qmin d (3 # 10))
           (fun _ : Entry => (1 # 2)%Q) (fun (rule p : string) (n : nat) => p) 2
           "%p%%n%" "%p%" ["duration"%string]
           [entry_of_length "1.wav" 200; entry_of_length "2.wav" 400;
            _calculate_oto_params "4.wav" "da" 0 50 300 1000 (3 # 10);
            entry_of_length "3.wav" 200]).
  discriminate.
Defined.

Example scenario_filter_by_alias :
  map (fun e => (wav_name e, alias e))
      (fst (_filter_by_alias (fun d : Q => Qmin d (3 # 10)) (fun _ : Entry => (1 # 2)%Q)
              (fun (rule p : string) (n : nat) => p) 2 "%p%%n%" "%p%"
              ["duration"%string]
              [entry_of_length "1.wav" 200; entry_of_length "2.wav" 400;
               _calculate_oto_params "4.wav" "da" 0 50 300 1000 (3 # 10);
               entry_of_length "3.wav" 200]))
  = [("2.wav", "ga"); ("1.wav", "ga"); ("4.wav", "da")]%string.
Proof. vm_compute. reflexivity. Qed.

(* ================================================================== *)
(** * Further properties: the mapping of the transition units *)
(* ================================================================== *)

Section MappingProperties.

Open Scope string_scope.

(** The pairs (syllable, identifier) of a table, row after row. *)
Definition table_pairs (data : list (string * list string)) : list (string * string) :=
  flat_map (fun row => map (fun pinyin => (pinyin, fst row)) (snd row)) data.

Lemma build_mapping_fold (data : list (string * list string)) :
  build_mapping data
  = fold_left (fun mapping p => dict_set (fst p) (snd p) mapping)
              (table_pairs data) [].
Proof.
  unfold build_mapping, table_pairs. rewrite fold_left_flat_map.
  apply fold_left_pointwise. intros mapping row.
  rewrite fold_left_map. reflexivity.
Qed.

Lemma keys_app {V : Type} (a b : list (string * V)) :
  keys (a ++ b) = (keys a ++ keys b)%list.
Proof. unfold keys. apply map_app. Qed.

(** Setting keys that are all new appends them. *)
Lemma fold_set_new (pairs : list (string * string)) :
  forall mapping,
    NoDup (keys mapping ++ keys pairs) ->
    fold_left (fun mapping p => dict_set (fst p) (snd p) mapping) pairs mapping
    = (mapping ++ pairs)%list.
Proof.
  induction pairs as [|[k v] pairs IH]; intros mapping ND.
  - cbn. rewrite app_nil_r. reflexivity.
  - cbn [fold_left fst snd].
    assert (New : ~ In k (keys mapping)).
    { intros I. unfold keys in ND. cbn [map fst] in ND.
      apply NoDup_remove_2 in ND. apply ND. apply in_or_app. left. exact I. }
    rewrite (dict_set_new k v mapping New), IH.
    + rewrite <- app_assoc. reflexivity.
    + rewrite keys_app. cbn. rewrite <- app_assoc. exact ND.
Qed.

Lemma build_mapping_pairs (data : list (string * list string)) :
  NoDup (keys (table_pairs data)) -> build_mapping data = table_pairs data.
Proof.
  intros ND. rewrite build_mapping_fold.
  exact (fold_set_new (table_pairs data) [] ND).
Qed.

Lemma table_pairs_In (data : list (string * list string)) (pinyin id : string) :
  In (pinyin, id) (table_pairs data)
  <-> exists row, In (id, row) data /\ In pinyin row.
Proof.
  unfold table_pairs. rewrite in_flat_map. split.
  - intros [[id' row] [I M]]. cbn [fst snd] in M. apply in_map_iff in M.
    destruct M as [p [E Ip]]. injection E as <- <-. exists row. auto.
  - intros [row [I Ip]]. exists (id, row). split; [exact I|].
    cbn [fst snd]. apply in_map_iff. exists pinyin. auto.
Qed.

(** The mapping built from a table that lists no syllable twice maps a
    syllable to the identifier of the row that lists it. *)
Lemma build_mapping_spec (data : list (string * list string)) (pinyin id : string) :
  NoDup (keys (table_pairs data)) ->
  dict_get pinyin (build_mapping data) = Some id
  <-> exists row, In (id, row) data /\ In pinyin row.
Proof.
  intros ND. rewrite (build_mapping_pairs data ND), <- table_pairs_In. split.
  - apply dict_get_In.
  - apply dict_get_of_In. exact ND.
Qed.

(** X24. The two maps of [_load_presamp_mapping] are the tables read
    backwards: a syllable has the final (the consonant) of the row of the
    table that lists it, and no syllable is listed in two rows.  Every
    syllable that has a consonant has a final. *)
Theorem presamp_mapping_rows (pinyin id : string) :
  let vowel_map := fst _load_presamp_mapping in
  let consonant_map := snd _load_presamp_mapping in
  (_find_vowel_in_mapping pinyin vowel_map = Some id
   <-> exists row, In (id, row) vowel_data /\ In pinyin row)
  /\ (_find_consonant_in_mapping pinyin consonant_map = Some id
      <-> exists row, In (id, row) consonant_data /\ In pinyin row)
  /\ (_find_consonant_in_mapping pinyin consonant_map = Some id ->
      exists final, _find_vowel_in_mapping pinyin vowel_map = Some final).
Proof.
  cbv zeta. unfold _load_presamp_mapping, _find_vowel_in_mapping,
    _find_consonant_in_mapping. cbn [fst snd].
  assert (NV : NoDup (keys (table_pairs vowel_data)))
    by (apply nodup_strings_NoDup; vm_compute; reflexivity).
  assert (NC : NoDup (keys (table_pairs consonant_data)))
    by (apply nodup_strings_NoDup; vm_compute; reflexivity).
  split; [exact (build_mapping_spec vowel_data pinyin id NV)|].
  split; [exact (build_mapping_spec consonant_data pinyin id NC)|].
  intros H. apply dict_get_Some_mem in H.
  pose proof (forallb_In
                (fun k => match dict_get k (build_mapping vowel_data) with
                          | Some _ => true | None => false end)
                (keys (build_mapping consonant_data)) pinyin
                ltac:(vm_compute; reflexivity)
                (proj1 (mem_In _ _) H)) as T.
  cbv beta in T.
  destruct (dict_get pinyin (build_mapping vowel_data)) as [final|];
    [exists final; reflexivity|discriminate T].
Qed.

End MappingProperties.

(* ================================================================== *)
(** * Properties of the collection of exemplars *)
(* ================================================================== *)

Section CollectingProperties.

Open Scope string_scope.
Open Scope Q_scope.

Lemma select_best_vowel_member (segments : list PhonemeInfo) (best : PhonemeInfo) :
  _select_best_vowel segments = Some best -> In best segments.
Proof.
  unfold _select_best_vowel. intros H. apply max_by_spec in H.
  exact (proj1 (top_candidates_spec segments best (proj1 H))).
Qed.

Lemma select_best_consonant_member (segments : list PhonemeInfo) (best : PhonemeInfo) :
  _select_best_consonant segments = Some best -> In best segments.
Proof.
  unfold _select_best_consonant. cbv zeta.
  destruct (List.length (top_candidates segments) =? 1)%nat.
  - intros H. apply nth_error_In in H.
    exact (proj1 (top_candidates_spec segments best H)).
  - destruct (nth_error _ _) as [median|]; [|discriminate].
    intros H. apply min_by_spec in H.
    exact (proj1 (top_candidates_spec segments best (proj1 H))).
Qed.

Lemma select_best_vowel_defined (segments : list PhonemeInfo) :
  segments <> [] -> _select_best_vowel segments <> None.
Proof.
  intros N. unfold _select_best_vowel.
  pose proof (top_candidates_nonempty segments N) as T.
  destruct (top_candidates segments); [congruence|discriminate].
Qed.

Lemma select_best_consonant_defined (segments : list PhonemeInfo) :
  segments <> [] -> _select_best_consonant segments <> None.
Proof.
  intros N. unfold _select_best_consonant. cbv zeta.
  pose proof (top_candidates_nonempty segments N) as T.
  destruct (List.length (top_candidates segments) =? 1)%nat eqn:One.
  - apply Nat.eqb_eq in One.
    destruct (top_candidates segments); [congruence|discriminate].
  - rewrite sorted_by_length, length_map.
    destruct (nth_error _ _) as [median|] eqn:Em.
    + destruct (top_candidates segments); [congruence|discriminate].
    + exfalso. apply nth_error_None in Em.
      rewrite sorted_by_length, length_map in Em.
      assert (0 < List.length (top_candidates segments))%nat
        by (destruct (top_candidates segments); [congruence|cbn; lia]).
      pose proof (Nat.div_lt (List.length (top_candidates segments)) 2). lia.
Qed.

(** Every segment of every group has the property of what was appended
    under the key of the group, and the keys are distinct. *)
Definition segments_inv (P : string -> PhonemeInfo -> Prop)
    (segments : list (string * list PhonemeInfo)) : Prop :=
  NoDup (keys segments)
  /\ Forall (fun kg => Forall (P (fst kg)) (snd kg)) segments.

Lemma segments_append_keys (key : string) (x : PhonemeInfo)
    (segments : list (string * list PhonemeInfo)) :
  keys (segments_append key x segments)
  = if mem key (keys segments) then keys segments else (keys segments ++ [key])%list.
Proof.
  induction segments as [|[k g] segments IH]; cbn [segments_append]; [reflexivity|].
  unfold keys, mem in *. cbn [map fst existsb].
  destruct (String.eqb key k); cbn [orb map fst]; [reflexivity|].
  rewrite IH. destruct (existsb (String.eqb key) (map fst segments)); reflexivity.
Qed.

Lemma segments_append_inv (P : string -> PhonemeInfo -> Prop) (key : string)
    (x : PhonemeInfo) (segments : list (string * list PhonemeInfo)) :
  P key x -> segments_inv P segments ->
  segments_inv P (segments_append key x segments).
Proof.
  intros Px [ND F]. split.
  - rewrite segments_append_keys. destruct (mem key (keys segments)) eqn:M;
      [exact ND|].
    apply NoDup_app; [exact ND|constructor; [intros []|constructor]|].
    intros y Hy [<-|[]]. apply mem_In in Hy. congruence.
  - clear ND. induction segments as [|[k g] segments IH]; cbn [segments_append].
    + constructor; [|constructor]. cbn. constructor; [exact Px|constructor].
    + inversion F as [|? ? Fg Frest]; subst. cbn [fst snd] in Fg.
      destruct (String.eqb_spec key k) as [->|N].
      * constructor; [|exact Frest]. cbn [fst snd].
        apply Forall_app. split; [exact Fg|]. constructor; [exact Px|constructor].
      * constructor; [exact Fg|]. exact (IH Frest).
Qed.

Lemma best_segments_spec (select : list PhonemeInfo -> option PhonemeInfo)
    (P : string -> PhonemeInfo -> Prop)
    (segments : list (string * list PhonemeInfo)) :
  (forall g b, select g = Some b -> In b g) ->
  (forall g, g <> [] -> select g <> None) ->
  segments_inv P segments ->
  exists best,
    best_segments select segments = Some best
    /\ NoDup (keys best)
    /\ Forall (fun kb => P (fst kb) (snd kb)) best
    /\ incl (keys best) (keys segments).
Proof.
  intros Mem Def [ND F].
  induction segments as [|[k g] segments IH]; cbn [best_segments].
  - exists []. repeat split; try constructor. intros x [].
  - unfold keys in ND. cbn [map fst] in ND. inversion ND as [|? ? Nin ND']; subst.
    inversion F as [|? ? Fg Frest]; subst. cbn [fst snd] in Fg.
    destruct (IH ND' Frest) as [others [E [NDo [Fo Inc]]]].
    destruct g as [|x g'].
    + exists others. split; [exact E|]. split; [exact NDo|]. split; [exact Fo|].
      intros y Hy. right. exact (Inc y Hy).
    + destruct (select (x :: g')) as [b|] eqn:S;
        [|exfalso; exact (Def (x :: g') ltac:(discriminate) S)].
      rewrite E. exists ((k, b) :: others). split; [reflexivity|].
      split; [|split].
      * unfold keys. cbn [map fst]. constructor; [|exact NDo].
        intros I. apply Nin. exact (Inc k I).
      * constructor; [|exact Fo]. cbn [fst snd].
        rewrite Forall_forall in Fg. apply Fg. exact (Mem _ _ S).
      * intros y [<-|Hy]; [left; reflexivity|right; exact (Inc y Hy)].
Qed.

Variable str_lower : string -> string.
Variable path_join : string -> string -> string.
Variable path_exists : string -> bool.

(** A consonant segment made from an entry of the list. *)
Definition consonant_of (entries : list Entry) (slices_dir language : string)
    (c : string) (info : PhonemeInfo) : Prop :=
  c <> ""%string /\ In c (split_consonants language) /\ ipa info = c
  /\ exists entry,
       In entry entries
       /\ path_exists (path_join slices_dir (wav_name entry)) = true
       /\ fst (_split_alias_to_cv str_lower (alias entry) language) = Some c
       /\ wav_path info = path_join slices_dir (wav_name entry)
       /\ offset_ms info = offset entry
       /\ duration_ms info = consonant entry.

(** A vowel segment made from an entry of the list. *)
Definition vowel_of (entries : list Entry) (slices_dir language : string)
    (v : string) (info : PhonemeInfo) : Prop :=
  v <> ""%string /\ ipa info = v /\ 0 < duration_ms info
  /\ exists entry,
       In entry entries
       /\ path_exists (path_join slices_dir (wav_name entry)) = true
       /\ snd (_split_alias_to_cv str_lower (alias entry) language) = Some v
       /\ wav_path info = path_join slices_dir (wav_name entry)
       /\ offset_ms info = offset entry + consonant entry
       /\ duration_ms info = segment_duration entry - consonant entry.

Lemma split_consonant_listed (alias language c : string) (v : option string) :
  _split_alias_to_cv str_lower alias language = (Some c, v) ->
  In c (split_consonants language).
Proof.
  unfold _split_alias_to_cv.
  destruct (negb (nonempty alias)); [discriminate|]. cbv zeta.
  destruct (find _ (split_consonants language)) as [c0|] eqn:F; [|discriminate].
  apply find_some in F.
  destruct (nonempty _); intros E; injection E as <- _; exact (proj1 F).
Qed.

Lemma consonant_of_more entries e slices_dir language c info :
  consonant_of entries slices_dir language c info ->
  consonant_of (entries ++ [e]) slices_dir language c info.
Proof.
  intros [A0 [A [B [entry [I R]]]]]. split; [exact A0|]. split; [exact A|].
  split; [exact B|].
  exists entry. split; [apply in_or_app; left; exact I|exact R].
Qed.

Lemma vowel_of_more entries e slices_dir language v info :
  vowel_of entries slices_dir language v info ->
  vowel_of (entries ++ [e]) slices_dir language v info.
Proof.
  intros [A [B [C [entry [I R]]]]]. split; [exact A|]. split; [exact B|].
  split; [exact C|].
  exists entry. split; [apply in_or_app; left; exact I|exact R].
Qed.

Lemma segments_inv_impl (P P' : string -> PhonemeInfo -> Prop)
    (segments : list (string * list PhonemeInfo)) :
  (forall k x, P k x -> P' k x) -> segments_inv P segments -> segments_inv P' segments.
Proof.
  intros I [ND F]. split; [exact ND|].
  eapply Forall_impl; [|exact F]. intros [k g] Fg. cbn [fst snd] in *.
  eapply Forall_impl; [|exact Fg]. intros x. apply I.
Qed.

Lemma collect_fold_inv (slices_dir language : string) (entries : list Entry) :
  let state := fold_left (collect_step str_lower path_join path_exists
                                       slices_dir language) entries ([], []) in
  segments_inv (consonant_of entries slices_dir language) (fst state)
  /\ segments_inv (vowel_of entries slices_dir language) (snd state).
Proof.
  cbv zeta. induction entries as [|e entries IH] using rev_ind.
  - cbn. split; split; constructor.
  - rewrite fold_left_app. cbn [fold_left].
    destruct (fold_left _ entries ([], [])) as [cs vs]. cbn [fst snd] in IH.
    destruct IH as [Ic Iv].
    apply (segments_inv_impl _ (consonant_of (entries ++ [e]) slices_dir language))
      in Ic; [|intros k x; apply consonant_of_more].
    apply (segments_inv_impl _ (vowel_of (entries ++ [e]) slices_dir language))
      in Iv; [|intros k x; apply vowel_of_more].
    unfold collect_step.
    destruct (path_exists (path_join slices_dir (wav_name e))) eqn:Ex; cbn [negb];
      [|split; assumption].
    cbv zeta.
    destruct (_split_alias_to_cv str_lower (alias e) language) as [c_part v_part]
      eqn:Sp.
    cbn [fst snd]. split.
    + destruct c_part as [c|]; [|exact Ic].
      destruct (nonempty c) eqn:Nc; [|exact Ic].
      apply segments_append_inv; [|exact Ic].
      split; [intros Z; rewrite Z in Nc; discriminate Nc|].
      split; [exact (split_consonant_listed _ _ _ _ Sp)|]. split; [reflexivity|].
      exists e. split; [apply in_or_app; right; left; reflexivity|].
      rewrite Sp. cbn. auto.
    + destruct v_part as [v|]; [|exact Iv].
      destruct (nonempty v) eqn:Nv; [|exact Iv].
      destruct (Qlt_le_dec 0 (segment_duration e - consonant e)) as [Pos|Neg];
        [|exact Iv].
      apply segments_append_inv; [|exact Iv].
      split; [intros Z; rewrite Z in Nv; discriminate Nv|].
      split; [reflexivity|]. split; [exact Pos|].
      exists e. split; [apply in_or_app; right; left; reflexivity|].
      rewrite Sp. cbn. auto.
Qed.

Lemma collect_phoneme_segments_ok (entries : list Entry)
    (slices_dir language : string) :
  exists best_consonants best_vowels,
    _collect_phoneme_segments str_lower path_join path_exists entries
                              slices_dir language
    = Some (best_consonants, best_vowels)
    /\ NoDup (keys best_consonants) /\ NoDup (keys best_vowels)
    /\ Forall (fun kb => consonant_of entries slices_dir language (fst kb) (snd kb))
              best_consonants
    /\ Forall (fun kb => vowel_of entries slices_dir language (fst kb) (snd kb))
              best_vowels.
Proof.
  unfold _collect_phoneme_segments.
  pose proof (collect_fold_inv slices_dir language entries) as [Ic Iv].
  cbv zeta in Ic, Iv.
  destruct (fold_left _ entries ([], [])) as [cs vs]. cbn [fst snd] in Ic, Iv.
  destruct (best_segments_spec _select_best_consonant _ cs
              select_best_consonant_member select_best_consonant_defined Ic)
    as [bc [Ec [Nc [Fc _]]]].
  destruct (best_segments_spec _select_best_vowel _ vs
              select_best_vowel_member select_best_vowel_defined Iv)
    as [bv [Ev [Nv [Fv _]]]].
  rewrite Ec, Ev. exists bc, bv. auto.
Qed.

(** X26. [_collect_phoneme_segments] always returns (no selection raises).
    It gives at most one exemplar to a phoneme.  A consonant exemplar is
    filed under a consonant of the list, and is the consonant part -- from
    the offset, for the consonant duration -- of an entry whose file exists
    and whose alias starts with that consonant.  A vowel exemplar is filed
    under a text that is not empty, has a positive duration, and is the
    rest of such an entry after its consonant part. *)
Theorem collect_phoneme_segments_spec (entries : list Entry)
    (slices_dir language : string) :
  exists best_consonants best_vowels,
    _collect_phoneme_segments str_lower path_join path_exists entries
                              slices_dir language
    = Some (best_consonants, best_vowels)
    /\ NoDup (keys best_consonants) /\ NoDup (keys best_vowels)
    /\ Forall (fun kb => consonant_of entries slices_dir language (fst kb) (snd kb))
              best_consonants
    /\ Forall (fun kb => vowel_of entries slices_dir language (fst kb) (snd kb))
              best_vowels.
Proof.
  unfold _collect_phoneme_segments.
  destruct (collect_fold_inv slices_dir language entries) as [Ic Iv].
  cbv zeta in Ic, Iv.
  destruct (fold_left _ entries ([], [])) as [cs vs]. cbn [fst snd] in Ic, Iv.
  destruct (best_segments_spec _select_best_consonant _ cs
              select_best_consonant_member select_best_consonant_defined Ic)
    as [best_consonants [Ec [Nc [Fc _]]]].
  destruct (best_segments_spec _select_best_vowel _ vs
              select_best_vowel_member select_best_vowel_defined Iv)
    as [best_vowels [Ev [Nv [Fv _]]]].
  rewrite Ec, Ev. exists best_consonants, best_vowels.
  split; [reflexivity|]. split; [exact Nc|]. split; [exact Nv|].
  split; [exact Fc|exact Fv].
Qed.

(** ** The units put together *)

Variable apply_naming_rule : string -> string -> nat -> string.
Variable sf_read : string -> option (list Q * Z).
Variable sf_write : string -> list Q -> Z -> bool.

(** The exemplars of a candidate are exemplars of the two dictionaries, and
    its alias is not empty when no consonant key is. *)
Lemma normal_candidate_infos existing language use_hiragana c v cand :
  In cand (normal_candidate existing language use_hiragana c v) ->
  consonant_info cand = snd c /\ vowel_info cand = snd v
  /\ (fst c <> ""%string -> cand_alias cand <> ""%string).
Proof.
  unfold normal_candidate. destruct c as [c_alias c_info], v as [v_alias v_info].
  cbv zeta.
  destruct (negb (isascii c_alias) || negb (isascii v_alias)); [intros []|].
  destruct (negb (mem (lower v_alias) (valid_vowels language))
            && (2 <? String.length (lower v_alias))%nat); [intros []|].
  destruct use_hiragana.
  - destruct (dict_get (lower c_alias ++ lower v_alias) ROMAJI_TO_HIRAGANA)
      as [final_alias|] eqn:G; [|intros []].
    destruct (mem final_alias existing); [intros []|].
    destruct (mem (lower c_alias ++ lower v_alias) existing); [intros []|].
    intros [<-|[]]. cbn. split; [reflexivity|]. split; [reflexivity|].
    intros _ Z. subst final_alias.
    assert (T : forallb (fun kv => nonempty (snd kv)) ROMAJI_TO_HIRAGANA = true)
      by (vm_compute; reflexivity).
    pose proof (dict_get_value nonempty _ _ _ T G) as N. discriminate N.
  - destruct (mem (lower c_alias ++ lower v_alias) existing); [intros []|].
    intros [<-|[]]. cbn. split; [reflexivity|]. split; [reflexivity|].
    intros Nc Z. apply Nc. destruct c_alias; [reflexivity|discriminate Z].
Qed.

Lemma fuzzy_target_infos consonants vowels ac av generated tc tv cand :
  fuzzy_target consonants vowels ac av generated tc tv = Some cand ->
  (exists c, In (c, consonant_info cand) consonants)
  /\ (exists v, In (v, vowel_info cand) vowels)
  /\ cand_alias cand = (tc ++ tv)%string.
Proof.
  unfold fuzzy_target. cbv zeta.
  destruct (mem (tc ++ tv) generated); [discriminate|].
  destruct (actual_phoneme tc ac FUZZY_CONSONANT_GROUPS) as [c|]; [|discriminate].
  destruct (actual_phoneme tv av FUZZY_VOWEL_GROUPS) as [v|]; [|discriminate].
  destruct (String.eqb c tc && String.eqb v tv); [discriminate|].
  destruct (dict_get c consonants) as [ci|] eqn:Gc; [|discriminate].
  destruct (dict_get v vowels) as [vi|] eqn:Gv; [|discriminate].
  intros H. injection H as <-. cbn.
  split; [exists c; exact (dict_get_In _ _ _ Gc)|].
  split; [exists v; exact (dict_get_In _ _ _ Gv)|reflexivity].
Qed.

Lemma generate_candidates_infos consonants vowels existing language use_hiragana
    fuzzy cand :
  Forall (fun kb => fst kb <> ""%string) consonants ->
  In cand (_generate_candidates consonants vowels existing language use_hiragana
                                fuzzy) ->
  (exists c, In (c, consonant_info cand) consonants)
  /\ (exists v, In (v, vowel_info cand) vowels)
  /\ cand_alias cand <> ""%string.
Proof.
  intros Keys. unfold _generate_candidates. cbv zeta.
  assert (Normal : forall cand,
            In cand (normal_candidates consonants vowels existing language
                                       use_hiragana) ->
            (exists c, In (c, consonant_info cand) consonants)
            /\ (exists v, In (v, vowel_info cand) vowels)
            /\ cand_alias cand <> ""%string).
  { clear cand. intros cand H. unfold normal_candidates in H.
    apply in_flat_map in H. destruct H as [[c ci] [Ic H]].
    apply in_flat_map in H. destruct H as [[v vi] [Iv H]].
    apply normal_candidate_infos in H. cbn [fst snd] in H.
    destruct H as [A [B N]]. rewrite A, B.
    split; [exists c; exact Ic|]. split; [exists v; exact Iv|].
    apply N. rewrite Forall_forall in Keys. exact (Keys _ Ic). }
  destruct (fuzzy && is_chinese language); [|apply Normal].
  intros H. apply in_app_or in H. destruct H as [H|H]; [exact (Normal cand H)|].
  rewrite fuzzy_candidates_as_map in H.
  apply in_flat_map in H. destruct H as [[tc tv] [It H]]. cbn [fst snd] in H.
  destruct (fuzzy_target consonants vowels (keys consonants) (keys vowels)
              (map base_alias
                   (normal_candidates consonants vowels existing language
                                      use_hiragana) ++ existing) tc tv)
    as [c|] eqn:E; [|destruct H].
  destruct H as [<-|[]]. apply fuzzy_target_infos in E.
  destruct E as [A [B Al]]. split; [exact A|]. split; [exact B|].
  rewrite Al.
  assert (T : forallb (fun t => nonempty (fst t)) target_grid = true)
    by (vm_compute; reflexivity).
  pose proof (forallb_In _ _ _ T It) as N. cbn [fst] in N.
  intros Z. destruct tc; [discriminate N|discriminate Z].
Qed.

(** What [_combine_and_save] leaves of its candidate in the entry. *)
Lemma combine_candidate_entry candidate export_dir overlap_ratio crossfade_ms
    first_naming_rule entry :
  combine_candidate path_join apply_naming_rule sf_read sf_write candidate
                    export_dir overlap_ratio crossfade_ms first_naming_rule
  = Some entry ->
  wav_name entry = ("C" ++ cand_alias candidate ++ ".wav")%string
  /\ is_combined entry = true /\ is_vc entry = false /\ offset entry = 0
  /\ consonant entry = round1 (duration_ms (consonant_info candidate))
  /\ (first_naming_rule = ""%string -> alias entry = cand_alias candidate).
Proof.
  unfold combine_candidate.
  destruct (sf_read (wav_path (consonant_info candidate))) as [[c_audio c_sr]|];
    [|discriminate].
  destruct (sf_read (wav_path (vowel_info candidate))) as [[v_audio v_sr]|];
    [|discriminate].
  destruct (_combine_and_save _ _ _ _ _ _ _ _ _) as [[e combined]|] eqn:E;
    [|discriminate].
  destruct (sf_write _ _ _); [|discriminate].
  intros H. injection H as <-.
  unfold _combine_and_save in E. cbv zeta in E.
  destruct (negb (c_sr =? v_sr)%Z); [discriminate E|].
  destruct (segment_of c_audio _ c_sr); [discriminate E|].
  destruct (segment_of v_audio _ v_sr); [discriminate E|].
  destruct (_crossfade_concat _ _ _) as [comb|]; [|discriminate E].
  injection E as <- _. cbn.
  repeat split. intros ->. reflexivity.
Qed.

Lemma combine_fold_spec (P : Entry -> Prop) (candidates : list Candidate)
    export_dir overlap_ratio crossfade_ms first_naming_rule :
  (forall candidate entry,
     In candidate candidates ->
     combine_candidate path_join apply_naming_rule sf_read sf_write candidate
                       export_dir overlap_ratio crossfade_ms first_naming_rule
     = Some entry -> P entry) ->
  let state :=
    fold_left (combine_step path_join apply_naming_rule sf_read sf_write
                            export_dir overlap_ratio crossfade_ms
                            first_naming_rule)
              candidates ([], []) in
  Forall P (fst state)
  /\ (forall w, In w (snd state) <-> In w (map wav_name (fst state))).
Proof.
  cbv zeta. induction candidates as [|cand candidates IH] using rev_ind.
  - intros _. cbn. split; [constructor|tauto].
  - intros H. rewrite fold_left_app. cbn [fold_left].
    destruct IH as [F W].
    { intros c e I. apply H. apply in_or_app. left. exact I. }
    destruct (fold_left _ candidates ([], [])) as [new_entries new_wavs].
    cbn [fst snd] in F, W. unfold combine_step.
    destruct (combine_candidate _ _ _ _ cand _ _ _ _) as [entry|] eqn:E;
      cbn [fst snd]; [|split; assumption].
    split.
    + apply Forall_app. split; [exact F|]. constructor; [|constructor].
      apply (H cand entry); [apply in_or_app; right; left; reflexivity|exact E].
    + intros w. rewrite map_app, in_app_iff. cbn [map In].
      destruct (mem (wav_name entry) new_wavs) eqn:M.
      * apply mem_In in M. rewrite <- W. split; [tauto|].
        intros [I|[<-|[]]]; assumption.
      * rewrite in_app_iff, <- W. cbn [In]. tauto.
Qed.

(** A unit put together from two entries of the list. *)
Definition combined_from (all_entries filtered_entries : list Entry)
    (slices_dir first_naming_rule : string) (e : Entry) : Prop :=
  is_combined e = true /\ is_vc e = false /\ offset e = 0 /\ 0 <= consonant e
  /\ exists a c_source v_source,
       a <> ""%string /\ wav_name e = ("C" ++ a ++ ".wav")%string
       /\ (first_naming_rule = ""%string -> alias e = a)
       /\ (forall f, In f filtered_entries -> alias f <> a)
       /\ In c_source all_entries /\ In v_source all_entries
       /\ path_exists (path_join slices_dir (wav_name c_source)) = true
       /\ path_exists (path_join slices_dir (wav_name v_source)) = true
       /\ consonant e = round1 (consonant c_source)
       /\ consonant v_source < segment_duration v_source.

(** X27. On entries whose offset and consonant length are not negative,
    [_auto_combine_phonemes] always returns, and [new_wavs] holds the file
    names of the new entries and nothing else.  Every new entry is marked
    as combined, starts at offset 0 and is saved as [C<alias>.wav] for an
    alias that is not empty and that no filtered entry has; with no naming
    rule that alias is its own.  Its consonant length is the rounded
    consonant length, not negative, of an entry whose file exists, and its
    vowel comes from an entry whose file exists and that is longer than its
    consonant. *)
Theorem auto_combine_phonemes_spec (all_entries filtered_entries : list Entry)
    (slices_dir export_dir language : string) (use_hiragana : bool)
    (overlap_ratio : Q) (crossfade_ms : Z) (first_naming_rule : string)
    (fuzzy_phoneme : bool) :
  Forall (fun e => 0 <= offset e /\ 0 <= consonant e) all_entries ->
  exists new_entries new_wavs,
    _auto_combine_phonemes str_lower path_join path_exists apply_naming_rule
      sf_read sf_write all_entries filtered_entries slices_dir export_dir
      language use_hiragana overlap_ratio crossfade_ms first_naming_rule
      fuzzy_phoneme
    = Some (new_entries, new_wavs)
    /\ (forall w, In w new_wavs <-> In w (map wav_name new_entries))
    /\ Forall (combined_from all_entries filtered_entries slices_dir
                             first_naming_rule) new_entries.
Proof.
  intros Range. unfold _auto_combine_phonemes. cbv zeta.
  destruct (collect_phoneme_segments_ok all_entries slices_dir language)
    as [cs [vs [E [_ [_ [Fc Fv]]]]]].
  rewrite E.
  set (existing := filter nonempty (map alias filtered_entries)).
  set (enable := fuzzy_phoneme && mem language ["chinese"; "zh"; "mandarin"]).
  assert (Done : exists new_entries new_wavs,
            fold_left (combine_step path_join apply_naming_rule sf_read sf_write
                         export_dir overlap_ratio crossfade_ms first_naming_rule)
                      (_generate_candidates cs vs existing language use_hiragana
                                            enable) ([], [])
            = (new_entries, new_wavs)
            /\ (forall w, In w new_wavs <-> In w (map wav_name new_entries))
            /\ Forall (combined_from all_entries filtered_entries slices_dir
                                     first_naming_rule) new_entries).
  { destruct (combine_fold_spec
                (combined_from all_entries filtered_entries slices_dir
                               first_naming_rule)
                (_generate_candidates cs vs existing language use_hiragana enable)
                export_dir overlap_ratio crossfade_ms first_naming_rule)
      as [F W].
    - intros cand entry I C.
      apply combine_candidate_entry in C.
      destruct C as [Wn [Ic [Iv [Of [Co Al]]]]].
      assert (Keys : Forall (fun kb : string * PhonemeInfo => fst kb <> ""%string) cs).
      { eapply Forall_impl; [|exact Fc]. intros kb H. exact (proj1 H). }
      pose proof (generate_candidates_infos cs vs existing language use_hiragana
                    enable cand Keys I) as [[c Hc] [[v Hv] Ne]].
      rewrite Forall_forall in Fc, Fv.
      destruct (Fc _ Hc) as [_ [_ [_ [ce [Ice [Xc [_ [_ [_ Dc]]]]]]]]].
      destruct (Fv _ Hv) as [_ [_ [Pos [ve [Ive [Xv [_ [_ [_ Dv]]]]]]]]].
      cbn [fst snd] in Dc, Dv, Pos.
      rewrite Forall_forall in Range.
      split; [exact Ic|]. split; [exact Iv|]. split; [exact Of|].
      split; [rewrite Co, Dc; apply round1_nonneg; exact (proj2 (Range _ Ice))|].
      exists (cand_alias cand), ce, ve.
      split; [exact Ne|]. split; [exact Wn|]. split; [exact Al|]. split.
      { intros f If Eq.
        assert (N : ~ In (cand_alias cand) existing).
        { unfold _generate_candidates in I. cbv zeta in I.
          assert (Nn : forall x,
                    In x (normal_candidates cs vs existing language use_hiragana) ->
                    ~ In (cand_alias x) existing).
          { intros x Ix. apply mem_false_not_In.
            exact (proj1 (normal_candidates_new _ _ _ _ _ _ Ix)). }
          destruct (enable && is_chinese language); [|exact (Nn _ I)].
          apply in_app_or in I. destruct I as [I|I]; [exact (Nn _ I)|].
          apply fuzzy_candidate_alias in I. destruct I as [M _].
          rewrite mem_app in M. apply orb_false_iff in M.
          apply mem_false_not_In. exact (proj2 M). }
        apply N. unfold existing. apply filter_In. split.
        - rewrite <- Eq. apply in_map. exact If.
        - destruct (cand_alias cand); [congruence|reflexivity]. }
      split; [exact Ice|]. split; [exact Ive|]. split; [exact Xc|].
      split; [exact Xv|]. split; [rewrite Co, Dc; reflexivity|].
      rewrite Dv in Pos. lra.
    - destruct (fold_left _ _ ([], [])) as [new_entries new_wavs].
      exists new_entries, new_wavs. split; [reflexivity|]. split; assumption. }
  destruct cs as [|c cs'].
  - exists [], []. split; [reflexivity|]. split; [tauto|constructor].
  - destruct vs as [|v vs'].
    + exists [], []. split; [reflexivity|]. split; [tauto|constructor].
    + destruct Done as [ne [nw [Ef R]]]. exists ne, nw. rewrite Ef.
      split; [reflexivity|exact R].
Qed.

End CollectingProperties.

Lemma auto_combine_phonemes_spec_witness :
  let entries :=
    [mkEntry "ka.wav" "ka" 0 50 (-200) 50 15 200 false false None;
     mkEntry "si.wav" "si" 0 60 (-220) 60 18 220 false false None] in
  let path_join := fun d n => (d ++ "/" ++ n)%string in
  let path_exists := fun _ : string => true in
  exists new_entries new_wavs,
    _auto_combine_phonemes lower path_join path_exists (fun _ a _ => a)
      (fun _ => Some (repeat 1%Q 400, 1000%Z)) (fun _ _ _ => true)
      entries entries "slices" "out" "ja" false (3 # 10) 10 "" false
    = Some (new_entries, new_wavs)
    /\ (forall w, In w new_wavs <-> In w (map wav_name new_entries))
    /\ Forall (combined_from path_join path_exists entries entries "slices" "")
              new_entries.
Proof.
  cbv zeta.
  apply (auto_combine_phonemes_spec lower (fun d n => (d ++ "/" ++ n)%string)
           (fun _ => true) (fun _ a _ => a)
           (fun _ => Some (repeat 1%Q 400, 1000%Z)) (fun _ _ _ => true)).
  repeat constructor; cbn; discriminate.
Defined.

(* ================================================================== *)
(** * Properties of the reading of the TextGrid files *)
(* ================================================================== *)

Section TextGridProperties.

Open Scope string_scope.
Open Scope Q_scope.

(** Every CV entry is a simple unit of its own file. *)
Lemma cv_entries_calculated (words_tier phones_tier : list Interval)
    (wav_name : string) (wav_duration_ms : Q) (language : string)
    (use_hiragana : bool) (overlap_ratio : Q) (e : Entry) :
  In e (_extract_cv_pairs words_tier phones_tier wav_name wav_duration_ms
                          language use_hiragana overlap_ratio) ->
  exists al off cd se,
    e = _calculate_oto_params wav_name al off cd se wav_duration_ms overlap_ratio.
Proof.
  unfold _extract_cv_pairs. intros H. apply cv_loop_In in H.
  destruct H as [[]|[j [interval [_ H]]]].
  unfold cv_body in H. cbv zeta in H.
  destruct (is_skip (strip (mark interval))); [destruct H|].
  destruct (is_chinese language).
  - destruct (zh_parse words_tier phones_tier language j interval
                       (strip (mark interval))) as [i' syl].
    cbn [snd] in H. unfold zh_entries in H.
    destruct syl as [s|]; [|destruct H].
    destruct (_syllable_to_pinyin (syllable_phones s) language use_hiragana)
      as [a|]; [|destruct H].
    destruct (nonempty a); [|destruct H].
    destruct H as [<-|[]]. eexists _, _, _, _. reflexivity.
  - destruct (ja_parse words_tier phones_tier language j interval
                       (strip (mark interval))) as [i' p].
    cbn [snd] in H. unfold ja_entries in H.
    destruct p as [u|]; [|destruct H].
    destruct (ipa_to_alias (pair_consonant u) (pair_vowel u) language use_hiragana)
      as [a|]; [|destruct H].
    destruct (nonempty a); [|destruct H].
    destruct H as [<-|[]]. eexists _, _, _, _. reflexivity.
Qed.

(** Every VC entry is a transition unit of its own file. *)
Lemma vc_entries_calculated (phones_tier : list Interval) (wav_name : string)
    (wav_duration_ms : Q) (language : string)
    (vc_offset_ratio vc_overlap_ratio : Q) (vc_separator : string) (e : Entry) :
  In e (_extract_vc_pairs phones_tier wav_name wav_duration_ms language
                          vc_offset_ratio vc_overlap_ratio vc_separator) ->
  exists al vs ve ce,
    e = _calculate_vc_params wav_name al vs ve ce wav_duration_ms
                             vc_offset_ratio vc_overlap_ratio.
Proof.
  unfold _extract_vc_pairs. intros He.
  destruct (negb (is_chinese language)); [destruct He|].
  destruct _load_presamp_mapping as [vm cm].
  assert (He' : In e (vc_pairs wav_name wav_duration_ms vc_offset_ratio
                               vc_overlap_ratio vc_separator
                               (vc_syllables phones_tier language))).
  { destruct vm; [destruct He|]. destruct cm; [destruct He|]. exact He. }
  clear He. apply vc_pairs_In in He'.
  destruct He' as [pre [cur [nxt [post [_ I]]]]].
  apply vc_pair_spec in I. destruct I as [c [_ [_ ->]]].
  eexists _, _, _, _. reflexivity.
Qed.

Variable name_lower : string -> string.
Variable basename : string -> string.
Variable path_join : string -> string -> string.
Variable path_exists : string -> bool.
Variable sf_info_duration : string -> option Q.
Variable from_file : string -> option (list NamedTier).

(** The two tests on the name of a tier. *)
Definition named_words (tier : NamedTier) : bool :=
  mem (name_lower (fst tier)) ["words"; "word"].

Definition named_phones (tier : NamedTier) : bool :=
  negb (named_words tier) && mem (name_lower (fst tier)) ["phones"; "phone"].

(** [chosen] is the last tier of the grid that passes the test when there
    is one, the [fallback] when there is none. *)
Definition last_or (test : NamedTier -> bool) (tg : list NamedTier)
    (fallback chosen : option (list Interval)) : Prop :=
  (exists before tier after,
     tg = (before ++ tier :: after)%list /\ test tier = true
     /\ Forall (fun t => test t = false) after /\ chosen = Some (snd tier))
  \/ (Forall (fun t => test t = false) tg /\ chosen = fallback).

Lemma tier_fold_spec (tg : list NamedTier) :
  forall words0 phones0,
    let state := fold_left (tier_step name_lower) tg (words0, phones0) in
    last_or named_words tg words0 (fst state)
    /\ last_or named_phones tg phones0 (snd state).
Proof.
  cbv zeta. induction tg as [|tier tg IH] using rev_ind; intros words0 phones0.
  - cbn. split; right; split; constructor.
  - rewrite fold_left_app. cbn [fold_left].
    destruct (IH words0 phones0) as [W P].
    destruct (fold_left _ tg (words0, phones0)) as [w p]. cbn [fst snd] in W, P.
    assert (Keep : forall test fallback chosen,
              test tier = false -> last_or test tg fallback chosen ->
              last_or test (tg ++ [tier]) fallback chosen).
    { intros test fallback chosen T [[b [t [a [E [Tt [Fa C]]]]]]|[F C]].
      - left. exists b, t, (a ++ [tier])%list. rewrite E, <- app_assoc.
        split; [reflexivity|]. split; [exact Tt|]. split; [|exact C].
        apply Forall_app. split; [exact Fa|]. constructor; [exact T|constructor].
      - right. split; [|exact C].
        apply Forall_app. split; [exact F|]. constructor; [exact T|constructor]. }
    assert (Take : forall test fallback,
              test tier = true ->
              last_or test (tg ++ [tier]) fallback (Some (snd tier))).
    { intros test fallback T. left. exists tg, tier, [].
      split; [reflexivity|]. split; [exact T|]. split; [constructor|reflexivity]. }
    unfold tier_step.
    destruct (mem (name_lower (fst tier)) ["words"; "word"]) eqn:Mw.
    + cbn [fst snd]. split; [apply Take; exact Mw|].
      apply Keep; [|exact P]. unfold named_phones, named_words. rewrite Mw.
      reflexivity.
    + destruct (mem (name_lower (fst tier)) ["phones"; "phone"]) eqn:Mp;
        cbn [fst snd].
      * split; [apply Keep; [exact Mw|exact W]|].
        apply Take. unfold named_phones, named_words. rewrite Mw, Mp. reflexivity.
      * split; [apply Keep; [exact Mw|exact W]|].
        apply Keep; [|exact P]. unfold named_phones, named_words.
        rewrite Mw, Mp. reflexivity.
Qed.

Lemma select_tiers_last_or (tg : list NamedTier) :
  last_or named_words tg (option_map snd (nth_error tg 0))
          (fst (select_tiers name_lower tg))
  /\ last_or named_phones tg (option_map snd (nth_error tg 1))
             (snd (select_tiers name_lower tg)).
Proof.
  unfold select_tiers.
  destruct (tier_fold_spec tg None None) as [W P]. cbv zeta in W, P.
  destruct (fold_left _ tg (None, None)) as [w p]. cbn [fst snd] in W, P |- *.
  assert (Default : forall test k (chosen : option (list Interval)),
            last_or test tg None chosen ->
            last_or test tg (option_map snd (nth_error tg k))
                    (match chosen with
                     | None =>
                         if (S k <=? List.length tg)%nat
                         then option_map snd (nth_error tg k) else None
                     | Some _ => chosen
                     end)).
  { intros test k chosen [[b [t [a [E [Tt [Fa C]]]]]]|[F C]].
    - left. exists b, t, a. rewrite C. auto.
    - right. split; [exact F|]. rewrite C.
      destruct (S k <=? List.length tg)%nat eqn:L; [reflexivity|].
      apply Nat.leb_gt in L.
      assert (N : nth_error tg k = None) by (apply nth_error_None; lia).
      rewrite N. reflexivity. }
  split; [exact (Default named_words 0%nat w W)|exact (Default named_phones 1%nat p P)].
Qed.

(** X28. The words tier of [_parse_textgrids] is the last tier named
    [words] or [word], and the first tier when no tier has such a name; the
    phones tier is the last tier named [phones] or [phone], and the second
    tier when no tier has such a name.  So a grid of one tier is read only
    when that tier is named as a phones tier, and its words tier is then
    that same tier; and the two tiers are the same again when the second
    tier is named as a words tier and no tier as a phones tier. *)
Theorem select_tiers_spec (tg : list NamedTier) :
  last_or named_words tg (option_map snd (nth_error tg 0))
          (fst (select_tiers name_lower tg))
  /\ last_or named_phones tg (option_map snd (nth_error tg 1))
             (snd (select_tiers name_lower tg))
  /\ (forall tier,
        tg = [tier] ->
        select_tiers name_lower tg
        = (Some (snd tier), if named_phones tier then Some (snd tier) else None))
  /\ (forall first second,
        tg = [first; second] ->
        named_words first = false -> named_phones first = false ->
        named_words second = true ->
        select_tiers name_lower tg = (Some (snd second), Some (snd second))).
Proof.
  destruct (select_tiers_last_or tg) as [W P].
  split; [exact W|]. split; [exact P|]. split.
  - intros tier ->. unfold select_tiers, named_phones, named_words.
    cbn [fold_left tier_step List.length nth_error option_map Nat.leb].
    unfold tier_step.
    destruct (mem (name_lower (fst tier)) ["words"; "word"]); [reflexivity|].
    destruct (mem (name_lower (fst tier)) ["phones"; "phone"]); reflexivity.
  - intros first second -> W1 P1 W2.
    unfold named_phones in P1. rewrite W1 in P1. cbn [negb andb] in P1.
    unfold named_words in W1, W2.
    unfold select_tiers. cbn [fold_left]. unfold tier_step.
    rewrite W1, P1, W2. reflexivity.
Qed.

(** What one file adds: entries of its own audio, which is among the
    files; simple units in order when the tiers are. *)
Definition parsed (wav_files : list string) (e : Entry) : Prop :=
  In (wav_name e) wav_files
  /\ is_combined e = false
  /\ (is_vc e = false -> built_in_order e).

Definition audio_of (tg_files : list string) (slices_dir : string)
    (w : string) : Prop :=
  exists tg_path,
    In tg_path tg_files
    /\ w = replace ".TextGrid" "" (basename tg_path) ++ ".wav"
    /\ path_exists (path_join slices_dir w) = true
    /\ sf_info_duration (path_join slices_dir w) <> None.

Lemma select_tiers_member (tg : list NamedTier) :
  (forall t, fst (select_tiers name_lower tg) = Some t -> In t (map snd tg))
  /\ (forall t, snd (select_tiers name_lower tg) = Some t -> In t (map snd tg)).
Proof.
  destruct (select_tiers_last_or tg) as [W P].
  assert (M : forall test k chosen t,
            last_or test tg (option_map snd (nth_error tg k)) chosen ->
            chosen = Some t -> In t (map snd tg)).
  { intros test k chosen t [[b [x [a [E [_ [_ C]]]]]]|[_ C]] S.
    - rewrite C in S. injection S as <-. rewrite E. apply in_map.
      apply in_or_app. right. left. reflexivity.
    - rewrite C in S. destruct (nth_error tg k) as [x|] eqn:N; [|discriminate S].
      injection S as <-. apply in_map. exact (nth_error_In _ _ N). }
  split; intros t S; [exact (M _ _ _ t W S)|exact (M _ _ _ t P S)].
Qed.

Section Ordered.

Variable slices_dir language : string.
Variable use_hiragana : bool.
Variable overlap_ratio : Q.
Variable cvvc_mode : bool.
Variable vc_offset_ratio vc_overlap_ratio : Q.
Variable vc_separator : string.

Hypothesis tiers_ok :
  forall tg_path tg tier,
    from_file tg_path = Some tg -> In tier tg -> tier_in_order (snd tier).
Hypothesis ratio_ok : 0 <= overlap_ratio.

Lemma parse_fold_inv (tg_files : list string) :
  let state :=
    fold_left (parse_step name_lower basename path_join path_exists
                          sf_info_duration from_file slices_dir language
                          use_hiragana overlap_ratio cvvc_mode vc_offset_ratio
                          vc_overlap_ratio vc_separator)
              tg_files ([], []) in
  Forall (parsed (snd state)) (fst state)
  /\ Forall (audio_of tg_files slices_dir) (snd state)
  /\ NoDup (snd state)
  /\ (cvvc_mode = false -> Forall (fun e => is_vc e = false) (fst state)).
Proof.
  cbv zeta. induction tg_files as [|tg_path tg_files IH] using rev_ind.
  - cbn. repeat split; constructor.
  - rewrite fold_left_app. cbn [fold_left].
    destruct IH as [E [A [ND V]]].
    destruct (fold_left _ tg_files ([], [])) as [oto_entries wav_files].
    cbn [fst snd] in E, A, ND, V.
    assert (A' : Forall (audio_of (tg_files ++ [tg_path]) slices_dir) wav_files).
    { eapply Forall_impl; [|exact A]. intros w [p [I R]].
      exists p. split; [apply in_or_app; left; exact I|exact R]. }
    assert (E' : forall more,
              Forall (parsed (if mem more wav_files then wav_files
                              else (wav_files ++ [more])%list)) oto_entries).
    { intros more. eapply Forall_impl; [|exact E]. intros e [I R].
      split; [|exact R].
      destruct (mem more wav_files); [exact I|apply in_or_app; left; exact I]. }
    assert (E0 : Forall (parsed wav_files)
                        oto_entries).
    { eapply Forall_impl; [|exact E]. intros e [I R]. split; [exact I|exact R]. }
    unfold parse_step.
    set (wav := (replace ".TextGrid" "" (basename tg_path) ++ ".wav")%string).
    destruct (path_exists (path_join slices_dir wav)) eqn:Ex; cbn [negb];
      [|repeat split; assumption].
    destruct (sf_info_duration (path_join slices_dir wav)) as [duration|] eqn:Du;
      [|repeat split; assumption].
    cbv zeta.
    set (files := if mem wav wav_files then wav_files
                  else (wav_files ++ [wav])%list).
    assert (Iw : In wav files).
    { unfold files. destruct (mem wav wav_files) eqn:M.
      - apply mem_In. exact M.
      - apply in_or_app. right. left. reflexivity. }
    assert (Af : Forall (audio_of (tg_files ++ [tg_path]) slices_dir) files).
    { unfold files. destruct (mem wav wav_files); [exact A'|].
      apply Forall_app. split; [exact A'|]. constructor; [|constructor].
      exists tg_path. split; [apply in_or_app; right; left; reflexivity|].
      split; [reflexivity|]. split; [exact Ex|]. rewrite Du. discriminate. }
    assert (Nf : NoDup files).
    { unfold files. destruct (mem wav wav_files) eqn:M; [exact ND|].
      apply NoDup_app; [exact ND|constructor; [intros []|constructor]|].
      intros y Hy [<-|[]]. apply mem_In in Hy. congruence. }
    specialize (E' wav). fold files in E'.
    destruct (from_file tg_path) as [tg|] eqn:Ff;
      [|cbn [fst snd]; repeat split; assumption].
    destruct (select_tiers name_lower tg) as [words_tier phones_tier] eqn:Sel.
    destruct phones_tier as [phones_tier|];
      [|cbn [fst snd]; repeat split; assumption].
    assert (Ord : tier_in_order phones_tier).
    { destruct (select_tiers_member tg) as [_ M].
      rewrite Sel in M. specialize (M phones_tier eq_refl).
      apply in_map_iff in M. destruct M as [t [<- It]].
      exact (tiers_ok tg_path tg t Ff It). }
    set (words := match words_tier with Some tier => tier | None => [] end).
    assert (Cv : Forall (parsed files)
                   (_extract_cv_pairs words phones_tier wav (duration * 1000)
                                      language use_hiragana overlap_ratio)).
    { apply Forall_forall. intros e He.
      pose proof (cv_entries_built_in_order words phones_tier wav
                    (duration * 1000) language use_hiragana overlap_ratio
                    Ord ratio_ok) as B.
      rewrite Forall_forall in B. specialize (B e He).
      apply cv_entries_calculated in He.
      destruct He as [al [off [cd [se ->]]]].
      split; [exact Iw|]. split; [reflexivity|]. intros _. exact B. }
    assert (Cv0 : Forall (fun e => is_vc e = false)
                    (_extract_cv_pairs words phones_tier wav (duration * 1000)
                                       language use_hiragana overlap_ratio)).
    { apply Forall_forall. intros e He. apply cv_entries_calculated in He.
      destruct He as [al [off [cd [se ->]]]]. reflexivity. }
    destruct cvvc_mode; cbn [fst snd].
    + split; [|split; [exact Af|split; [exact Nf|discriminate]]].
      apply Forall_app. split; [apply Forall_app; split; assumption|].
      apply Forall_forall. intros e He. apply vc_entries_calculated in He.
      destruct He as [al [vs [ve [ce ->]]]].
      split; [exact Iw|]. split; [reflexivity|]. cbn. discriminate.
    + split; [apply Forall_app; split; assumption|].
      split; [exact Af|]. split; [exact Nf|].
      intros _. apply Forall_app. split; [exact (V eq_refl)|exact Cv0].
Qed.

(** X29. In the result of [_parse_textgrids], every entry belongs to an
    audio file of [wav_files] and is not marked as combined; every file of
    [wav_files] is named after a TextGrid file, exists in the slices
    directory and has a duration that could be read, and is listed once.
    When the tiers of the grids last and follow each other in time and the
    overlap ratio is not negative, every entry that is not a transition
    unit has the three properties of an envelope; without the CVVC mode no
    entry is a transition unit. *)
Theorem parse_textgrids_spec (tg_files : list string) :
  let result :=
    _parse_textgrids name_lower basename path_join path_exists
                     sf_info_duration from_file tg_files slices_dir language
                     use_hiragana overlap_ratio cvvc_mode vc_offset_ratio
                     vc_overlap_ratio vc_separator in
  Forall (fun e => In (wav_name e) (snd result) /\ is_combined e = false
                   /\ (is_vc e = false -> envelope_ok e))
         (fst result)
  /\ Forall (audio_of tg_files slices_dir) (snd result)
  /\ NoDup (snd result)
  /\ (cvvc_mode = false -> Forall (fun e => is_vc e = false) (fst result)).
Proof.
  cbv zeta. unfold _parse_textgrids.
  destruct tg_files as [|p rest] eqn:Eq.
  - cbn. repeat split; constructor.
  - rewrite <- Eq. destruct (parse_fold_inv tg_files) as [E [A [ND V]]].
    split; [|split; [exact A|split; [exact ND|exact V]]].
    eapply Forall_impl; [|exact E]. intros e [I [C B]].
    split; [exact I|]. split; [exact C|].
    intros Vc. apply built_in_order_envelope_ok. exact (B Vc).
Qed.

End Ordered.

End TextGridProperties.

Lemma parse_textgrids_spec_witness :
  let grid : list NamedTier :=
    [("words"%string, [mkInterval (1 # 10) (3 # 10) "ka"]);
     ("phones"%string,
      [mkInterval (1 # 10) (15 # 100) "k"; mkInterval (15 # 100) (3 # 10) "a"])] in
  let basename := fun p : string => p in
  let path_join := fun d n => (d ++ "/" ++ n)%string in
  let path_exists := fun _ : string => true in
  let sf_info_duration := fun _ : string => Some (1 # 2)%Q in
  let result :=
    _parse_textgrids lower basename path_join path_exists sf_info_duration
                     (fun _ => Some grid) ["a.TextGrid"%string] "slices" "zh"
                     false (3 # 10) false (1 # 2) (1 # 2) " " in
  Forall (fun e => In (wav_name e) (snd result) /\ is_combined e = false
                   /\ (is_vc e = false -> envelope_ok e))
         (fst result)
  /\ Forall (audio_of basename path_join path_exists sf_info_duration
                      ["a.TextGrid"%string] "slices")
            (snd result)
  /\ NoDup (snd result)
  /\ (false = false -> Forall (fun e => is_vc e = false) (fst result)).
Proof.
  cbv zeta.
  apply (parse_textgrids_spec lower (fun p : string => p)
           (fun d n => (d ++ "/" ++ n)%string) (fun _ => true)
           (fun _ => Some (1 # 2)%Q)
           (fun _ =>
              Some [("words"%string, [mkInterval (1 # 10) (3 # 10) "ka"]);
                    ("phones"%string,
                     [mkInterval (1 # 10) (15 # 100) "k";
                      mkInterval (15 # 100) (3 # 10) "a"])])
           "slices" "zh" false (3 # 10) false (1 # 2) (1 # 2) " ").
  - intros tg_path tg tier H I. injection H as <-.
    destruct I as [<-|[<-|[]]]; apply (ordered_from_tier_in_order _ 0);
      cbn; repeat split; lra.
  - lra.
Defined.
